(** * Boids flocking kernels (src/kernel.cu): a shallow embedding

    The CUDA source works on [float] (IEEE-754 binary32), [int] and
    [glm::vec3].  Scalars are modelled by the Standard Library's
    executable specification of binary floating point ([SpecFloat]) at
    precision 24 and maximal exponent 128, every operation rounded to
    nearest even on its own (no fused multiply-add); integers by [Z];
    device buffers by lists; and every kernel launch by running the thread
    bodies one after the other in increasing thread index.  Within one
    launch no kernel of the source reads a buffer that the launch writes,
    except a thread its own slot; for the bucket locator on sorted keys
    the tables are shown not to depend on the order of the threads.

    Statements about magnitudes and directions read a finite datum as
    the real number it stands for ([to_R]); the error bounds of the
    rounded operations are proved from [SpecFloat]'s definitions. *)

From Stdlib Require Import ZArith Lia Bool List Permutation Sorted.
From Stdlib Require Import Floats.SpecFloat.
From Stdlib Require Import Rbase Rfunctions R_sqrt Lra.
From stdpp Require Import base list sorting.

Open Scope Z_scope.

(** ** binary32 scalars *)

Module F32.

Definition prec : Z := 24.
Definition emax : Z := 128.

Definition float : Type := spec_float.

Definition add : float -> float -> float := SFadd prec emax.
Definition sub : float -> float -> float := SFsub prec emax.
Definition mul : float -> float -> float := SFmul prec emax.
Definition div : float -> float -> float := SFdiv prec emax.
Definition sqrt : float -> float := SFsqrt prec emax.
Definition ltb : float -> float -> bool := SFltb.
Definition leb : float -> float -> bool := SFleb.
Definition opp : float -> float := SFopp.

(** [a > b] of the source is [b < a]. *)
Definition gtb (a b : float) : bool := ltb b a.

(** Conversion [int -> float] (round to nearest even). *)
Definition of_int (n : Z) : float := binary_normalize prec emax n 0 false.

Definition zero : float := S754_zero false.
Definition one : float := Eval vm_compute in of_int 1.
Definition nan : float := S754_nan.

(** Conversion [float -> int], written [int(x)] in the source: the
    fractional part is dropped.  The C++ conversion is undefined for
    NaN and for values outside the range of [int]; the device
    instruction gives 0 for NaN and saturates, which is what is written
    here. *)
Definition int_min : Z := - 2 ^ 31.
Definition int_max : Z := 2 ^ 31 - 1.

Definition trunc (x : float) : Z :=
  match x with
  | S754_zero _ => 0
  | S754_nan => 0
  | S754_infinity s => if s then int_min else int_max
  | S754_finite s m e =>
      let a := match e with
               | Zneg p => Z.shiftr (Zpos m) (Zpos p)
               | _ => Z.shiftl (Zpos m) e
               end in
      if s then Z.max int_min (- a) else Z.min int_max a
  end.

(** Largest integer below or equal to a finite value (used to state
    properties, the source has no call to [floor]). *)
Definition floor (x : float) : Z :=
  match x with
  | S754_finite s m e =>
      let n := if s then Zneg m else Zpos m in
      match e with
      | Zneg p => n / 2 ^ Zpos p
      | _ => n * 2 ^ e
      end
  | _ => 0
  end.

Definition is_finite (x : float) : bool :=
  match x with
  | S754_zero _ | S754_finite _ _ _ => true
  | _ => false
  end.

Definition is_nan (x : float) : bool :=
  match x with S754_nan => true | _ => false end.

(** A well-formed binary32 datum: mantissa and exponent in canonical
    position. *)
Definition valid (x : float) : bool := valid_binary prec emax x.

(** glm::min and glm::max on scalars. *)
Definition fmin (x y : float) : float := if ltb y x then y else x.
Definition fmax (x y : float) : float := if ltb x y then y else x.
(** glm::clamp(x, lo, hi) = min(max(x, lo), hi). *)
Definition clamp (x lo hi : float) : float := fmin (fmax x lo) hi.

End F32.

Abbreviation float := F32.float.

Declare Scope f32_scope.
Delimit Scope f32_scope with f32.
Infix "+" := F32.add : f32_scope.
Infix "-" := F32.sub : f32_scope.
Infix "*" := F32.mul : f32_scope.
Infix "/" := F32.div : f32_scope.
Infix "<?" := F32.ltb : f32_scope.
Infix ">?" := F32.gtb : f32_scope.

(** ** glm::vec3 *)

Record vec3 : Type := Vec3 { vx : float; vy : float; vz : float }.

Module V3.

Definition splat (a : float) : vec3 := Vec3 a a a.
Definition zero : vec3 := splat F32.zero.

Definition map2 (f : float -> float -> float) (a b : vec3) : vec3 :=
  Vec3 (f (vx a) (vx b)) (f (vy a) (vy b)) (f (vz a) (vz b)).

Definition add : vec3 -> vec3 -> vec3 := map2 F32.add.
Definition sub : vec3 -> vec3 -> vec3 := map2 F32.sub.
Definition mulv : vec3 -> vec3 -> vec3 := map2 F32.mul.

(** vec3 * float and vec3 / float act on each component. *)
Definition scale (a : vec3) (k : float) : vec3 :=
  Vec3 (vx a * k)%f32 (vy a * k)%f32 (vz a * k)%f32.
Definition divs (a : vec3) (k : float) : vec3 :=
  Vec3 (vx a / k)%f32 (vy a / k)%f32 (vz a / k)%f32.

(** glm::dot builds the componentwise product and sums x + y + z. *)
Definition dot (a b : vec3) : float :=
  let t := mulv a b in ((vx t + vy t) + vz t)%f32.

(** glm::length(v) = sqrt(dot(v, v)). *)
Definition length (a : vec3) : float := F32.sqrt (dot a a).

(** glm::distance(p0, p1) = length(p1 - p0). *)
Definition distance (p0 p1 : vec3) : float := length (sub p1 p0).

Definition clamp (a lo hi : vec3) : vec3 :=
  Vec3 (F32.clamp (vx a) (vx lo) (vx hi))
       (F32.clamp (vy a) (vy lo) (vy hi))
       (F32.clamp (vz a) (vz lo) (vz hi)).

Definition is_finite (a : vec3) : bool :=
  F32.is_finite (vx a) && F32.is_finite (vy a) && F32.is_finite (vz a).

End V3.

Declare Scope v3_scope.
Delimit Scope v3_scope with v3.
Infix "+" := V3.add : v3_scope.
Infix "-" := V3.sub : v3_scope.
Infix "*" := V3.scale : v3_scope.
Infix "/" := V3.divs : v3_scope.

(** ** Device buffers and kernel launches *)

(** A read outside a buffer is undefined behaviour in the source; the
    embedding returns a fixed default there, and a write outside is
    dropped.  Statements that depend on such accesses carry in-range
    hypotheses. *)
Definition rd {A : Type} (d : A) (buf : list A) (i : Z) : A :=
  if i <? 0 then d else default d (buf !! Z.to_nat i).

Definition wr {A : Type} (buf : list A) (i : Z) (v : A) : list A :=
  if i <? 0 then buf else <[Z.to_nat i := v]> buf.

Definition rdv : list vec3 -> Z -> vec3 := rd V3.zero.
Definition rdi : list Z -> Z -> Z := rd 0.

(** [for (int i = lo; i < hi; ++i) body]. *)
Definition for_range {S : Type} (lo hi : Z) (body : Z -> S -> S) (s : S) : S :=
  foldl (fun s i => body i s) s (seqZ lo (hi - lo)).

Definition blockSize : Z := 128.

(** [dim3 fullBlocksPerGrid((N + blockSize - 1) / blockSize)].  The sum is
    taken in [Z]: it is the [int] sum of the source as long as
    [N + blockSize] does not exceed the largest [int]. *)
Definition fullBlocksPerGrid (N : Z) : Z := (N + blockSize - 1) ÷ blockSize.

(** [kern<<<blocks, blockSize>>>(...)]: thread index
    [blockIdx.x * blockDim.x + threadIdx.x] ranges over
    [0 .. blocks * blockSize - 1]; [body] is the kernel body of one thread
    acting on the buffers the kernel writes.  A grid of zero blocks, which
    the CUDA runtime rejects, runs no thread here. *)
Definition launch {S : Type} (blocks : Z) (body : Z -> S -> S) (s : S) : S :=
  for_range 0 (blocks * blockSize) body s.

(** ** Configuration *)

Definition rule1Distance : float := Eval vm_compute in F32.of_int 5.
Definition rule2Distance : float := Eval vm_compute in F32.of_int 3.
Definition rule3Distance : float := Eval vm_compute in F32.of_int 5.

Definition rule1Scale : float :=
  Eval vm_compute in F32.div (F32.of_int 1) (F32.of_int 100).
Definition rule2Scale : float :=
  Eval vm_compute in F32.div (F32.of_int 1) (F32.of_int 10).
Definition rule3Scale : float :=
  Eval vm_compute in F32.div (F32.of_int 1) (F32.of_int 10).

Definition maxSpeed : float := F32.one.
Definition scene_scale : float := Eval vm_compute in F32.of_int 100.

Definition oneHalf : float :=
  Eval vm_compute in F32.div (F32.of_int 1) (F32.of_int 2).

(** ** The three flocking rules *)

(** The accumulators that the source keeps in local variables. *)
Record rules : Type := Rules {
  rule1 : vec3;
  rule2 : vec3;
  rule3 : vec3;
  rule1Cnt : float;
  rule3Cnt : float
}.

Definition rules0 : rules := Rules V3.zero V3.zero V3.zero F32.zero F32.zero.

(** Body of the neighbour loop, the same text in the three kernels. *)
Definition visit (myPos nPos nVel : vec3) (a : rules) : rules :=
  let dist := V3.distance nPos myPos in
  let a := if (dist <? rule1Distance)%f32
           then Rules (rule1 a + nPos)%v3 (rule2 a) (rule3 a)
                      (rule1Cnt a + F32.one)%f32 (rule3Cnt a)
           else a in
  let a := if (dist <? rule2Distance)%f32
           then Rules (rule1 a) (rule2 a + (myPos - nPos))%v3 (rule3 a)
                      (rule1Cnt a) (rule3Cnt a)
           else a in
  let a := if (dist <? rule3Distance)%f32
           then Rules (rule1 a) (rule2 a) (rule3 a + nVel)%v3
                      (rule1Cnt a) (rule3Cnt a + F32.one)%f32
           else a in
  a.

(** The statements after the loop:
    [rule1 /= rule1Cnt; rule1 = (rule1 - myPos) * rule1Scale;
     rule2 *= rule2Scale; rule3 = rule3 / rule3Cnt * rule3Scale]. *)
Definition finish1 (myPos : vec3) (a : rules) : vec3 :=
  ((rule1 a / rule1Cnt a - myPos) * rule1Scale)%v3.
Definition finish2 (a : rules) : vec3 := (rule2 a * rule2Scale)%v3.
Definition finish3 (a : rules) : vec3 :=
  (rule3 a / rule3Cnt a * rule3Scale)%v3.

(** The loop of [computeVelocityChange] alone. *)
Definition bruteForceLoop (N iSelf : Z) (pos vel : list vec3) : rules :=
  let myPos := rdv pos iSelf in
  for_range 0 N (fun i a => visit myPos (rdv pos i) (rdv vel i) a) rules0.

Definition computeVelocityChange (N iSelf : Z) (pos vel : list vec3) : vec3 :=
  let myPos := rdv pos iSelf in
  let a := bruteForceLoop N iSelf pos vel in
  (finish1 myPos a + finish2 a + finish3 a)%v3.

(** [speed > maxSpeed ? newVel / speed * maxSpeed : newVel]. *)
Definition clampSpeed (newVel : vec3) : vec3 :=
  let speed := V3.length newVel in
  if (speed >? maxSpeed)%f32 then (newVel / speed * maxSpeed)%v3 else newVel.

Definition kernUpdateVelocityBruteForce_thread
    (N : Z) (pos vel1 : list vec3) (iSelf : Z) (vel2 : list vec3) : list vec3 :=
  if N <=? iSelf then vel2 else
  let newVel := (rdv vel1 iSelf + computeVelocityChange N iSelf pos vel1)%v3 in
  wr vel2 iSelf (clampSpeed newVel).

Definition kernUpdateVelocityBruteForce
    (blocks N : Z) (pos vel1 vel2 : list vec3) : list vec3 :=
  launch blocks (kernUpdateVelocityBruteForce_thread N pos vel1) vel2.

(** ** Position integration *)

(** [c < -scene_scale ? scene_scale : c], then
    [c > scene_scale ? -scene_scale : c]. *)
Definition wrapCoord (c : float) : float :=
  let c := if (c <? F32.opp scene_scale)%f32 then scene_scale else c in
  if (c >? scene_scale)%f32 then F32.opp scene_scale else c.

Definition updatePos (dt : float) (p v : vec3) : vec3 :=
  let thisPos := (p + v * dt)%v3 in
  Vec3 (wrapCoord (vx thisPos)) (wrapCoord (vy thisPos)) (wrapCoord (vz thisPos)).

Definition kernUpdatePos_thread
    (N : Z) (dt : float) (vel : list vec3) (index : Z) (pos : list vec3)
    : list vec3 :=
  if N <=? index then pos else
  wr pos index (updatePos dt (rdv pos index) (rdv vel index)).

Definition kernUpdatePos (blocks N : Z) (dt : float) (pos vel : list vec3)
    : list vec3 :=
  launch blocks (kernUpdatePos_thread N dt vel) pos.

(** ** Uniform grid *)

(** [int] arithmetic: results are reduced to 32 bits, two's complement. *)
Definition wrap32 (z : Z) : Z := (z + 2 ^ 31) mod 2 ^ 32 - 2 ^ 31.
Definition iadd (a b : Z) : Z := wrap32 (a + b).
Definition imul (a b : Z) : Z := wrap32 (a * b).

(** [x + y * gridResolution + z * gridResolution * gridResolution]. *)
Definition gridIndex3Dto1D (x y z gridResolution : Z) : Z :=
  iadd (iadd x (imul y gridResolution))
       (imul (imul z gridResolution) gridResolution).

(** [glm::clamp((p - gridMin) * inverseCellWidth - vec3(0.5f), vec3(0.f),
    vec3(gridResolution))], the expression shared by [kernComputeIndices]
    and both neighbour-search kernels. *)
Definition gridCoord (gridResolution : Z) (gridMin : vec3)
    (inverseCellWidth : float) (p : vec3) : vec3 :=
  V3.clamp ((p - gridMin) * inverseCellWidth - V3.splat oneHalf)%v3
           (V3.splat F32.zero) (V3.splat (F32.of_int gridResolution)).

Definition cellOf (gridResolution : Z) (gridMin : vec3)
    (inverseCellWidth : float) (p : vec3) : Z :=
  let g := gridCoord gridResolution gridMin inverseCellWidth p in
  gridIndex3Dto1D (F32.trunc (vx g)) (F32.trunc (vy g)) (F32.trunc (vz g))
                  gridResolution.

(** The kernel writes [indices] and [gridIndices]. *)
Definition kernComputeIndices_thread
    (N gridResolution : Z) (gridMin : vec3) (inverseCellWidth : float)
    (pos : list vec3) (iSelf : Z) (out : list Z * list Z) : list Z * list Z :=
  if N <=? iSelf then out else
  let '(indices, gridIndices) := out in
  let myPos := rdv pos iSelf in
  (wr indices iSelf iSelf,
   wr gridIndices iSelf (cellOf gridResolution gridMin inverseCellWidth myPos)).

Definition kernComputeIndices
    (blocks N gridResolution : Z) (gridMin : vec3) (inverseCellWidth : float)
    (pos : list vec3) (indices gridIndices : list Z) : list Z * list Z :=
  launch blocks
    (kernComputeIndices_thread N gridResolution gridMin inverseCellWidth pos)
    (indices, gridIndices).

Definition kernResetIntBuffer_thread
    (N value : Z) (index : Z) (intBuffer : list Z) : list Z :=
  if index <? N then wr intBuffer index value else intBuffer.

Definition kernResetIntBuffer (blocks N : Z) (intBuffer : list Z) (value : Z)
    : list Z :=
  launch blocks (kernResetIntBuffer_thread N value) intBuffer.

(** The kernel writes [gridCellStartIndices] and [gridCellEndIndices]. *)
Definition kernIdentifyCellStartEnd_thread
    (N : Z) (particleGridIndices : list Z) (index : Z)
    (out : list Z * list Z) : list Z * list Z :=
  if N <=? index then out else
  let '(gridCellStartIndices, gridCellEndIndices) := out in
  let curGrid := rdi particleGridIndices index in
  let isStart :=
    (index =? 0) || negb (rdi particleGridIndices (index - 1) =? curGrid) in
  let isEnd :=
    (index + 1 =? N) || negb (rdi particleGridIndices (index + 1) =? curGrid) in
  let gridCellStartIndices :=
    if isStart then wr gridCellStartIndices curGrid index
    else gridCellStartIndices in
  let gridCellEndIndices :=
    if isEnd then wr gridCellEndIndices curGrid (index + 1)
    else gridCellEndIndices in
  (gridCellStartIndices, gridCellEndIndices).

Definition kernIdentifyCellStartEnd
    (blocks N : Z) (particleGridIndices : list Z)
    (gridCellStartIndices gridCellEndIndices : list Z) : list Z * list Z :=
  launch blocks (kernIdentifyCellStartEnd_thread N particleGridIndices)
         (gridCellStartIndices, gridCellEndIndices).

(** ** Neighbour search on the grid *)

Definition dx : list Z := [0; 1; 0; 1; 0; 1; 0; 1].
Definition dy : list Z := [0; 0; 1; 1; 0; 0; 1; 1].
Definition dz : list Z := [0; 0; 0; 0; 1; 1; 1; 1].

(** The double loop over the eight cells and over the slots of each cell.
    [slotPos j] and [slotVel j] are what the kernel reads for slot [j]. *)
Definition gridLoop (gridResolution : Z)
    (gridCellStartIndices gridCellEndIndices : list Z)
    (slotPos slotVel : Z -> vec3) (myPos : vec3) (gridX gridY gridZ : Z)
    : rules :=
  for_range 0 8 (fun i a =>
    let nGridX := iadd (rdi dx i) gridX in
    let nGridY := iadd (rdi dy i) gridY in
    let nGridZ := iadd (rdi dz i) gridZ in
    if (gridResolution <=? nGridX) || (gridResolution <=? nGridY)
       || (gridResolution <=? nGridZ)
    then a
    else
      let nGridId := gridIndex3Dto1D nGridX nGridY nGridZ gridResolution in
      let startThreadId := rdi gridCellStartIndices nGridId in
      let endThreadId := rdi gridCellEndIndices nGridId in
      for_range startThreadId endThreadId
        (fun j a => visit myPos (slotPos j) (slotVel j) a) a) rules0.

(** New velocity of the boid at [myPos] with velocity [myVel]:
    [vel1[boidId] + rule1 + rule2 + rule3], then the speed clamp. *)
Definition gridNewVel (gridResolution : Z) (gridMin : vec3)
    (inverseCellWidth : float)
    (gridCellStartIndices gridCellEndIndices : list Z)
    (slotPos slotVel : Z -> vec3) (myPos myVel : vec3) : vec3 :=
  let gridPos := gridCoord gridResolution gridMin inverseCellWidth myPos in
  let gridX := F32.trunc (vx gridPos) in
  let gridY := F32.trunc (vy gridPos) in
  let gridZ := F32.trunc (vz gridPos) in
  let a := gridLoop gridResolution gridCellStartIndices gridCellEndIndices
                    slotPos slotVel myPos gridX gridY gridZ in
  clampSpeed (myVel + finish1 myPos a + finish2 a + finish3 a)%v3.

Definition kernUpdateVelNeighborSearchScattered_thread
    (N gridResolution : Z) (gridMin : vec3) (inverseCellWidth cellWidth : float)
    (gridCellStartIndices gridCellEndIndices particleArrayIndices : list Z)
    (pos vel1 : list vec3) (iSelf : Z) (vel2 : list vec3) : list vec3 :=
  if N <=? iSelf then vel2 else
  let boidId := rdi particleArrayIndices iSelf in
  wr vel2 boidId
     (gridNewVel gridResolution gridMin inverseCellWidth
        gridCellStartIndices gridCellEndIndices
        (fun j => rdv pos (rdi particleArrayIndices j))
        (fun j => rdv vel1 (rdi particleArrayIndices j))
        (rdv pos boidId) (rdv vel1 boidId)).

Definition kernUpdateVelNeighborSearchScattered
    (blocks N gridResolution : Z) (gridMin : vec3)
    (inverseCellWidth cellWidth : float)
    (gridCellStartIndices gridCellEndIndices particleArrayIndices : list Z)
    (pos vel1 vel2 : list vec3) : list vec3 :=
  launch blocks
    (kernUpdateVelNeighborSearchScattered_thread N gridResolution gridMin
       inverseCellWidth cellWidth gridCellStartIndices gridCellEndIndices
       particleArrayIndices pos vel1) vel2.

Definition kernUpdateVelNeighborSearchCoherent_thread
    (N gridResolution : Z) (gridMin : vec3) (inverseCellWidth cellWidth : float)
    (gridCellStartIndices gridCellEndIndices : list Z)
    (pos vel1 : list vec3) (boidId : Z) (vel2 : list vec3) : list vec3 :=
  if N <=? boidId then vel2 else
  wr vel2 boidId
     (gridNewVel gridResolution gridMin inverseCellWidth
        gridCellStartIndices gridCellEndIndices
        (fun j => rdv pos j) (fun j => rdv vel1 j)
        (rdv pos boidId) (rdv vel1 boidId)).

Definition kernUpdateVelNeighborSearchCoherent
    (blocks N gridResolution : Z) (gridMin : vec3)
    (inverseCellWidth cellWidth : float)
    (gridCellStartIndices gridCellEndIndices : list Z)
    (pos vel1 vel2 : list vec3) : list vec3 :=
  launch blocks
    (kernUpdateVelNeighborSearchCoherent_thread N gridResolution gridMin
       inverseCellWidth cellWidth gridCellStartIndices gridCellEndIndices
       pos vel1) vel2.

(** The kernel's parameters are named [(pos, vel2, pos2, vel1)]: it reads
    the first two and writes the last two. *)
Definition kernRearrangeArray_thread
    (N : Z) (particleArrayIndices : list Z) (pos vel2 : list vec3)
    (iSelf : Z) (out : list vec3 * list vec3) : list vec3 * list vec3 :=
  if N <=? iSelf then out else
  let '(pos2, vel1) := out in
  let destId := rdi particleArrayIndices iSelf in
  (wr pos2 iSelf (rdv pos destId), wr vel1 iSelf (rdv vel2 destId)).

Definition kernRearrangeArray
    (blocks N : Z) (particleArrayIndices : list Z)
    (pos vel2 pos2 vel1 : list vec3) : list vec3 * list vec3 :=
  launch blocks (kernRearrangeArray_thread N particleArrayIndices pos vel2)
         (pos2, vel1).

(** ** Sorting by cell id *)

(** [thrust::sort_by_key] belongs to the Thrust library, not to this
    repository.  It is modelled by an insertion sort of the (key, value)
    pairs on the key that keeps elements with equal keys in their order,
    applied to the first [n] entries of both buffers. *)
Fixpoint insert_by_key (k v : Z) (l : list (Z * Z)) : list (Z * Z) :=
  match l with
  | [] => [(k, v)]
  | (k', v') :: l' =>
      if k <=? k' then (k, v) :: l else (k', v') :: insert_by_key k v l'
  end.

Definition sort_pairs (l : list (Z * Z)) : list (Z * Z) :=
  foldr (fun kv acc => insert_by_key kv.1 kv.2 acc) [] l.

Definition sort_by_key (n : Z) (keys vals : list Z) : list Z * list Z :=
  let m := Z.to_nat n in
  let ps := sort_pairs (zip (take m keys) (take m vals)) in
  (ps.*1 ++ drop m keys, ps.*2 ++ drop m vals).

(** ** Kernel state and the simulation steps *)

(** The file-scope variables of the source. *)
Record state : Type := State {
  numObjects : Z;
  dev_pos : list vec3;
  dev_pos2 : list vec3;
  dev_vel1 : list vec3;
  dev_vel2 : list vec3;
  dev_particleArrayIndices : list Z;
  dev_particleGridIndices : list Z;
  dev_gridCellStartIndices : list Z;
  dev_gridCellEndIndices : list Z;
  gridCellCount : Z;
  gridSideCount : Z;
  gridCellWidth : float;
  gridInverseCellWidth : float;
  gridMinimum : vec3
}.

(** Grid parameters as [Boids::initSimulation] computes them. *)
Definition init_gridCellWidth : float :=
  (F32.of_int 2 *
   F32.fmax (F32.fmax rule1Distance rule2Distance) rule3Distance)%f32.
Definition init_halfSideCount : Z :=
  iadd (F32.trunc (scene_scale / init_gridCellWidth)%f32) 1.
Definition init_gridSideCount : Z := imul 2 init_halfSideCount.
Definition init_gridCellCount : Z :=
  imul (imul init_gridSideCount init_gridSideCount) init_gridSideCount.
Definition init_gridInverseCellWidth : float :=
  (F32.one / init_gridCellWidth)%f32.
Definition init_halfGridWidth : float :=
  (init_gridCellWidth * F32.of_int init_halfSideCount)%f32.
Definition init_gridMinimum : vec3 :=
  V3.splat (F32.zero - init_halfGridWidth)%f32.

(** [Boids::initSimulation(N)], called once: [gridMinimum] starts at zero
    at file scope and the call subtracts [halfGridWidth] from it.
    [cudaMalloc] does not initialise memory and the positions are drawn
    at random, so the contents of the buffers are arguments. *)
Definition initSimulation (N : Z) (pos pos2 vel1 vel2 : list vec3)
    (arrayIndices gridIndices cellStart cellEnd : list Z) : state :=
  State N pos pos2 vel1 vel2 arrayIndices gridIndices cellStart cellEnd
        init_gridCellCount init_gridSideCount init_gridCellWidth
        init_gridInverseCellWidth init_gridMinimum.

Definition stepSimulationNaive (dt : float) (st : state) : state :=
  let blocks := fullBlocksPerGrid (numObjects st) in
  let vel2 := kernUpdateVelocityBruteForce blocks (numObjects st)
                (dev_pos st) (dev_vel1 st) (dev_vel2 st) in
  let pos := kernUpdatePos blocks (numObjects st) dt (dev_pos st) vel2 in
  (* std::swap(dev_vel1, dev_vel2) *)
  State (numObjects st) pos (dev_pos2 st) vel2 (dev_vel1 st)
        (dev_particleArrayIndices st) (dev_particleGridIndices st)
        (dev_gridCellStartIndices st) (dev_gridCellEndIndices st)
        (gridCellCount st) (gridSideCount st) (gridCellWidth st)
        (gridInverseCellWidth st) (gridMinimum st).

Definition stepSimulationScatteredGrid (dt : float) (st : state) : state :=
  let blocks := fullBlocksPerGrid (numObjects st) in
  let N := numObjects st in
  let gridResolution := gridSideCount st in
  let gridMin := gridMinimum st in
  let inverseCellWidth := gridInverseCellWidth st in
  let cellWidth := gridCellWidth st in
  let '(indices, gridIndices) :=
    kernComputeIndices blocks N gridResolution gridMin inverseCellWidth
      (dev_pos st) (dev_particleArrayIndices st) (dev_particleGridIndices st) in
  let '(gridIndices, indices) := sort_by_key N gridIndices indices in
  let '(cellStart, cellEnd) :=
    kernIdentifyCellStartEnd blocks N gridIndices
      (dev_gridCellStartIndices st) (dev_gridCellEndIndices st) in
  let vel2 :=
    kernUpdateVelNeighborSearchScattered blocks N gridResolution gridMin
      inverseCellWidth cellWidth cellStart cellEnd indices
      (dev_pos st) (dev_vel1 st) (dev_vel2 st) in
  let pos := kernUpdatePos blocks N dt (dev_pos st) vel2 in
  (* std::swap(dev_vel1, dev_vel2) *)
  State N pos (dev_pos2 st) vel2 (dev_vel1 st)
        indices gridIndices cellStart cellEnd
        (gridCellCount st) (gridSideCount st) (gridCellWidth st)
        (gridInverseCellWidth st) (gridMinimum st).

Definition stepSimulationCoherentGrid (dt : float) (st : state) : state :=
  let blocks := fullBlocksPerGrid (numObjects st) in
  let N := numObjects st in
  let gridResolution := gridSideCount st in
  let gridMin := gridMinimum st in
  let inverseCellWidth := gridInverseCellWidth st in
  let cellWidth := gridCellWidth st in
  let '(indices, gridIndices) :=
    kernComputeIndices blocks N gridResolution gridMin inverseCellWidth
      (dev_pos st) (dev_particleArrayIndices st) (dev_particleGridIndices st) in
  let '(gridIndices, indices) := sort_by_key N gridIndices indices in
  let '(cellStart, cellEnd) :=
    kernIdentifyCellStartEnd blocks N gridIndices
      (dev_gridCellStartIndices st) (dev_gridCellEndIndices st) in
  (* kernRearrangeArray(N, particleArrayIndices, pos, vel1, pos2, vel2) *)
  let '(pos2, vel2) :=
    kernRearrangeArray blocks N indices (dev_pos st) (dev_vel1 st)
      (dev_pos2 st) (dev_vel2 st) in
  (* kernUpdateVelNeighborSearchCoherent(..., pos2, vel2, vel1) *)
  let vel1 :=
    kernUpdateVelNeighborSearchCoherent blocks N gridResolution gridMin
      inverseCellWidth cellWidth cellStart cellEnd pos2 vel2 (dev_vel1 st) in
  let pos2 := kernUpdatePos blocks N dt pos2 vel1 in
  (* std::swap(dev_pos2, dev_pos) *)
  State N pos2 (dev_pos st) vel1 vel2
        indices gridIndices cellStart cellEnd
        (gridCellCount st) (gridSideCount st) (gridCellWidth st)
        (gridInverseCellWidth st) (gridMinimum st).

Inductive SIMULATION_TYPE : Type := NAIVE | SCATTERED | COHERENT.

Definition stepSimulation (dt : float) (type : SIMULATION_TYPE) (st : state)
    : state :=
  match type with
  | NAIVE => stepSimulationNaive dt st
  | SCATTERED => stepSimulationScatteredGrid dt st
  | COHERENT => stepSimulationCoherentGrid dt st
  end.

(** ** Initial positions *)

(** [unsigned int] arithmetic: sums and left shifts are reduced modulo
    2^32; a right shift is logical. *)
Definition wrapU32 (z : Z) : Z := z mod 2 ^ 32.
Definition uadd (a b : Z) : Z := wrapU32 (a + b).
Definition ushl (a n : Z) : Z := wrapU32 (Z.shiftl a n).
Definition ushr (a n : Z) : Z := Z.shiftr a n.

Definition hash (a : Z) : Z :=
  let a := uadd (uadd a 0x7ed55d16) (ushl a 12) in
  let a := Z.lxor (Z.lxor a 0xc761c23c) (ushr a 19) in
  let a := uadd (uadd a 0x165667b1) (ushl a 5) in
  let a := Z.lxor (uadd a 0xd3a2646c) (ushl a 9) in
  let a := uadd (uadd a 0xfd7046c5) (ushl a 3) in
  let a := Z.lxor (Z.lxor a 0xb55a4f09) (ushr a 16) in
  a.

(** The seed of [generateRandomVec3]: [hash((int)(index * time))], the
    product taken in [float] and the [int] converted to [unsigned int].
    The random engine seeded with it is not modelled. *)
Definition generateRandomVec3_seed (time : float) (index : Z) : Z :=
  hash (wrapU32 (F32.trunc (F32.of_int index * time)%f32)).

(** [kernGenerateRandomPosArray] has [int time] and passes it to the
    [float time] of [generateRandomVec3]. *)
Definition kernGenerateRandomPosArray_seed (time index : Z) : Z :=
  generateRandomVec3_seed (F32.of_int time) index.

(** ** Copying to the vertex buffers *)

Definition rdf : list float -> Z -> float := rd F32.zero.

(** 0.3f *)
Definition threeTenths : float :=
  Eval vm_compute in F32.div (F32.of_int 3) (F32.of_int 10).

Definition kernCopyPositionsToVBO_thread
    (N : Z) (pos : list vec3) (s_scale : float) (index : Z) (vbo : list float)
    : list float :=
  let c_scale := (F32.opp F32.one / s_scale)%f32 in
  if index <? N then
    let vbo := wr vbo (iadd (imul 4 index) 0) (vx (rdv pos index) * c_scale)%f32 in
    let vbo := wr vbo (iadd (imul 4 index) 1) (vy (rdv pos index) * c_scale)%f32 in
    let vbo := wr vbo (iadd (imul 4 index) 2) (vz (rdv pos index) * c_scale)%f32 in
    wr vbo (iadd (imul 4 index) 3) F32.one
  else vbo.

Definition kernCopyPositionsToVBO
    (blocks N : Z) (pos : list vec3) (vbo : list float) (s_scale : float)
    : list float :=
  launch blocks (kernCopyPositionsToVBO_thread N pos s_scale) vbo.

Definition kernCopyVelocitiesToVBO_thread
    (N : Z) (vel : list vec3) (s_scale : float) (index : Z) (vbo : list float)
    : list float :=
  if index <? N then
    let vbo := wr vbo (iadd (imul 4 index) 0) (vx (rdv vel index) + threeTenths)%f32 in
    let vbo := wr vbo (iadd (imul 4 index) 1) (vy (rdv vel index) + threeTenths)%f32 in
    let vbo := wr vbo (iadd (imul 4 index) 2) (vz (rdv vel index) + threeTenths)%f32 in
    wr vbo (iadd (imul 4 index) 3) F32.one
  else vbo.

Definition kernCopyVelocitiesToVBO
    (blocks N : Z) (vel : list vec3) (vbo : list float) (s_scale : float)
    : list float :=
  launch blocks (kernCopyVelocitiesToVBO_thread N vel s_scale) vbo.

(** [Boids::copyBoidsToVBO]: the two vertex buffers after the copy. *)
Definition copyBoidsToVBO (st : state)
    (vbodptr_positions vbodptr_velocities : list float)
    : list float * list float :=
  let blocks := fullBlocksPerGrid (numObjects st) in
  (kernCopyPositionsToVBO blocks (numObjects st) (dev_pos st)
     vbodptr_positions scene_scale,
   kernCopyVelocitiesToVBO blocks (numObjects st) (dev_vel1 st)
     vbodptr_velocities scene_scale).

(** ** The frame counter *)

(** [float frameCnt = 0.f] at file scope, and [++frameCnt] at the end of
    [Boids::stepSimulation]: the counter after [n] steps. *)
Definition frameCnt_step (frameCnt : float) : float := (frameCnt + F32.one)%f32.
Definition frameCnt_after (n : nat) : float := Nat.iter n frameCnt_step F32.zero.

(** ** Candidate neighbours *)

(** The neighbour loops of the three kernels run [visit] over a sequence
    of (position, velocity) pairs. *)
Definition accumulate (myPos : vec3) (cands : list (vec3 * vec3)) (a : rules)
    : rules :=
  foldl (fun a c => visit myPos c.1 c.2 a) a cands.

(** Candidates of [computeVelocityChange]: boids [0 .. N - 1] in order. *)
Definition bruteForceCandidates (N : Z) (pos vel : list vec3)
    : list (vec3 * vec3) :=
  (fun i => (rdv pos i, rdv vel i)) <$> seqZ 0 N.

(** Candidates of the grid kernels: for each of the eight cells that is
    not skipped, the slots of its bucket. *)
Definition gridCandidates (gridResolution : Z)
    (gridCellStartIndices gridCellEndIndices : list Z)
    (slotPos slotVel : Z -> vec3) (gridX gridY gridZ : Z)
    : list (vec3 * vec3) :=
  mjoin ((fun i =>
    let nGridX := iadd (rdi dx i) gridX in
    let nGridY := iadd (rdi dy i) gridY in
    let nGridZ := iadd (rdi dz i) gridZ in
    if (gridResolution <=? nGridX) || (gridResolution <=? nGridY)
       || (gridResolution <=? nGridZ)
    then []
    else
      let nGridId := gridIndex3Dto1D nGridX nGridY nGridZ gridResolution in
      let startThreadId := rdi gridCellStartIndices nGridId in
      let endThreadId := rdi gridCellEndIndices nGridId in
      (fun j => (slotPos j, slotVel j))
        <$> seqZ startThreadId (endThreadId - startThreadId)) <$> seqZ 0 8).

(** Number of candidates closer than [r] to [myPos]. *)
Definition within (r : float) (myPos : vec3) (cands : list (vec3 * vec3)) : Z :=
  Z.of_nat (length (filter (fun c => (V3.distance c.1 myPos <? r)%f32 = true) cands)).

(** ** Definitions used in the statements and proofs *)

(** The threads of a launch run in an order that the device chooses.
    [run_threads order body] runs them in the given order; [launch] is the
    increasing order. *)
Definition run_threads {S : Type} (order : list Z) (body : Z -> S -> S) (s : S)
    : S :=
  foldl (fun s i => body i s) s order.

(** A launch whose thread [i] writes [val i] at index [k i] when [g i]. *)
Definition scatter {A : Type} (g : Z -> bool) (k : Z -> Z) (val : Z -> A)
    (n : Z) (t : list A) : list A :=
  for_range 0 n (fun i t => if g i then wr t (k i) (val i) else t) t.

Definition isStart (keys : list Z) (i : Z) : bool :=
  (i =? 0) || negb (rdi keys (i - 1) =? rdi keys i).
Definition isEnd (N : Z) (keys : list Z) (i : Z) : bool :=
  (i + 1 =? N) || negb (rdi keys (i + 1) =? rdi keys i).

(** New velocity that thread [s] of the scattered kernel computes. *)
Definition scatteredVel gridResolution gridMin inverseCellWidth
    cellStart cellEnd idx pos vel1 (s : Z) : vec3 :=
  gridNewVel gridResolution gridMin inverseCellWidth cellStart cellEnd
    (fun j => rdv pos (rdi idx j)) (fun j => rdv vel1 (rdi idx j))
    (rdv pos (rdi idx s)) (rdv vel1 (rdi idx s)).

(** The scaled mantissa [m * 2 ^ (e + 149)]: an integer that orders the
    non-negative binary32 values ([-149] is the least exponent). *)
Definition scaled (x : F32.float) : Z :=
  match x with
  | S754_finite _ m e => Zpos m * 2 ^ (e + 149)
  | _ => 0
  end.

(** The binary32 datum of an integer of at most 24 bits: the mantissa is
    shifted left to 24 bits. *)
Definition norm24 (p : positive) : F32.float :=
  let d := Zpos (digits2_pos p) in
  S754_finite false (Pos.shiftl p (Z.to_N (24 - d))) (d - 24).

Definition cap24 (k : Z) : Z := Z.min k (2 ^ 24).

(** Sign bit of a datum, none for NaN. *)
Definition sign_of (x : float) : option bool :=
  match x with
  | S754_zero s | S754_infinity s | S754_finite s _ _ => Some s
  | S754_nan => None
  end.

Definition signs (a : vec3) : option bool * option bool * option bool :=
  (sign_of (vx a), sign_of (vy a), sign_of (vz a)).

(** ** The statements of the specification *)

(** What the code does with a zero count: rule 1 and rule 3 divide by
    their counts without a guard, so a zero count gives NaN. *)
Definition unguarded (myPos : vec3) (a : rules) : Prop :=
  (rule1Cnt a = F32.zero -> finish1 myPos a = V3.splat F32.nan) /\
  (rule3Cnt a = F32.zero -> finish3 a = V3.splat F32.nan).

Definition clampZ (x lo hi : Z) : Z := Z.min (Z.max x lo) hi.

(** Per axis, [clamp(floor((pos - gridMin) * invCellWidth - 0.5), 0,
    gridSideCount)], in the words of the specification; the arithmetic
    inside [floor] is the binary32 arithmetic of the code. *)
Definition cellCoord_spec (gridSideCount : Z) (gridMin invCellWidth p : float)
    : Z :=
  clampZ (F32.floor ((p - gridMin) * invCellWidth - oneHalf)%f32) 0 gridSideCount.

(** [cellId = x + y*side + z*side^2]. *)
Definition cellId_spec (side : Z) (gridMin : vec3) (invCellWidth : float)
    (p : vec3) : Z :=
  let x := cellCoord_spec side (vx gridMin) invCellWidth (vx p) in
  let y := cellCoord_spec side (vy gridMin) invCellWidth (vy p) in
  let z := cellCoord_spec side (vz gridMin) invCellWidth (vz p) in
  x + y * side + z * side ^ 2.

(** The grid coordinates of a position before the clamp. *)
Definition shiftedCoord (gridMin : vec3) (invCellWidth : float) (p : vec3)
    : vec3 :=
  ((p - gridMin) * invCellWidth - V3.splat oneHalf)%v3.

(** Every per-boid buffer has [numObjects] entries, as allocated by
    [Boids::initSimulation]. *)
Definition buffers_sized (st : state) : Prop :=
  Z.of_nat (length (dev_pos st)) = numObjects st /\
  Z.of_nat (length (dev_pos2 st)) = numObjects st /\
  Z.of_nat (length (dev_vel1 st)) = numObjects st /\
  Z.of_nat (length (dev_vel2 st)) = numObjects st /\
  Z.of_nat (length (dev_particleArrayIndices st)) = numObjects st /\
  Z.of_nat (length (dev_particleGridIndices st)) = numObjects st.

(** Every entry of a bucket table is a slot bound, so that the slot loop
    of the neighbour search stays inside the buffers. *)
Definition table_in_slots (N : Z) (t : list Z) : Prop :=
  Forall (fun v => 0 <= v <= N) t.

(** Three boids in the grid of [Boids::initSimulation]; two of them share
    a cell. *)
Definition demo_pos : list vec3 :=
  [Vec3 (F32.of_int 42) (F32.of_int (-7)) (F32.of_int 3);
   Vec3 (F32.of_int (-31)) (F32.of_int 12) (F32.of_int 0);
   Vec3 (F32.of_int 43) (F32.of_int (-6)) (F32.of_int 4)].
Definition demo_vel : list vec3 :=
  [Vec3 F32.one F32.zero F32.zero;
   Vec3 F32.zero oneHalf F32.zero;
   Vec3 F32.zero F32.zero (F32.opp oneHalf)].
Definition demo_state : state :=
  initSimulation 3 demo_pos (replicate 3 V3.zero) demo_vel (replicate 3 V3.zero)
    (replicate 3 0) (replicate 3 0)
    (replicate (Z.to_nat init_gridCellCount) 0)
    (replicate (Z.to_nat init_gridCellCount) 0).

(** Two boids at rest, 2 apart on the x axis: A at x = -3.5 and B at
    x = -5.5, in the state that [Boids::initSimulation] sets up, with
    every bucket empty (start = end = 0). *)
Definition pair_pos : list vec3 :=
  [Vec3 (F32.of_int (-7) / F32.of_int 2)%f32 F32.zero F32.zero;
   Vec3 (F32.of_int (-11) / F32.of_int 2)%f32 F32.zero F32.zero].

Definition pair_state : state :=
  initSimulation 2 pair_pos (replicate 2 V3.zero) (replicate 2 V3.zero)
    (replicate 2 V3.zero) (replicate 2 0) (replicate 2 0)
    (replicate (Z.to_nat init_gridCellCount) 0)
    (replicate (Z.to_nat init_gridCellCount) 0).

(** 1e-4 *)
Definition tolerance : float :=
  Eval vm_compute in (F32.of_int 1 / F32.of_int 10000)%f32.

(** One boid moving in +x, in the state of [Boids::initSimulation] with
    empty buckets. *)
Definition mover_state : state :=
  initSimulation 1
    [Vec3 (F32.of_int (-52) / F32.of_int 10)%f32 F32.zero F32.zero]
    [V3.zero] [Vec3 F32.one F32.zero F32.zero] [V3.zero] [0] [0]
    (replicate (Z.to_nat init_gridCellCount) 0)
    (replicate (Z.to_nat init_gridCellCount) 0).

(** ** Scene, well-formed data and NaN *)

(** A 32-bit unsigned value. *)
Definition is_u32 (a : Z) : Prop := 0 <= a < 2 ^ 32.

(** The signed scaled value of a finite datum. *)
Definition sval (x : float) : Z :=
  match x with
  | S754_finite true _ _ => - scaled x
  | _ => scaled x
  end.

(** A coordinate inside the scene: a binary32 datum in
    [-scene_scale, scene_scale]. *)
Definition in_scene (c : float) : bool :=
  F32.valid c && F32.leb (F32.opp scene_scale) c && F32.leb c scene_scale.

Definition in_scene3 (p : vec3) : bool :=
  in_scene (vx p) && in_scene (vy p) && in_scene (vz p).

(** A coordinate of the unit cube: a binary32 datum in [-1, 1]. *)
Definition in_unit (c : float) : bool :=
  F32.valid c && F32.leb (F32.opp F32.one) c && F32.leb c F32.one.

Definition valid3 (p : vec3) : bool :=
  F32.valid (vx p) && F32.valid (vy p) && F32.valid (vz p).

(** A finite binary32 datum. *)
Definition wf (x : float) : bool := F32.valid x && F32.is_finite x.
Definition wf3 (p : vec3) : bool := wf (vx p) && wf (vy p) && wf (vz p).

Definition in_scene_or_nan (c : float) : bool := F32.is_nan c || in_scene c.
Definition in_scene_or_nan3 (p : vec3) : bool :=
  in_scene_or_nan (vx p) && in_scene_or_nan (vy p) && in_scene_or_nan (vz p).

(** The grid parameters and table sizes that [Boids::initSimulation] sets. *)
Definition grid_initialised (st : state) : Prop :=
  gridCellCount st = init_gridCellCount /\
  gridSideCount st = init_gridSideCount /\
  gridInverseCellWidth st = init_gridInverseCellWidth /\
  gridMinimum st = init_gridMinimum /\
  Z.of_nat (length (dev_gridCellStartIndices st)) = init_gridCellCount /\
  Z.of_nat (length (dev_gridCellEndIndices st)) = init_gridCellCount.

(** [+infinity] or NaN: what a distance is when a coordinate is not finite. *)
Definition inf_or_nan (x : float) : bool :=
  match x with
  | S754_infinity false | S754_nan => true
  | _ => false
  end.

Definition has_nan (v : vec3) : bool :=
  F32.is_nan (vx v) || F32.is_nan (vy v) || F32.is_nan (vz v).

(** Every NaN component of [u] is a NaN component of [v]. *)
Definition nan_le (u v : vec3) : Prop :=
  (F32.is_nan (vx u) = true -> F32.is_nan (vx v) = true) /\
  (F32.is_nan (vy u) = true -> F32.is_nan (vy v) = true) /\
  (F32.is_nan (vz u) = true -> F32.is_nan (vz v) = true).

(** The boid at [myPos] takes the boid at [nPos] into one of its rules. *)
Definition sees (myPos nPos : vec3) : bool :=
  let dist := V3.distance nPos myPos in
  (dist <? rule1Distance)%f32 || (dist <? rule2Distance)%f32
  || (dist <? rule3Distance)%f32.

(** Two states that agree on what a step reads: the boids, the bucket
    tables and the grid parameters.  The other buffers may differ. *)
Definition same_inputs (st st' : state) : Prop :=
  numObjects st = numObjects st' /\
  dev_pos st = dev_pos st' /\
  dev_vel1 st = dev_vel1 st' /\
  dev_gridCellStartIndices st = dev_gridCellStartIndices st' /\
  dev_gridCellEndIndices st = dev_gridCellEndIndices st' /\
  gridCellCount st = gridCellCount st' /\
  gridSideCount st = gridSideCount st' /\
  gridCellWidth st = gridCellWidth st' /\
  gridInverseCellWidth st = gridInverseCellWidth st' /\
  gridMinimum st = gridMinimum st'.

(** The last step of rounding: what [binary_round_aux] returns once the
    mantissa [m2] at exponent [f] is rounded. *)
Definition finish_round (s : bool) (m2 f : Z) : float :=
  let '(mrs'', e'') := shr_fexp F32.prec F32.emax m2 f loc_Exact in
  match shr_m mrs'' with
  | Z0 => S754_zero s
  | Zpos m => if e'' <=? F32.emax - F32.prec
              then S754_finite s m e'' else S754_infinity s
  | Zneg _ => S754_nan
  end.

(** The real number a finite binary32 datum stands for (0 for the
    infinities and NaN). *)
Definition to_R (x : float) : R :=
  match x with
  | S754_finite s m e => (IZR (if s then Zneg m else Zpos m) * powerRZ 2 e)%R
  | _ => 0%R
  end.

(** The Euclidean length of a vector of finite data, as a real number. *)
Definition norm_R (v : vec3) : R :=
  sqrt (to_R (vx v) * to_R (vx v) + to_R (vy v) * to_R (vy v)
        + to_R (vz v) * to_R (vz v))%R.

(** * Loops and buffers *)

Section Loops.
Context {S : Type}.
Implicit Types (body : Z -> S -> S) (s : S).

Lemma for_range_nil lo hi body s : hi <= lo -> for_range lo hi body s = s.
Proof. intros H. unfold for_range. rewrite seqZ_nil by lia. reflexivity. Qed.

Lemma for_range_snoc lo hi body s :
  lo <= hi -> for_range lo (hi + 1) body s = body hi (for_range lo hi body s).
Proof.
  intros H. unfold for_range.
  replace (hi + 1 - lo) with ((hi - lo) + 1) by lia.
  rewrite seqZ_app by lia. rewrite foldl_app.
  rewrite (seqZ_cons _ 1) by lia. rewrite (seqZ_nil _ (Z.pred 1)) by lia. simpl.
  f_equal. lia.
Qed.

(** Invariant rule for a counted loop. *)
Lemma for_range_ind (P : Z -> S -> Prop) lo hi body s :
  lo <= hi ->
  P lo s ->
  (forall i t, lo <= i < hi -> P i t -> P (i + 1) (body i t)) ->
  P hi (for_range lo hi body s).
Proof.
  intros Hle H0 Hstep.
  assert (Hn : forall n : nat, lo + Z.of_nat n <= hi ->
             P (lo + Z.of_nat n) (for_range lo (lo + Z.of_nat n) body s)).
  { induction n as [|n IH]; intros Hb.
    - rewrite Z.add_0_r, for_range_nil by lia. exact H0.
    - replace (lo + Z.of_nat (Datatypes.S n)) with (lo + Z.of_nat n + 1) by lia.
      rewrite for_range_snoc by lia. apply Hstep; [lia|]. apply IH. lia. }
  specialize (Hn (Z.to_nat (hi - lo))).
  replace (lo + Z.of_nat (Z.to_nat (hi - lo))) with hi in Hn by lia.
  apply Hn. lia.
Qed.

Lemma for_range_ext lo hi body body' s :
  (forall i t, lo <= i < hi -> body i t = body' i t) ->
  for_range lo hi body s = for_range lo hi body' s.
Proof.
  intros Hext. destruct (Z_le_gt_dec lo hi) as [Hle|Hgt].
  - apply (for_range_ind
             (fun i t => t = for_range lo i body' s) lo hi body s Hle).
    + rewrite for_range_nil by lia. reflexivity.
    + intros i t Hi ->. rewrite for_range_snoc by lia. apply Hext. exact Hi.
  - rewrite !for_range_nil by lia. reflexivity.
Qed.

Lemma for_range_split lo mid hi body s :
  lo <= mid <= hi ->
  for_range lo hi body s = for_range mid hi body (for_range lo mid body s).
Proof.
  intros [H1 H2]. unfold for_range.
  replace (hi - lo) with ((mid - lo) + (hi - mid)) by lia.
  rewrite seqZ_app by lia. rewrite foldl_app.
  replace (lo + (mid - lo)) with mid by lia. reflexivity.
Qed.

Lemma for_range_skip lo hi body s :
  (forall i t, lo <= i < hi -> body i t = t) -> for_range lo hi body s = s.
Proof.
  intros Hid. destruct (Z_le_gt_dec lo hi) as [Hle|Hgt].
  - apply (for_range_ind (fun _ t => t = s) lo hi body s Hle); [reflexivity|].
    intros i t Hi ->. apply Hid. exact Hi.
  - apply for_range_nil. lia.
Qed.

(** Threads whose index is not below [N] leave every buffer alone, so
    a launch amounts to the loop over [0 .. N - 1]. *)
Lemma launch_guard blocks N body s :
  0 <= N <= blocks * blockSize ->
  (forall i t, N <= i -> body i t = t) ->
  launch blocks body s = for_range 0 N body s.
Proof.
  intros HN Hid. unfold launch.
  rewrite (for_range_split 0 N) by lia.
  apply for_range_skip. intros i t Hi. apply Hid. lia.
Qed.
End Loops.

Lemma fullBlocks_cover N : 0 <= N -> 0 <= N <= fullBlocksPerGrid N * blockSize.
Proof.
  intros HN. unfold fullBlocksPerGrid, blockSize.
  rewrite Z.quot_div_nonneg by lia.
  pose proof (Z.div_mod (N + 128 - 1) 128 ltac:(lia)) as Hdm.
  pose proof (Z.mod_pos_bound (N + 128 - 1) 128 ltac:(lia)) as Hb.
  lia.
Qed.

(** A launch of a kernel whose body starts with [if (index >= N) return]
    is the loop over [0 .. N - 1]. *)
Ltac launch_as_loop N thread :=
  rewrite (launch_guard _ N);
  [ | apply fullBlocks_cover; lia
    | let i := fresh "i" in
      intros i ? ?; unfold thread;
      destruct (Z.leb_spec N i); [reflexivity | lia] ].

Section Buffers.
Context {A : Type}.
Implicit Types (l : list A) (d v : A) (i j : Z).

Lemma length_wr l i v : length (wr l i v) = length l.
Proof. unfold wr. destruct (i <? 0); [reflexivity|]. apply length_insert. Qed.

Lemma rd_wr_eq d l i v :
  0 <= i < Z.of_nat (length l) -> rd d (wr l i v) i = v.
Proof.
  intros Hi. unfold rd, wr.
  destruct (Z.ltb_spec i 0) as [?|_]; [lia|].
  rewrite list_lookup_insert_eq by lia. reflexivity.
Qed.

Lemma rd_wr_ne d l i j v : i <> j -> rd d (wr l i v) j = rd d l j.
Proof.
  intros Hne. unfold rd, wr.
  destruct (Z.ltb_spec j 0) as [?|Hj]; [reflexivity|].
  destruct (Z.ltb_spec i 0) as [?|Hi]; [reflexivity|].
  rewrite list_lookup_insert_ne by lia. reflexivity.
Qed.

Lemma rd_lookup d l (n : nat) v : l !! n = Some v -> rd d l (Z.of_nat n) = v.
Proof.
  intros H. unfold rd. destruct (Z.ltb_spec (Z.of_nat n) 0) as [?|_]; [lia|].
  rewrite Nat2Z.id, H. reflexivity.
Qed.

Lemma rd_oob d l i : i < 0 \/ Z.of_nat (length l) <= i -> rd d l i = d.
Proof.
  intros H. unfold rd. destruct (Z.ltb_spec i 0) as [?|Hi]; [reflexivity|].
  rewrite lookup_ge_None_2 by lia. reflexivity.
Qed.

(** Two buffers of the same length with the same reads are equal. *)
Lemma buffer_eq d l1 l2 :
  length l1 = length l2 ->
  (forall i, 0 <= i < Z.of_nat (length l1) -> rd d l1 i = rd d l2 i) ->
  l1 = l2.
Proof.
  intros Hlen Hrd. apply list_eq. intros n.
  destruct (Nat.lt_ge_cases n (length l1)) as [Hlt|Hge].
  - destruct (lookup_lt_is_Some_2 l1 n Hlt) as [a Ha].
    destruct (lookup_lt_is_Some_2 l2 n ltac:(lia)) as [b Hb].
    specialize (Hrd (Z.of_nat n) ltac:(lia)).
    rewrite (rd_lookup d l1 n a Ha), (rd_lookup d l2 n b Hb) in Hrd.
    congruence.
  - rewrite !lookup_ge_None_2 by lia. reflexivity.
Qed.

Lemma rd_map_seqZ d (f : Z -> A) n i :
  0 <= i < n -> rd d (f <$> seqZ 0 n) i = f i.
Proof.
  intros Hi. unfold rd. destruct (Z.ltb_spec i 0) as [?|_]; [lia|].
  rewrite list_lookup_fmap, lookup_seqZ_lt by lia. simpl. f_equal. lia.
Qed.
End Buffers.

(** * Scattered writes *)

Section Scatter.
Context {A : Type} (d : A) (g : Z -> bool) (k : Z -> Z) (val : Z -> A).

Lemma length_scatter n t : length (scatter g k val n t) = length t.
Proof.
  unfold scatter. destruct (Z_le_gt_dec 0 n) as [Hle|Hgt].
  - apply (for_range_ind (fun _ u => length u = length t) 0 n _ t Hle);
      [reflexivity|].
    intros i u _ Hu. destruct (g i); [|exact Hu]. rewrite length_wr. exact Hu.
  - rewrite for_range_nil by lia. reflexivity.
Qed.

(** Each entry holds what its last writer stored, or its old value when
    no thread wrote it. *)
Lemma scatter_spec n t c :
  0 <= n -> 0 <= c < Z.of_nat (length t) ->
  (rd d (scatter g k val n t) c = rd d t c /\
   forall i, 0 <= i < n -> g i = true -> k i <> c) \/
  (exists i, 0 <= i < n /\ g i = true /\ k i = c /\
             rd d (scatter g k val n t) c = val i /\
             forall i', i < i' < n -> g i' = true -> k i' <> c).
Proof.
  intros Hn Hc. unfold scatter.
  apply (for_range_ind
    (fun m u => length u = length t /\
      ((rd d u c = rd d t c /\
        forall i, 0 <= i < m -> g i = true -> k i <> c) \/
       (exists i, 0 <= i < m /\ g i = true /\ k i = c /\ rd d u c = val i /\
                  forall i', i < i' < m -> g i' = true -> k i' <> c)))
    0 n _ t Hn).
  - split; [reflexivity|]. left. split; [reflexivity|]. intros; lia.
  - intros i u Hi [Hlen IH]. destruct (g i) eqn:Hg.
    + rewrite length_wr. split; [exact Hlen|].
      destruct (Z.eq_dec (k i) c) as [Heq|Hne].
      * right. exists i. split; [lia|]. split; [exact Hg|]. split; [exact Heq|].
        split; [|intros; lia]. rewrite Heq. apply rd_wr_eq. lia.
      * rewrite rd_wr_ne by exact Hne.
        destruct IH as [[Hrd Hno]|(i0 & Hi0 & Hg0 & Hk0 & Hrd & Hno)].
        -- left. split; [exact Hrd|]. intros j Hj Hgj.
           destruct (Z.eq_dec j i) as [->|?]; [exact Hne|]. apply Hno; [lia|exact Hgj].
        -- right. exists i0. repeat split; try lia; try assumption.
           intros j Hj Hgj.
           destruct (Z.eq_dec j i) as [->|?]; [exact Hne|]. apply Hno; [lia|exact Hgj].
    + split; [exact Hlen|].
      destruct IH as [[Hrd Hno]|(i0 & Hi0 & Hg0 & Hk0 & Hrd & Hno)].
      * left. split; [exact Hrd|]. intros j Hj Hgj.
        destruct (Z.eq_dec j i) as [->|?]; [congruence|]. apply Hno; [lia|exact Hgj].
      * right. exists i0. repeat split; try lia; try assumption.
        intros j Hj Hgj.
        destruct (Z.eq_dec j i) as [->|?]; [congruence|]. apply Hno; [lia|exact Hgj].
Qed.
End Scatter.

(** A loop on a pair of buffers whose body treats them separately. *)
Lemma for_range_pair {S T : Type} lo hi (f : Z -> S -> S) (h : Z -> T -> T) s t :
  for_range lo hi (fun i (p : S * T) => let '(a, b) := p in (f i a, h i b)) (s, t)
  = (for_range lo hi f s, for_range lo hi h t).
Proof.
  destruct (Z_le_gt_dec lo hi) as [Hle|Hgt].
  - apply (for_range_ind
      (fun m p => p = (for_range lo m f s, for_range lo m h t)) lo hi _ (s, t) Hle).
    + rewrite !for_range_nil by lia. reflexivity.
    + intros i p Hi ->. rewrite !for_range_snoc by lia. reflexivity.
  - rewrite !for_range_nil by lia. reflexivity.
Qed.

(** * The bucket locator *)

Lemma kernIdentifyCellStartEnd_scatter N keys st en :
  0 <= N ->
  kernIdentifyCellStartEnd (fullBlocksPerGrid N) N keys st en =
  (scatter (isStart keys) (rdi keys) (fun i => i) N st,
   scatter (isEnd N keys) (rdi keys) (fun i => i + 1) N en).
Proof.
  intros HN. unfold kernIdentifyCellStartEnd.
  launch_as_loop N kernIdentifyCellStartEnd_thread.
  unfold scatter. rewrite <- for_range_pair.
  apply for_range_ext. intros i [a b] Hi.
  unfold kernIdentifyCellStartEnd_thread, isStart, isEnd.
  destruct (Z.leb_spec N i); [lia|]. reflexivity.
Qed.

Lemma kernResetIntBuffer_rd C buf value c :
  Z.of_nat (length buf) = C -> 0 <= c < C ->
  rdi (kernResetIntBuffer (fullBlocksPerGrid C) C buf value) c = value.
Proof.
  intros Hlen Hc. unfold kernResetIntBuffer.
  rewrite (launch_guard _ C).
  - destruct (scatter_spec 0 (fun _ => true) (fun i => i) (fun _ => value)
                C buf c ltac:(lia) ltac:(lia)) as [[_ Hno]|(i & Hi & _ & Hk & Hrd & _)].
    + exfalso. apply (Hno c Hc eq_refl). reflexivity.
    + unfold scatter in Hrd. unfold rdi. etransitivity; [|exact Hrd].
      f_equal. apply for_range_ext. intros j t Hj.
      unfold kernResetIntBuffer_thread. destruct (Z.ltb_spec j C); [reflexivity|lia].
  - apply fullBlocks_cover. lia.
  - intros i t Hi. unfold kernResetIntBuffer_thread.
    destruct (Z.ltb_spec i C); [lia|reflexivity].
Qed.

Lemma length_kernResetIntBuffer blocks C buf value :
  length (kernResetIntBuffer blocks C buf value) = length buf.
Proof.
  unfold kernResetIntBuffer, launch.
  destruct (Z_le_gt_dec 0 (blocks * blockSize)) as [Hle|Hgt].
  - apply (for_range_ind (fun _ u => length u = length buf) 0 _ _ buf Hle);
      [reflexivity|].
    intros i u _ Hu. unfold kernResetIntBuffer_thread.
    destruct (i <? C); [|exact Hu]. rewrite length_wr. exact Hu.
  - rewrite for_range_nil by lia. reflexivity.
Qed.

Lemma StronglySorted_rdi keys i j :
  StronglySorted Z.le keys ->
  0 <= i <= j -> j < Z.of_nat (length keys) -> rdi keys i <= rdi keys j.
Proof.
  intros Hs [Hi Hij] Hj.
  destruct (lookup_lt_is_Some_2 keys (Z.to_nat i) ltac:(lia)) as [a Ha].
  destruct (lookup_lt_is_Some_2 keys (Z.to_nat j) ltac:(lia)) as [b Hb].
  pose proof (rd_lookup 0 keys _ _ Ha) as Hra.
  pose proof (rd_lookup 0 keys _ _ Hb) as Hrb.
  rewrite Z2Nat.id in Hra, Hrb by lia. unfold rdi. rewrite Hra, Hrb.
  destruct (Z.eq_dec i j) as [->|Hne]; [assert (a = b) by congruence; lia|].
  rewrite <- (take_drop (Z.to_nat j) keys) in Hs.
  apply (StronglySorted_app_1_elem_of _ _ _ a b) in Hs; [exact Hs| |].
  - apply list_elem_of_lookup. exists (Z.to_nat i).
    rewrite lookup_take_lt by lia. exact Ha.
  - apply list_elem_of_lookup. exists 0%nat.
    rewrite lookup_drop, Nat.add_0_r. exact Hb.
Qed.

Section RunBoundaries.
Variables (N : Z) (keys : list Z).
Hypothesis Hsorted :
  forall i j, 0 <= i <= j -> j < N -> rdi keys i <= rdi keys j.

Lemma start_exists i :
  0 <= i < N ->
  exists i0, 0 <= i0 <= i /\ rdi keys i0 = rdi keys i /\ isStart keys i0 = true.
Proof.
  intros Hi. remember (Z.to_nat i) as n eqn:Hn.
  revert i Hi Hn. induction n as [|n IH]; intros i Hi Hn.
  - exists i. split; [lia|]. split; [reflexivity|].
    unfold isStart. replace i with 0 by lia. reflexivity.
  - destruct (isStart keys i) eqn:Hs.
    + exists i. split; [lia|]. split; [reflexivity|exact Hs].
    + unfold isStart in Hs. apply orb_false_iff in Hs as [H0 Hk].
      apply negb_false_iff, Z.eqb_eq in Hk. apply Z.eqb_neq in H0.
      destruct (IH (i - 1) ltac:(lia) ltac:(lia)) as (i0 & Hi0 & Hk0 & Hs0).
      exists i0. split; [lia|]. split; [congruence|exact Hs0].
Qed.

Lemma end_exists i :
  0 <= i < N ->
  exists i1, i <= i1 < N /\ rdi keys i1 = rdi keys i /\ isEnd N keys i1 = true.
Proof.
  intros Hi. remember (Z.to_nat (N - 1 - i)) as n eqn:Hn.
  revert i Hi Hn. induction n as [|n IH]; intros i Hi Hn.
  - exists i. split; [lia|]. split; [reflexivity|].
    unfold isEnd. replace (i + 1) with N by lia. rewrite Z.eqb_refl. reflexivity.
  - destruct (isEnd N keys i) eqn:He.
    + exists i. split; [lia|]. split; [reflexivity|exact He].
    + unfold isEnd in He. apply orb_false_iff in He as [H0 Hk].
      apply negb_false_iff, Z.eqb_eq in Hk. apply Z.eqb_neq in H0.
      destruct (IH (i + 1) ltac:(lia) ltac:(lia)) as (i1 & Hi1 & Hk1 & He1).
      exists i1. split; [lia|]. split; [congruence|exact He1].
Qed.

Lemma start_before i0 i :
  0 <= i0 < N -> 0 <= i < N -> isStart keys i0 = true ->
  rdi keys i = rdi keys i0 -> i0 <= i.
Proof.
  intros Hi0 Hi Hs Hk. destruct (Z_le_gt_dec i0 i) as [?|Hgt]; [assumption|].
  exfalso. unfold isStart in Hs. apply orb_true_iff in Hs as [H0|Hn].
  - apply Z.eqb_eq in H0. lia.
  - apply negb_true_iff, Z.eqb_neq in Hn.
    pose proof (Hsorted i (i0 - 1) ltac:(lia) ltac:(lia)).
    pose proof (Hsorted (i0 - 1) i0 ltac:(lia) ltac:(lia)). lia.
Qed.

Lemma end_after i1 i :
  0 <= i1 < N -> 0 <= i < N -> isEnd N keys i1 = true ->
  rdi keys i = rdi keys i1 -> i <= i1.
Proof.
  intros Hi1 Hi He Hk. destruct (Z_le_gt_dec i i1) as [?|Hgt]; [assumption|].
  exfalso. unfold isEnd in He. apply orb_true_iff in He as [H0|Hn].
  - apply Z.eqb_eq in H0. lia.
  - apply negb_true_iff, Z.eqb_neq in Hn.
    pose proof (Hsorted (i1 + 1) i ltac:(lia) ltac:(lia)).
    pose proof (Hsorted i1 (i1 + 1) ltac:(lia) ltac:(lia)). lia.
Qed.

(** What the two tables hold for a cell after boundary detection on
    sorted keys: the bounds of the run of an occupied cell, the old
    entries for a cell without occupant. *)
Lemma cell_range C st en c :
  0 <= N -> Z.of_nat (length st) = C -> Z.of_nat (length en) = C ->
  0 <= c < C ->
  let st' := scatter (isStart keys) (rdi keys) (fun i => i) N st in
  let en' := scatter (isEnd N keys) (rdi keys) (fun i => i + 1) N en in
  ((forall i, 0 <= i < N -> rdi keys i <> c) /\
   rdi st' c = rdi st c /\ rdi en' c = rdi en c) \/
  (exists a b, 0 <= a < b /\ b <= N /\ rdi st' c = a /\ rdi en' c = b /\
               forall i, 0 <= i < N -> (rdi keys i = c <-> a <= i < b)).
Proof.
  intros HN Hst Hen Hc st' en'.
  destruct (scatter_spec 0 (isStart keys) (rdi keys) (fun i => i) N st c
              HN ltac:(lia)) as [[Hrs Hns]|(a & Ha & Hsa & Hka & Hrs & _)].
  - left.
    assert (Hnone : forall i, 0 <= i < N -> rdi keys i <> c).
    { intros i Hi Hk. destruct (start_exists i Hi) as (i0 & Hi0 & Hk0 & Hs0).
      apply (Hns i0); [lia|exact Hs0|congruence]. }
    split; [exact Hnone|]. split; [exact Hrs|].
    destruct (scatter_spec 0 (isEnd N keys) (rdi keys) (fun i => i + 1) N en c
                HN ltac:(lia)) as [[Hre _]|(b & Hb & _ & Hkb & _)].
    + exact Hre.
    + exfalso. exact (Hnone b Hb Hkb).
  - right.
    destruct (scatter_spec 0 (isEnd N keys) (rdi keys) (fun i => i + 1) N en c
                HN ltac:(lia)) as [[_ Hne]|(b & Hb & Hsb & Hkb & Hre & _)].
    + exfalso. destruct (end_exists a Ha) as (i1 & Hi1 & Hk1 & He1).
      apply (Hne i1); [lia|exact He1|congruence].
    + pose proof (start_before a b Ha Hb Hsa ltac:(congruence)) as Hab.
      exists a, (b + 1). split; [lia|]. split; [lia|].
      split; [exact Hrs|]. split; [exact Hre|].
      intros i Hi. split.
      * intros Hk.
        pose proof (start_before a i Ha Hi Hsa ltac:(congruence)).
        pose proof (end_after b i Hb Hi Hsb ltac:(congruence)). lia.
      * intros Hin.
        pose proof (Hsorted a i ltac:(lia) ltac:(lia)).
        pose proof (Hsorted i b ltac:(lia) ltac:(lia)). lia.
Qed.
End RunBoundaries.

(** C5.  On cell ids sorted ascending, with both tables freshly reset to
    one sentinel value, boundary detection leaves tables in which every
    slot of [0, N) lies in the range [start, end) of its own cell and of
    no other cell, no range reaches outside [0, N), an occupied cell has
    end > start with the range holding exactly the slots of its
    occupants, and a cell without occupant has the sentinel in both
    tables (an empty range). *)
Theorem bucket_ranges_partition_slots
    (N C sentinel : Z) (keys cellStart cellEnd : list Z) :
  Z.of_nat (length keys) = N ->
  Z.of_nat (length cellStart) = C ->
  Z.of_nat (length cellEnd) = C ->
  StronglySorted Z.le keys ->
  Forall (fun k => 0 <= k < C) keys ->
  let start0 := kernResetIntBuffer (fullBlocksPerGrid C) C cellStart sentinel in
  let end0 := kernResetIntBuffer (fullBlocksPerGrid C) C cellEnd sentinel in
  let tables :=
    kernIdentifyCellStartEnd (fullBlocksPerGrid N) N keys start0 end0 in
  (forall i, 0 <= i < N ->
     0 <= rdi keys i < C /\
     forall c, 0 <= c < C ->
       (rdi tables.1 c <= i < rdi tables.2 c <-> c = rdi keys i)) /\
  (forall c j, 0 <= c < C -> rdi tables.1 c <= j < rdi tables.2 c -> 0 <= j < N) /\
  (forall c, 0 <= c < C -> (exists i, 0 <= i < N /\ rdi keys i = c) ->
     rdi tables.1 c < rdi tables.2 c) /\
  (forall c, 0 <= c < C -> (forall i, 0 <= i < N -> rdi keys i <> c) ->
     rdi tables.1 c = sentinel /\ rdi tables.2 c = sentinel).
Proof.
  intros HN Hst Hen Hsorted Hrange start0 end0 tables.
  assert (HN0 : 0 <= N) by lia.
  assert (Hs : forall i j, 0 <= i <= j -> j < N -> rdi keys i <= rdi keys j).
  { intros i j Hij Hj. apply StronglySorted_rdi; [exact Hsorted|exact Hij|lia]. }
  assert (Hst0 : Z.of_nat (length start0) = C).
  { unfold start0. rewrite length_kernResetIntBuffer. exact Hst. }
  assert (Hen0 : Z.of_nat (length end0) = C).
  { unfold end0. rewrite length_kernResetIntBuffer. exact Hen. }
  assert (Hcell := fun c Hc =>
    cell_range N keys Hs C start0 end0 c HN0 Hst0 Hen0 Hc).
  cbv zeta in Hcell.
  unfold tables. rewrite kernIdentifyCellStartEnd_scatter by exact HN0.
  cbn [fst snd].
  assert (Hreset : forall c, 0 <= c < C ->
            rdi start0 c = sentinel /\ rdi end0 c = sentinel).
  { intros c Hc. unfold start0, end0.
    rewrite !kernResetIntBuffer_rd by assumption. split; reflexivity. }
  split; [|split; [|split]].
  - intros i Hi. split.
    { destruct (lookup_lt_is_Some_2 keys (Z.to_nat i) ltac:(lia)) as [k Hk].
      pose proof (rd_lookup 0 keys _ _ Hk) as Hr. rewrite Z2Nat.id in Hr by lia.
      unfold rdi. rewrite Hr. exact (Forall_lookup_1 _ _ _ _ Hrange Hk). }
    intros c Hc. split.
    + intros [Hlo Hhi].
      destruct (Hcell c Hc)
        as [(Hnone & Hrs & Hre)|(a & b & Hab & Hb & Hrs & Hre & Hiff)].
      * destruct (Hreset c Hc) as [E1 E2]. lia.
      * symmetry. apply Hiff; [assumption|lia].
    + intros ->.
      destruct (Hcell (rdi keys i) Hc)
        as [(Hnone & _)|(a & b & Hab & Hb & Hrs & Hre & Hiff)].
      * exfalso. exact (Hnone i Hi eq_refl).
      * rewrite Hrs, Hre. apply Hiff; [assumption|reflexivity].
  - intros c j Hc Hj.
    destruct (Hcell c Hc)
      as [(Hnone & Hrs & Hre)|(a & b & Hab & Hb & Hrs & Hre & Hiff)].
    + destruct (Hreset c Hc) as [E1 E2]. lia.
    + lia.
  - intros c Hc (i & Hi & Hk).
    destruct (Hcell c Hc) as [(Hnone & _)|(a & b & Hab & Hb & Hrs & Hre & Hiff)].
    + exfalso. exact (Hnone i Hi Hk).
    + lia.
  - intros c Hc Hempty.
    destruct (Hcell c Hc)
      as [(_ & Hrs & Hre)|(a & b & Hab & Hb & Hrs & Hre & Hiff)].
    + rewrite Hrs, Hre. apply Hreset. exact Hc.
    + exfalso. apply (Hempty a); [lia|]. apply Hiff; lia.
Qed.

Lemma bucket_ranges_partition_slots_witness :
  let keys := [0; 0; 0; 1; 2; 2; 3] in
  let tables :=
    kernIdentifyCellStartEnd (fullBlocksPerGrid 7) 7 keys
      (kernResetIntBuffer (fullBlocksPerGrid 5) 5 [9; 9; 9; 9; 9] (-1))
      (kernResetIntBuffer (fullBlocksPerGrid 5) 5 [4; 4; 4; 4; 4] (-1)) in
  tables = ([0; 3; 4; 6; -1], [3; 4; 6; 7; -1]) /\
  (forall i, 0 <= i < 7 ->
     0 <= rdi keys i < 5 /\
     forall c, 0 <= c < 5 ->
       (rdi tables.1 c <= i < rdi tables.2 c <-> c = rdi keys i)).
Proof.
  split; [vm_compute; reflexivity|].
  refine (proj1 (bucket_ranges_partition_slots 7 5 (-1) [0; 0; 0; 1; 2; 2; 3]
                   [9; 9; 9; 9; 9] [4; 4; 4; 4; 4] _ _ _ _ _)).
  - reflexivity.
  - reflexivity.
  - reflexivity.
  - repeat constructor; lia.
  - repeat constructor; lia.
Defined.

(** * The order of the threads *)

Lemma launch_run_threads {S : Type} blocks (body : Z -> S -> S) s :
  launch blocks body s = run_threads (seqZ 0 (blocks * blockSize)) body s.
Proof. unfold launch, for_range, run_threads. rewrite Z.sub_0_r. reflexivity. Qed.

(** Threads that commute pairwise can run in any order. *)
Lemma run_threads_perm {S : Type} (body : Z -> S -> S) (l l' : list Z) :
  l ≡ₚ l' ->
  (forall i j s, i ∈ l -> j ∈ l -> i <> j ->
     body i (body j s) = body j (body i s)) ->
  forall s, run_threads l body s = run_threads l' body s.
Proof.
  unfold run_threads.
  induction 1 as [|x l l' Hp IH|x y l|l l' l'' Hp1 IH1 Hp2 IH2]; intros Hc s.
  - reflexivity.
  - cbn [foldl]. apply IH. intros i j t Hi Hj. apply Hc; right; assumption.
  - cbn [foldl]. destruct (Z.eq_dec x y) as [->|Hne]; [reflexivity|].
    rewrite (Hc x y s); [reflexivity| | |exact Hne].
    + right. left.
    + left.
  - rewrite IH1 by exact Hc. apply IH2.
    intros i j t Hi Hj. apply Hc; rewrite Hp1; assumption.
Qed.

Lemma wr_comm {A : Type} (l : list A) i j x y :
  i <> j -> wr (wr l i x) j y = wr (wr l j y) i x.
Proof.
  intros Hne. unfold wr.
  destruct (i <? 0) eqn:Hi; destruct (j <? 0) eqn:Hj; try reflexivity.
  apply Z.ltb_ge in Hi, Hj. apply list_insert_insert_ne. lia.
Qed.

Section SortedThreads.
Variables (N : Z) (keys : list Z).
Hypothesis Hsorted :
  forall i j, 0 <= i <= j -> j < N -> rdi keys i <= rdi keys j.

Lemma start_unique i j :
  0 <= i < N -> 0 <= j < N -> isStart keys i = true -> isStart keys j = true ->
  rdi keys i = rdi keys j -> i = j.
Proof.
  intros Hi Hj Hsi Hsj Hk.
  pose proof (start_before N keys Hsorted i j Hi Hj Hsi (eq_sym Hk)).
  pose proof (start_before N keys Hsorted j i Hj Hi Hsj Hk). lia.
Qed.

Lemma end_unique i j :
  0 <= i < N -> 0 <= j < N -> isEnd N keys i = true -> isEnd N keys j = true ->
  rdi keys i = rdi keys j -> i = j.
Proof.
  intros Hi Hj Hei Hej Hk.
  pose proof (end_after N keys Hsorted i j Hi Hj Hei (eq_sym Hk)).
  pose proof (end_after N keys Hsorted j i Hj Hi Hej Hk). lia.
Qed.

Lemma kernIdentifyCellStartEnd_thread_in i st en :
  i < N ->
  kernIdentifyCellStartEnd_thread N keys i (st, en)
  = (if isStart keys i then wr st (rdi keys i) i else st,
     if isEnd N keys i then wr en (rdi keys i) (i + 1) else en).
Proof.
  intros Hi. unfold kernIdentifyCellStartEnd_thread.
  destruct (Z.leb_spec N i); [lia|reflexivity].
Qed.

Lemma kernIdentifyCellStartEnd_thread_out i out :
  N <= i -> kernIdentifyCellStartEnd_thread N keys i out = out.
Proof.
  intros Hi. unfold kernIdentifyCellStartEnd_thread.
  destruct (Z.leb_spec N i); [reflexivity|lia].
Qed.

(** On sorted keys no two threads write the same entry of a table, so
    any two thread bodies commute. *)
Lemma kernIdentifyCellStartEnd_thread_comm i j out :
  0 <= i -> 0 <= j -> i <> j ->
  kernIdentifyCellStartEnd_thread N keys i
    (kernIdentifyCellStartEnd_thread N keys j out)
  = kernIdentifyCellStartEnd_thread N keys j
      (kernIdentifyCellStartEnd_thread N keys i out).
Proof.
  intros Hi Hj Hne.
  destruct (Z_le_gt_dec N i) as [Hi'|Hi'].
  { rewrite !(kernIdentifyCellStartEnd_thread_out i) by exact Hi'. reflexivity. }
  destruct (Z_le_gt_dec N j) as [Hj'|Hj'].
  { rewrite !(kernIdentifyCellStartEnd_thread_out j) by exact Hj'. reflexivity. }
  destruct out as [st en].
  rewrite (kernIdentifyCellStartEnd_thread_in j st en) by lia.
  rewrite (kernIdentifyCellStartEnd_thread_in i st en) by lia.
  rewrite !kernIdentifyCellStartEnd_thread_in by lia.
  f_equal.
  - destruct (isStart keys i) eqn:Hsi; destruct (isStart keys j) eqn:Hsj;
      try reflexivity.
    apply wr_comm. intros Hk.
    apply Hne. apply start_unique; auto with lia.
  - destruct (isEnd N keys i) eqn:Hei; destruct (isEnd N keys j) eqn:Hej;
      try reflexivity.
    apply wr_comm. intros Hk.
    apply Hne. apply end_unique; auto with lia.
Qed.

(** The tables do not depend on the order in which the threads run. *)
Lemma kernIdentifyCellStartEnd_any_order blocks order st en :
  order ≡ₚ seqZ 0 (blocks * blockSize) ->
  run_threads order (kernIdentifyCellStartEnd_thread N keys) (st, en)
  = kernIdentifyCellStartEnd blocks N keys st en.
Proof.
  intros Hp. unfold kernIdentifyCellStartEnd. rewrite launch_run_threads.
  apply run_threads_perm; [exact Hp|].
  intros i j s Hi Hj Hne.
  rewrite Hp in Hi, Hj. apply elem_of_seqZ in Hi, Hj.
  apply kernIdentifyCellStartEnd_thread_comm; lia.
Qed.
End SortedThreads.

(** * Launches in which thread [i] rewrites slot [i] *)

Section OwnSlot.
Context {A : Type} (d : A).

Lemma own_slot_loop (F : Z -> A -> A) N (t : list A) :
  Z.of_nat (length t) = N ->
  for_range 0 N (fun i u => wr u i (F i (rd d u i))) t
  = (fun i => F i (rd d t i)) <$> seqZ 0 N.
Proof.
  intros Hlen.
  assert (HN : 0 <= N) by lia.
  pose proof (for_range_ind
    (fun m u => length u = length t /\
                (forall j, 0 <= j < m -> rd d u j = F j (rd d t j)) /\
                (forall j, m <= j -> rd d u j = rd d t j))
    0 N (fun i u => wr u i (F i (rd d u i))) t HN) as Hind.
  destruct Hind as (Hl & Hlow & _).
  - split; [reflexivity|]. split; [intros; lia|reflexivity].
  - intros i u Hi (Hl & Hlow & Hhigh). rewrite length_wr.
    split; [exact Hl|]. split.
    + intros j Hj. destruct (Z.eq_dec j i) as [->|Hne].
      * rewrite rd_wr_eq by lia. rewrite Hhigh by lia. reflexivity.
      * rewrite rd_wr_ne by lia. apply Hlow. lia.
    + intros j Hj. rewrite rd_wr_ne by lia. apply Hhigh. lia.
  - apply (buffer_eq d).
    + rewrite Hl, length_fmap, length_seqZ. lia.
    + intros i Hi. rewrite Hlow by lia. rewrite rd_map_seqZ by lia. reflexivity.
Qed.

Lemma tabulate_loop (val : Z -> A) N (t : list A) :
  Z.of_nat (length t) = N ->
  for_range 0 N (fun i u => wr u i (val i)) t = val <$> seqZ 0 N.
Proof. intros Hlen. apply (own_slot_loop (fun i _ => val i) N t Hlen). Qed.
End OwnSlot.

Lemma kernUpdatePos_map N dt pos vel :
  Z.of_nat (length pos) = N ->
  kernUpdatePos (fullBlocksPerGrid N) N dt pos vel
  = (fun i => updatePos dt (rdv pos i) (rdv vel i)) <$> seqZ 0 N.
Proof.
  intros Hlen. unfold kernUpdatePos.
  launch_as_loop N kernUpdatePos_thread.
  etransitivity;
    [| exact (own_slot_loop V3.zero
                (fun i p => updatePos dt p (rdv vel i)) N pos Hlen)].
  apply for_range_ext. intros i t Hi. unfold kernUpdatePos_thread.
  destruct (Z.leb_spec N i); [lia|reflexivity].
Qed.

Lemma kernComputeIndices_map N gridResolution gridMin inverseCellWidth
    pos indices gridIndices :
  Z.of_nat (length indices) = N -> Z.of_nat (length gridIndices) = N ->
  kernComputeIndices (fullBlocksPerGrid N) N gridResolution gridMin
    inverseCellWidth pos indices gridIndices
  = (seqZ 0 N,
     (fun i => cellOf gridResolution gridMin inverseCellWidth (rdv pos i))
       <$> seqZ 0 N).
Proof.
  intros Hl1 Hl2. unfold kernComputeIndices.
  launch_as_loop N kernComputeIndices_thread.
  etransitivity.
  - apply (for_range_ext _ _ _
      (fun i (p : list Z * list Z) =>
         let '(a, b) := p in
         (wr a i i,
          wr b i (cellOf gridResolution gridMin inverseCellWidth (rdv pos i))))).
    intros i [a b] Hi. unfold kernComputeIndices_thread.
    destruct (Z.leb_spec N i); [lia|reflexivity].
  - rewrite (for_range_pair 0 N (fun i a => wr a i i)
               (fun i b => wr b i
                  (cellOf gridResolution gridMin inverseCellWidth (rdv pos i)))).
    f_equal.
    + rewrite (tabulate_loop 0 (fun i => i) N indices Hl1). apply list_fmap_id.
    + apply (tabulate_loop 0). exact Hl2.
Qed.

Lemma kernRearrangeArray_map N idx pos vel2 pos2 vel1 :
  Z.of_nat (length pos2) = N -> Z.of_nat (length vel1) = N ->
  kernRearrangeArray (fullBlocksPerGrid N) N idx pos vel2 pos2 vel1
  = ((fun s => rdv pos (rdi idx s)) <$> seqZ 0 N,
     (fun s => rdv vel2 (rdi idx s)) <$> seqZ 0 N).
Proof.
  intros Hl1 Hl2. unfold kernRearrangeArray.
  launch_as_loop N kernRearrangeArray_thread.
  etransitivity.
  - apply (for_range_ext _ _ _
      (fun i (p : list vec3 * list vec3) =>
         let '(a, b) := p in
         (wr a i (rdv pos (rdi idx i)), wr b i (rdv vel2 (rdi idx i))))).
    intros i [a b] Hi. unfold kernRearrangeArray_thread.
    destruct (Z.leb_spec N i); [lia|reflexivity].
  - rewrite (for_range_pair 0 N (fun i a => wr a i (rdv pos (rdi idx i)))
               (fun i b => wr b i (rdv vel2 (rdi idx i)))).
    f_equal; apply (tabulate_loop V3.zero); assumption.
Qed.

(** * The sort returns a permutation *)

Lemma insert_by_key_perm k v l : insert_by_key k v l ≡ₚ (k, v) :: l.
Proof.
  induction l as [|[k' v'] l IH]; simpl; [reflexivity|].
  destruct (k <=? k'); [reflexivity|].
  rewrite IH. apply Permutation_swap.
Qed.

Lemma sort_pairs_perm l : sort_pairs l ≡ₚ l.
Proof.
  induction l as [|[k v] l IH]; simpl; [reflexivity|].
  rewrite insert_by_key_perm. simpl. rewrite IH. reflexivity.
Qed.

Lemma insert_by_key_sorted k v l :
  StronglySorted Z.le l.*1 -> StronglySorted Z.le (insert_by_key k v l).*1.
Proof.
  induction l as [|[k' v'] l IH]; simpl; intros Hs.
  - repeat constructor.
  - apply StronglySorted_cons in Hs as [Hall Hs].
    destruct (Z.leb_spec k k') as [Hle|Hgt]; simpl.
    + apply StronglySorted_cons. split.
      * constructor; [exact Hle|].
        eapply Forall_impl; [exact Hall|]. simpl. intros; lia.
      * apply StronglySorted_cons. split; assumption.
    + apply StronglySorted_cons. split; [|apply IH; exact Hs].
      assert (Hp : (insert_by_key k v l).*1 ≡ₚ k :: l.*1).
      { rewrite insert_by_key_perm. reflexivity. }
      rewrite Hp. constructor; [lia|exact Hall].
Qed.

Lemma sort_pairs_sorted l : StronglySorted Z.le (sort_pairs l).*1.
Proof.
  induction l as [|[k v] l IH]; simpl; [constructor|].
  apply insert_by_key_sorted. exact IH.
Qed.

Lemma sort_by_key_spec N keys vals :
  Z.of_nat (length keys) = N -> Z.of_nat (length vals) = N ->
  let r := sort_by_key N keys vals in
  zip r.1 r.2 ≡ₚ zip keys vals /\
  r.1 ≡ₚ keys /\ r.2 ≡ₚ vals /\
  StronglySorted Z.le r.1 /\
  Z.of_nat (length r.1) = N /\ Z.of_nat (length r.2) = N.
Proof.
  intros Hk Hv. unfold sort_by_key. cbn [fst snd].
  rewrite !take_ge, !drop_ge, !app_nil_r by lia.
  set (ps := sort_pairs (zip keys vals)).
  assert (Hps : ps ≡ₚ zip keys vals) by apply sort_pairs_perm.
  assert (Hzip : zip ps.*1 ps.*2 = ps) by apply zip_fst_snd.
  assert (H1 : ps.*1 ≡ₚ keys).
  { rewrite Hps. rewrite fst_zip by lia. reflexivity. }
  assert (H2 : ps.*2 ≡ₚ vals).
  { rewrite Hps. rewrite snd_zip by lia. reflexivity. }
  split; [rewrite Hzip; exact Hps|].
  split; [exact H1|]. split; [exact H2|].
  split; [apply sort_pairs_sorted|].
  split.
  - rewrite (Permutation_length H1). exact Hk.
  - rewrite (Permutation_length H2). exact Hv.
Qed.

(** * Bucket tables stay within the slots *)

Lemma rdi_Forall (P : Z -> Prop) (t : list Z) c :
  P 0 -> Forall P t -> P (rdi t c).
Proof.
  intros H0 Hall. unfold rdi, rd. destruct (c <? 0); [exact H0|].
  destruct (t !! Z.to_nat c) as [v|] eqn:Hv; simpl; [|exact H0].
  eapply Forall_lookup_1; eassumption.
Qed.

Lemma scatter_rd_cases {A : Type} (d : A) g k val n (t : list A) c :
  0 <= n ->
  rd d (scatter g k val n t) c = rd d t c \/
  exists i, 0 <= i < n /\ rd d (scatter g k val n t) c = val i.
Proof.
  intros Hn.
  destruct (Z_lt_ge_dec c 0) as [Hneg|Hpos];
    [left; rewrite !rd_oob by (left; exact Hneg); reflexivity|].
  destruct (Z_lt_ge_dec c (Z.of_nat (length t))) as [Hin|Hout].
  - destruct (scatter_spec d g k val n t c Hn ltac:(lia))
      as [[Hrd _]|(i & Hi & _ & _ & Hrd & _)]; [left; exact Hrd|].
    right. exists i. split; assumption.
  - left. rewrite !rd_oob; [reflexivity|right; lia|right].
    rewrite length_scatter. lia.
Qed.

Lemma kernIdentifyCellStartEnd_in_slots N keys st en c :
  0 <= N ->
  Forall (fun v => 0 <= v <= N) st -> Forall (fun v => 0 <= v <= N) en ->
  let tables := kernIdentifyCellStartEnd (fullBlocksPerGrid N) N keys st en in
  0 <= rdi tables.1 c <= N /\ 0 <= rdi tables.2 c <= N.
Proof.
  intros HN Hst Hen tables. subst tables.
  rewrite kernIdentifyCellStartEnd_scatter by exact HN.
  cbn [fst snd]. split.
  - destruct (scatter_rd_cases 0 (isStart keys) (rdi keys) (fun i => i) N st c HN)
      as [Hrd|(i & Hi & Hrd)]; unfold rdi in *; rewrite Hrd; [|lia].
    apply (rdi_Forall (fun v => 0 <= v <= N)); [lia|exact Hst].
  - destruct (scatter_rd_cases 0 (isEnd N keys) (rdi keys) (fun i => i + 1) N en c HN)
      as [Hrd|(i & Hi & Hrd)]; unfold rdi in *; rewrite Hrd; [|lia].
    apply (rdi_Forall (fun v => 0 <= v <= N)); [lia|exact Hen].
Qed.

(** * The neighbour loop reads the slot accessors on bucket ranges only *)

Lemma gridLoop_ext N gridResolution cellStart cellEnd
    slotPos slotVel slotPos' slotVel' myPos gridX gridY gridZ :
  (forall c, 0 <= rdi cellStart c /\ rdi cellEnd c <= N) ->
  (forall j, 0 <= j < N -> slotPos j = slotPos' j /\ slotVel j = slotVel' j) ->
  gridLoop gridResolution cellStart cellEnd slotPos slotVel myPos gridX gridY gridZ
  = gridLoop gridResolution cellStart cellEnd slotPos' slotVel' myPos
             gridX gridY gridZ.
Proof.
  intros Htab Hslots. unfold gridLoop.
  apply for_range_ext. intros i a Hi.
  destruct (_ || _); [reflexivity|].
  apply for_range_ext. intros j b Hj.
  match type of Hj with rdi _ ?c <= _ < _ => destruct (Htab c) as [H1 H2] end.
  destruct (Hslots j ltac:(lia)) as [-> ->]. reflexivity.
Qed.

Lemma gridNewVel_ext N gridResolution gridMin inverseCellWidth cellStart cellEnd
    slotPos slotVel slotPos' slotVel' myPos myVel :
  (forall c, 0 <= rdi cellStart c /\ rdi cellEnd c <= N) ->
  (forall j, 0 <= j < N -> slotPos j = slotPos' j /\ slotVel j = slotVel' j) ->
  gridNewVel gridResolution gridMin inverseCellWidth cellStart cellEnd
             slotPos slotVel myPos myVel
  = gridNewVel gridResolution gridMin inverseCellWidth cellStart cellEnd
               slotPos' slotVel' myPos myVel.
Proof.
  intros Htab Hslots. unfold gridNewVel.
  rewrite (gridLoop_ext N _ _ _ slotPos slotVel slotPos' slotVel') by assumption.
  reflexivity.
Qed.

(** * The two neighbour-search kernels as functions of the slot *)

Lemma kernScattered_rd N gridResolution gridMin inverseCellWidth cellWidth
    cellStart cellEnd idx pos vel1 vel2 s :
  Z.of_nat (length vel2) = N ->
  idx ≡ₚ seqZ 0 N ->
  0 <= s < N ->
  rdv (kernUpdateVelNeighborSearchScattered (fullBlocksPerGrid N) N
         gridResolution gridMin inverseCellWidth cellWidth
         cellStart cellEnd idx pos vel1 vel2) (rdi idx s)
  = scatteredVel gridResolution gridMin inverseCellWidth cellStart cellEnd
                 idx pos vel1 s.
Proof.
  intros Hlen Hperm Hs. unfold kernUpdateVelNeighborSearchScattered.
  launch_as_loop N kernUpdateVelNeighborSearchScattered_thread.
  assert (Hidx : forall i, 0 <= i < N -> idx !! Z.to_nat i = Some (rdi idx i)).
  { intros i Hi.
    destruct (lookup_lt_is_Some_2 idx (Z.to_nat i)) as [v Hv].
    - rewrite (Permutation_length Hperm), length_seqZ. lia.
    - rewrite Hv. f_equal. symmetry.
      rewrite <- (Z2Nat.id i) at 1 by lia. apply rd_lookup. exact Hv. }
  assert (Hin : forall i, 0 <= i < N -> 0 <= rdi idx i < N).
  { intros i Hi. assert (He : rdi idx i ∈ seqZ 0 N).
    { rewrite <- Hperm. apply list_elem_of_lookup. eexists. apply Hidx. exact Hi. }
    apply elem_of_seqZ in He. lia. }
  assert (Hinj : forall i j, 0 <= i < N -> 0 <= j < N ->
                   rdi idx i = rdi idx j -> i = j).
  { intros i j Hi Hj Heq.
    assert (Hnd : NoDup idx) by (rewrite Hperm; apply NoDup_seqZ).
    pose proof (NoDup_lookup idx _ _ _ Hnd (Hidx i Hi)
                  (eq_trans (Hidx j Hj) (f_equal Some (eq_sym Heq)))). lia. }
  set (val := scatteredVel gridResolution gridMin inverseCellWidth
                cellStart cellEnd idx pos vel1).
  transitivity (rdv (scatter (fun _ => true) (rdi idx) val N vel2) (rdi idx s)).
  - unfold scatter. f_equal. apply for_range_ext. intros i t Hi.
    unfold kernUpdateVelNeighborSearchScattered_thread.
    destruct (Z.leb_spec N i); [lia|].
    subst val. unfold scatteredVel. reflexivity.
  - destruct (scatter_spec V3.zero (fun _ => true) (rdi idx) val N vel2 (rdi idx s)
                ltac:(lia)) as [[_ Hno]|(i & Hi & _ & Hk & Hrd & _)].
    + pose proof (Hin s Hs). lia.
    + exfalso. exact (Hno s Hs eq_refl eq_refl).
    + unfold rdv. rewrite Hrd. f_equal. apply Hinj; assumption.
Qed.

Lemma length_kernScattered blocks N gridResolution gridMin inverseCellWidth
    cellWidth cellStart cellEnd idx pos vel1 vel2 :
  length (kernUpdateVelNeighborSearchScattered blocks N gridResolution gridMin
            inverseCellWidth cellWidth cellStart cellEnd idx pos vel1 vel2)
  = length vel2.
Proof.
  unfold kernUpdateVelNeighborSearchScattered, launch.
  destruct (Z_le_gt_dec 0 (blocks * blockSize)) as [Hle|Hgt].
  - apply (for_range_ind (fun _ u => length u = length vel2) 0 _ _ vel2 Hle);
      [reflexivity|].
    intros i u _ Hu. unfold kernUpdateVelNeighborSearchScattered_thread.
    destruct (N <=? i); [exact Hu|]. rewrite length_wr. exact Hu.
  - rewrite for_range_nil by lia. reflexivity.
Qed.

Lemma kernCoherent_map N gridResolution gridMin inverseCellWidth cellWidth
    cellStart cellEnd pos vel1 vel2 :
  Z.of_nat (length vel2) = N ->
  kernUpdateVelNeighborSearchCoherent (fullBlocksPerGrid N) N
    gridResolution gridMin inverseCellWidth cellWidth
    cellStart cellEnd pos vel1 vel2
  = (fun s => gridNewVel gridResolution gridMin inverseCellWidth
                cellStart cellEnd (fun j => rdv pos j) (fun j => rdv vel1 j)
                (rdv pos s) (rdv vel1 s)) <$> seqZ 0 N.
Proof.
  intros Hlen. unfold kernUpdateVelNeighborSearchCoherent.
  launch_as_loop N kernUpdateVelNeighborSearchCoherent_thread.
  etransitivity; [|apply (tabulate_loop V3.zero); exact Hlen].
  apply for_range_ext. intros i t Hi.
  unfold kernUpdateVelNeighborSearchCoherent_thread.
  destruct (Z.leb_spec N i); [lia|reflexivity].
Qed.

Lemma rd_zip_map (f h : Z -> vec3) N :
  zip (f <$> seqZ 0 N) (h <$> seqZ 0 N) = (fun i => (f i, h i)) <$> seqZ 0 N.
Proof.
  induction (seqZ 0 N) as [|x l IH]; [reflexivity|].
  csimpl. f_equal. exact IH.
Qed.

Lemma map_rd_self {A : Type} (d : A) (l : list A) N :
  Z.of_nat (length l) = N -> rd d l <$> seqZ 0 N = l.
Proof.
  intros Hlen. apply (buffer_eq d).
  - rewrite length_fmap, length_seqZ. lia.
  - intros i Hi. rewrite length_fmap, length_seqZ in Hi.
    rewrite rd_map_seqZ by lia. reflexivity.
Qed.

(** C4.  From one state, a coherent step and a scattered step leave the
    same (position, velocity) pairs: slot [s] of the coherent result holds
    exactly what the scattered result holds for the boid that the sort
    placed in slot [s], so the two results are equal as multisets. *)
Theorem coherent_step_permutes_scattered_step (dt : float) (st : state) :
  buffers_sized st ->
  table_in_slots (numObjects st) (dev_gridCellStartIndices st) ->
  table_in_slots (numObjects st) (dev_gridCellEndIndices st) ->
  let c := stepSimulationCoherentGrid dt st in
  let s := stepSimulationScatteredGrid dt st in
  dev_particleArrayIndices c = dev_particleArrayIndices s /\
  dev_particleArrayIndices s ≡ₚ seqZ 0 (numObjects st) /\
  (forall slot, 0 <= slot < numObjects st ->
     let boid := rdi (dev_particleArrayIndices s) slot in
     rdv (dev_pos c) slot = rdv (dev_pos s) boid /\
     rdv (dev_vel1 c) slot = rdv (dev_vel1 s) boid) /\
  zip (dev_pos c) (dev_vel1 c) ≡ₚ zip (dev_pos s) (dev_vel1 s).
Proof.
  intros (Hpos & Hpos2 & Hvel1 & Hvel2 & Hidx & Hgidx) Hst Hen.
  set (N := numObjects st) in *.
  assert (HN : 0 <= N) by lia.
  unfold stepSimulationCoherentGrid, stepSimulationScatteredGrid.
  fold N.
  rewrite (kernComputeIndices_map N _ _ _ _ _ _ Hidx Hgidx).
  cbv beta iota.
  set (cells := (fun i => cellOf (gridSideCount st) (gridMinimum st)
                            (gridInverseCellWidth st) (rdv (dev_pos st) i))
                <$> seqZ 0 N).
  destruct (sort_by_key_spec N cells (seqZ 0 N)) as (_ & _ & Hperm & _ & _ & Hlidx).
  { unfold cells. rewrite length_fmap, length_seqZ. lia. }
  { rewrite length_seqZ. lia. }
  destruct (sort_by_key N cells (seqZ 0 N)) as [keys idx] eqn:Hsort.
  cbn [fst snd] in Hperm, Hlidx.
  pose proof (fun c => kernIdentifyCellStartEnd_in_slots N keys
                         (dev_gridCellStartIndices st) (dev_gridCellEndIndices st)
                         c HN Hst Hen) as Htab.
  cbv zeta in Htab.
  destruct (kernIdentifyCellStartEnd (fullBlocksPerGrid N) N keys
              (dev_gridCellStartIndices st) (dev_gridCellEndIndices st))
    as [cellStart cellEnd] eqn:Htables.
  cbn [fst snd] in Htab.
  rewrite (kernRearrangeArray_map N idx _ _ _ _ Hpos2 Hvel2).
  cbv beta iota zeta.
  set (pos2 := (fun s => rdv (dev_pos st) (rdi idx s)) <$> seqZ 0 N).
  set (vel2 := (fun s => rdv (dev_vel1 st) (rdi idx s)) <$> seqZ 0 N).
  rewrite (kernCoherent_map N _ _ _ _ _ _ pos2 vel2 _ Hvel1).
  set (velC := _ <$> seqZ 0 N).
  set (velS := kernUpdateVelNeighborSearchScattered _ _ _ _ _ _ _ _ _ _ _ _).
  assert (HlvelS : Z.of_nat (length velS) = N).
  { unfold velS. rewrite length_kernScattered. exact Hvel2. }
  assert (Hlpos2 : Z.of_nat (length pos2) = N).
  { unfold pos2. rewrite length_fmap, length_seqZ. lia. }
  rewrite (kernUpdatePos_map N dt pos2 velC Hlpos2).
  rewrite (kernUpdatePos_map N dt (dev_pos st) velS Hpos).
  cbn [dev_particleArrayIndices dev_pos dev_vel1].
  (* slot by slot *)
  assert (Hin : forall slot, 0 <= slot < N -> 0 <= rdi idx slot < N).
  { intros slot Hslot.
    destruct (lookup_lt_is_Some_2 idx (Z.to_nat slot) ltac:(lia)) as [v Hv].
    pose proof (rd_lookup 0 idx _ _ Hv) as Hr. rewrite Z2Nat.id in Hr by lia.
    unfold rdi. rewrite Hr.
    assert (He : v ∈ seqZ 0 N).
    { rewrite <- Hperm. apply list_elem_of_lookup. eexists. exact Hv. }
    apply elem_of_seqZ in He. lia. }
  assert (Hrpos2 : forall j, 0 <= j < N ->
            rdv pos2 j = rdv (dev_pos st) (rdi idx j)).
  { intros j Hj.
    exact (rd_map_seqZ V3.zero (fun s => rdv (dev_pos st) (rdi idx s)) N j Hj). }
  assert (Hrvel2 : forall j, 0 <= j < N ->
            rdv vel2 j = rdv (dev_vel1 st) (rdi idx j)).
  { intros j Hj.
    exact (rd_map_seqZ V3.zero (fun s => rdv (dev_vel1 st) (rdi idx s)) N j Hj). }
  assert (Hvel : forall slot, 0 <= slot < N ->
            rdv velC slot = rdv velS (rdi idx slot)).
  { intros slot Hslot.
    etransitivity; [exact (rd_map_seqZ V3.zero _ N slot Hslot)|].
    cbv beta. unfold velS. rewrite (kernScattered_rd N) by assumption.
    unfold scatteredVel.
    rewrite (Hrpos2 slot Hslot), (Hrvel2 slot Hslot).
    apply (gridNewVel_ext N).
    - intros c. specialize (Htab c). lia.
    - intros j Hj. split; [apply Hrpos2|apply Hrvel2]; exact Hj. }
  set (posC := (fun i => updatePos dt (rdv pos2 i) (rdv velC i)) <$> seqZ 0 N).
  set (posS := (fun i => updatePos dt (rdv (dev_pos st) i) (rdv velS i))
                 <$> seqZ 0 N).
  assert (Hslots : forall slot, 0 <= slot < N ->
            rdv posC slot = rdv posS (rdi idx slot)).
  { intros slot Hslot.
    etransitivity; [exact (rd_map_seqZ V3.zero _ N slot Hslot)|].
    symmetry.
    etransitivity; [exact (rd_map_seqZ V3.zero _ N _ (Hin slot Hslot))|].
    cbv beta. rewrite (Hvel slot Hslot), (Hrpos2 slot Hslot). reflexivity. }
  split; [reflexivity|]. split; [exact Hperm|]. split.
  - intros slot Hslot. split; [apply Hslots|apply Hvel]; exact Hslot.
  - assert (HlvelC : Z.of_nat (length velC) = N)
      by (unfold velC; rewrite length_fmap, length_seqZ; lia).
    assert (HlposC : Z.of_nat (length posC) = N)
      by (unfold posC; rewrite length_fmap, length_seqZ; lia).
    assert (HlposS : Z.of_nat (length posS) = N)
      by (unfold posS; rewrite length_fmap, length_seqZ; lia).
    set (pair_of := fun b => (rdv posS b, rdv velS b)).
    assert (HS : zip posS velS = pair_of <$> seqZ 0 N).
    { rewrite <- (map_rd_self V3.zero posS N HlposS) at 1.
      rewrite <- (map_rd_self V3.zero velS N HlvelS) at 1.
      apply rd_zip_map. }
    assert (HC : zip posC velC = pair_of <$> idx).
    { rewrite <- (map_rd_self V3.zero posC N HlposC) at 1.
      rewrite <- (map_rd_self V3.zero velC N HlvelC) at 1.
      rewrite rd_zip_map.
      rewrite <- (map_rd_self 0 idx N Hlidx) at 1.
      rewrite <- list_fmap_compose.
      apply list_eq. intros n. rewrite !list_lookup_fmap.
      destruct (seqZ 0 N !! n) as [i|] eqn:Hi; [|reflexivity].
      apply lookup_seqZ in Hi as [-> Hi]. simpl. unfold pair_of.
      f_equal. f_equal; [apply Hslots|apply Hvel]; lia. }
    rewrite HS, HC, Hperm. reflexivity.
Qed.

Lemma coherent_step_permutes_scattered_step_witness :
  buffers_sized demo_state /\
  zip (dev_pos (stepSimulationCoherentGrid oneHalf demo_state))
      (dev_vel1 (stepSimulationCoherentGrid oneHalf demo_state))
  ≡ₚ zip (dev_pos (stepSimulationScatteredGrid oneHalf demo_state))
         (dev_vel1 (stepSimulationScatteredGrid oneHalf demo_state)).
Proof.
  assert (Hb : buffers_sized demo_state) by (repeat split; reflexivity).
  split; [exact Hb|].
  apply (coherent_step_permutes_scattered_step oneHalf demo_state Hb).
  - unfold table_in_slots. apply (bool_decide_unpack _). vm_compute. exact I.
  - unfold table_in_slots. apply (bool_decide_unpack _). vm_compute. exact I.
Defined.

(** * Facts on binary32 values *)

Lemma digits2_pos_bounds (m : positive) :
  2 ^ (Zpos (digits2_pos m) - 1) <= Zpos m < 2 ^ Zpos (digits2_pos m).
Proof.
  induction m as [m IH|m IH|]; cbn [digits2_pos].
  - rewrite Pos2Z.inj_succ.
    replace (Z.succ (Zpos (digits2_pos m)) - 1) with (Zpos (digits2_pos m) - 1 + 1) by lia.
    rewrite Z.pow_succ_r by lia.
    rewrite Z.pow_add_r by lia. change (2 ^ 1) with 2. lia.
  - rewrite Pos2Z.inj_succ.
    replace (Z.succ (Zpos (digits2_pos m)) - 1) with (Zpos (digits2_pos m) - 1 + 1) by lia.
    rewrite Z.pow_succ_r by lia.
    rewrite Z.pow_add_r by lia. change (2 ^ 1) with 2. lia.
  - simpl. lia.
Qed.

Lemma digits2_pos_unique (m : positive) (d : Z) :
  2 ^ (d - 1) <= Zpos m < 2 ^ d -> Zpos (digits2_pos m) = d.
Proof.
  intros [Hlo Hhi]. pose proof (digits2_pos_bounds m) as [Hlo' Hhi'].
  assert (0 < d).
  { destruct (Z_lt_ge_dec 0 d) as [?|Hd]; [assumption|].
    assert (2 ^ d <= 2 ^ 0) by (apply Z.pow_le_mono_r; lia).
    change (2 ^ 0) with 1 in *. lia. }
  destruct (Z.lt_trichotomy (Zpos (digits2_pos m)) d) as [Hlt|[Heq|Hgt]];
    [exfalso|exact Heq|exfalso].
  - assert (2 ^ Zpos (digits2_pos m) <= 2 ^ (d - 1)) by (apply Z.pow_le_mono_r; lia).
    lia.
  - assert (2 ^ d <= 2 ^ (Zpos (digits2_pos m) - 1)) by (apply Z.pow_le_mono_r; lia).
    lia.
Qed.

Lemma Zpos_iter_xO (p n : positive) :
  Zpos (Pos.iter xO p n) = Zpos p * 2 ^ Zpos n.
Proof.
  revert p. induction n as [|n IH] using Pos.peano_ind; intros p.
  - simpl. lia.
  - rewrite Pos.iter_succ, Pos2Z.inj_succ, Z.pow_succ_r by lia.
    rewrite Pos2Z.inj_xO, IH. lia.
Qed.

Lemma digits2_pos_iter_xO (p n : positive) :
  Zpos (digits2_pos (Pos.iter xO p n)) = Zpos (digits2_pos p) + Zpos n.
Proof.
  apply digits2_pos_unique. rewrite Zpos_iter_xO.
  pose proof (digits2_pos_bounds p) as [Hlo Hhi].
  replace (Zpos (digits2_pos p) + Zpos n - 1)
    with ((Zpos (digits2_pos p) - 1) + Zpos n) by lia.
  rewrite !Z.pow_add_r by lia.
  assert (0 < 2 ^ Zpos n) by (apply Z.pow_pos_nonneg; lia).
  nia.
Qed.

(** Shifting right by [n] a mantissa that is a multiple of [2 ^ n] loses
    nothing. *)
Lemma iter_pos_shr_1_exact (n q : positive) :
  SpecFloat.iter_pos shr_1 n (Build_shr_record (Zpos (Pos.iter xO q n)) false false)
  = Build_shr_record (Zpos q) false false.
Proof.
  revert q. induction n as [n IH|n IH|]; intros q; cbn [SpecFloat.iter_pos Pos.iter].
  - cbn [shr_1 orb]. rewrite IH. rewrite IH. reflexivity.
  - rewrite IH. rewrite IH. reflexivity.
  - reflexivity.
Qed.

Lemma valid_finite_inv s m e :
  F32.valid (S754_finite s m e) = true ->
  -149 <= e <= 104 /\ Zpos (digits2_pos m) <= 24 /\
  (-149 < e -> Zpos (digits2_pos m) = 24).
Proof.
  unfold F32.valid, valid_binary, bounded, canonical_mantissa, fexp, emin,
    F32.prec, F32.emax.
  intros H. apply andb_true_iff in H as [H1 H2].
  apply Z.eqb_eq in H1. apply Z.leb_le in H2. lia.
Qed.

Lemma compare_scaled m1 e1 m2 e2 :
  F32.valid (S754_finite false m1 e1) = true ->
  F32.valid (S754_finite false m2 e2) = true ->
  SFcompare (S754_finite false m1 e1) (S754_finite false m2 e2)
  = Some (scaled (S754_finite false m1 e1) ?= scaled (S754_finite false m2 e2)).
Proof.
  intros H1 H2.
  apply valid_finite_inv in H1 as (He1 & Hd1 & Hn1).
  apply valid_finite_inv in H2 as (He2 & Hd2 & Hn2).
  pose proof (digits2_pos_bounds m1) as [Hlo1 Hhi1].
  pose proof (digits2_pos_bounds m2) as [Hlo2 Hhi2].
  assert (Hm1 : Zpos m1 < 2 ^ 24).
  { eapply Z.lt_le_trans; [exact Hhi1|]. apply Z.pow_le_mono_r; lia. }
  assert (Hm2 : Zpos m2 < 2 ^ 24).
  { eapply Z.lt_le_trans; [exact Hhi2|]. apply Z.pow_le_mono_r; lia. }
  cbn [SFcompare scaled]. f_equal.
  destruct (Z.compare_spec e1 e2) as [Heq|Hlt|Hgt].
  - subst e2. rewrite Pos.compare_cont_spec. simpl.
    assert (0 < 2 ^ (e1 + 149)) by (apply Z.pow_pos_nonneg; lia).
    change (Pos.compare m1 m2) with (Zpos m1 ?= Zpos m2).
    symmetry. destruct (Z.compare_spec (Zpos m1) (Zpos m2)) as [E|L|G].
    + rewrite E. apply Z.compare_refl.
    + apply Z.compare_lt_iff. nia.
    + apply Z.compare_gt_iff. nia.
  - symmetry. apply Z.compare_lt_iff.
    rewrite Hn2 in Hlo2 by lia. change (2 ^ (24 - 1)) with (2 ^ 23) in Hlo2.
    replace (e2 + 149) with ((e1 + 149) + (e2 - e1 - 1) + 1) by lia.
    set (a := e1 + 149) in *. set (b := e2 - e1 - 1) in *.
    rewrite (Z.pow_add_r 2 (a + b) 1), (Z.pow_add_r 2 a b) by lia.
    change (2 ^ 1) with 2.
    assert (0 < 2 ^ a) by (apply Z.pow_pos_nonneg; lia).
    assert (1 <= 2 ^ b) by (apply Z.lt_pred_le, Z.pow_pos_nonneg; lia).
    change (2 ^ 24) with (2 * 2 ^ 23) in Hm1.
    set (A := 2 ^ a) in *. set (B := 2 ^ b) in *. set (K := 2 ^ 23) in *.
    assert (Zpos m1 * A < 2 * K * A) by (apply Z.mul_lt_mono_pos_r; lia).
    assert (2 * K * A <= 2 * Zpos m2 * A) by (apply Z.mul_le_mono_nonneg_r; lia).
    assert (2 * Zpos m2 * A * 1 <= 2 * Zpos m2 * A * B)
      by (apply Z.mul_le_mono_nonneg_l; lia).
    lia.
  - symmetry. apply Z.compare_gt_iff.
    rewrite Hn1 in Hlo1 by lia. change (2 ^ (24 - 1)) with (2 ^ 23) in Hlo1.
    replace (e1 + 149) with ((e2 + 149) + (e1 - e2 - 1) + 1) by lia.
    set (a := e2 + 149) in *. set (b := e1 - e2 - 1) in *.
    rewrite (Z.pow_add_r 2 (a + b) 1), (Z.pow_add_r 2 a b) by lia.
    change (2 ^ 1) with 2.
    assert (0 < 2 ^ a) by (apply Z.pow_pos_nonneg; lia).
    assert (1 <= 2 ^ b) by (apply Z.lt_pred_le, Z.pow_pos_nonneg; lia).
    change (2 ^ 24) with (2 * 2 ^ 23) in Hm2.
    set (A := 2 ^ a) in *. set (B := 2 ^ b) in *. set (K := 2 ^ 23) in *.
    assert (Zpos m2 * A < 2 * K * A) by (apply Z.mul_lt_mono_pos_r; lia).
    assert (2 * K * A <= 2 * Zpos m1 * A) by (apply Z.mul_le_mono_nonneg_r; lia).
    assert (2 * Zpos m1 * A * 1 <= 2 * Zpos m1 * A * B)
      by (apply Z.mul_le_mono_nonneg_l; lia).
    lia.
Qed.

(** Rounding a mantissa that already sits in canonical position gives the
    datum back. *)
Lemma binary_round_aux_bounded s m e :
  bounded F32.prec F32.emax m e = true ->
  binary_round_aux F32.prec F32.emax s (Zpos m) e loc_Exact = S754_finite s m e.
Proof.
  intros Hb. unfold bounded, canonical_mantissa in Hb.
  apply andb_true_iff in Hb as [Hc He]. apply Z.eqb_eq in Hc.
  unfold binary_round_aux, shr_fexp. cbn [Zdigits2 shr_record_of_loc].
  rewrite Hc, Z.sub_diag. cbn [shr shr_m loc_of_shr_record round_nearest_even].
  cbn [Zdigits2 shr_record_of_loc]. rewrite Hc, Z.sub_diag. cbn [shr shr_m].
  rewrite He. reflexivity.
Qed.

Lemma norm24_shift p :
  Zpos (digits2_pos p) <= 24 ->
  (Zpos (digits2_pos p) = 24 /\ Z.to_N (24 - Zpos (digits2_pos p)) = N0) \/
  (exists k, Zpos k = 24 - Zpos (digits2_pos p) /\
             Z.to_N (24 - Zpos (digits2_pos p)) = Npos k).
Proof.
  intros Hd. destruct (24 - Zpos (digits2_pos p)) as [|k|k] eqn:Hk.
  - left. split; [lia|reflexivity].
  - right. exists k. split; reflexivity.
  - lia.
Qed.

Lemma norm24_bounded p :
  Zpos (digits2_pos p) <= 24 ->
  bounded F32.prec F32.emax
    (Pos.shiftl p (Z.to_N (24 - Zpos (digits2_pos p))))
    (Zpos (digits2_pos p) - 24) = true.
Proof.
  intros Hd. unfold bounded, canonical_mantissa, fexp, emin, F32.prec, F32.emax.
  assert (Hdig : Zpos (digits2_pos
                   (Pos.shiftl p (Z.to_N (24 - Zpos (digits2_pos p))))) = 24).
  { destruct (norm24_shift p Hd) as [[E ->]|(k & Hk & ->)]; unfold Pos.shiftl.
    - exact E.
    - rewrite digits2_pos_iter_xO. lia. }
  rewrite Hdig. apply andb_true_iff.
  split; [apply Z.eqb_eq|apply Z.leb_le]; lia.
Qed.

Lemma of_int_pos p :
  Zpos (digits2_pos p) <= 24 -> F32.of_int (Zpos p) = norm24 p.
Proof.
  intros Hd. unfold F32.of_int, binary_normalize, binary_round.
  pose proof (norm24_bounded p Hd) as Hb.
  assert (Hf : fexp F32.prec F32.emax (Zpos (digits2_pos p) + 0)
               = Zpos (digits2_pos p) - 24).
  { unfold fexp, emin, F32.prec, F32.emax. lia. }
  rewrite Hf. unfold shl_align, norm24. cbv zeta.
  destruct (norm24_shift p Hd) as [[E HN]|(k & Hk & HN)];
    rewrite HN in Hb |- *; unfold Pos.shiftl in Hb |- *.
  - rewrite E in Hb |- *. cbn [Z.sub Z.add Z.opp Z.pos_sub].
    apply binary_round_aux_bounded. exact Hb.
  - replace (Zpos (digits2_pos p) - 24 - 0) with (Zneg k) by lia.
    apply binary_round_aux_bounded. exact Hb.
Qed.

(** Rounding a canonical mantissa that was shifted left by [n] bits, the
    exponent lowered by [n], gives the canonical datum. *)
Lemma binary_round_aux_shifted s q e n :
  bounded F32.prec F32.emax q e = true ->
  binary_round_aux F32.prec F32.emax s (Zpos (Pos.iter xO q n)) (e - Zpos n)
    loc_Exact = S754_finite s q e.
Proof.
  intros Hb. pose proof Hb as Hb'. unfold bounded, canonical_mantissa in Hb'.
  apply andb_true_iff in Hb' as [Hc He]. apply Z.eqb_eq in Hc.
  unfold binary_round_aux at 1. unfold shr_fexp at 1.
  cbn [Zdigits2 shr_record_of_loc].
  rewrite digits2_pos_iter_xO.
  replace (Zpos (digits2_pos q) + Zpos n + (e - Zpos n))
    with (Zpos (digits2_pos q) + e) by lia.
  rewrite Hc. replace (e - (e - Zpos n)) with (Zpos n) by lia.
  cbn [shr]. rewrite iter_pos_shr_1_exact.
  cbn [shr_m loc_of_shr_record round_nearest_even].
  replace (e - Zpos n + Zpos n) with e by lia.
  unfold shr_fexp. cbn [Zdigits2 shr_record_of_loc].
  rewrite Hc, Z.sub_diag. cbn [shr shr_m]. rewrite He. reflexivity.
Qed.

Lemma digits2_pos_ge_1 p : 1 <= Zpos (digits2_pos p).
Proof. lia. Qed.

Lemma digits2_pos_succ_ge_2 p : 2 <= Zpos (digits2_pos (p + 1)).
Proof.
  pose proof (digits2_pos_bounds (p + 1)) as [_ Hhi].
  destruct (Z_le_gt_dec 2 (Zpos (digits2_pos (p + 1)))) as [?|Hlt]; [assumption|].
  assert (E : Zpos (digits2_pos (p + 1)) = 1) by lia.
  rewrite E in Hhi. change (2 ^ 1) with 2 in Hhi. lia.
Qed.

Lemma digits2_pos_mono p q :
  (p <= q)%positive -> Zpos (digits2_pos p) <= Zpos (digits2_pos q).
Proof.
  intros Hle. pose proof (digits2_pos_bounds p) as [Hlo _].
  pose proof (digits2_pos_bounds q) as [_ Hhi].
  destruct (Z_le_gt_dec (Zpos (digits2_pos p)) (Zpos (digits2_pos q)))
    as [?|Hgt]; [assumption|].
  assert (2 ^ Zpos (digits2_pos q) <= 2 ^ (Zpos (digits2_pos p) - 1))
    by (apply Z.pow_le_mono_r; lia).
  lia.
Qed.

(** Mantissa of [norm24 p] times [2 ^ (d - 1)] is [p * 2 ^ 23]. *)
Lemma norm24_mantissa_scaled p :
  Zpos (digits2_pos p) <= 24 ->
  Zpos (Pos.shiftl p (Z.to_N (24 - Zpos (digits2_pos p))))
  * 2 ^ (Zpos (digits2_pos p) - 1) = Zpos p * 2 ^ 23.
Proof.
  intros Hd. destruct (norm24_shift p Hd) as [[E ->]|(k & Hk & ->)];
    unfold Pos.shiftl.
  - rewrite E. reflexivity.
  - rewrite Zpos_iter_xO, Hk, <- Z.mul_assoc, <- Z.pow_add_r by lia.
    f_equal. f_equal. lia.
Qed.

(** Incrementing a count held in a [float]. *)
Lemma add_norm24_one p :
  Zpos (digits2_pos (p + 1)) <= 24 ->
  F32.add (norm24 p) F32.one = norm24 (p + 1).
Proof.
  intros Hd'.
  assert (Hd : Zpos (digits2_pos p) <= 24).
  { etransitivity; [apply (digits2_pos_mono p (p + 1)); lia|exact Hd']. }
  pose proof (digits2_pos_ge_1 p) as Hd1.
  pose proof (digits2_pos_succ_ge_2 p) as Hd2.
  unfold F32.add, norm24, F32.one. cbv zeta.
  set (d := Zpos (digits2_pos p)) in *.
  set (d' := Zpos (digits2_pos (p + 1))) in *.
  set (m := Pos.shiftl p (Z.to_N (24 - d))).
  set (q := Pos.shiftl (p + 1) (Z.to_N (24 - d'))).
  unfold SFadd. rewrite (Z.min_r (d - 24) (-23)) by lia.
  cbn [cond_Zopp].
  (* both mantissas at exponent -23 *)
  assert (Hm : Zpos (fst (shl_align m (d - 24) (-23))) = Zpos p * 2 ^ 23).
  { pose proof (norm24_mantissa_scaled p Hd) as Hs. fold d in Hs. fold m in Hs.
    unfold shl_align. destruct (-23 - (d - 24)) as [|k|k] eqn:Hk; cbn [fst].
    - replace (d - 1) with 0 in Hs by lia. lia.
    - lia.
    - rewrite Zpos_iter_xO. replace (Zpos k) with (d - 1) by lia. exact Hs. }
  rewrite Hm.
  change (Zpos (fst (shl_align 8388608 (-23) (-23)))) with (1 * 2 ^ 23).
  rewrite <- Z.mul_add_distr_r.
  change (Zpos p + 1) with (Zpos (p + 1)).
  (* the sum, as a shifted canonical mantissa *)
  assert (Hn : exists n, Zpos n = d' - 1) by (exists (Z.to_pos (d' - 1)); lia).
  destruct Hn as [n Hn].
  assert (Hq : Zpos (p + 1) * 2 ^ 23 = Zpos (Pos.iter xO q n)).
  { rewrite Zpos_iter_xO, Hn.
    symmetry. apply (norm24_mantissa_scaled (p + 1) Hd'). }
  rewrite Hq. unfold binary_normalize, binary_round.
  rewrite digits2_pos_iter_xO.
  pose proof (norm24_bounded (p + 1) Hd') as Hb. fold d' in Hb. fold q in Hb.
  assert (Hdq : Zpos (digits2_pos q) = 24).
  { unfold bounded, canonical_mantissa, fexp, emin, F32.prec, F32.emax in Hb.
    apply andb_true_iff in Hb as [Hc _]. apply Z.eqb_eq in Hc. lia. }
  rewrite Hdq.
  assert (Hf : fexp F32.prec F32.emax (24 + Zpos n + -23) = d' - 24).
  { unfold fexp, emin, F32.prec, F32.emax. lia. }
  rewrite Hf. unfold shl_align.
  destruct (d' - 24 - -23) as [|k|k] eqn:Hk; [| |lia].
  - lia.
  - replace (-23) with ((d' - 24) - Zpos n) by lia.
    apply binary_round_aux_shifted. exact Hb.
Qed.

Lemma digits2_pos_le_24 p : Zpos p < 2 ^ 24 -> Zpos (digits2_pos p) <= 24.
Proof.
  intros Hp. pose proof (digits2_pos_bounds p) as [Hlo _].
  destruct (Z_le_gt_dec (Zpos (digits2_pos p)) 24) as [?|Hgt]; [assumption|].
  assert (2 ^ 24 <= 2 ^ (Zpos (digits2_pos p) - 1)) by (apply Z.pow_le_mono_r; lia).
  lia.
Qed.

(** A count of neighbours is held in a [float]: it is exact up to
    [2 ^ 24] and stays there. *)
Lemma count_step (k : Z) :
  0 <= k <= 2 ^ 24 ->
  F32.add (F32.of_int k) F32.one = F32.of_int (Z.min (k + 1) (2 ^ 24)).
Proof.
  intros Hk.
  destruct (Z.eq_dec k 0) as [->|H0]; [vm_compute; reflexivity|].
  destruct (Z.eq_dec k (2 ^ 24)) as [->|H1]; [vm_compute; reflexivity|].
  destruct (Z.eq_dec k (2 ^ 24 - 1)) as [->|H2]; [vm_compute; reflexivity|].
  rewrite Z.min_l by lia.
  destruct k as [|p|p]; try lia.
  change (Zpos p + 1) with (Zpos (p + 1)).
  assert (Hd : Zpos (digits2_pos (p + 1)) <= 24) by (apply digits2_pos_le_24; lia).
  rewrite (of_int_pos p) by (apply digits2_pos_le_24; lia).
  rewrite (of_int_pos (p + 1)) by exact Hd.
  apply add_norm24_one. exact Hd.
Qed.

Lemma of_int_valid (k : Z) : 0 <= k <= 2 ^ 24 -> F32.valid (F32.of_int k) = true.
Proof.
  intros Hk.
  destruct (Z.eq_dec k 0) as [->|H0]; [reflexivity|].
  destruct (Z.eq_dec k (2 ^ 24)) as [->|H1]; [reflexivity|].
  destruct k as [|p|p]; try lia.
  rewrite of_int_pos by (apply digits2_pos_le_24; lia).
  apply norm24_bounded. apply digits2_pos_le_24. lia.
Qed.

Lemma of_int_scaled (k : Z) :
  0 <= k <= 2 ^ 24 -> scaled (F32.of_int k) = k * 2 ^ 149.
Proof.
  intros Hk.
  destruct (Z.eq_dec k 0) as [->|H0]; [reflexivity|].
  destruct (Z.eq_dec k (2 ^ 24)) as [->|H1]; [vm_compute; reflexivity|].
  destruct k as [|p|p]; try lia.
  assert (Hd : Zpos (digits2_pos p) <= 24) by (apply digits2_pos_le_24; lia).
  rewrite of_int_pos by exact Hd. unfold norm24, scaled. cbv zeta.
  pose proof (norm24_mantissa_scaled p Hd) as Hs.
  set (d := Zpos (digits2_pos p)) in *.
  set (m := Pos.shiftl p (Z.to_N (24 - d))) in *.
  replace (d - 24 + 149) with ((d - 1) + 126) by lia.
  rewrite (Z.pow_add_r 2 (d - 1) 126) by lia.
  change (2 ^ 149) with (2 ^ 23 * 2 ^ 126).
  rewrite !Z.mul_assoc. rewrite Hs. reflexivity.
Qed.

Lemma of_int_shape (k : Z) :
  0 < k <= 2 ^ 24 -> exists m e, F32.of_int k = S754_finite false m e.
Proof.
  intros Hk.
  destruct (Z.eq_dec k (2 ^ 24)) as [->|H1]; [eexists _, _; reflexivity|].
  destruct k as [|p|p]; try lia.
  rewrite of_int_pos by (apply digits2_pos_le_24; lia).
  eexists _, _. reflexivity.
Qed.

Lemma count_ge_one (k : Z) :
  0 < k <= 2 ^ 24 -> F32.leb F32.one (F32.of_int k) = true.
Proof.
  intros Hk. destruct (of_int_shape k Hk) as (m & e & Hm).
  pose proof (of_int_valid k ltac:(lia)) as Hv.
  pose proof (of_int_scaled k ltac:(lia)) as Hs.
  unfold F32.leb, SFleb. rewrite Hm in *. unfold F32.one.
  rewrite compare_scaled by (try reflexivity; exact Hv).
  rewrite Hs. change (scaled (S754_finite false 8388608 (-23))) with (1 * 2 ^ 149).
  assert (0 < 2 ^ 149) by (apply Z.pow_pos_nonneg; lia).
  destruct (Z.compare_spec (1 * 2 ^ 149) (k * 2 ^ 149)) as [?|?|Hgt];
    try reflexivity.
  exfalso. apply Z.mul_lt_mono_pos_r in Hgt; lia.
Qed.

(** For a non-negative finite value [trunc] and [floor] agree, and
    [floor] is the scaled mantissa divided by [2 ^ 149]. *)
Lemma floor_scaled m e :
  -149 <= e -> F32.floor (S754_finite false m e)
               = scaled (S754_finite false m e) / 2 ^ 149.
Proof.
  intros He. unfold F32.floor, scaled.
  destruct e as [|p|p].
  - change (0 + 149) with 149. rewrite Z.div_mul by lia. lia.
  - replace (Zpos p + 149) with (Zpos p + 149)%Z by reflexivity.
    rewrite Z.pow_add_r by lia. rewrite Z.mul_assoc.
    rewrite Z.div_mul by lia. reflexivity.
  - assert (Hsplit : 2 ^ 149 = 2 ^ (Zneg p + 149) * 2 ^ Zpos p).
    { rewrite <- Z.pow_add_r by lia. f_equal. lia. }
    rewrite Hsplit.
    assert (0 < 2 ^ (Zneg p + 149)) by (apply Z.pow_pos_nonneg; lia).
    assert (0 < 2 ^ Zpos p) by (apply Z.pow_pos_nonneg; lia).
    rewrite (Z.mul_comm (Zpos m)).
    rewrite Z.div_mul_cancel_l by lia. reflexivity.
Qed.

Lemma trunc_floor_nonneg m e :
  F32.floor (S754_finite false m e) <= F32.int_max ->
  F32.trunc (S754_finite false m e) = F32.floor (S754_finite false m e).
Proof.
  unfold F32.trunc, F32.floor. intros Hle.
  destruct e as [|p|p].
  - rewrite Z.shiftl_0_r, Z.pow_0_r, Z.mul_1_r in *. lia.
  - rewrite Z.shiftl_mul_pow2 by lia. lia.
  - rewrite Z.shiftr_div_pow2 by lia. lia.
Qed.

Lemma trunc_of_int (k : Z) : 0 <= k <= 2 ^ 24 -> F32.trunc (F32.of_int k) = k.
Proof.
  intros Hk.
  destruct (Z.eq_dec k 0) as [->|H0]; [reflexivity|].
  destruct (of_int_shape k ltac:(lia)) as (m & e & Hm).
  pose proof (of_int_valid k Hk) as Hv.
  pose proof (of_int_scaled k Hk) as Hs.
  rewrite Hm in *. apply valid_finite_inv in Hv as (He & _).
  assert (Hf : F32.floor (S754_finite false m e) = k).
  { rewrite floor_scaled by lia. rewrite Hs. apply Z.div_mul. lia. }
  rewrite trunc_floor_nonneg; [exact Hf|].
  rewrite Hf. unfold F32.int_max. change (2 ^ 24) with 16777216 in Hk.
  change (2 ^ 31 - 1) with 2147483647. lia.
Qed.

(** The code clamps the [float] and then drops the fraction; on finite
    values this is the floor clamped as an integer. *)
Lemma trunc_clamp_floor (v : F32.float) (res : Z) :
  F32.valid v = true -> F32.is_finite v = true -> 0 <= res <= 2 ^ 24 ->
  F32.trunc (F32.clamp v F32.zero (F32.of_int res))
  = Z.min (Z.max (F32.floor v) 0) res.
Proof.
  intros Hv Hfin Hres.
  pose proof (of_int_valid res Hres) as HRv.
  pose proof (of_int_scaled res Hres) as HRs.
  pose proof (trunc_of_int res Hres) as HRt.
  assert (H149 : 0 < 2 ^ 149) by (apply Z.pow_pos_nonneg; lia).
  unfold F32.clamp, F32.fmax, F32.fmin, F32.ltb, SFltb, F32.zero.
  destruct v as [s|s| |s m e]; try discriminate.
  - (* a zero *)
    cbn [SFcompare]. 
    destruct (Z.eq_dec res 0) as [->|Hpos].
    + destruct s; reflexivity.
    + destruct (of_int_shape res ltac:(lia)) as (mR & eR & HR). rewrite HR.
      cbn [SFcompare F32.trunc F32.floor]. lia.
  - destruct s.
    + (* negative: the lower clamp gives +0 *)
      cbn [SFcompare].
      assert (Hneg : F32.floor (S754_finite true m e) <= 0).
      { unfold F32.floor. destruct e as [|p|p].
        - lia.
        - assert (0 < 2 ^ Zpos p) by (apply Z.pow_pos_nonneg; lia). nia.
        - assert (0 < 2 ^ Zpos p) by (apply Z.pow_pos_nonneg; lia).
          apply Z.div_le_upper_bound; lia. }
      destruct (Z.eq_dec res 0) as [->|Hpos].
      * cbn [F32.of_int binary_normalize SFcompare F32.trunc]. lia.
      * destruct (of_int_shape res ltac:(lia)) as (mR & eR & HR). rewrite HR.
        cbn [SFcompare F32.trunc]. lia.
    + (* positive *)
      cbn [SFcompare].
      pose proof Hv as Hv'. apply valid_finite_inv in Hv' as (He & _).
      assert (Hfl : 0 <= F32.floor (S754_finite false m e)).
      { rewrite floor_scaled by lia. apply Z.div_pos; [|lia].
        unfold scaled. assert (0 < 2 ^ (e + 149)) by (apply Z.pow_pos_nonneg; lia).
        lia. }
      destruct (Z.eq_dec res 0) as [->|Hpos].
      * cbn [F32.of_int binary_normalize SFcompare F32.trunc]. lia.
      * destruct (of_int_shape res ltac:(lia)) as (mR & eR & HR).
        rewrite HR in *. rewrite compare_scaled by assumption.
        rewrite HRs.
        destruct (Z.compare_spec (res * 2 ^ 149)
                    (scaled (S754_finite false m e))) as [Heq|Hlt|Hgt].
        -- (* equal: the value itself *)
           assert (Hf : F32.floor (S754_finite false m e) = res).
           { rewrite floor_scaled by lia. rewrite <- Heq. apply Z.div_mul. lia. }
           rewrite trunc_floor_nonneg; rewrite Hf; [lia|].
           unfold F32.int_max. change (2 ^ 24) with 16777216 in Hres.
           change (2 ^ 31 - 1) with 2147483647. lia.
        -- (* above the bound: the bound *)
           rewrite HRt.
           assert (res <= F32.floor (S754_finite false m e)).
           { rewrite floor_scaled by lia. apply Z.div_le_lower_bound; lia. }
           lia.
        -- (* below the bound: the value itself *)
           assert (Hf : F32.floor (S754_finite false m e) <= res).
           { rewrite floor_scaled by lia.
             apply Z.lt_succ_r, Z.div_lt_upper_bound; lia. }
           rewrite trunc_floor_nonneg; [lia|].
           unfold F32.int_max. change (2 ^ 24) with 16777216 in Hres.
           change (2 ^ 31 - 1) with 2147483647. lia.
Qed.

(** * The neighbour loops as folds over candidate lists *)

Lemma for_range_visit myPos (P V : Z -> vec3) lo hi a :
  for_range lo hi (fun i a => visit myPos (P i) (V i) a) a
  = accumulate myPos ((fun i => (P i, V i)) <$> seqZ lo (hi - lo)) a.
Proof. unfold for_range, accumulate. rewrite foldl_fmap. reflexivity. Qed.

Lemma accumulate_app myPos c1 c2 a :
  accumulate myPos (c1 ++ c2) a = accumulate myPos c2 (accumulate myPos c1 a).
Proof. unfold accumulate. apply foldl_app. Qed.

Lemma bruteForceLoop_accumulate N iSelf pos vel :
  bruteForceLoop N iSelf pos vel
  = accumulate (rdv pos iSelf) (bruteForceCandidates N pos vel) rules0.
Proof.
  unfold bruteForceLoop, bruteForceCandidates. cbv zeta.
  rewrite for_range_visit. rewrite Z.sub_0_r. reflexivity.
Qed.

Lemma gridLoop_accumulate gridResolution cellStart cellEnd slotPos slotVel
    myPos gridX gridY gridZ :
  gridLoop gridResolution cellStart cellEnd slotPos slotVel myPos gridX gridY gridZ
  = accumulate myPos
      (gridCandidates gridResolution cellStart cellEnd slotPos slotVel
         gridX gridY gridZ) rules0.
Proof.
  unfold gridLoop, gridCandidates, for_range at 1.
  change (8 - 0) with 8.
  generalize rules0. induction (seqZ 0 8) as [|i l IH]; intros a.
  - reflexivity.
  - cbn [foldl fmap list_fmap mjoin list_join]. rewrite accumulate_app.
    rewrite <- IH. f_equal.
    destruct (_ || _); [reflexivity|]. apply for_range_visit.
Qed.

(** * A boid seen by itself *)

Lemma sub_self (x : float) : F32.is_finite x = true -> (x - x)%f32 = F32.zero.
Proof.
  destruct x as [s|s| |s m e]; try discriminate; intros _.
  - destruct s; reflexivity.
  - unfold F32.sub, SFsub. cbv zeta. rewrite Z.min_id.
    unfold shl_align. rewrite (Z.sub_diag e). cbn [fst].
    rewrite Z.sub_diag. reflexivity.
Qed.

Lemma distance_self (p : vec3) :
  V3.is_finite p = true -> V3.distance p p = F32.zero.
Proof.
  unfold V3.is_finite. intros H.
  apply andb_true_iff in H as [H Hz]. apply andb_true_iff in H as [Hx Hy].
  unfold V3.distance, V3.length, V3.dot, V3.mulv, V3.sub, V3.map2.
  cbn [vx vy vz]. rewrite !sub_self by assumption. reflexivity.
Qed.

Lemma sub_self_v3 (p : vec3) : V3.is_finite p = true -> (p - p)%v3 = V3.zero.
Proof.
  unfold V3.is_finite. intros H.
  apply andb_true_iff in H as [H Hz]. apply andb_true_iff in H as [Hx Hy].
  unfold V3.sub, V3.map2. rewrite !sub_self by assumption. reflexivity.
Qed.

Lemma visit_self (myPos myVel : vec3) (a : rules) :
  V3.is_finite myPos = true ->
  visit myPos myPos myVel a
  = Rules (rule1 a + myPos)%v3 (rule2 a + V3.zero)%v3 (rule3 a + myVel)%v3
          (rule1Cnt a + F32.one)%f32 (rule3Cnt a + F32.one)%f32.
Proof.
  intros Hfin. unfold visit. rewrite distance_self by exact Hfin.
  change (F32.zero <? rule1Distance)%f32 with true.
  change (F32.zero <? rule2Distance)%f32 with true.
  change (F32.zero <? rule3Distance)%f32 with true.
  cbn [rule1 rule2 rule3 rule1Cnt rule3Cnt].
  rewrite sub_self_v3 by exact Hfin. reflexivity.
Qed.


(** * The counts *)

Lemma within_nil r myPos : within r myPos [] = 0.
Proof. reflexivity. Qed.

Lemma within_snoc r myPos cands c :
  within r myPos (cands ++ [c])
  = within r myPos cands + (if (V3.distance c.1 myPos <? r)%f32 then 1 else 0).
Proof.
  unfold within. rewrite filter_app, length_app, Nat2Z.inj_add. f_equal.
  rewrite filter_cons, filter_nil.
  destruct (V3.distance c.1 myPos <? r)%f32 eqn:E.
  - rewrite decide_True by reflexivity. reflexivity.
  - rewrite decide_False by discriminate. reflexivity.
Qed.

Lemma within_nonneg r myPos cands : 0 <= within r myPos cands.
Proof. unfold within. lia. Qed.

Lemma cap24_step k :
  0 <= k -> (F32.of_int (cap24 k) + F32.one)%f32 = F32.of_int (cap24 (k + 1)).
Proof.
  intros Hk. unfold cap24. rewrite count_step by lia. f_equal. lia.
Qed.

(** What the accumulators hold after the loop: the counts are the
    numbers of candidates within the rule-1 and rule-3 distances (exact up
    to [2 ^ 24]), and a sum to which no candidate contributed is still the
    zero vector. *)
Lemma accumulate_spec myPos cands :
  let a := accumulate myPos cands rules0 in
  rule1Cnt a = F32.of_int (cap24 (within rule1Distance myPos cands)) /\
  rule3Cnt a = F32.of_int (cap24 (within rule3Distance myPos cands)) /\
  (within rule1Distance myPos cands = 0 -> rule1 a = V3.zero) /\
  (within rule2Distance myPos cands = 0 -> rule2 a = V3.zero) /\
  (within rule3Distance myPos cands = 0 -> rule3 a = V3.zero).
Proof.
  induction cands as [|c cands IH] using rev_ind.
  - cbv zeta. unfold accumulate. cbn [foldl]. rewrite !within_nil.
    repeat split; reflexivity.
  - cbv zeta in *. rewrite accumulate_app. unfold accumulate at 1 3 5 7 9.
    cbn [foldl]. rewrite !within_snoc.
    destruct IH as (H1 & H3 & Hz1 & Hz2 & Hz3).
    pose proof (within_nonneg rule1Distance myPos cands).
    pose proof (within_nonneg rule2Distance myPos cands).
    pose proof (within_nonneg rule3Distance myPos cands).
    unfold visit.
    destruct (V3.distance c.1 myPos <? rule1Distance)%f32;
    destruct (V3.distance c.1 myPos <? rule2Distance)%f32;
    destruct (V3.distance c.1 myPos <? rule3Distance)%f32;
    cbn [rule1 rule2 rule3 rule1Cnt rule3Cnt];
    rewrite ?Z.add_0_r, ?H1, ?H3, ?cap24_step by assumption;
    (split; [reflexivity|]); (split; [reflexivity|]);
    (split; [intros; try lia; auto|]);
    (split; intros; try lia; auto).
Qed.

Lemma within_elem r myPos cands c :
  c ∈ cands -> (V3.distance c.1 myPos <? r)%f32 = true -> 1 <= within r myPos cands.
Proof.
  intros Hin Hpass. unfold within.
  assert (Hf : c ∈ filter (fun c => (V3.distance c.1 myPos <? r)%f32 = true) cands).
  { apply list_elem_of_filter. split; assumption. }
  destruct (filter _ cands) as [|x l]; [inversion Hf|]. cbn [length]. lia.
Qed.

Lemma self_candidate N iSelf pos vel :
  0 <= iSelf < N ->
  (rdv pos iSelf, rdv vel iSelf) ∈ bruteForceCandidates N pos vel.
Proof.
  intros Hi. unfold bruteForceCandidates.
  apply (list_elem_of_fmap_2 (fun i => (rdv pos i, rdv vel i))).
  apply elem_of_seqZ. lia.
Qed.

Lemma bruteForceCandidates_split N iSelf pos vel :
  0 <= iSelf < N ->
  bruteForceCandidates N pos vel
  = bruteForceCandidates iSelf pos vel
    ++ (rdv pos iSelf, rdv vel iSelf)
    :: ((fun i => (rdv pos i, rdv vel i)) <$> seqZ (iSelf + 1) (N - iSelf - 1)).
Proof.
  intros Hi. unfold bruteForceCandidates.
  replace N with (iSelf + (1 + (N - iSelf - 1))) at 1 by lia.
  rewrite seqZ_app by lia. rewrite fmap_app. f_equal.
  rewrite Z.add_0_l. rewrite seqZ_app by lia. rewrite fmap_app.
  rewrite (seqZ_cons iSelf 1) by lia. rewrite (seqZ_nil _ (Z.pred 1)) by lia.
  reflexivity.
Qed.

Lemma leb_one_nonzero (c : float) :
  F32.leb F32.one c = true -> forall s, c <> S754_zero s.
Proof. intros H s ->. discriminate H. Qed.




(** C10.  In the brute-force variant, for a boid with a finite position,
    the counts of rule 1 and of rule 3 are at least one after the loop, so
    neither is a zero when the code divides by it. *)
Theorem bruteForce_counts_at_least_one (N iSelf : Z) (pos vel : list vec3) :
  0 <= iSelf < N ->
  V3.is_finite (rdv pos iSelf) = true ->
  let a := bruteForceLoop N iSelf pos vel in
  F32.leb F32.one (rule1Cnt a) = true /\
  F32.leb F32.one (rule3Cnt a) = true /\
  (forall s, rule1Cnt a <> S754_zero s) /\
  (forall s, rule3Cnt a <> S754_zero s).
Proof.
  intros Hi Hfin a. subst a. rewrite bruteForceLoop_accumulate.
  pose proof (accumulate_spec (rdv pos iSelf) (bruteForceCandidates N pos vel))
    as (H1 & H3 & _).
  cbv zeta in H1, H3.
  pose proof (self_candidate N iSelf pos vel Hi) as Hself.
  assert (Hd : V3.distance (rdv pos iSelf, rdv vel iSelf).1 (rdv pos iSelf)
               = F32.zero) by (apply distance_self; exact Hfin).
  assert (Hw1 : 1 <= within rule1Distance (rdv pos iSelf)
                       (bruteForceCandidates N pos vel)).
  { eapply within_elem; [exact Hself|]. rewrite Hd. reflexivity. }
  assert (Hw3 : 1 <= within rule3Distance (rdv pos iSelf)
                       (bruteForceCandidates N pos vel)).
  { eapply within_elem; [exact Hself|]. rewrite Hd. reflexivity. }
  assert (L1 : F32.leb F32.one
                 (rule1Cnt (accumulate (rdv pos iSelf)
                              (bruteForceCandidates N pos vel) rules0)) = true).
  { rewrite H1. apply count_ge_one. unfold cap24. lia. }
  assert (L3 : F32.leb F32.one
                 (rule3Cnt (accumulate (rdv pos iSelf)
                              (bruteForceCandidates N pos vel) rules0)) = true).
  { rewrite H3. apply count_ge_one. unfold cap24. lia. }
  split; [exact L1|]. split; [exact L3|].
  split; apply leb_one_nonzero; assumption.
Qed.

Lemma bruteForce_counts_at_least_one_witness :
  let pos := [Vec3 F32.one F32.zero F32.zero; Vec3 F32.zero F32.one F32.one] in
  let vel := [Vec3 F32.zero F32.zero oneHalf; Vec3 oneHalf F32.zero F32.zero] in
  V3.is_finite (rdv pos 0) = true /\
  F32.leb F32.one (rule1Cnt (bruteForceLoop 2 0 pos vel)) = true.
Proof.
  split; [reflexivity|].
  apply (bruteForce_counts_at_least_one 2 0
           [Vec3 F32.one F32.zero F32.zero; Vec3 F32.zero F32.one F32.one]
           [Vec3 F32.zero F32.zero oneHalf; Vec3 oneHalf F32.zero F32.zero]).
  - lia.
  - reflexivity.
Defined.

(** C10 as stated ("every agent") fails for a boid whose position is not
    finite: after one naive step of a boid alone at the origin with the
    largest finite velocity, the position is (NaN, 0, 0); in the next
    step both counts are +0, both divisions are 0 / 0, and the velocity
    change is NaN in every component. *)
Lemma lost_boid_divides_zero_by_zero :
  let st0 := initSimulation 1 [V3.zero] [V3.zero]
               [Vec3 (S754_finite false 16777215 104) F32.zero F32.zero]
               [V3.zero] [0] [0] [] [] in
  let st1 := stepSimulationNaive oneHalf st0 in
  let a := bruteForceLoop 1 0 (dev_pos st1) (dev_vel1 st1) in
  V3.is_finite (rdv (dev_pos st0) 0) = true /\
  V3.is_finite (rdv (dev_vel1 st0) 0) = true /\
  V3.is_finite (rdv (dev_pos st1) 0) = false /\
  rule1Cnt a = S754_zero false /\ rule3Cnt a = S754_zero false /\
  F32.leb F32.one (rule1Cnt a) = false /\ F32.leb F32.one (rule3Cnt a) = false /\
  (rule1 a / rule1Cnt a)%v3 = V3.splat F32.nan /\
  (rule3 a / rule3Cnt a)%v3 = V3.splat F32.nan /\
  computeVelocityChange 1 0 (dev_pos st1) (dev_vel1 st1) = V3.splat F32.nan.
Proof.
  vm_compute. repeat (split; [reflexivity|]). reflexivity.
Qed.

(** * Position integration *)

Lemma mul_zero_finite s (dt : float) :
  F32.is_finite dt = true -> exists s', (S754_zero s * dt)%f32 = S754_zero s'.
Proof.
  destruct dt as [s0|s0| |s0 m e]; try discriminate; intros _;
    eexists; reflexivity.
Qed.

Lemma wrapCoord_above (c : float) :
  (c >? scene_scale)%f32 = true -> wrapCoord c = F32.opp scene_scale.
Proof.
  unfold wrapCoord, F32.gtb. intros Hgt.
  assert (Hlow : (c <? F32.opp scene_scale)%f32 = false).
  { destruct c as [s|[|]| |[|] m e]; try reflexivity; discriminate Hgt. }
  rewrite Hlow, Hgt. reflexivity.
Qed.

Lemma wrapCoord_below (c : float) :
  (c <? F32.opp scene_scale)%f32 = true -> wrapCoord c = scene_scale.
Proof. unfold wrapCoord. intros ->. reflexivity. Qed.

Lemma wrapCoord_inside (c : float) :
  (c <? F32.opp scene_scale)%f32 = false -> (c >? scene_scale)%f32 = false ->
  wrapCoord c = c.
Proof. unfold wrapCoord. intros -> ->. reflexivity. Qed.

Lemma wrapCoord_at_boundary s (dt : float) :
  F32.is_finite dt = true ->
  wrapCoord (scene_scale + S754_zero s * dt)%f32 = scene_scale.
Proof.
  intros Hdt. destruct (mul_zero_finite s dt Hdt) as [s' ->].
  destruct s'; reflexivity.
Qed.

Lemma kernUpdatePos_rd N dt pos vel i :
  Z.of_nat (length pos) = N -> 0 <= i < N ->
  rdv (kernUpdatePos (fullBlocksPerGrid N) N dt pos vel) i
  = updatePos dt (rdv pos i) (rdv vel i).
Proof.
  intros Hlen Hi. rewrite (kernUpdatePos_map N dt pos vel Hlen).
  exact (rd_map_seqZ V3.zero (fun i => updatePos dt (rdv pos i) (rdv vel i)) N i Hi).
Qed.

(** C8, as the code has it.  A coordinate at the positive boundary with a
    zero velocity component stays at the boundary for every finite [dt];
    a coordinate that the step carries beyond the positive boundary
    becomes the negative boundary itself, whatever the excess, and one
    carried below the negative boundary becomes the positive boundary;
    other coordinates are kept. *)
Theorem integrator_teleports_to_boundary (N : Z) (dt : float)
    (pos vel : list vec3) (i : Z) :
  Z.of_nat (length pos) = N -> 0 <= i < N ->
  let p := rdv pos i in
  let v := rdv vel i in
  let p' := rdv (kernUpdatePos (fullBlocksPerGrid N) N dt pos vel) i in
  p' = Vec3 (wrapCoord (vx p + vx v * dt)%f32) (wrapCoord (vy p + vy v * dt)%f32)
            (wrapCoord (vz p + vz v * dt)%f32) /\
  (forall s, F32.is_finite dt = true ->
     wrapCoord (scene_scale + S754_zero s * dt)%f32 = scene_scale) /\
  (forall c, (c >? scene_scale)%f32 = true -> wrapCoord c = F32.opp scene_scale) /\
  (forall c, (c <? F32.opp scene_scale)%f32 = true -> wrapCoord c = scene_scale) /\
  (forall c, (c <? F32.opp scene_scale)%f32 = false ->
             (c >? scene_scale)%f32 = false -> wrapCoord c = c).
Proof.
  intros Hlen Hi p v p'. split.
  - unfold p'. rewrite (kernUpdatePos_rd N dt pos vel i Hlen Hi). reflexivity.
  - split; [intros s Hdt; apply wrapCoord_at_boundary; exact Hdt|].
    split; [exact wrapCoord_above|].
    split; [exact wrapCoord_below|exact wrapCoord_inside].
Qed.

Lemma integrator_teleports_to_boundary_witness :
  let pos := [Vec3 scene_scale F32.zero (F32.of_int 7)] in
  let vel := [Vec3 F32.zero F32.one (F32.of_int 2)] in
  rdv (kernUpdatePos (fullBlocksPerGrid 1) 1 oneHalf pos vel) 0
  = Vec3 (wrapCoord (scene_scale + F32.zero * oneHalf)%f32)
         (wrapCoord (F32.zero + F32.one * oneHalf)%f32)
         (wrapCoord (F32.of_int 7 + F32.of_int 2 * oneHalf)%f32).
Proof.
  apply (integrator_teleports_to_boundary 1 oneHalf
           [Vec3 scene_scale F32.zero (F32.of_int 7)]
           [Vec3 F32.zero F32.one (F32.of_int 2)] 0).
  - reflexivity.
  - lia.
Defined.

(** C8 as stated fails where a boid crosses the boundary: from x = 99.5 with
    velocity 1 and dt = 1 the step reaches 100.5, an excess of 0.5, and
    the new coordinate is -100, not -100 + 0.5. *)
Lemma wrap_discards_excess :
  let dt := F32.one in
  let p := Vec3 (F32.of_int 199 / F32.of_int 2)%f32 F32.zero F32.zero in
  let v := Vec3 F32.one F32.zero F32.zero in
  let excess := ((vx p + vx v * dt) - scene_scale)%f32 in
  excess = oneHalf /\
  vx (rdv (kernUpdatePos (fullBlocksPerGrid 1) 1 dt [p] [v]) 0)
    = F32.opp scene_scale /\
  vx (rdv (kernUpdatePos (fullBlocksPerGrid 1) 1 dt [p] [v]) 0)
    <> (F32.opp scene_scale + excess)%f32.
Proof. vm_compute. split; [reflexivity|]. split; [reflexivity|]. discriminate. Qed.

(** * The speed clamp *)

Lemma shr_1_nonneg mrs : 0 <= shr_m mrs -> 0 <= shr_m (shr_1 mrs).
Proof.
  destruct mrs as [m r s]. cbn [shr_m]. intros Hm.
  destruct m as [|[p|p|]|p]; cbn [shr_1 shr_m]; lia.
Qed.

Lemma iter_pos_shr_1_nonneg n mrs :
  0 <= shr_m mrs -> 0 <= shr_m (SpecFloat.iter_pos shr_1 n mrs).
Proof.
  revert mrs. induction n as [n IH|n IH|]; intros mrs Hm; cbn [SpecFloat.iter_pos].
  - apply IH, IH, shr_1_nonneg, Hm.
  - apply IH, IH, Hm.
  - apply shr_1_nonneg, Hm.
Qed.

Lemma shr_fexp_nonneg m e l :
  0 <= m -> 0 <= shr_m (fst (shr_fexp F32.prec F32.emax m e l)).
Proof.
  intros Hm. unfold shr_fexp, shr.
  assert (H0 : 0 <= shr_m (shr_record_of_loc m l))
    by (destruct l as [|[| |]]; exact Hm).
  destruct (fexp _ _ _ - e); cbn [fst]; try exact H0.
  apply iter_pos_shr_1_nonneg, H0.
Qed.

Lemma round_nearest_even_nonneg m l : 0 <= m -> 0 <= round_nearest_even m l.
Proof.
  intros Hm. unfold round_nearest_even.
  destruct l as [|[| |]]; try lia. destruct (Z.even m); lia.
Qed.

(** Rounding never changes the sign. *)
Lemma binary_round_aux_sign s m e l :
  0 <= m -> sign_of (binary_round_aux F32.prec F32.emax s m e l) = Some s.
Proof.
  intros Hm. unfold binary_round_aux.
  pose proof (shr_fexp_nonneg m e l Hm) as H1.
  destruct (shr_fexp F32.prec F32.emax m e l) as [mrs' e']. cbn [fst] in H1.
  pose proof (shr_fexp_nonneg _ e' loc_Exact
                (round_nearest_even_nonneg _ (loc_of_shr_record mrs') H1)) as H2.
  destruct (shr_fexp F32.prec F32.emax _ e' loc_Exact) as [mrs'' e''].
  cbn [fst] in H2.
  destruct (shr_m mrs'') as [|p|p]; [reflexivity| |lia].
  destruct (e'' <=? _); reflexivity.
Qed.

Lemma div_sign (c speed : float) s :
  F32.is_finite c = true -> sign_of c = Some s ->
  (speed = S754_infinity false \/ exists m e, speed = S754_finite false m e) ->
  sign_of (c / speed)%f32 = Some s.
Proof.
  intros Hfin Hs Hspeed.
  destruct c as [sc|sc| |sc mc ec]; try discriminate; injection Hs as ->.
  - destruct Hspeed as [->|(m & e & ->)]; cbn; rewrite xorb_false_r; reflexivity.
  - destruct Hspeed as [->|(m & e & ->)].
    + cbn. rewrite xorb_false_r. reflexivity.
    + unfold F32.div, SFdiv, SFdiv_core_binary. cbv zeta.
      set (m' := match _ - _ with Z0 => _ | Zpos _ => _ | Zneg _ => _ end).
      assert (Hm' : 0 <= m').
      { subst m'. destruct (_ - _); [lia| |lia]. apply Z.shiftl_nonneg. lia. }
      pose proof (Z.div_pos m' (Zpos m) Hm' ltac:(lia)) as Hq.
      unfold Z.div in Hq. destruct (Z.div_eucl m' (Zpos m)) as [q r].
      cbn [fst] in Hq. rewrite xorb_false_r.
      apply binary_round_aux_sign. exact Hq.
Qed.

Lemma mul_maxSpeed_sign (x : float) s :
  sign_of x = Some s -> sign_of (x * maxSpeed)%f32 = Some s.
Proof.
  destruct x as [sx|sx| |sx mx ex]; try discriminate; intros Hs;
    injection Hs as ->; unfold maxSpeed, F32.one, F32.mul, SFmul;
    rewrite ?xorb_false_r; try reflexivity.
  apply binary_round_aux_sign. lia.
Qed.

Lemma exceeds_shape (speed : float) :
  (speed >? maxSpeed)%f32 = true ->
  speed = S754_infinity false \/ exists m e, speed = S754_finite false m e.
Proof.
  unfold F32.gtb. intros H.
  destruct speed as [s|[|]| |[|] m e]; try discriminate H.
  - left. reflexivity.
  - right. eexists _, _. reflexivity.
Qed.

Lemma finite_sign (c : float) :
  F32.is_finite c = true -> exists s, sign_of c = Some s.
Proof. destruct c; try discriminate; intros _; eexists; reflexivity. Qed.

Lemma rescale_sign (c speed : float) :
  F32.is_finite c = true -> (speed >? maxSpeed)%f32 = true ->
  sign_of (c / speed * maxSpeed)%f32 = sign_of c.
Proof.
  intros Hfin Hgt. destruct (finite_sign c Hfin) as [s Hs]. rewrite Hs.
  apply mul_maxSpeed_sign, div_sign; [exact Hfin|exact Hs|].
  apply exceeds_shape, Hgt.
Qed.

Lemma rescale_overflow (c : float) :
  F32.is_finite c = true ->
  exists s, (c / S754_infinity false * maxSpeed)%f32 = S754_zero s.
Proof.
  destruct c as [s|s| |s m e]; try discriminate; intros _; eexists; reflexivity.
Qed.

Lemma clampSpeed_below (v : vec3) :
  (V3.length v >? maxSpeed)%f32 = false -> clampSpeed v = v.
Proof. unfold clampSpeed. intros ->. reflexivity. Qed.

Lemma clampSpeed_above (v : vec3) :
  (V3.length v >? maxSpeed)%f32 = true ->
  clampSpeed v = (v / V3.length v * maxSpeed)%v3.
Proof. unfold clampSpeed. intros ->. reflexivity. Qed.

Lemma clampSpeed_signs (v : vec3) :
  V3.is_finite v = true -> signs (clampSpeed v) = signs v.
Proof.
  intros Hfin. unfold V3.is_finite in Hfin.
  apply andb_true_iff in Hfin as [Hfin Hz]. apply andb_true_iff in Hfin as [Hx Hy].
  destruct (V3.length v >? maxSpeed)%f32 eqn:Hgt.
  - rewrite clampSpeed_above by exact Hgt. unfold signs, V3.scale, V3.divs.
    cbn [vx vy vz]. rewrite !rescale_sign by assumption. reflexivity.
  - rewrite clampSpeed_below by exact Hgt. reflexivity.
Qed.

Lemma clampSpeed_overflow (v : vec3) :
  V3.is_finite v = true -> V3.length v = S754_infinity false ->
  V3.length (clampSpeed v) = F32.zero.
Proof.
  intros Hfin Hinf. unfold V3.is_finite in Hfin.
  apply andb_true_iff in Hfin as [Hfin Hz]. apply andb_true_iff in Hfin as [Hx Hy].
  rewrite clampSpeed_above by (rewrite Hinf; reflexivity).
  rewrite Hinf. unfold V3.scale, V3.divs. cbn [vx vy vz].
  destruct (rescale_overflow _ Hx) as [sx ->].
  destruct (rescale_overflow _ Hy) as [sy ->].
  destruct (rescale_overflow _ Hz) as [sz ->].
  destruct sx, sy, sz; reflexivity.
Qed.

Lemma kernUpdateVelocityBruteForce_rd N pos vel1 vel2 i :
  Z.of_nat (length vel2) = N -> 0 <= i < N ->
  rdv (kernUpdateVelocityBruteForce (fullBlocksPerGrid N) N pos vel1 vel2) i
  = clampSpeed (rdv vel1 i + computeVelocityChange N i pos vel1)%v3.
Proof.
  intros Hlen Hi. unfold kernUpdateVelocityBruteForce.
  launch_as_loop N kernUpdateVelocityBruteForce_thread.
  transitivity (rdv ((fun i => clampSpeed
                        (rdv vel1 i + computeVelocityChange N i pos vel1)%v3)
                       <$> seqZ 0 N) i).
  - f_equal. etransitivity; [|apply (tabulate_loop V3.zero); exact Hlen].
    apply for_range_ext. intros j t Hj.
    unfold kernUpdateVelocityBruteForce_thread.
    destruct (Z.leb_spec N j); [lia|reflexivity].
  - exact (rd_map_seqZ V3.zero _ N i Hi).
Qed.

(** * Zero counts *)

Lemma accumulate_unguarded myPos cands :
  unguarded myPos (accumulate myPos cands rules0).
Proof.
  pose proof (accumulate_spec myPos cands) as (H1 & H3 & Hz1 & _ & Hz3).
  cbv zeta in *.
  pose proof (within_nonneg rule1Distance myPos cands) as Hw1.
  pose proof (within_nonneg rule3Distance myPos cands) as Hw3.
  split; intros Hc.
  - assert (Hw : within rule1Distance myPos cands = 0).
    { destruct (Z.eq_dec (within rule1Distance myPos cands) 0) as [?|Hne];
        [assumption|exfalso].
      destruct (of_int_shape (cap24 (within rule1Distance myPos cands)))
        as (m & e & Hm); [unfold cap24; lia|]. unfold F32.zero in Hc. congruence. }
    unfold finish1. rewrite (Hz1 Hw), Hc. reflexivity.
  - assert (Hw : within rule3Distance myPos cands = 0).
    { destruct (Z.eq_dec (within rule3Distance myPos cands) 0) as [?|Hne];
        [assumption|exfalso].
      destruct (of_int_shape (cap24 (within rule3Distance myPos cands)))
        as (m & e & Hm); [unfold cap24; lia|]. unfold F32.zero in Hc. congruence. }
    unfold finish3. rewrite (Hz3 Hw), Hc. reflexivity.
Qed.

(** C3, as the code has it.  In the brute-force loop and in the grid
    loop, a rule-1 or rule-3 count of zero makes the rule's contribution
    NaN in every component: the sum is divided by the count without a
    guard.  Rule 2 has no division and contributes the zero vector when no
    candidate lies within its distance. *)
Theorem zero_count_divides_unguarded :
  (forall N iSelf pos vel,
     unguarded (rdv pos iSelf) (bruteForceLoop N iSelf pos vel)) /\
  (forall gridResolution cellStart cellEnd slotPos slotVel myPos gridX gridY gridZ,
     unguarded myPos
       (gridLoop gridResolution cellStart cellEnd slotPos slotVel myPos
                 gridX gridY gridZ)) /\
  (forall myPos cands,
     within rule2Distance myPos cands = 0 ->
     finish2 (accumulate myPos cands rules0) = V3.zero).
Proof.
  split; [|split].
  - intros. rewrite bruteForceLoop_accumulate. apply accumulate_unguarded.
  - intros. rewrite gridLoop_accumulate. apply accumulate_unguarded.
  - intros myPos cands Hw.
    pose proof (accumulate_spec myPos cands) as (_ & _ & _ & Hz2 & _).
    cbv zeta in Hz2. unfold finish2. rewrite (Hz2 Hw). reflexivity.
Qed.

Lemma zero_count_divides_unguarded_witness :
  within rule2Distance V3.zero [(Vec3 (F32.of_int 4) F32.zero F32.zero, V3.zero)] = 0 /\
  finish2 (accumulate V3.zero
             [(Vec3 (F32.of_int 4) F32.zero F32.zero, V3.zero)] rules0) = V3.zero.
Proof.
  split; [reflexivity|].
  apply (proj2 (proj2 zero_count_divides_unguarded)). reflexivity.
Defined.

(** C3 as stated fails on a boid that finds no candidate: at x = 115 the
    clamped cell coordinate equals the grid side, every one of the eight
    cells is skipped, both counts are zero, and the scattered step stores
    a NaN velocity where a zero contribution was stated. *)
Lemma zero_count_contributes_nan :
  let tbl := replicate (Z.to_nat init_gridCellCount) 0 in
  let p := Vec3 (F32.of_int 115) F32.zero F32.zero in
  let st := initSimulation 1 [p] [V3.zero] [V3.zero] [V3.zero] [0] [0] tbl tbl in
  let s := stepSimulationScatteredGrid F32.one st in
  let g := gridCoord (gridSideCount st) (gridMinimum st)
                     (gridInverseCellWidth st) p in
  let a := gridLoop (gridSideCount st)
             (dev_gridCellStartIndices s) (dev_gridCellEndIndices s)
             (fun j => rdv (dev_pos st) (rdi (dev_particleArrayIndices s) j))
             (fun j => rdv (dev_vel1 st) (rdi (dev_particleArrayIndices s) j))
             p (F32.trunc (vx g)) (F32.trunc (vy g)) (F32.trunc (vz g)) in
  rule1Cnt a = F32.zero /\ rule3Cnt a = F32.zero /\
  finish1 p a = V3.splat F32.nan /\ finish1 p a <> V3.zero /\
  finish3 a = V3.splat F32.nan /\ finish3 a <> V3.zero /\
  dev_vel1 s = [V3.splat F32.nan].
Proof.
  vm_compute. repeat (split; [first [reflexivity|discriminate]|]). reflexivity.
Qed.

(** * Subtraction gives well-formed data *)

Lemma shr_1_div2 mrs : 0 <= shr_m mrs -> shr_m (shr_1 mrs) = shr_m mrs / 2.
Proof.
  destruct mrs as [m r s]. cbn [shr_m]. intros Hm.
  destruct m as [|[p|p|]|p]; cbn [shr_1 shr_m]; try lia; try reflexivity.
  - change (Zpos p~1) with (2 * Zpos p + 1).
    apply Z.div_unique with 1; lia.
  - change (Zpos p~0) with (2 * Zpos p).
    apply Z.div_unique with 0; lia.
Qed.

Lemma iter_pos_shr_1_div n mrs :
  0 <= shr_m mrs ->
  shr_m (SpecFloat.iter_pos shr_1 n mrs) = shr_m mrs / 2 ^ Zpos n.
Proof.
  revert mrs. induction n as [n IH|n IH|]; intros mrs Hm; cbn [SpecFloat.iter_pos].
  - assert (Hp : 0 < 2 ^ Zpos n) by (apply Z.pow_pos_nonneg; lia).
    rewrite IH by (apply iter_pos_shr_1_nonneg, shr_1_nonneg, Hm).
    rewrite IH by (apply shr_1_nonneg, Hm).
    rewrite shr_1_div2 by exact Hm.
    rewrite !Z.div_div by lia.
    f_equal. rewrite Pos2Z.inj_xI.
    replace (2 * Zpos n + 1) with (1 + Zpos n + Zpos n) by lia.
    rewrite !Z.pow_add_r by lia. change (2 ^ 1) with 2. ring.
  - assert (Hp : 0 < 2 ^ Zpos n) by (apply Z.pow_pos_nonneg; lia).
    rewrite IH by (apply iter_pos_shr_1_nonneg, Hm).
    rewrite IH by exact Hm.
    rewrite Z.div_div by lia.
    f_equal. rewrite <- Z.pow_add_r by lia. f_equal. lia.
  - rewrite shr_1_div2 by exact Hm. reflexivity.
Qed.

Lemma round_nearest_even_cases m l :
  round_nearest_even m l = m \/ round_nearest_even m l = m + 1.
Proof.
  unfold round_nearest_even. destruct l as [|[| |]]; auto.
  destruct (Z.even m); auto.
Qed.

Lemma Zdigits2_pos_le (m : positive) (d : Z) :
  Zpos m < 2 ^ d -> Zpos (digits2_pos m) <= d.
Proof.
  intros Hm. pose proof (digits2_pos_bounds m) as [Hlo _].
  destruct (Z_le_gt_dec (Zpos (digits2_pos m)) d) as [?|Hgt]; [assumption|].
  assert (2 ^ d <= 2 ^ (Zpos (digits2_pos m) - 1)) by (apply Z.pow_le_mono_r; lia).
  lia.
Qed.

(** The last two steps of rounding, from a mantissa [m1] at exponent [e1]
    that has at most 24 bits, or exactly [2 ^ 24], and exactly 24 bits
    unless [e1] is the least exponent. *)
Lemma finish_round_valid s (m1 e1 : Z) :
  0 <= m1 <= 2 ^ 24 -> -149 <= e1 ->
  (-149 < e1 -> 2 ^ 23 <= m1) ->
  F32.valid
    (let '(mrs'', e'') := shr_fexp F32.prec F32.emax m1 e1 loc_Exact in
     match shr_m mrs'' with
     | Z0 => S754_zero s
     | Zpos m => if e'' <=? F32.emax - F32.prec
                 then S754_finite s m e'' else S754_infinity s
     | Zneg _ => S754_nan
     end) = true.
Proof.
  intros Hm He Hnorm.
  destruct m1 as [|p|p]; [| |lia].
  { unfold shr_fexp, shr. cbn [Zdigits2 shr_record_of_loc].
    destruct (_ - e1) as [|k|k]; cbn [shr_m]; try reflexivity.
    rewrite iter_pos_shr_1_div by (cbn [shr_m]; lia).
    cbn [shr_m]. rewrite Z.div_0_l by (apply Z.pow_nonzero; lia). reflexivity. }
  unfold shr_fexp. cbn [Zdigits2 shr_record_of_loc].
  destruct (Z.eq_dec (Zpos p) (2 ^ 24)) as [E|Hne].
  - (* the carry: one more shift *)
    assert (Hp : p = 16777216%positive) by (apply Pos2Z.inj; exact E).
    subst p. change (Zpos (digits2_pos 16777216)) with 25.
    assert (Hf : fexp F32.prec F32.emax (25 + e1) - e1 = 1).
    { unfold fexp, emin, F32.prec, F32.emax. lia. }
    rewrite Hf. cbn [shr SpecFloat.iter_pos shr_1 shr_m orb].
    destruct (e1 + 1 <=? F32.emax - F32.prec) eqn:Hb; [|reflexivity].
    unfold F32.valid, valid_binary, bounded, canonical_mantissa.
    rewrite Hb, andb_true_r. apply Z.eqb_eq.
    change (Zpos (digits2_pos 8388608)) with 24.
    unfold fexp, emin, F32.prec, F32.emax. lia.
  - assert (Hd : Zpos (digits2_pos p) <= 24) by (apply Zdigits2_pos_le; lia).
    assert (Hd' : -149 < e1 -> Zpos (digits2_pos p) = 24).
    { intros Hgt. specialize (Hnorm Hgt).
      apply digits2_pos_unique. change (24 - 1) with 23. lia. }
    assert (Hf : fexp F32.prec F32.emax (Zpos (digits2_pos p) + e1) = e1).
    { unfold fexp, emin, F32.prec, F32.emax.
      destruct (Z.eq_dec e1 (-149)) as [->|Hgt]; [lia|].
      rewrite Hd' by lia. lia. }
    rewrite Hf, Z.sub_diag. cbn [shr shr_m].
    destruct (e1 <=? F32.emax - F32.prec) eqn:Hb; [|reflexivity].
    unfold F32.valid, valid_binary, bounded, canonical_mantissa.
    rewrite Hb, andb_true_r. apply Z.eqb_eq. exact Hf.
Qed.

Lemma binary_round_valid s (p : positive) (e : Z) :
  F32.valid (binary_round F32.prec F32.emax s p e) = true.
Proof.
  unfold binary_round.
  pose proof (digits2_pos_bounds p) as [Hlo Hhi].
  set (d := Zpos (digits2_pos p)) in *.
  set (f := fexp F32.prec F32.emax (d + e)).
  assert (Hf : f = Z.max (d + e - 24) (-149))
    by (unfold f, fexp, emin, F32.prec, F32.emax; lia).
  unfold shl_align.
  destruct (f - e) as [|n|n] eqn:Hn.
  - (* already in position *)
    unfold binary_round_aux, shr_fexp at 1. cbn [Zdigits2 shr_record_of_loc].
    fold d. fold f. rewrite Hn.
    cbn [shr shr_m loc_of_shr_record round_nearest_even].
    apply finish_round_valid.
    + split; [lia|]. assert (d <= 24) by lia.
      assert (2 ^ d <= 2 ^ 24) by (apply Z.pow_le_mono_r; lia). lia.
    + lia.
    + intros Hgt. assert (d = 24) by lia.
      replace (d - 1) with 23 in Hlo by lia. exact Hlo.
  - (* too many bits: shift right and round *)
    unfold binary_round_aux, shr_fexp at 1. cbn [Zdigits2 shr_record_of_loc].
    fold d. fold f. rewrite Hn. cbn [shr].
    set (mrs' := SpecFloat.iter_pos shr_1 n (Build_shr_record (Zpos p) false false)).
    assert (Hm' : shr_m mrs' = Zpos p / 2 ^ Zpos n).
    { unfold mrs'. rewrite iter_pos_shr_1_div by (cbn; lia). reflexivity. }
    assert (Hpow : 0 < 2 ^ Zpos n) by (apply Z.pow_pos_nonneg; lia).
    assert (Hq0 : 0 <= shr_m mrs') by (rewrite Hm'; apply Z.div_pos; lia).
    replace (e + Zpos n) with f by lia.
    destruct (round_nearest_even_cases (shr_m mrs') (loc_of_shr_record mrs'))
      as [Hr|Hr]; rewrite Hr.
    + apply finish_round_valid; [| lia |].
      * split; [lia|]. rewrite Hm'.
        apply Z.lt_le_incl, Z.div_lt_upper_bound; [lia|].
        rewrite <- Z.pow_add_r by lia.
        eapply Z.lt_le_trans; [exact Hhi|]. apply Z.pow_le_mono_r; lia.
      * intros Hgt. rewrite Hm'. apply Z.div_le_lower_bound; [lia|].
        rewrite <- Z.pow_add_r by lia.
        etransitivity; [|exact Hlo]. apply Z.pow_le_mono_r; lia.
    + apply finish_round_valid; [| lia |].
      * split; [lia|]. rewrite Hm'.
        apply Z.lt_succ_r. rewrite <- Z.add_1_r.
        apply Z.add_lt_mono_r.
        apply Z.div_lt_upper_bound; [lia|].
        rewrite <- Z.pow_add_r by lia.
        eapply Z.lt_le_trans; [exact Hhi|]. apply Z.pow_le_mono_r; lia.
      * intros Hgt. rewrite Hm'.
        assert (2 ^ 23 <= Zpos p / 2 ^ Zpos n); [|lia].
        apply Z.div_le_lower_bound; [lia|].
        rewrite <- Z.pow_add_r by lia.
        etransitivity; [|exact Hlo]. apply Z.pow_le_mono_r; lia.
  - (* too few bits: shift left into position *)
    assert (Hb : bounded F32.prec F32.emax (Pos.iter xO p n) f
                 = (f <=? F32.emax - F32.prec)).
    { unfold bounded, canonical_mantissa. rewrite digits2_pos_iter_xO. fold d.
      replace (d + Zpos n + f) with (d + e) by lia. fold f.
      rewrite Z.eqb_refl. reflexivity. }
    destruct (f <=? F32.emax - F32.prec) eqn:Hle.
    + rewrite binary_round_aux_bounded by exact Hb.
      unfold F32.valid, valid_binary. exact Hb.
    + unfold binary_round_aux, shr_fexp. cbn [Zdigits2 shr_record_of_loc].
      rewrite digits2_pos_iter_xO. fold d.
      replace (d + Zpos n + f) with (d + e) by lia. fold f.
      rewrite Z.sub_diag. cbn [shr shr_m loc_of_shr_record round_nearest_even].
      cbn [Zdigits2 shr_record_of_loc].
      rewrite digits2_pos_iter_xO. fold d.
      replace (d + Zpos n + f) with (d + e) by lia. fold f.
      rewrite Z.sub_diag. cbn [shr shr_m]. rewrite Hle. reflexivity.
Qed.

Lemma binary_normalize_valid m e szero :
  F32.valid (binary_normalize F32.prec F32.emax m e szero) = true.
Proof.
  destruct m as [|p|p]; [reflexivity| |]; apply binary_round_valid.
Qed.

(** Whatever [x] is, [x - 0.5f] is a well-formed datum. *)
Lemma sub_oneHalf_valid (x : float) : F32.valid (x - oneHalf)%f32 = true.
Proof.
  destruct x as [s|s| |s m e]; try reflexivity.
  unfold F32.sub, SFsub, oneHalf. apply binary_normalize_valid.
Qed.

(** * The spatial hash *)

Lemma wrap32_small z : - 2 ^ 31 <= z < 2 ^ 31 -> wrap32 z = z.
Proof.
  intros Hz. unfold wrap32. rewrite Z.mod_small; lia.
Qed.

Lemma gridIndex3Dto1D_exact x y z side :
  0 <= x <= side -> 0 <= y <= side -> 0 <= z <= side -> side <= 1289 ->
  gridIndex3Dto1D x y z side = x + y * side + z * side ^ 2.
Proof.
  intros Hx Hy Hz Hs. unfold gridIndex3Dto1D, iadd, imul.
  assert (Hys : 0 <= y * side <= 1289 * 1289).
  { split; [apply Z.mul_nonneg_nonneg; lia|].
    apply Z.mul_le_mono_nonneg; lia. }
  assert (Hzs : 0 <= z * side <= 1289 * 1289).
  { split; [apply Z.mul_nonneg_nonneg; lia|].
    apply Z.mul_le_mono_nonneg; lia. }
  assert (Hzss : 0 <= z * side * side <= 1289 * 1289 * 1289).
  { split; [apply Z.mul_nonneg_nonneg; lia|].
    apply Z.mul_le_mono_nonneg; lia. }
  change (2 ^ 31) with 2147483648 in *.
  rewrite (wrap32_small (y * side)) by (change (2 ^ 31) with 2147483648; lia).
  rewrite (wrap32_small (z * side)) by (change (2 ^ 31) with 2147483648; lia).
  rewrite (wrap32_small (z * side * side))
    by (change (2 ^ 31) with 2147483648; lia).
  rewrite (wrap32_small (x + y * side))
    by (change (2 ^ 31) with 2147483648; lia).
  rewrite wrap32_small by (change (2 ^ 31) with 2147483648; lia).
  rewrite Z.pow_2_r. lia.
Qed.

Lemma cellOf_spec side gridMin inv p :
  0 <= side <= 1289 ->
  V3.is_finite (shiftedCoord gridMin inv p) = true ->
  cellOf side gridMin inv p = cellId_spec side gridMin inv p.
Proof.
  intros Hside Hok. unfold V3.is_finite, shiftedCoord in Hok.
  apply andb_true_iff in Hok as [Hok Hz]. apply andb_true_iff in Hok as [Hx Hy].
  assert (Hres : 0 <= side <= 2 ^ 24) by (change (2 ^ 24) with 16777216; lia).
  unfold cellOf, gridCoord, V3.clamp. cbv zeta. cbn [vx vy vz V3.splat].
  cbn [vx vy vz V3.splat V3.sub V3.scale V3.map2] in Hx, Hy, Hz |- *.
  rewrite !trunc_clamp_floor by (first [apply sub_oneHalf_valid | assumption]).
  unfold cellId_spec, cellCoord_spec, clampZ. cbv zeta.
  apply gridIndex3Dto1D_exact; lia.
Qed.

Lemma fmap_rd_seqZ {A B : Type} (d : A) (f : A -> B) (l : list A) N :
  Z.of_nat (length l) = N -> (fun i => f (rd d l i)) <$> seqZ 0 N = f <$> l.
Proof.
  intros Hlen. transitivity (f <$> (rd d l <$> seqZ 0 N)).
  - rewrite <- list_fmap_compose. reflexivity.
  - rewrite (map_rd_self d l N Hlen). reflexivity.
Qed.

(** C6.  For positions whose grid coordinates before the clamp are
    finite (neither NaN nor infinite), the indexer writes the identity into the first output and, into the
    second, for every boid the cell id [x + y*side + z*side^2] of the
    per-axis coordinates [clamp(floor((pos - gridMin) * invCellWidth -
    0.5), 0, gridSideCount)]. *)
Theorem indexer_computes_cell_ids (N side : Z) (gridMin : vec3) (inv : float)
    (pos : list vec3) (indices gridIndices : list Z) :
  Z.of_nat (length pos) = N ->
  Z.of_nat (length indices) = N ->
  Z.of_nat (length gridIndices) = N ->
  0 <= side <= 1289 ->
  Forall (fun p => V3.is_finite (shiftedCoord gridMin inv p) = true) pos ->
  kernComputeIndices (fullBlocksPerGrid N) N side gridMin inv pos
                     indices gridIndices
  = (seqZ 0 N, cellId_spec side gridMin inv <$> pos).
Proof.
  intros Hpos Hidx Hgidx Hside Hok.
  rewrite (kernComputeIndices_map N side gridMin inv pos _ _ Hidx Hgidx).
  f_equal. unfold rdv.
  rewrite (fmap_rd_seqZ V3.zero (cellOf side gridMin inv) pos N Hpos).
  apply Forall_fmap_ext_1. eapply Forall_impl; [exact Hok|].
  intros p Hp. apply cellOf_spec; assumption.
Qed.

Lemma indexer_computes_cell_ids_witness :
  kernComputeIndices (fullBlocksPerGrid 3) 3 init_gridSideCount
    init_gridMinimum init_gridInverseCellWidth demo_pos [7; 7; 7] [9; 9; 9]
  = ([0; 1; 2],
     cellId_spec init_gridSideCount init_gridMinimum init_gridInverseCellWidth
       <$> demo_pos).
Proof.
  apply (indexer_computes_cell_ids 3 init_gridSideCount init_gridMinimum
           init_gridInverseCellWidth demo_pos [7; 7; 7] [9; 9; 9]).
  - reflexivity.
  - reflexivity.
  - reflexivity.
  - vm_compute. split; intro H; discriminate H.
  - repeat constructor.
Defined.

(** * Brute force against the grid *)

(** C1 at the failing input.  Boid A is labelled with cell x = 10 and boid
    B with cell x = 9 (same y and z).  The grid search of A visits the
    cells x = 10 and x = 11 only, so A does not see B although B is
    within every rule distance: the brute-force step gives A the velocity
    (0.19, 0, 0), the scattered-grid step gives it (0, 0, 0), and the
    positions differ accordingly. *)
Theorem grid_search_misses_lower_neighbour :
  let dt := (F32.of_int 1 / F32.of_int 5)%f32 in
  let naive := stepSimulationNaive dt pair_state in
  let grid := stepSimulationScatteredGrid dt pair_state in
  V3.distance (rdv pair_pos 1) (rdv pair_pos 0) = F32.of_int 2 /\
  dev_particleGridIndices grid = [5069; 5070] /\
  dev_particleArrayIndices grid = [1; 0] /\
  rdv (dev_vel1 naive) 0 = Vec3 (S754_finite false 12750684 (-26)) F32.zero F32.zero /\
  rdv (dev_vel1 grid) 0 = V3.zero /\
  (tolerance <? vx (rdv (dev_vel1 naive) 0) - vx (rdv (dev_vel1 grid) 0))%f32 = true /\
  (tolerance <? vx (rdv (dev_pos naive) 0) - vx (rdv (dev_pos grid) 0))%f32 = true.
Proof. vm_compute. repeat (split; [reflexivity|]). reflexivity. Qed.

(** * Stale bucket ranges *)

(** A step never resets the two tables: an entry whose cell receives no
    boid in this step is what it was before the step. *)
Lemma step_keeps_entries_of_empty_cells (dt : float) (st : state) (c : Z) :
  buffers_sized st ->
  (forall i, 0 <= i < numObjects st ->
     cellOf (gridSideCount st) (gridMinimum st) (gridInverseCellWidth st)
            (rdv (dev_pos st) i) <> c) ->
  let s := stepSimulationScatteredGrid dt st in
  rdi (dev_gridCellStartIndices s) c = rdi (dev_gridCellStartIndices st) c /\
  rdi (dev_gridCellEndIndices s) c = rdi (dev_gridCellEndIndices st) c.
Proof.
  intros (Hpos & Hpos2 & Hvel1 & Hvel2 & Hidx & Hgidx) Hempty.
  set (N := numObjects st) in *.
  assert (HN : 0 <= N) by lia.
  unfold stepSimulationScatteredGrid. fold N.
  rewrite (kernComputeIndices_map N _ _ _ _ _ _ Hidx Hgidx).
  cbv beta iota.
  set (cells := (fun i => cellOf (gridSideCount st) (gridMinimum st)
                            (gridInverseCellWidth st) (rdv (dev_pos st) i))
                <$> seqZ 0 N).
  destruct (sort_by_key_spec N cells (seqZ 0 N)) as (_ & Hkeys & _ & _ & Hlk & _).
  { unfold cells. rewrite length_fmap, length_seqZ. lia. }
  { rewrite length_seqZ. lia. }
  destruct (sort_by_key N cells (seqZ 0 N)) as [keys idx].
  cbn [fst snd] in Hkeys, Hlk.
  assert (Hnone : forall i, 0 <= i < N -> rdi keys i <> c).
  { intros i Hi Heq.
    destruct (lookup_lt_is_Some_2 keys (Z.to_nat i) ltac:(lia)) as [k Hk].
    pose proof (rd_lookup 0 keys _ _ Hk) as Hr. rewrite Z2Nat.id in Hr by lia.
    assert (Hin : k ∈ cells).
    { rewrite <- Hkeys. apply list_elem_of_lookup. eexists. exact Hk. }
    unfold cells in Hin. apply list_elem_of_fmap in Hin as (j & Hj & Hin).
    apply elem_of_seqZ in Hin. apply (Hempty j ltac:(lia)).
    unfold rdi in Heq. congruence. }
  rewrite kernIdentifyCellStartEnd_scatter by exact HN.
  cbv beta iota zeta. cbn [dev_gridCellStartIndices dev_gridCellEndIndices].
  split.
  - destruct (Z_lt_ge_dec c 0) as [Hneg|Hc];
      [unfold rdi; rewrite !rd_oob by (left; exact Hneg); reflexivity|].
    destruct (Z_lt_ge_dec c (Z.of_nat (length (dev_gridCellStartIndices st))))
      as [Hin|Hout].
    + destruct (scatter_spec 0 (isStart keys) (rdi keys) (fun i => i) N
                  (dev_gridCellStartIndices st) c HN ltac:(lia))
        as [[Hrd' _]|(j & Hj & _ & Hk & _)]; [exact Hrd'|].
      exfalso. exact (Hnone j Hj Hk).
    + unfold rdi. rewrite !rd_oob; [reflexivity|right; lia|right].
      rewrite length_scatter. lia.
  - destruct (Z_lt_ge_dec c 0) as [Hneg|Hc];
      [unfold rdi; rewrite !rd_oob by (left; exact Hneg); reflexivity|].
    destruct (Z_lt_ge_dec c (Z.of_nat (length (dev_gridCellEndIndices st))))
      as [Hin|Hout].
    + destruct (scatter_spec 0 (isEnd N keys) (rdi keys) (fun i => i + 1) N
                  (dev_gridCellEndIndices st) c HN ltac:(lia))
        as [[Hrd' _]|(j & Hj & _ & Hk & _)]; [exact Hrd'|].
      exfalso. exact (Hnone j Hj Hk).
    + unfold rdi. rewrite !rd_oob; [reflexivity|right; lia|right].
      rewrite length_scatter. lia.
Qed.

(** C2 at the failing input.  The first step puts the boid in cell 5069
    and records the range [0, 1) for it.  In the second step the boid is
    in cell 5070; cell 5069 has no occupant, and its entry still holds the
    range [0, 1) of the first step (start <> end: not an empty marker),
    which is now the slot of the boid in cell 5070.  The scattered and the
    coherent step behave alike. *)
Theorem stale_range_after_second_step :
  let s1 := stepSimulationScatteredGrid F32.one mover_state in
  let s2 := stepSimulationScatteredGrid F32.one s1 in
  let c1 := stepSimulationCoherentGrid F32.one mover_state in
  let c2 := stepSimulationCoherentGrid F32.one c1 in
  dev_particleGridIndices s1 = [5069] /\
  (rdi (dev_gridCellStartIndices s1) 5069, rdi (dev_gridCellEndIndices s1) 5069)
    = (0, 1) /\
  dev_particleGridIndices s2 = [5070] /\
  (rdi (dev_gridCellStartIndices s2) 5070, rdi (dev_gridCellEndIndices s2) 5070)
    = (0, 1) /\
  (rdi (dev_gridCellStartIndices s2) 5069, rdi (dev_gridCellEndIndices s2) 5069)
    = (0, 1) /\
  dev_particleGridIndices c1 = [5069] /\
  dev_particleGridIndices c2 = [5070] /\
  (rdi (dev_gridCellStartIndices c2) 5069, rdi (dev_gridCellEndIndices c2) 5069)
    = (0, 1).
Proof. vm_compute. repeat (split; [reflexivity|]). reflexivity. Qed.

(** * Rounding keeps a value between two data *)

Lemma pow2_pos a : 0 <= a -> 0 < 2 ^ a.
Proof. intros. apply Z.pow_pos_nonneg; lia. Qed.

Lemma pow2_le a b : 0 <= a <= b -> 2 ^ a <= 2 ^ b.
Proof. intros. apply Z.pow_le_mono_r; lia. Qed.

Lemma pow2_add a b : 0 <= a -> 0 <= b -> 2 ^ (a + b) = 2 ^ a * 2 ^ b.
Proof. intros. apply Z.pow_add_r; lia. Qed.

Lemma finish_round_value s m2 f :
  0 < m2 <= 2 ^ 24 -> -149 <= f -> (-149 < f -> 2 ^ 23 <= m2) ->
  m2 * 2 ^ (f + 149) < 2 ^ 277 ->
  exists m' e', finish_round s m2 f = S754_finite s m' e' /\
                -149 <= e' /\
                Zpos m' * 2 ^ (e' + 149) = m2 * 2 ^ (f + 149).
Proof.
  intros Hm Hf Hnorm Hov. unfold finish_round.
  destruct m2 as [|p|p]; [lia| |lia].
  unfold shr_fexp. cbn [Zdigits2 shr_record_of_loc].
  assert (Hfle : Zpos p < 2 ^ 24 -> f <= 104).
  { intros Hlt. destruct (Z_le_gt_dec f 104) as [?|Hgt]; [assumption|exfalso].
    specialize (Hnorm ltac:(lia)).
    assert (2 ^ 254 <= 2 ^ (f + 149)) by (apply pow2_le; lia).
    assert (2 ^ 23 * 2 ^ 254 <= Zpos p * 2 ^ (f + 149))
      by (apply Z.mul_le_mono_nonneg; lia).
    change (2 ^ 23 * 2 ^ 254) with (2 ^ 277) in *. lia. }
  destruct (Z.eq_dec (Zpos p) (2 ^ 24)) as [E|Hne].
  - assert (Hp : p = 16777216%positive) by (apply Pos2Z.inj; exact E).
    subst p. change (Zpos (digits2_pos 16777216)) with 25.
    assert (Hfe : fexp F32.prec F32.emax (25 + f) - f = 1).
    { unfold fexp, emin, F32.prec, F32.emax. lia. }
    rewrite Hfe. cbn [shr SpecFloat.iter_pos shr_1 shr_m orb].
    assert (Hf1 : f + 1 <= 104).
    { destruct (Z_le_gt_dec (f + 1) 104) as [?|Hgt]; [assumption|exfalso].
      assert (2 ^ 253 <= 2 ^ (f + 149)) by (apply pow2_le; lia).
      assert (2 ^ 24 * 2 ^ 253 <= 16777216 * 2 ^ (f + 149))
        by (apply Z.mul_le_mono_nonneg; lia).
      change (2 ^ 24 * 2 ^ 253) with (2 ^ 277) in *. lia. }
    replace (f + 1 <=? F32.emax - F32.prec) with true
      by (symmetry; apply Z.leb_le; unfold F32.emax, F32.prec; lia).
    exists 8388608%positive, (f + 1). split; [reflexivity|]. split; [lia|].
    replace (f + 1 + 149) with (1 + (f + 149)) by lia.
    rewrite pow2_add by lia. change (2 ^ 1) with 2. lia.
  - assert (Hd : Zpos (digits2_pos p) <= 24) by (apply Zdigits2_pos_le; lia).
    assert (Hd' : -149 < f -> Zpos (digits2_pos p) = 24).
    { intros Hgt. specialize (Hnorm Hgt).
      apply digits2_pos_unique. change (24 - 1) with 23. lia. }
    assert (Hfe : fexp F32.prec F32.emax (Zpos (digits2_pos p) + f) = f).
    { unfold fexp, emin, F32.prec, F32.emax.
      destruct (Z.eq_dec f (-149)) as [->|Hgt]; [lia|].
      rewrite Hd' by lia. lia. }
    rewrite Hfe, Z.sub_diag. cbn [shr shr_m].
    replace (f <=? F32.emax - F32.prec) with true
      by (symmetry; apply Z.leb_le; unfold F32.emax, F32.prec;
          specialize (Hfle ltac:(lia)); lia).
    exists p, f. split; [reflexivity|]. split; [lia|reflexivity].
Qed.

Lemma shr_exact (p n : positive) :
  Zpos p mod 2 ^ Zpos n = 0 -> exists q, p = Pos.iter xO q n.
Proof.
  intros H. apply Z.mod_divide in H; [|pose proof (pow2_pos (Zpos n)); lia].
  destruct H as [c Hc].
  assert (Hpow : 0 < 2 ^ Zpos n) by (apply pow2_pos; lia).
  destruct c as [|q|q]; [lia| |lia].
  exists q. apply Pos2Z.inj. rewrite Zpos_iter_xO. exact Hc.
Qed.

(** What [binary_round] rounds: with [f] the exponent of the result, the
    mantissa [m2] is [p * 2^(e - f)] when that is an integer, and else one
    of the two integers around it. *)
Lemma binary_round_finish s (p : positive) (e : Z) :
  let d := Zpos (digits2_pos p) in
  let f := Z.max (d + e - 24) (-149) in
  exists m2,
    binary_round F32.prec F32.emax s p e = finish_round s m2 f /\
    0 <= m2 <= 2 ^ 24 /\ (-149 < f -> 2 ^ 23 <= m2) /\
    (f <= e -> m2 = Zpos p * 2 ^ (e - f)) /\
    (e < f -> Zpos p / 2 ^ (f - e) <= m2 <= Zpos p / 2 ^ (f - e) + 1 /\
              (Zpos p mod 2 ^ (f - e) = 0 -> m2 = Zpos p / 2 ^ (f - e))).
Proof.
  intros d f0. unfold binary_round. fold d.
  pose proof (digits2_pos_bounds p) as [Hlo Hhi]. fold d in Hlo, Hhi.
  set (f := fexp F32.prec F32.emax (d + e)).
  assert (Hf : f = f0) by (unfold f, f0, fexp, emin, F32.prec, F32.emax; lia).
  unfold shl_align.
  destruct (f - e) as [|n|n] eqn:Hn.
  - exists (Zpos p). split; [|split; [|split; [|split]]].
    + unfold binary_round_aux, shr_fexp at 1. cbn [Zdigits2 shr_record_of_loc].
      fold d. fold f. rewrite Hn.
      cbn [shr shr_m loc_of_shr_record round_nearest_even].
      rewrite <- Hf. replace e with f by lia. reflexivity.
    + split; [lia|]. assert (d <= 24) by lia.
      assert (2 ^ d <= 2 ^ 24) by (apply Z.pow_le_mono_r; lia). lia.
    + intros Hgt. assert (d = 24) by lia.
      replace (d - 1) with 23 in Hlo by lia. exact Hlo.
    + intros _. replace (e - f0) with 0 by lia. lia.
    + intros ?. lia.
  - set (mrs' := SpecFloat.iter_pos shr_1 n (Build_shr_record (Zpos p) false false)).
    assert (Hm' : shr_m mrs' = Zpos p / 2 ^ Zpos n).
    { unfold mrs'. rewrite iter_pos_shr_1_div by (cbn; lia). reflexivity. }
    assert (Hpow : 0 < 2 ^ Zpos n) by (apply Z.pow_pos_nonneg; lia).
    assert (Hq0 : 0 <= shr_m mrs') by (rewrite Hm'; apply Z.div_pos; lia).
    exists (round_nearest_even (shr_m mrs') (loc_of_shr_record mrs')).
    assert (Hfe : f0 - e = Zpos n) by lia.
    assert (Hup : Zpos p / 2 ^ Zpos n < 2 ^ 24).
    { apply Z.div_lt_upper_bound; [lia|].
      rewrite <- Z.pow_add_r by lia.
      eapply Z.lt_le_trans; [exact Hhi|]. apply Z.pow_le_mono_r; lia. }
    assert (Hdn : -149 < f0 -> 2 ^ 23 <= Zpos p / 2 ^ Zpos n).
    { intros Hgt. apply Z.div_le_lower_bound; [lia|].
      rewrite <- Z.pow_add_r by lia.
      etransitivity; [|exact Hlo]. apply Z.pow_le_mono_r; lia. }
    split; [|split; [|split; [|split]]].
    + unfold binary_round_aux, shr_fexp at 1. cbn [Zdigits2 shr_record_of_loc].
      fold d. fold f. rewrite Hn. cbn [shr]. fold mrs'.
      replace (e + Zpos n) with f0 by lia. reflexivity.
    + destruct (round_nearest_even_cases (shr_m mrs') (loc_of_shr_record mrs'))
        as [Hr|Hr]; rewrite Hr, Hm'; lia.
    + intros Hgt. specialize (Hdn Hgt).
      destruct (round_nearest_even_cases (shr_m mrs') (loc_of_shr_record mrs'))
        as [Hr|Hr]; rewrite Hr, Hm'; lia.
    + intros ?. lia.
    + intros _. rewrite Hfe. split.
      * destruct (round_nearest_even_cases (shr_m mrs') (loc_of_shr_record mrs'))
          as [Hr|Hr]; rewrite Hr, Hm'; lia.
      * intros Hex. destruct (shr_exact p n Hex) as [q ->].
        unfold mrs'. rewrite iter_pos_shr_1_exact.
        cbn [shr_m loc_of_shr_record shr_r shr_s round_nearest_even].
        rewrite Zpos_iter_xO. rewrite Z.div_mul by lia. reflexivity.
  - exists (Zpos (Pos.iter xO p n)).
    assert (Hdig : Zpos (digits2_pos (Pos.iter xO p n)) + f = d + e).
    { rewrite digits2_pos_iter_xO. fold d. lia. }
    split; [|split; [|split; [|split]]].
    + unfold binary_round_aux, shr_fexp at 1. cbn [Zdigits2 shr_record_of_loc].
      rewrite Hdig. fold f. rewrite Z.sub_diag.
      cbn [shr shr_m loc_of_shr_record round_nearest_even].
      rewrite <- Hf. reflexivity.
    + rewrite Zpos_iter_xO. split; [lia|].
      assert (Hd24 : d + Zpos n <= 24) by lia.
      assert (Zpos p * 2 ^ Zpos n < 2 ^ d * 2 ^ Zpos n).
      { apply Z.mul_lt_mono_pos_r; [apply pow2_pos; lia|lia]. }
      rewrite <- Z.pow_add_r in H by lia.
      assert (2 ^ (d + Zpos n) <= 2 ^ 24) by (apply pow2_le; lia). lia.
    + intros Hgt. rewrite Zpos_iter_xO.
      assert (Hd24 : d + Zpos n = 24) by lia.
      assert (2 ^ (d - 1) * 2 ^ Zpos n <= Zpos p * 2 ^ Zpos n).
      { apply Z.mul_le_mono_nonneg_r; [pose proof (pow2_pos (Zpos n)); lia|lia]. }
      pose proof (digits2_pos_ge_1 p) as Hge. fold d in Hge.
      rewrite <- Z.pow_add_r in H by lia.
      replace (d - 1 + Zpos n) with 23 in H by lia. exact H.
    + intros _. rewrite Zpos_iter_xO. f_equal. f_equal. lia.
    + intros ?. lia.
Qed.

Lemma valid_lt_2p277 m e :
  F32.valid (S754_finite false m e) = true -> Zpos m * 2 ^ (e + 149) < 2 ^ 277.
Proof.
  intros Hv. apply valid_finite_inv in Hv as (He & Hd & _).
  pose proof (digits2_pos_bounds m) as [_ Hhi].
  assert (Hm : Zpos m < 2 ^ 24).
  { eapply Z.lt_le_trans; [exact Hhi|]. apply pow2_le. lia. }
  assert (2 ^ (e + 149) <= 2 ^ 253) by (apply pow2_le; lia).
  assert (0 < 2 ^ (e + 149)) by (apply pow2_pos; lia).
  change (2 ^ 277) with (2 ^ 24 * 2 ^ 253).
  apply Z.le_lt_trans with (Zpos m * 2 ^ 253).
  - apply Z.mul_le_mono_nonneg_l; lia.
  - apply Z.mul_lt_mono_pos_r; [apply pow2_pos|]; lia.
Qed.

(** With [f] the exponent of the result of rounding [p * 2^e] and [m2]
    its mantissa (exact when nothing is shifted out, within one of the
    quotient otherwise), the result does not exceed a representable
    upper bound of the exact value, and is not below a representable
    lower bound. *)
Lemma round_upper (p : positive) (e K m2 : Z) mh eh :
  let d := Zpos (digits2_pos p) in
  let f := Z.max (d + e - 24) (-149) in
  149 <= K -> 0 <= e + K ->
  (f <= e -> m2 = Zpos p * 2 ^ (e - f)) ->
  (e < f -> Zpos p / 2 ^ (f - e) <= m2 <= Zpos p / 2 ^ (f - e) + 1 /\
            (Zpos p mod 2 ^ (f - e) = 0 -> m2 = Zpos p / 2 ^ (f - e))) ->
  F32.valid (S754_finite false mh eh) = true ->
  Zpos p * 2 ^ (e + K) <= Zpos mh * 2 ^ (eh + K) ->
  m2 * 2 ^ (f + 149) <= Zpos mh * 2 ^ (eh + 149).
Proof.
  intros d f HK HeK Hexact Hshift Hv Hle. apply valid_finite_inv in Hv as (He & Hd & Hn).
  pose proof (digits2_pos_bounds p) as [Hlo Hhi]. fold d in Hlo, Hhi.
  pose proof (digits2_pos_bounds mh) as [_ Hmh].
  assert (Hmh' : Zpos mh < 2 ^ 24).
  { eapply Z.lt_le_trans; [exact Hmh|]. apply pow2_le. lia. }
  assert (Hf149 : -149 <= f) by (unfold f; lia).
  destruct (Z_le_gt_dec f e) as [Hfe|Hfe].
  - rewrite (Hexact Hfe).
    assert (Hc : 0 < 2 ^ (K - 149)) by (apply pow2_pos; lia).
    apply (Z.mul_le_mono_pos_r _ _ _ Hc).
    replace (Zpos p * 2 ^ (e - f) * 2 ^ (f + 149) * 2 ^ (K - 149))
      with (Zpos p * 2 ^ (e + K)).
    2:{ replace (e + K) with ((e - f) + (f + 149) + (K - 149)) by lia.
        rewrite (pow2_add (e - f + (f + 149)) (K - 149)) by lia.
        rewrite (pow2_add (e - f) (f + 149)) by lia. ring. }
    replace (Zpos mh * 2 ^ (eh + 149) * 2 ^ (K - 149))
      with (Zpos mh * 2 ^ (eh + K)).
    2:{ replace (eh + K) with ((eh + 149) + (K - 149)) by lia.
        rewrite (pow2_add (eh + 149) (K - 149)) by lia. ring. }
    exact Hle.
  - destruct (Hshift ltac:(lia)) as [[_ Hm2] Hex].
    set (n := f - e) in *. assert (Hn0 : 0 < n) by (unfold n; lia).
    assert (HN : 0 < 2 ^ n) by (apply pow2_pos; lia).
    assert (HA : 0 < 2 ^ (e + K)) by (apply pow2_pos; lia).
    destruct (Z_le_gt_dec f eh) as [Hfeh|Hfeh].
    + set (H := Zpos mh * 2 ^ (eh - f)).
      assert (HH : Zpos mh * 2 ^ (eh + K) = H * 2 ^ n * 2 ^ (e + K)).
      { unfold H, n. replace (eh + K) with ((eh - f) + (f - e) + (e + K)) by lia.
        rewrite (pow2_add (eh - f + (f - e)) (e + K)) by lia.
        rewrite (pow2_add (eh - f) (f - e)) by lia. ring. }
      rewrite HH in Hle.
      apply Z.mul_le_mono_pos_r in Hle; [|exact HA].
      assert (Hm2H : m2 <= H).
      { pose proof (Z.div_mod (Zpos p) (2 ^ n) ltac:(lia)) as Hdm.
        pose proof (Z.mod_pos_bound (Zpos p) (2 ^ n) HN) as Hmb.
        destruct (Z.eq_dec (Zpos p mod 2 ^ n) 0) as [Hz|Hnz].
        - rewrite (Hex Hz). nia.
        - assert (Zpos p / 2 ^ n < H) by nia. lia. }
      replace (Zpos mh * 2 ^ (eh + 149)) with (H * 2 ^ (f + 149)).
      2:{ unfold H. replace (eh + 149) with ((eh - f) + (f + 149)) by lia.
          rewrite (pow2_add (eh - f) (f + 149)) by lia. ring. }
      apply Z.mul_le_mono_nonneg_r; [|exact Hm2H].
      pose proof (pow2_pos (f + 149)). lia.
    + exfalso. assert (Hfd : f = d + e - 24) by (unfold f in *; lia).
      assert (H1 : Zpos mh * 2 ^ (eh + K) < 2 ^ 24 * 2 ^ (eh + K)).
      { apply Z.mul_lt_mono_pos_r; [apply pow2_pos; lia|exact Hmh']. }
      rewrite <- pow2_add in H1 by lia.
      assert (H2 : 2 ^ (24 + (eh + K)) <= 2 ^ ((d - 1) + (e + K)))
        by (apply pow2_le; lia).
      pose proof (digits2_pos_ge_1 p) as Hd1. fold d in Hd1.
      rewrite (pow2_add (d - 1)) in H2 by lia.
      assert (2 ^ (d - 1) * 2 ^ (e + K) <= Zpos p * 2 ^ (e + K))
        by (apply Z.mul_le_mono_nonneg_r; lia).
      lia.
Qed.

Lemma round_lower (p : positive) (e K m2 : Z) ml el :
  let d := Zpos (digits2_pos p) in
  let f := Z.max (d + e - 24) (-149) in
  149 <= K -> 0 <= e + K ->
  (f <= e -> m2 = Zpos p * 2 ^ (e - f)) ->
  (e < f -> Zpos p / 2 ^ (f - e) <= m2 <= Zpos p / 2 ^ (f - e) + 1 /\
            (Zpos p mod 2 ^ (f - e) = 0 -> m2 = Zpos p / 2 ^ (f - e))) ->
  F32.valid (S754_finite false ml el) = true ->
  Zpos ml * 2 ^ (el + K) <= Zpos p * 2 ^ (e + K) ->
  Zpos ml * 2 ^ (el + 149) <= m2 * 2 ^ (f + 149).
Proof.
  intros d f HK HeK Hexact Hshift Hv Hle. apply valid_finite_inv in Hv as (He & Hd & Hn).
  pose proof (digits2_pos_bounds p) as [Hlo Hhi]. fold d in Hlo, Hhi.
  pose proof (digits2_pos_bounds ml) as [_ Hml].
  assert (Hml' : Zpos ml < 2 ^ 24).
  { eapply Z.lt_le_trans; [exact Hml|]. apply pow2_le. lia. }
  assert (Hf149 : -149 <= f) by (unfold f; lia).
  destruct (Z_le_gt_dec f e) as [Hfe|Hfe].
  - rewrite (Hexact Hfe).
    assert (Hc : 0 < 2 ^ (K - 149)) by (apply pow2_pos; lia).
    apply (Z.mul_le_mono_pos_r _ _ _ Hc).
    replace (Zpos p * 2 ^ (e - f) * 2 ^ (f + 149) * 2 ^ (K - 149))
      with (Zpos p * 2 ^ (e + K)).
    2:{ replace (e + K) with ((e - f) + (f + 149) + (K - 149)) by lia.
        rewrite (pow2_add (e - f + (f + 149)) (K - 149)) by lia.
        rewrite (pow2_add (e - f) (f + 149)) by lia. ring. }
    replace (Zpos ml * 2 ^ (el + 149) * 2 ^ (K - 149))
      with (Zpos ml * 2 ^ (el + K)).
    2:{ replace (el + K) with ((el + 149) + (K - 149)) by lia.
        rewrite (pow2_add (el + 149) (K - 149)) by lia. ring. }
    exact Hle.
  - destruct (Hshift ltac:(lia)) as [[Hm2 _] _].
    set (n := f - e) in *. assert (Hn0 : 0 < n) by (unfold n; lia).
    assert (HN : 0 < 2 ^ n) by (apply pow2_pos; lia).
    assert (HA : 0 < 2 ^ (e + K)) by (apply pow2_pos; lia).
    assert (HF : 0 < 2 ^ (f + 149)) by (apply pow2_pos; lia).
    destruct (Z_le_gt_dec f el) as [Hfel|Hfel].
    + set (L := Zpos ml * 2 ^ (el - f)).
      assert (HL : Zpos ml * 2 ^ (el + K) = L * 2 ^ n * 2 ^ (e + K)).
      { unfold L, n. replace (el + K) with ((el - f) + (f - e) + (e + K)) by lia.
        rewrite (pow2_add (el - f + (f - e)) (e + K)) by lia.
        rewrite (pow2_add (el - f) (f - e)) by lia. ring. }
      rewrite HL in Hle.
      apply Z.mul_le_mono_pos_r in Hle; [|exact HA].
      assert (HLm : L <= Zpos p / 2 ^ n)
        by (apply Z.div_le_lower_bound; lia).
      replace (Zpos ml * 2 ^ (el + 149)) with (L * 2 ^ (f + 149)).
      2:{ unfold L. replace (el + 149) with ((el - f) + (f + 149)) by lia.
          rewrite (pow2_add (el - f) (f + 149)) by lia. ring. }
      apply Z.mul_le_mono_nonneg_r; lia.
    + assert (Hfd : f = d + e - 24) by (unfold f in *; lia).
      assert (H23 : 2 ^ 23 <= Zpos p / 2 ^ n).
      { apply Z.div_le_lower_bound; [lia|].
        rewrite Z.mul_comm, <- pow2_add by lia.
        etransitivity; [|exact Hlo]. apply pow2_le. unfold n. lia. }
      assert (H1 : Zpos ml * 2 ^ (el + 149) <= 2 ^ 24 * 2 ^ (el + 149)).
      { apply Z.mul_le_mono_nonneg_r; [pose proof (pow2_pos (el + 149)); lia|lia]. }
      rewrite <- pow2_add in H1 by lia.
      assert (H2 : 2 ^ (24 + (el + 149)) <= 2 ^ (23 + (f + 149)))
        by (apply pow2_le; lia).
      rewrite (pow2_add 23) in H2 by lia.
      assert (2 ^ 23 * 2 ^ (f + 149) <= m2 * 2 ^ (f + 149))
        by (apply Z.mul_le_mono_nonneg_r; lia).
      lia.
Qed.

(** Rounding is monotone against representable bounds: a value between
    two binary32 data rounds to a datum between them. *)
Lemma binary_round_between s p e K ml el mh eh :
  F32.valid (S754_finite false ml el) = true ->
  F32.valid (S754_finite false mh eh) = true ->
  149 <= K -> 0 <= e + K ->
  Zpos ml * 2 ^ (el + K) <= Zpos p * 2 ^ (e + K) <= Zpos mh * 2 ^ (eh + K) ->
  exists m' e',
    binary_round F32.prec F32.emax s p e = S754_finite s m' e' /\
    F32.valid (S754_finite s m' e') = true /\
    Zpos ml * 2 ^ (el + 149) <= Zpos m' * 2 ^ (e' + 149) <= Zpos mh * 2 ^ (eh + 149).
Proof.
  intros Hvl Hvh HK HeK [Hlo Hhi].
  destruct (binary_round_finish s p e) as (m2 & Hr & Hrange & Hnorm & Hexact & Hshift).
  pose proof (round_upper p e K m2 mh eh HK HeK Hexact Hshift Hvh Hhi) as Hup.
  pose proof (round_lower p e K m2 ml el HK HeK Hexact Hshift Hvl Hlo) as Hdn.
  set (f := Z.max (Zpos (digits2_pos p) + e - 24) (-149)) in *.
  assert (Hf : -149 <= f) by (unfold f; lia).
  assert (HF : 0 < 2 ^ (f + 149)) by (apply pow2_pos; lia).
  assert (Hel : -149 <= el) by (apply valid_finite_inv in Hvl; lia).
  assert (HL : 0 < Zpos ml * 2 ^ (el + 149)).
  { apply Z.mul_pos_pos; [lia|apply pow2_pos; lia]. }
  assert (Hm2 : 0 < m2) by nia.
  pose proof (valid_lt_2p277 mh eh Hvh) as Hov.
  destruct (finish_round_value s m2 f ltac:(lia) Hf Hnorm ltac:(lia))
    as (m' & e' & Hfin & He' & Hval).
  exists m', e'. rewrite Hr, Hfin. split; [reflexivity|]. split.
  - rewrite <- Hfin, <- Hr. apply binary_round_valid.
  - rewrite Hval. lia.
Qed.

(** * Order and arithmetic on signed values *)

Lemma scaled_pos s m e : -149 <= e -> 0 < scaled (S754_finite s m e).
Proof.
  intros He. cbn [scaled]. apply Z.mul_pos_pos; [lia|apply pow2_pos; lia].
Qed.

Lemma compare_cont_scaled m1 e1 m2 e2 :
  F32.valid (S754_finite false m1 e1) = true ->
  F32.valid (S754_finite false m2 e2) = true ->
  match e1 ?= e2 with
  | Eq => Pos.compare_cont Eq m1 m2
  | Lt => Lt
  | Gt => Gt
  end = (Zpos m1 * 2 ^ (e1 + 149) ?= Zpos m2 * 2 ^ (e2 + 149)).
Proof.
  intros H1 H2. pose proof (compare_scaled m1 e1 m2 e2 H1 H2) as H.
  cbn [SFcompare scaled] in H. injection H as H. exact H.
Qed.

Lemma compare_sval (x y : float) :
  F32.valid x = true -> F32.valid y = true ->
  F32.is_finite x = true -> F32.is_finite y = true ->
  SFcompare x y = Some (sval x ?= sval y).
Proof.
  intros Hx Hy Fx Fy.
  destruct x as [sx|sx| |sx mx ex]; try discriminate;
  destruct y as [sy|sy| |sy my ey]; try discriminate.
  - reflexivity.
  - pose proof (valid_finite_inv _ _ _ Hy) as (He & _).
    pose proof (scaled_pos sy my ey ltac:(lia)) as Hp.
    cbn [SFcompare]. f_equal. destruct sy; cbn [sval]; cbn [scaled] in *;
      symmetry; [apply Z.compare_gt_iff|apply Z.compare_lt_iff]; lia.
  - pose proof (valid_finite_inv _ _ _ Hx) as (He & _).
    pose proof (scaled_pos sx mx ex ltac:(lia)) as Hp.
    cbn [SFcompare]. f_equal. destruct sx; cbn [sval]; cbn [scaled] in *;
      symmetry; [apply Z.compare_lt_iff|apply Z.compare_gt_iff]; lia.
  - pose proof (valid_finite_inv _ _ _ Hx) as (Hex & _).
    pose proof (valid_finite_inv _ _ _ Hy) as (Hey & _).
    pose proof (scaled_pos sx mx ex ltac:(lia)) as Hpx.
    pose proof (scaled_pos sy my ey ltac:(lia)) as Hpy.
    cbn [SFcompare]. f_equal.
    destruct sx, sy; cbn [sval]; cbn [scaled] in *.
    + rewrite Z.compare_opp.
      rewrite <- (compare_cont_scaled my ey mx ex Hy Hx).
      rewrite (Z.compare_antisym ey ex).
      destruct (ey ?= ex); try reflexivity. cbn [CompOpp].
      rewrite (Pos.compare_cont_antisym). reflexivity.
    + symmetry. apply Z.compare_lt_iff. lia.
    + symmetry. apply Z.compare_gt_iff. lia.
    + apply compare_cont_scaled; assumption.
Qed.

Lemma leb_sval (x y : float) :
  F32.valid x = true -> F32.valid y = true ->
  F32.is_finite x = true -> F32.is_finite y = true ->
  F32.leb x y = (sval x <=? sval y).
Proof.
  intros Hx Hy Fx Fy. unfold F32.leb, SFleb.
  rewrite compare_sval by assumption. unfold Z.leb.
  destruct (sval x ?= sval y); reflexivity.
Qed.

Lemma ltb_sval (x y : float) :
  F32.valid x = true -> F32.valid y = true ->
  F32.is_finite x = true -> F32.is_finite y = true ->
  F32.ltb x y = (sval x <? sval y).
Proof.
  intros Hx Hy Fx Fy. unfold F32.ltb, SFltb.
  rewrite compare_sval by assumption. unfold Z.ltb.
  destruct (sval x ?= sval y); reflexivity.
Qed.

Lemma leb_finite_l (x y : float) :
  F32.is_finite y = true -> F32.leb x y = true ->
  F32.is_finite x = true \/ x = S754_infinity true.
Proof.
  intros Fy H.
  destruct x as [sx|sx| |sx mx ex]; [left; reflexivity| | |left; reflexivity].
  - destruct y as [sy|sy| |sy my ey]; try discriminate;
      destruct sx; try discriminate; right; reflexivity.
  - discriminate.
Qed.

Lemma in_scene_sval (c : float) :
  in_scene c = true ->
  F32.valid c = true /\ F32.is_finite c = true /\
  - (100 * 2 ^ 149) <= sval c <= 100 * 2 ^ 149.
Proof.
  unfold in_scene. intros H.
  apply andb_true_iff in H as [H Hhi]. apply andb_true_iff in H as [Hv Hlo].
  assert (Fc : F32.is_finite c = true).
  { destruct (leb_finite_l c scene_scale eq_refl Hhi) as [? | ->]; [assumption|].
    discriminate. }
  split; [exact Hv|]. split; [exact Fc|].
  rewrite leb_sval in Hlo, Hhi by (assumption || reflexivity).
  apply Z.leb_le in Hlo, Hhi.
  change (sval (F32.opp scene_scale)) with (- (100 * 2 ^ 149)) in Hlo.
  change (sval scene_scale) with (100 * 2 ^ 149) in Hhi. lia.
Qed.

Lemma shl_align_scaled m e ez :
  -149 <= ez <= e ->
  Zpos (fst (shl_align m e ez)) * 2 ^ (ez + 149) = Zpos m * 2 ^ (e + 149).
Proof.
  intros He. unfold shl_align. destruct (ez - e) as [|n|n] eqn:Hn; cbn [fst].
  - replace ez with e by lia. reflexivity.
  - lia.
  - unfold shift_pos. rewrite Zpos_iter_xO.
    replace (e + 149) with (Zpos n + (ez + 149)) by lia.
    rewrite (pow2_add (Zpos n) (ez + 149)) by lia. ring.
Qed.

(** A difference whose exact value lies between two positive data. *)
Lemma sub_between (x y : float) ml el mh eh :
  F32.valid x = true -> F32.valid y = true ->
  F32.is_finite x = true -> F32.is_finite y = true ->
  F32.valid (S754_finite false ml el) = true ->
  F32.valid (S754_finite false mh eh) = true ->
  Zpos ml * 2 ^ (el + 149) <= sval x - sval y <= Zpos mh * 2 ^ (eh + 149) ->
  exists m' e',
    (x - y)%f32 = S754_finite false m' e' /\
    F32.valid (S754_finite false m' e') = true /\
    Zpos ml * 2 ^ (el + 149) <= Zpos m' * 2 ^ (e' + 149) <= Zpos mh * 2 ^ (eh + 149).
Proof.
  intros Hx Hy Fx Fy Hvl Hvh Hb.
  pose proof (valid_finite_inv _ _ _ Hvl) as (Hel & _).
  pose proof (scaled_pos false ml el ltac:(lia)) as Hlpos. cbn [scaled] in Hlpos.
  destruct x as [sx|sx| |sx mx ex]; try discriminate;
  destruct y as [sy|sy| |sy my ey]; try discriminate.
  - cbn [sval scaled] in Hb. lia.
  - pose proof (valid_finite_inv _ _ _ Hy) as (Hey & _).
    pose proof (scaled_pos sy my ey ltac:(lia)) as Hp.
    destruct sy; cbn [sval] in Hb; cbn [scaled] in Hb, Hp; [|lia].
    exists my, ey. split; [reflexivity|]. split; [exact Hy|lia].
  - pose proof (valid_finite_inv _ _ _ Hx) as (Hex & _).
    pose proof (scaled_pos sx mx ex ltac:(lia)) as Hp.
    destruct sx; cbn [sval] in Hb; cbn [scaled] in Hb, Hp; [lia|].
    exists mx, ex. split; [reflexivity|]. split; [exact Hx|lia].
  - pose proof (valid_finite_inv _ _ _ Hx) as (Hex & _).
    pose proof (valid_finite_inv _ _ _ Hy) as (Hey & _).
    unfold F32.sub, SFsub. cbv zeta.
    set (ez := Z.min ex ey).
    pose proof (shl_align_scaled mx ex ez ltac:(unfold ez; lia)) as Hax.
    pose proof (shl_align_scaled my ey ez ltac:(unfold ez; lia)) as Hay.
    set (ax := Zpos (fst (shl_align mx ex ez))) in *.
    set (ay := Zpos (fst (shl_align my ey ez))) in *.
    assert (HS : (cond_Zopp sx ax - cond_Zopp sy ay) * 2 ^ (ez + 149)
                 = sval (S754_finite sx mx ex) - sval (S754_finite sy my ey)).
    { rewrite Z.mul_sub_distr_r.
      destruct sx, sy; cbn [cond_Zopp sval scaled]; lia. }
    assert (HE : 0 < 2 ^ (ez + 149)) by (apply pow2_pos; unfold ez; lia).
    destruct (cond_Zopp sx ax - cond_Zopp sy ay) as [|p|p] eqn:HZ; [nia| |nia].
    cbn [binary_normalize].
    apply (binary_round_between false p ez 149 ml el mh eh);
      [assumption|assumption|lia|unfold ez; lia|].
    rewrite HS. exact Hb.
Qed.

Lemma digits2_pos_ge (m : positive) (k : Z) :
  2 ^ k <= Zpos m -> k < Zpos (digits2_pos m).
Proof.
  intros H. pose proof (digits2_pos_bounds m) as [_ Hhi].
  destruct (Z_lt_ge_dec k (Zpos (digits2_pos m))) as [?|Hge]; [assumption|].
  assert (2 ^ Zpos (digits2_pos m) <= 2 ^ k) by (apply pow2_le; lia). lia.
Qed.

Lemma mul_as_round sx mx ex sy my ey :
  F32.valid (S754_finite sx mx ex) = true ->
  F32.valid (S754_finite sy my ey) = true ->
  (S754_finite sx mx ex * S754_finite sy my ey)%f32
  = binary_round F32.prec F32.emax (xorb sx sy) (mx * my) (ex + ey).
Proof.
  intros Hx Hy.
  pose proof (valid_finite_inv _ _ _ Hx) as (Hex & Hdx & Hnx).
  pose proof (valid_finite_inv _ _ _ Hy) as (Hey & Hdy & Hny).
  pose proof (digits2_pos_bounds mx) as [Hlx _].
  pose proof (digits2_pos_bounds my) as [Hly _].
  unfold F32.mul, SFmul, binary_round, shl_align.
  set (f := fexp F32.prec F32.emax (Zpos (digits2_pos (mx * my)) + (ex + ey))).
  assert (Hf : ex + ey <= f).
  { unfold f, fexp, emin, F32.prec, F32.emax.
    destruct (Z.eq_dec ex (-149)) as [->|Hx1].
    - destruct (Z_le_gt_dec ey 0) as [?|Hy1]; [lia|].
      rewrite Hny in Hly by lia.
      assert (2 ^ 23 <= Zpos (mx * my)).
      { rewrite Pos2Z.inj_mul. change (24 - 1) with 23 in Hly. nia. }
      pose proof (digits2_pos_ge _ _ H). lia.
    - rewrite Hnx in Hlx by lia. change (24 - 1) with 23 in Hlx.
      assert (2 ^ 23 <= Zpos (mx * my)).
      { rewrite Pos2Z.inj_mul. nia. }
      pose proof (digits2_pos_ge _ _ H). lia. }
  destruct (f - (ex + ey)) as [|n|n] eqn:Hn; [reflexivity|reflexivity|lia].
Qed.

(** A product of positive data whose exact value lies between two data. *)
Lemma mul_between mx ex my ey ml el mh eh :
  F32.valid (S754_finite false mx ex) = true ->
  F32.valid (S754_finite false my ey) = true ->
  F32.valid (S754_finite false ml el) = true ->
  F32.valid (S754_finite false mh eh) = true ->
  Zpos ml * 2 ^ (el + 149) * 2 ^ 149
    <= (Zpos mx * 2 ^ (ex + 149)) * (Zpos my * 2 ^ (ey + 149))
    <= Zpos mh * 2 ^ (eh + 149) * 2 ^ 149 ->
  exists m' e',
    (S754_finite false mx ex * S754_finite false my ey)%f32
      = S754_finite false m' e' /\
    F32.valid (S754_finite false m' e') = true /\
    Zpos ml * 2 ^ (el + 149) <= Zpos m' * 2 ^ (e' + 149) <= Zpos mh * 2 ^ (eh + 149).
Proof.
  intros Hx Hy Hvl Hvh Hb.
  pose proof (valid_finite_inv _ _ _ Hx) as (Hex & _).
  pose proof (valid_finite_inv _ _ _ Hy) as (Hey & _).
  pose proof (valid_finite_inv _ _ _ Hvl) as (Hel & _).
  pose proof (valid_finite_inv _ _ _ Hvh) as (Heh & _).
  rewrite mul_as_round by assumption. cbn [xorb].
  apply (binary_round_between false (mx * my) (ex + ey) 298 ml el mh eh);
    [assumption|assumption|lia|lia|].
  replace (el + 298) with ((el + 149) + 149) by lia.
  replace (eh + 298) with ((eh + 149) + 149) by lia.
  replace (ex + ey + 298) with ((ex + 149) + (ey + 149)) by lia.
  rewrite (pow2_add (el + 149) 149), (pow2_add (eh + 149) 149),
    (pow2_add (ex + 149) (ey + 149)) by lia.
  rewrite Pos2Z.inj_mul. lia.
Qed.

(** * Cells of boids inside the scene *)

(** In the grid of [Boids::initSimulation], a coordinate inside the scene
    has its shifted grid coordinate between 0.5 and 20.5 + 2^-19. *)
Lemma shifted_coordinate_in_scene (c : float) :
  in_scene c = true ->
  let t := ((c - vx init_gridMinimum) * init_gridInverseCellWidth - oneHalf)%f32 in
  F32.is_finite t = true /\ 0 <= F32.floor t <= 20.
Proof.
  intros Hc. apply in_scene_sval in Hc as (Hv & Hf & Hb).
  destruct (sub_between c (vx init_gridMinimum) 10485760 (-20) 13762560 (-16))
    as (m1 & e1 & E1 & V1 & B1); try assumption; try reflexivity.
  { change (sval (vx init_gridMinimum)) with (- (110 * 2 ^ 149)).
    change (Zpos 10485760 * 2 ^ (-20 + 149)) with (10 * 2 ^ 149).
    change (Zpos 13762560 * 2 ^ (-16 + 149)) with (210 * 2 ^ 149). lia. }
  destruct (mul_between m1 e1 13421773 (-27) 8388608 (-23) 11010049 (-19))
    as (m2 & e2 & E2 & V2 & B2); try assumption; try reflexivity.
  { change (Zpos 10485760 * 2 ^ (-20 + 149)) with (10 * 2 ^ 149) in B1.
    change (Zpos 13762560 * 2 ^ (-16 + 149)) with (210 * 2 ^ 149) in B1.
    set (X := Zpos m1 * 2 ^ (e1 + 149)) in *.
    change (Zpos 8388608 * 2 ^ (-23 + 149) * 2 ^ 149) with (2 ^ 27 * 2 ^ 271).
    change (Zpos 13421773 * 2 ^ (-27 + 149)) with (13421773 * 2 ^ 122).
    change (Zpos 11010049 * 2 ^ (-19 + 149) * 2 ^ 149)
      with (11010049 * 256 * 2 ^ 271).
    change (2 ^ 149) with (2 ^ 27 * 2 ^ 122) in B1.
    change (2 ^ 271) with (2 ^ 27 * 2 ^ 122 * 2 ^ 122).
    change (2 ^ 27) with 134217728 in *.
    assert (0 < 2 ^ 122) by (apply pow2_pos; lia).
    set (P := 2 ^ 122) in *. nia. }
  destruct (sub_between (S754_finite false m2 e2) oneHalf 8388608 (-24) 10747905 (-19))
    as (m3 & e3 & E3 & V3 & B3); try assumption; try reflexivity.
  { change (sval oneHalf) with (2 ^ 18 * 2 ^ 130). cbn [sval scaled].
    change (Zpos 8388608 * 2 ^ (-24 + 149)) with (2 ^ 18 * 2 ^ 130).
    change (Zpos 8388608 * 2 ^ (-23 + 149)) with (2 ^ 19 * 2 ^ 130) in B2.
    change (Zpos 11010049 * 2 ^ (-19 + 149)) with (11010049 * 2 ^ 130) in B2.
    change (Zpos 10747905 * 2 ^ (-19 + 149)) with (10747905 * 2 ^ 130).
    set (P := 2 ^ 130) in *. change (2 ^ 18) with 262144. change (2 ^ 19) with 524288 in B2.
    lia. }
  cbv zeta. rewrite E1.
  change init_gridInverseCellWidth with (S754_finite false 13421773 (-27)).
  rewrite E2, E3. split; [reflexivity|].
  pose proof (valid_finite_inv _ _ _ V3) as (He3 & _).
  rewrite floor_scaled by lia. cbn [scaled].
  change (Zpos 8388608 * 2 ^ (-24 + 149)) with (2 ^ 148) in B3.
  change (Zpos 10747905 * 2 ^ (-19 + 149)) with (10747905 * 2 ^ 130) in B3.
  assert (HP : 0 < 2 ^ 149) by (apply pow2_pos; lia).
  split.
  - apply Z.div_pos; [|lia]. assert (0 < 2 ^ 148) by (apply pow2_pos; lia). lia.
  - apply Z.lt_succ_r. apply Z.div_lt_upper_bound; [lia|].
    change (2 ^ 149 * Z.succ 20) with (11010048 * 2 ^ 130).
    assert (0 < 2 ^ 130) by (apply pow2_pos; lia). nia.
Qed.

(** * Sums and products of well-formed data *)

Lemma mul_valid (x y : float) :
  F32.valid x = true -> F32.valid y = true -> F32.valid (x * y)%f32 = true.
Proof.
  intros Hx Hy.
  destruct x as [sx|sx| |sx mx ex]; destruct y as [sy|sy| |sy my ey];
    try reflexivity.
  rewrite mul_as_round by assumption. apply binary_round_valid.
Qed.

Lemma add_valid (x y : float) :
  F32.valid x = true -> F32.valid y = true -> F32.valid (x + y)%f32 = true.
Proof.
  intros Hx Hy.
  destruct x as [sx|sx| |sx mx ex]; destruct y as [sy|sy| |sy my ey];
    try reflexivity; try assumption.
  - destruct sx, sy; reflexivity.
  - destruct sx, sy; reflexivity.
  - unfold F32.add, SFadd. apply binary_normalize_valid.
Qed.

Lemma binary_round_not_nan s p e :
  F32.is_nan (binary_round F32.prec F32.emax s p e) = false.
Proof.
  unfold binary_round. destruct (shl_align _ _ _) as [mz ez].
  pose proof (binary_round_aux_sign s (Zpos mz) ez loc_Exact ltac:(lia)) as H.
  destruct (binary_round_aux _ _ _ _ _ _); try reflexivity. discriminate.
Qed.

Lemma mul_finite_not_nan (x y : float) :
  F32.is_finite x = true -> F32.is_finite y = true ->
  F32.is_nan (x * y)%f32 = false.
Proof.
  intros Hx Hy.
  destruct x as [sx|sx| |sx mx ex]; try discriminate;
  destruct y as [sy|sy| |sy my ey]; try discriminate; try reflexivity.
  unfold F32.mul, SFmul.
  pose proof (binary_round_aux_sign (xorb sx sy) (Zpos (mx * my)) (ex + ey)
                loc_Exact ltac:(lia)) as H.
  destruct (binary_round_aux _ _ _ _ _ _); try reflexivity. discriminate.
Qed.

Lemma add_finite_not_nan (x y : float) :
  F32.is_finite x = true -> F32.is_nan y = false ->
  F32.is_nan (x + y)%f32 = false.
Proof.
  intros Hx Hy.
  destruct x as [sx|sx| |sx mx ex]; try discriminate;
  destruct y as [sy|sy| |sy my ey]; try discriminate; try reflexivity.
  - destruct sx, sy; reflexivity.
  - unfold F32.add, SFadd. cbv zeta.
    destruct (_ + _) as [|p|p]; cbn [binary_normalize];
      [reflexivity|apply binary_round_not_nan..].
Qed.

(** * The wrap keeps coordinates inside the scene *)

Lemma wrapCoord_in_scene (c : float) :
  F32.valid c = true -> F32.is_nan c = false -> in_scene (wrapCoord c) = true.
Proof.
  intros Hv Hn.
  destruct (c <? F32.opp scene_scale)%f32 eqn:Hlo.
  { rewrite wrapCoord_below by exact Hlo. reflexivity. }
  destruct (c >? scene_scale)%f32 eqn:Hhi.
  { rewrite wrapCoord_above by exact Hhi. reflexivity. }
  rewrite wrapCoord_inside by assumption.
  assert (Hf : F32.is_finite c = true).
  { destruct c as [s|s| |s m e]; try reflexivity; try discriminate.
    destruct s; discriminate. }
  unfold F32.gtb in Hhi.
  rewrite ltb_sval in Hlo, Hhi by (assumption || reflexivity).
  apply Z.ltb_ge in Hlo, Hhi.
  unfold in_scene. rewrite Hv.
  rewrite !leb_sval by (assumption || reflexivity).
  apply andb_true_iff. split; apply Z.leb_le; assumption.
Qed.

Lemma wrapCoord_is_nan (c : float) :
  F32.is_nan (wrapCoord c) = F32.is_nan c.
Proof.
  destruct (c <? F32.opp scene_scale)%f32 eqn:Hlo.
  { rewrite wrapCoord_below by exact Hlo. destruct c; try reflexivity. discriminate. }
  destruct (c >? scene_scale)%f32 eqn:Hhi.
  { rewrite wrapCoord_above by exact Hhi. destruct c; try reflexivity. discriminate. }
  rewrite wrapCoord_inside by assumption. reflexivity.
Qed.

Lemma in_scene3_inv (p : vec3) :
  in_scene3 p = true ->
  in_scene (vx p) = true /\ in_scene (vy p) = true /\ in_scene (vz p) = true.
Proof.
  unfold in_scene3. intros H.
  apply andb_true_iff in H as [H Hz]. apply andb_true_iff in H as [Hx Hy].
  auto.
Qed.

Lemma gridCoord_in_scene (p : vec3) :
  in_scene3 p = true ->
  let g := gridCoord init_gridSideCount init_gridMinimum
                     init_gridInverseCellWidth p in
  V3.is_finite (shiftedCoord init_gridMinimum init_gridInverseCellWidth p) = true /\
  0 <= F32.trunc (vx g) <= 20 /\ 0 <= F32.trunc (vy g) <= 20 /\
  0 <= F32.trunc (vz g) <= 20.
Proof.
  intros Hp. apply in_scene3_inv in Hp as (Hx & Hy & Hz).
  pose proof (shifted_coordinate_in_scene _ Hx) as [Fx Bx].
  pose proof (shifted_coordinate_in_scene _ Hy) as [Fy By].
  pose proof (shifted_coordinate_in_scene _ Hz) as [Fz Bz].
  cbv zeta in *.
  unfold gridCoord, shiftedCoord, V3.clamp, V3.is_finite.
  cbn [vx vy vz V3.splat V3.sub V3.scale V3.map2].
  change (vy init_gridMinimum) with (vx init_gridMinimum).
  change (vz init_gridMinimum) with (vx init_gridMinimum).
  rewrite Fx, Fy, Fz.
  rewrite !trunc_clamp_floor
    by (first [apply sub_oneHalf_valid | assumption | vm_compute; split; discriminate]).
  change init_gridSideCount with 22. split; [reflexivity|]. lia.
Qed.

Lemma rdi_dx i : 0 <= i < 8 -> 0 <= rdi dx i <= 1.
Proof.
  intros Hi.
  assert (H : i = 0 \/ i = 1 \/ i = 2 \/ i = 3 \/ i = 4 \/ i = 5 \/ i = 6 \/ i = 7)
    by lia.
  destruct H as [->|[->|[->|[->|[->|[->|[->| ->]]]]]]]; vm_compute; split; discriminate.
Qed.

Lemma rdi_dy i : 0 <= i < 8 -> 0 <= rdi dy i <= 1.
Proof.
  intros Hi.
  assert (H : i = 0 \/ i = 1 \/ i = 2 \/ i = 3 \/ i = 4 \/ i = 5 \/ i = 6 \/ i = 7)
    by lia.
  destruct H as [->|[->|[->|[->|[->|[->|[->| ->]]]]]]]; vm_compute; split; discriminate.
Qed.

Lemma rdi_dz i : 0 <= i < 8 -> 0 <= rdi dz i <= 1.
Proof.
  intros Hi.
  assert (H : i = 0 \/ i = 1 \/ i = 2 \/ i = 3 \/ i = 4 \/ i = 5 \/ i = 6 \/ i = 7)
    by lia.
  destruct H as [->|[->|[->|[->|[->|[->|[->| ->]]]]]]]; vm_compute; split; discriminate.
Qed.

Lemma iadd_small a b : - 2 ^ 31 <= a + b < 2 ^ 31 -> iadd a b = a + b.
Proof. intros H. unfold iadd. apply wrap32_small. exact H. Qed.

Lemma cellOf_in_scene (p : vec3) :
  in_scene3 p = true ->
  0 <= cellOf init_gridSideCount init_gridMinimum init_gridInverseCellWidth p
    < init_gridCellCount.
Proof.
  intros Hp. pose proof (gridCoord_in_scene p Hp) as (Hfin & Hx & Hy & Hz).
  cbv zeta in *. unfold cellOf. cbv zeta.
  change init_gridSideCount with 22 in *. change init_gridCellCount with 10648.
  rewrite gridIndex3Dto1D_exact by lia. lia.
Qed.

(** X2.  The grid of [Boids::initSimulation] encloses the scene.  For a
    position whose three coordinates are binary32 data in [-100, 100],
    [kernComputeIndices] finds cell coordinates in [0, 20] and a cell id
    in [0, 10648); and for each of the eight neighbour offsets of the two
    grid searches, the test [nGridX >= gridResolution || ...] that skips
    a cell is false and the id of the neighbour cell is again in
    [0, 10648): a search skips no cell and reads the bucket tables
    inside their bounds. *)
Theorem in_scene_cell_inside_grid (p : vec3) :
  in_scene3 p = true ->
  let g := gridCoord init_gridSideCount init_gridMinimum
                     init_gridInverseCellWidth p in
  let gridX := F32.trunc (vx g) in
  let gridY := F32.trunc (vy g) in
  let gridZ := F32.trunc (vz g) in
  (0 <= gridX <= 20 /\ 0 <= gridY <= 20 /\ 0 <= gridZ <= 20) /\
  0 <= cellOf init_gridSideCount init_gridMinimum init_gridInverseCellWidth p
    < init_gridCellCount /\
  (forall i, 0 <= i < 8 ->
     let nGridX := iadd (rdi dx i) gridX in
     let nGridY := iadd (rdi dy i) gridY in
     let nGridZ := iadd (rdi dz i) gridZ in
     (init_gridSideCount <=? nGridX) || (init_gridSideCount <=? nGridY)
       || (init_gridSideCount <=? nGridZ) = false /\
     0 <= gridIndex3Dto1D nGridX nGridY nGridZ init_gridSideCount
       < init_gridCellCount).
Proof.
  intros Hp. pose proof (gridCoord_in_scene p Hp) as (Hfin & Hx & Hy & Hz).
  cbv zeta in *. split; [auto|]. split.
  - unfold cellOf. cbv zeta.
    change init_gridSideCount with 22 in *. change init_gridCellCount with 10648.
    rewrite gridIndex3Dto1D_exact by lia. lia.
  - intros i Hi.
    pose proof (rdi_dx i Hi). pose proof (rdi_dy i Hi). pose proof (rdi_dz i Hi).
    change init_gridSideCount with 22 in *. change init_gridCellCount with 10648.
    rewrite !iadd_small by (change (2 ^ 31) with 2147483648; lia).
    split.
    + apply orb_false_iff. split; [apply orb_false_iff; split|];
        apply Z.leb_gt; lia.
    + rewrite gridIndex3Dto1D_exact by lia. lia.
Qed.

Lemma in_scene_cell_inside_grid_witness :
  let p := Vec3 scene_scale (F32.opp scene_scale) F32.zero in
  0 <= cellOf init_gridSideCount init_gridMinimum init_gridInverseCellWidth p
    < init_gridCellCount.
Proof.
  exact (proj1 (proj2 (in_scene_cell_inside_grid
                         (Vec3 scene_scale (F32.opp scene_scale) F32.zero)
                         eq_refl))).
Defined.

Lemma rd_Forall {A : Type} (P : A -> Prop) (d : A) (l : list A) i :
  Forall P l -> 0 <= i < Z.of_nat (length l) -> P (rd d l i).
Proof.
  intros Hall Hi.
  destruct (lookup_lt_is_Some_2 l (Z.to_nat i) ltac:(lia)) as [v Hv].
  pose proof (rd_lookup d l _ _ Hv) as Hr. rewrite Z2Nat.id in Hr by lia.
  rewrite Hr. eapply Forall_lookup_1; eassumption.
Qed.

Lemma rd_lookup_Z {A : Type} (d : A) (l : list A) i :
  0 <= i < Z.of_nat (length l) -> l !! Z.to_nat i = Some (rd d l i).
Proof.
  intros Hi.
  destruct (lookup_lt_is_Some_2 l (Z.to_nat i) ltac:(lia)) as [v Hv].
  pose proof (rd_lookup d l _ _ Hv) as Hr. rewrite Z2Nat.id in Hr by lia.
  rewrite Hr. exact Hv.
Qed.

(** The sorted (cell, boid) pairs are pairs of the labelling. *)
Lemma sorted_pair_origin (N : Z) (cells : list Z) (slot : Z) :
  Z.of_nat (length cells) = N -> 0 <= slot < N ->
  let r := sort_by_key N cells (seqZ 0 N) in
  0 <= rdi r.2 slot < N /\ rdi r.1 slot = rdi cells (rdi r.2 slot).
Proof.
  intros Hlen Hslot.
  pose proof (sort_by_key_spec N cells (seqZ 0 N) Hlen) as Hspec.
  cbv zeta in Hspec |- *.
  destruct (sort_by_key N cells (seqZ 0 N)) as [keys idx].
  cbn [fst snd] in Hspec |- *.
  destruct Hspec as (Hzip & _ & _ & _ & Hl1 & Hl2).
  { rewrite length_seqZ. lia. }
  pose proof (rd_lookup_Z 0 keys slot ltac:(lia)) as Hk.
  pose proof (rd_lookup_Z 0 idx slot ltac:(lia)) as Hb.
  assert (Hin : (rdi keys slot, rdi idx slot) ∈ zip cells (seqZ 0 N)).
  { rewrite <- Hzip. apply list_elem_of_lookup. exists (Z.to_nat slot).
    apply lookup_zip_with_Some. exists (rdi keys slot), (rdi idx slot).
    split; [reflexivity|]. split; [exact Hk|exact Hb]. }
  apply list_elem_of_lookup in Hin as [n Hn].
  apply lookup_zip_with_Some in Hn as (k & b & Heq & Hck & Hsb).
  injection Heq as Hk' Hb'.
  apply lookup_seqZ in Hsb as [Hbn Hnlt].
  split; [lia|].
  rewrite Hk', Hb'. replace b with (Z.of_nat n) by lia.
  symmetry. apply rd_lookup. exact Hck.
Qed.

(** X1.  The bucket tables of a grid step locate every boid inside the
    scene.  From a state with the grid of [Boids::initSimulation],
    buffers of [numObjects] entries and every position inside the scene,
    [stepSimulationScatteredGrid] and [stepSimulationCoherentGrid] build
    the same four index buffers, and for every slot: the sorted boid
    index is a boid, the sorted key is the cell of that boid's position
    and lies inside the tables, the slot lies in the [start, end) range
    written for that cell, and every slot of that range is a slot below
    [numObjects] whose key is that cell. *)
Theorem buckets_locate_every_boid (dt : float) (st : state) :
  buffers_sized st -> grid_initialised st ->
  Forall (fun p => in_scene3 p = true) (dev_pos st) ->
  let s := stepSimulationScatteredGrid dt st in
  let c := stepSimulationCoherentGrid dt st in
  let N := numObjects st in
  (dev_particleArrayIndices c = dev_particleArrayIndices s /\
   dev_particleGridIndices c = dev_particleGridIndices s /\
   dev_gridCellStartIndices c = dev_gridCellStartIndices s /\
   dev_gridCellEndIndices c = dev_gridCellEndIndices s) /\
  forall slot, 0 <= slot < N ->
    let boid := rdi (dev_particleArrayIndices s) slot in
    let cell := rdi (dev_particleGridIndices s) slot in
    0 <= boid < N /\
    cell = cellOf (gridSideCount st) (gridMinimum st) (gridInverseCellWidth st)
                  (rdv (dev_pos st) boid) /\
    0 <= cell < gridCellCount st /\
    rdi (dev_gridCellStartIndices s) cell <= slot
      < rdi (dev_gridCellEndIndices s) cell /\
    (forall j, rdi (dev_gridCellStartIndices s) cell <= j
                 < rdi (dev_gridCellEndIndices s) cell ->
       0 <= j < N /\ rdi (dev_particleGridIndices s) j = cell).
Proof.
  intros (Hpos & Hpos2 & Hvel1 & Hvel2 & Hidx & Hgidx)
         (HC & Hside & Hinv & Hmin & Hst & Hen) Hscene.
  cbv zeta.
  set (N := numObjects st) in *.
  assert (HN : 0 <= N) by lia.
  unfold stepSimulationCoherentGrid, stepSimulationScatteredGrid. fold N.
  rewrite (kernComputeIndices_map N _ _ _ _ _ _ Hidx Hgidx).
  cbv beta iota.
  rewrite Hside, Hinv, Hmin, HC.
  set (cells := (fun i => cellOf init_gridSideCount init_gridMinimum
                            init_gridInverseCellWidth (rdv (dev_pos st) i))
                <$> seqZ 0 N).
  assert (Hlc : Z.of_nat (length cells) = N).
  { unfold cells. rewrite length_fmap, length_seqZ. lia. }
  pose proof (fun slot => sorted_pair_origin N cells slot Hlc) as Horigin.
  destruct (sort_by_key_spec N cells (seqZ 0 N) Hlc)
    as (_ & _ & _ & Hsorted & Hlk & Hli).
  { rewrite length_seqZ. lia. }
  cbv zeta in Horigin.
  destruct (sort_by_key N cells (seqZ 0 N)) as [keys idx].
  cbn [fst snd] in Horigin, Hsorted, Hlk, Hli.
  rewrite kernIdentifyCellStartEnd_scatter by exact HN.
  cbv beta iota zeta.
  destruct (kernRearrangeArray _ _ _ _ _ _ _) as [pos2 vel2].
  cbn [dev_particleArrayIndices dev_particleGridIndices
       dev_gridCellStartIndices dev_gridCellEndIndices].
  split; [repeat split; reflexivity|].
  intros slot Hslot.
  destruct (Horigin slot Hslot) as [Hb Hk].
  assert (Hcell : rdi keys slot
                  = cellOf init_gridSideCount init_gridMinimum
                      init_gridInverseCellWidth (rdv (dev_pos st) (rdi idx slot))).
  { rewrite Hk. unfold cells.
    exact (rd_map_seqZ 0 (fun i => cellOf init_gridSideCount init_gridMinimum
             init_gridInverseCellWidth (rdv (dev_pos st) i)) N _ Hb). }
  assert (Hin : 0 <= rdi keys slot < init_gridCellCount).
  { rewrite Hcell. apply cellOf_in_scene.
    apply (rd_Forall (fun p => in_scene3 p = true)); [exact Hscene|lia]. }
  split; [exact Hb|]. split; [exact Hcell|]. split; [exact Hin|].
  assert (Hs : forall i j, 0 <= i <= j -> j < N -> rdi keys i <= rdi keys j).
  { intros i j Hij Hj. apply StronglySorted_rdi; [exact Hsorted|exact Hij|lia]. }
  destruct (cell_range N keys Hs init_gridCellCount
              (dev_gridCellStartIndices st) (dev_gridCellEndIndices st)
              (rdi keys slot) HN Hst Hen Hin)
    as [(Hnone & _)|(a & b & Hab & HbN & Hrs & Hre & Hiff)].
  - exfalso. exact (Hnone slot Hslot eq_refl).
  - rewrite Hrs, Hre. split; [apply Hiff; [exact Hslot|reflexivity]|].
    intros j Hj. split; [lia|]. apply Hiff; lia.
Qed.

Lemma buckets_locate_every_boid_witness :
  let s := stepSimulationScatteredGrid oneHalf demo_state in
  let cell := rdi (dev_particleGridIndices s) 0 in
  0 <= cell < init_gridCellCount /\
  rdi (dev_gridCellStartIndices s) cell <= 0 < rdi (dev_gridCellEndIndices s) cell.
Proof.
  assert (Hb : buffers_sized demo_state) by (repeat split; reflexivity).
  assert (Hg : grid_initialised demo_state) by (repeat split; reflexivity).
  assert (Hs : Forall (fun p => in_scene3 p = true) (dev_pos demo_state))
    by (repeat constructor).
  destruct (proj2 (buckets_locate_every_boid oneHalf demo_state Hb Hg Hs) 0)
    as (_ & _ & Hc & Hr & _); [cbn; lia|].
  cbv zeta. split; [exact Hc|exact Hr].
Defined.

Lemma wf_inv x : wf x = true -> F32.valid x = true /\ F32.is_finite x = true.
Proof. unfold wf. intros H. apply andb_true_iff in H. exact H. Qed.

Lemma step_coordinate_valid (p v dt : float) :
  F32.valid p = true -> F32.valid v = true -> F32.valid dt = true ->
  in_scene_or_nan (wrapCoord (p + v * dt)%f32) = true.
Proof.
  intros Hp Hv Hdt. unfold in_scene_or_nan.
  assert (Hc : F32.valid (p + v * dt)%f32 = true)
    by (apply add_valid; [assumption|apply mul_valid; assumption]).
  rewrite wrapCoord_is_nan.
  destruct (F32.is_nan (p + v * dt)%f32) eqn:Hn; [reflexivity|].
  apply wrapCoord_in_scene; assumption.
Qed.

Lemma step_coordinate_finite (p v dt : float) :
  wf p = true -> wf v = true -> wf dt = true ->
  in_scene (wrapCoord (p + v * dt)%f32) = true.
Proof.
  intros Hp Hv Hdt.
  apply wf_inv in Hp as [Hp Fp]. apply wf_inv in Hv as [Hv Fv].
  apply wf_inv in Hdt as [Hdt Fdt].
  apply wrapCoord_in_scene.
  - apply add_valid; [assumption|apply mul_valid; assumption].
  - apply add_finite_not_nan; [assumption|].
    apply mul_finite_not_nan; assumption.
Qed.

Lemma valid3_inv p :
  valid3 p = true ->
  F32.valid (vx p) = true /\ F32.valid (vy p) = true /\ F32.valid (vz p) = true.
Proof.
  unfold valid3. intros H.
  apply andb_true_iff in H as [H Hz]. apply andb_true_iff in H as [Hx Hy]. auto.
Qed.

Lemma wf3_inv p :
  wf3 p = true -> wf (vx p) = true /\ wf (vy p) = true /\ wf (vz p) = true.
Proof.
  unfold wf3. intros H.
  apply andb_true_iff in H as [H Hz]. apply andb_true_iff in H as [Hx Hy]. auto.
Qed.

(** X3.  [kernUpdatePos] keeps the boids in the scene.  For a boid whose
    position, velocity and [dt] are binary32 data (NaN and infinities
    included), every coordinate of the new position is NaN or lies in
    [-100, 100]; if position, velocity and [dt] are finite, every
    coordinate lies in [-100, 100]. *)
Theorem integrator_keeps_boids_in_scene (N : Z) (dt : float)
    (pos vel : list vec3) (i : Z) :
  Z.of_nat (length pos) = N -> 0 <= i < N ->
  F32.valid dt = true ->
  valid3 (rdv pos i) = true -> valid3 (rdv vel i) = true ->
  let p' := rdv (kernUpdatePos (fullBlocksPerGrid N) N dt pos vel) i in
  in_scene_or_nan3 p' = true /\
  (wf dt = true -> wf3 (rdv pos i) = true -> wf3 (rdv vel i) = true ->
   in_scene3 p' = true).
Proof.
  intros Hlen Hi Hdt Hp Hv. cbv zeta.
  rewrite kernUpdatePos_rd by assumption.
  apply valid3_inv in Hp as (Hpx & Hpy & Hpz).
  apply valid3_inv in Hv as (Hvx & Hvy & Hvz).
  unfold updatePos. cbv zeta.
  cbn [vx vy vz V3.add V3.scale V3.map2]. split.
  - unfold in_scene_or_nan3. cbn [vx vy vz].
    rewrite !step_coordinate_valid by assumption. reflexivity.
  - intros Wdt Wp Wv.
    apply wf3_inv in Wp as (Wpx & Wpy & Wpz).
    apply wf3_inv in Wv as (Wvx & Wvy & Wvz).
    unfold in_scene3. cbn [vx vy vz].
    rewrite !step_coordinate_finite by assumption. reflexivity.
Qed.

Lemma integrator_keeps_boids_in_scene_witness :
  let pos := [Vec3 scene_scale F32.zero (F32.of_int 7)] in
  let vel := [Vec3 F32.one F32.one (F32.of_int 2)] in
  in_scene3 (rdv (kernUpdatePos (fullBlocksPerGrid 1) 1 oneHalf pos vel) 0) = true.
Proof.
  refine (proj2 (integrator_keeps_boids_in_scene 1 oneHalf
            [Vec3 scene_scale F32.zero (F32.of_int 7)]
            [Vec3 F32.one F32.one (F32.of_int 2)] 0 _ _ _ _ _) _ _ _);
    try reflexivity; lia.
Defined.

(** * The cell id as a mixed-radix number *)

(** X14.  [gridIndex3Dto1D] numbers the cells of the grid one to one.  For
    cell coordinates in [0, gridResolution) and a resolution of at most
    1290 (no 32-bit overflow), the id lies in [0, gridResolution^3), its
    digits in base [gridResolution] are [x], [y] and [z], and no other
    cell of the grid has the same id. *)
Theorem gridIndex3Dto1D_decodes (x y z gridResolution : Z) :
  0 <= x < gridResolution -> 0 <= y < gridResolution ->
  0 <= z < gridResolution -> gridResolution <= 1290 ->
  let id := gridIndex3Dto1D x y z gridResolution in
  0 <= id < gridResolution * gridResolution * gridResolution /\
  id mod gridResolution = x /\
  (id / gridResolution) mod gridResolution = y /\
  id / (gridResolution * gridResolution) = z /\
  (forall x' y' z',
     0 <= x' < gridResolution -> 0 <= y' < gridResolution ->
     0 <= z' < gridResolution ->
     gridIndex3Dto1D x' y' z' gridResolution = id -> x' = x /\ y' = y /\ z' = z).
Proof.
  intros Hx Hy Hz Hr.
  assert (Hexact : forall a b c, 0 <= a < gridResolution -> 0 <= b < gridResolution ->
            0 <= c < gridResolution ->
            gridIndex3Dto1D a b c gridResolution
            = a + b * gridResolution + c * (gridResolution * gridResolution)).
  { intros a b c Ha Hb Hc. unfold gridIndex3Dto1D, iadd, imul.
    assert (0 <= b * gridResolution <= 1289 * 1290) by nia.
    assert (0 <= c * gridResolution <= 1289 * 1290) by nia.
    assert (0 <= c * gridResolution * gridResolution <= 1289 * 1290 * 1290) by nia.
    rewrite (wrap32_small (b * gridResolution))
      by (change (2 ^ 31) with 2147483648; lia).
    rewrite (wrap32_small (c * gridResolution))
      by (change (2 ^ 31) with 2147483648; lia).
    rewrite (wrap32_small (c * gridResolution * gridResolution))
      by (change (2 ^ 31) with 2147483648; lia).
    rewrite (wrap32_small (a + b * gridResolution))
      by (change (2 ^ 31) with 2147483648; lia).
    rewrite wrap32_small by (change (2 ^ 31) with 2147483648; lia).
    lia. }
  assert (Hdec : forall a b c, 0 <= a < gridResolution -> 0 <= b < gridResolution ->
            0 <= c < gridResolution ->
            let n := a + b * gridResolution + c * (gridResolution * gridResolution) in
            n mod gridResolution = a /\ (n / gridResolution) mod gridResolution = b /\
            n / (gridResolution * gridResolution) = c).
  { intros a b c Ha Hb Hc n.
    assert (Hn : n = a + (b + c * gridResolution) * gridResolution) by (unfold n; lia).
    assert (H1 : n mod gridResolution = a).
    { rewrite Hn, Z.mod_add by lia. apply Z.mod_small. lia. }
    assert (H2 : n / gridResolution = b + c * gridResolution).
    { rewrite Hn, Z.div_add by lia. rewrite Z.div_small by lia. lia. }
    split; [exact H1|]. split.
    - rewrite H2, Z.mod_add by lia. apply Z.mod_small. lia.
    - rewrite <- Z.div_div by lia. rewrite H2, Z.div_add by lia.
      rewrite Z.div_small by lia. lia. }
  cbv zeta. rewrite Hexact by assumption.
  destruct (Hdec x y z Hx Hy Hz) as (D1 & D2 & D3).
  split; [nia|]. split; [exact D1|]. split; [exact D2|]. split; [exact D3|].
  intros x' y' z' Hx' Hy' Hz' Heq. rewrite Hexact in Heq by assumption.
  destruct (Hdec x' y' z' Hx' Hy' Hz') as (E1 & E2 & E3).
  cbv zeta in E1, E2, E3. rewrite Heq in E1, E2, E3. lia.
Qed.

Lemma gridIndex3Dto1D_decodes_witness :
  let id := gridIndex3Dto1D 3 7 21 22 in
  id = 10321 /\ id mod 22 = 3 /\ (id / 22) mod 22 = 7 /\ id / (22 * 22) = 21.
Proof.
  split; [reflexivity|].
  pose proof (gridIndex3Dto1D_decodes 3 7 21 22 ltac:(lia) ltac:(lia) ltac:(lia)
                ltac:(lia)) as (_ & H1 & H2 & H3 & _).
  auto.
Defined.

(** * Positions beyond the upper faces of the grid *)

(** X15.  [kernComputeIndices] clamps a cell coordinate to
    [gridResolution], one more than the last cell.  A boid whose shifted
    x coordinate is at or beyond [gridResolution], with y and z inside
    the grid, is therefore labelled with the id of the first cell of the
    next row ([x = 0], [y + 1]); from the last row of the last layer its
    label is [gridResolution^3], one past the last entry of the bucket
    tables. *)
Theorem cell_beyond_upper_face (side : Z) (gridMin : vec3) (inv : float) (p : vec3) :
  0 < side <= 1289 ->
  V3.is_finite (shiftedCoord gridMin inv p) = true ->
  let t := shiftedCoord gridMin inv p in
  side <= F32.floor (vx t) ->
  0 <= F32.floor (vy t) < side -> 0 <= F32.floor (vz t) < side ->
  cellOf side gridMin inv p
    = gridIndex3Dto1D 0 (F32.floor (vy t) + 1) (F32.floor (vz t)) side /\
  (F32.floor (vy t) = side - 1 -> F32.floor (vz t) = side - 1 ->
   cellOf side gridMin inv p = side * side * side).
Proof.
  intros Hside Hfin t Hx Hy Hz.
  rewrite cellOf_spec by (assumption || lia).
  unfold cellId_spec, cellCoord_spec, clampZ. cbv zeta.
  unfold t, shiftedCoord in Hx, Hy, Hz |- *.
  cbn [vx vy vz V3.splat V3.sub V3.scale V3.map2] in Hx, Hy, Hz |- *.
  split.
  - rewrite gridIndex3Dto1D_exact by lia. rewrite !Z.pow_2_r. lia.
  - intros Ey Ez. rewrite !Z.pow_2_r. nia.
Qed.

Lemma cell_beyond_upper_face_witness :
  let p := Vec3 (F32.of_int 115) F32.zero F32.zero in
  cellOf init_gridSideCount init_gridMinimum init_gridInverseCellWidth p
  = gridIndex3Dto1D 0 (10 + 1) 10 init_gridSideCount.
Proof.
  refine (proj1 (cell_beyond_upper_face init_gridSideCount init_gridMinimum
            init_gridInverseCellWidth (Vec3 (F32.of_int 115) F32.zero F32.zero)
            _ _ _ _ _));
    vm_compute; repeat split; try reflexivity; discriminate.
Defined.

(** * Reshuffling *)

(** X13.  [kernRearrangeArray] loses and duplicates no boid.  For source
    and destination buffers of [N] entries and an index buffer that is a
    permutation of [0 .. N - 1], slot [s] of the two destination buffers
    holds the position and the velocity of boid [idx[s]], and the
    reshuffled (position, velocity) pairs are a permutation of the
    original pairs. *)
Theorem rearrange_preserves_boids (N : Z) (idx : list Z)
    (pos vel2 pos2 vel1 : list vec3) :
  Z.of_nat (length pos) = N -> Z.of_nat (length vel2) = N ->
  Z.of_nat (length pos2) = N -> Z.of_nat (length vel1) = N ->
  idx ≡ₚ seqZ 0 N ->
  let out := kernRearrangeArray (fullBlocksPerGrid N) N idx pos vel2 pos2 vel1 in
  (forall s, 0 <= s < N ->
     rdv out.1 s = rdv pos (rdi idx s) /\ rdv out.2 s = rdv vel2 (rdi idx s)) /\
  zip out.1 out.2 ≡ₚ zip pos vel2 /\
  out.1 ≡ₚ pos /\ out.2 ≡ₚ vel2.
Proof.
  intros Hpos Hvel2 Hpos2 Hvel1 Hperm. cbv zeta.
  rewrite (kernRearrangeArray_map N idx pos vel2 pos2 vel1 Hpos2 Hvel1).
  cbn [fst snd].
  assert (Hli : Z.of_nat (length idx) = N).
  { rewrite (Permutation_length Hperm), length_seqZ. lia. }
  assert (Hgather : forall (l : list vec3), Z.of_nat (length l) = N ->
            (fun s => rdv l (rdi idx s)) <$> seqZ 0 N = rdv l <$> idx).
  { intros l Hl. transitivity (rdv l <$> (rd 0 idx <$> seqZ 0 N)).
    - rewrite <- list_fmap_compose. reflexivity.
    - rewrite (map_rd_self 0 idx N Hli). reflexivity. }
  split; [|split; [|split]].
  - intros s Hs. split.
    + exact (rd_map_seqZ V3.zero (fun s => rdv pos (rdi idx s)) N s Hs).
    + exact (rd_map_seqZ V3.zero (fun s => rdv vel2 (rdi idx s)) N s Hs).
  - rewrite rd_zip_map.
    transitivity ((fun i => (rdv pos i, rdv vel2 i)) <$> idx).
    + transitivity ((fun i => (rdv pos i, rdv vel2 i)) <$> (rd 0 idx <$> seqZ 0 N)).
      * rewrite <- list_fmap_compose. reflexivity.
      * rewrite (map_rd_self 0 idx N Hli). reflexivity.
    + rewrite Hperm. rewrite <- rd_zip_map.
      unfold rdv. rewrite (map_rd_self V3.zero pos N Hpos),
        (map_rd_self V3.zero vel2 N Hvel2). reflexivity.
  - rewrite (Hgather pos Hpos), Hperm. unfold rdv.
    rewrite (map_rd_self V3.zero pos N Hpos). reflexivity.
  - rewrite (Hgather vel2 Hvel2), Hperm. unfold rdv.
    rewrite (map_rd_self V3.zero vel2 N Hvel2). reflexivity.
Qed.

Lemma rearrange_preserves_boids_witness :
  let pos := [Vec3 F32.one F32.zero F32.zero; V3.zero; Vec3 F32.zero F32.one F32.zero] in
  let vel := [V3.zero; Vec3 oneHalf F32.zero F32.zero; V3.zero] in
  let out := kernRearrangeArray (fullBlocksPerGrid 3) 3 [2; 0; 1] pos vel
               (replicate 3 V3.zero) (replicate 3 V3.zero) in
  zip out.1 out.2 ≡ₚ zip pos vel.
Proof.
  refine (proj1 (proj2 (rearrange_preserves_boids 3 [2; 0; 1]
            [Vec3 F32.one F32.zero F32.zero; V3.zero; Vec3 F32.zero F32.one F32.zero]
            [V3.zero; Vec3 oneHalf F32.zero F32.zero; V3.zero]
            (replicate 3 V3.zero) (replicate 3 V3.zero) _ _ _ _ _)));
    try reflexivity.
  change (seqZ 0 3) with [0; 1; 2].
  apply (bool_decide_unpack _). vm_compute. exact I.
Defined.

(** * The launch configuration *)

(** X20.  The launch configuration [(N + blockSize - 1) / blockSize].  For
    at least one boid and [N + blockSize] within the range of [int], the
    [int] expression of the source does not overflow, the grid has at
    least one block, the number of threads lies in [N, N + blockSize)
    (less than one block of idle threads), and a kernel whose threads at
    [index >= N] do nothing is the loop of its thread body over
    [0 .. N - 1]. *)
Theorem launch_covers_every_index {S : Type} (N : Z) (body : Z -> S -> S) (s : S) :
  1 <= N -> N + blockSize <= F32.int_max ->
  let blocks := fullBlocksPerGrid N in
  wrap32 (iadd N blockSize - 1) ÷ blockSize = blocks /\
  1 <= blocks /\
  N <= blocks * blockSize < N + blockSize /\
  ((forall i t, N <= i -> body i t = t) ->
   launch blocks body s = for_range 0 N body s).
Proof.
  intros HN Hmax blocks. unfold F32.int_max in Hmax.
  assert (Hb : N <= blocks * blockSize < N + blockSize).
  { unfold blocks, fullBlocksPerGrid, blockSize in *.
    rewrite Z.quot_div_nonneg by lia.
    pose proof (Z.div_mod (N + 128 - 1) 128 ltac:(lia)) as Hdm.
    pose proof (Z.mod_pos_bound (N + 128 - 1) 128 ltac:(lia)) as Hb.
    lia. }
  split; [|split; [|split; [exact Hb|]]].
  - unfold iadd. unfold blockSize in *.
    rewrite (wrap32_small (N + 128)) by lia.
    rewrite (wrap32_small (N + 128 - 1)) by lia. reflexivity.
  - unfold blockSize in *. lia.
  - intros Hguard. apply launch_guard; [|exact Hguard].
    apply fullBlocks_cover. lia.
Qed.

Lemma launch_covers_every_index_witness :
  fullBlocksPerGrid 300 = 3 /\
  wrap32 (iadd 300 blockSize - 1) ÷ blockSize = fullBlocksPerGrid 300 /\
  300 <= fullBlocksPerGrid 300 * blockSize < 300 + blockSize.
Proof.
  split; [reflexivity|].
  destruct (launch_covers_every_index 300 (fun _ (u : unit) => u) tt
              ltac:(lia) ltac:(unfold blockSize, F32.int_max; lia))
    as (H1 & _ & H3 & _).
  split; [exact H1|exact H3].
Defined.

(** * Threads that write disjoint entries run in any order *)

Section Independent.
Context {A : Type} (d : A).

Lemma own_slot_threads_commute (N : Z) (F : Z -> A -> A) (i j : Z) (u : list A) :
  i <> j ->
  let body := fun i u => if N <=? i then u else wr u i (F i (rd d u i)) in
  body i (body j u) = body j (body i u).
Proof.
  intros Hne body. unfold body.
  destruct (N <=? i), (N <=? j); try reflexivity.
  rewrite !rd_wr_ne by lia. apply wr_comm. lia.
Qed.

End Independent.

Lemma any_order_of_launch {S : Type} (body : Z -> S -> S) blocks order s :
  order ≡ₚ seqZ 0 (blocks * blockSize) ->
  (forall i j t, 0 <= i -> 0 <= j -> i <> j ->
     body i (body j t) = body j (body i t)) ->
  run_threads order body s = launch blocks body s.
Proof.
  intros Hp Hc. rewrite launch_run_threads.
  apply run_threads_perm; [exact Hp|].
  intros i j t Hi Hj Hne. rewrite Hp in Hi, Hj.
  apply elem_of_seqZ in Hi, Hj. apply Hc; lia.
Qed.

(** X11.  [kernUpdatePos], [kernComputeIndices] and [kernRearrangeArray]
    do not depend on the schedule: running the thread bodies of one
    launch in any order, each once, gives the buffers of the launch. *)
Theorem own_slot_kernels_any_order (blocks N : Z) (order : list Z) :
  order ≡ₚ seqZ 0 (blocks * blockSize) ->
  (forall dt pos vel,
     run_threads order (kernUpdatePos_thread N dt vel) pos
     = kernUpdatePos blocks N dt pos vel) /\
  (forall gridResolution gridMin inverseCellWidth pos indices gridIndices,
     run_threads order
       (kernComputeIndices_thread N gridResolution gridMin inverseCellWidth pos)
       (indices, gridIndices)
     = kernComputeIndices blocks N gridResolution gridMin inverseCellWidth pos
         indices gridIndices) /\
  (forall idx pos vel2 pos2 vel1,
     run_threads order (kernRearrangeArray_thread N idx pos vel2) (pos2, vel1)
     = kernRearrangeArray blocks N idx pos vel2 pos2 vel1).
Proof.
  intros Hp. split; [|split].
  - intros dt pos vel. apply any_order_of_launch; [exact Hp|].
    intros i j t _ _ Hne.
    exact (own_slot_threads_commute V3.zero N
             (fun i p => updatePos dt p (rdv vel i)) i j t Hne).
  - intros gridResolution gridMin inverseCellWidth pos indices gridIndices.
    apply any_order_of_launch; [exact Hp|].
    intros i j [a b] _ _ Hne. unfold kernComputeIndices_thread.
    destruct (N <=? i), (N <=? j); try reflexivity.
    f_equal; apply wr_comm; lia.
  - intros idx pos vel2 pos2 vel1.
    apply any_order_of_launch; [exact Hp|].
    intros i j [a b] _ _ Hne. unfold kernRearrangeArray_thread.
    destruct (N <=? i), (N <=? j); try reflexivity.
    f_equal; apply wr_comm; lia.
Qed.

Lemma own_slot_kernels_any_order_witness :
  let pos := [Vec3 scene_scale F32.zero F32.zero; V3.zero] in
  let vel := [Vec3 F32.one F32.zero F32.zero; Vec3 F32.zero F32.one F32.zero] in
  run_threads (reverse (seqZ 0 (1 * blockSize))) (kernUpdatePos_thread 2 oneHalf vel) pos
  = kernUpdatePos 1 2 oneHalf pos vel.
Proof.
  exact (proj1 (own_slot_kernels_any_order 1 2 (reverse (seqZ 0 (1 * blockSize)))
                  (reverse_Permutation _)) oneHalf
           [Vec3 scene_scale F32.zero F32.zero; V3.zero]
           [Vec3 F32.one F32.zero F32.zero; Vec3 F32.zero F32.one F32.zero]).
Defined.

(** X10.  The three velocity kernels do not depend on the schedule:
    running the thread bodies of [kernUpdateVelocityBruteForce], of
    [kernUpdateVelNeighborSearchCoherent] and, when the boid indices of
    the slots are pairwise distinct, of
    [kernUpdateVelNeighborSearchScattered] in any order, each once,
    gives the velocity buffer of the launch. *)
Theorem velocity_kernels_any_order (blocks N : Z) (order : list Z) :
  order ≡ₚ seqZ 0 (blocks * blockSize) ->
  (forall pos vel1 vel2,
     run_threads order (kernUpdateVelocityBruteForce_thread N pos vel1) vel2
     = kernUpdateVelocityBruteForce blocks N pos vel1 vel2) /\
  (forall gridResolution gridMin inverseCellWidth cellWidth cellStart cellEnd
          pos vel1 vel2,
     run_threads order
       (kernUpdateVelNeighborSearchCoherent_thread N gridResolution gridMin
          inverseCellWidth cellWidth cellStart cellEnd pos vel1) vel2
     = kernUpdateVelNeighborSearchCoherent blocks N gridResolution gridMin
         inverseCellWidth cellWidth cellStart cellEnd pos vel1 vel2) /\
  (forall gridResolution gridMin inverseCellWidth cellWidth cellStart cellEnd
          idx pos vel1 vel2,
     (forall i j, 0 <= i < N -> 0 <= j < N -> i <> j -> rdi idx i <> rdi idx j) ->
     run_threads order
       (kernUpdateVelNeighborSearchScattered_thread N gridResolution gridMin
          inverseCellWidth cellWidth cellStart cellEnd idx pos vel1) vel2
     = kernUpdateVelNeighborSearchScattered blocks N gridResolution gridMin
         inverseCellWidth cellWidth cellStart cellEnd idx pos vel1 vel2).
Proof.
  intros Hp. split; [|split].
  - intros pos vel1 vel2. apply any_order_of_launch; [exact Hp|].
    intros i j t _ _ Hne. unfold kernUpdateVelocityBruteForce_thread.
    destruct (N <=? i), (N <=? j); try reflexivity.
    apply wr_comm. lia.
  - intros gridResolution gridMin inverseCellWidth cellWidth cellStart cellEnd
           pos vel1 vel2.
    apply any_order_of_launch; [exact Hp|].
    intros i j t _ _ Hne. unfold kernUpdateVelNeighborSearchCoherent_thread.
    destruct (N <=? i), (N <=? j); try reflexivity.
    apply wr_comm. lia.
  - intros gridResolution gridMin inverseCellWidth cellWidth cellStart cellEnd
           idx pos vel1 vel2 Hinj.
    apply any_order_of_launch; [exact Hp|].
    intros i j t Hi Hj Hne. unfold kernUpdateVelNeighborSearchScattered_thread.
    destruct (Z.leb_spec N i), (Z.leb_spec N j); try reflexivity.
    apply wr_comm. apply Hinj; lia.
Qed.

Lemma velocity_kernels_any_order_witness :
  let pos := [Vec3 F32.one F32.zero F32.zero; V3.zero] in
  let vel := [Vec3 F32.one F32.zero F32.zero; Vec3 F32.zero F32.one F32.zero] in
  run_threads (reverse (seqZ 0 (1 * blockSize)))
    (kernUpdateVelocityBruteForce_thread 2 pos vel) [V3.zero; V3.zero]
  = kernUpdateVelocityBruteForce 1 2 pos vel [V3.zero; V3.zero].
Proof.
  exact (proj1 (velocity_kernels_any_order 1 2 (reverse (seqZ 0 (1 * blockSize)))
                  (reverse_Permutation _))
           [Vec3 F32.one F32.zero F32.zero; V3.zero]
           [Vec3 F32.one F32.zero F32.zero; Vec3 F32.zero F32.one F32.zero]
           [V3.zero; V3.zero]).
Defined.

(** * The naive step *)

Lemma kernUpdateVelocityBruteForce_map N pos vel1 vel2 :
  Z.of_nat (length vel2) = N ->
  kernUpdateVelocityBruteForce (fullBlocksPerGrid N) N pos vel1 vel2
  = (fun i => clampSpeed (rdv vel1 i + computeVelocityChange N i pos vel1)%v3)
      <$> seqZ 0 N.
Proof.
  intros Hlen. unfold kernUpdateVelocityBruteForce.
  launch_as_loop N kernUpdateVelocityBruteForce_thread.
  etransitivity; [|apply (tabulate_loop V3.zero); exact Hlen].
  apply for_range_ext. intros i t Hi.
  unfold kernUpdateVelocityBruteForce_thread.
  destruct (Z.leb_spec N i); [lia|reflexivity].
Qed.

(** X8.  [stepSimulationNaive] is a synchronous update.  With buffers of
    [numObjects] entries, the new velocity of every boid is the clamped
    sum of its old velocity and the velocity change computed from the
    old positions and old velocities of all boids, its new position is
    the old one moved by the new velocity, the old velocities end in
    [dev_vel2] (the ping-pong swap), and the buffers keep their sizes. *)
Theorem naive_step_is_synchronous (dt : float) (st : state) :
  buffers_sized st ->
  let s := stepSimulationNaive dt st in
  let N := numObjects st in
  buffers_sized s /\
  dev_vel2 s = dev_vel1 st /\
  (forall i, 0 <= i < N ->
     rdv (dev_vel1 s) i
       = clampSpeed (rdv (dev_vel1 st) i
                     + computeVelocityChange N i (dev_pos st) (dev_vel1 st))%v3 /\
     rdv (dev_pos s) i = updatePos dt (rdv (dev_pos st) i) (rdv (dev_vel1 s) i)).
Proof.
  intros (Hpos & Hpos2 & Hvel1 & Hvel2 & Hidx & Hgidx). cbv zeta.
  set (N := numObjects st) in *.
  assert (HN : 0 <= N) by lia.
  unfold stepSimulationNaive. fold N.
  rewrite (kernUpdateVelocityBruteForce_map N _ _ _ Hvel2).
  set (newVel := _ <$> seqZ 0 N).
  rewrite (kernUpdatePos_map N dt (dev_pos st) newVel Hpos).
  cbn [dev_pos dev_vel1 dev_vel2 numObjects].
  split; [|split; [reflexivity|]].
  - unfold buffers_sized.
    cbn [dev_pos dev_pos2 dev_vel1 dev_vel2 numObjects
         dev_particleArrayIndices dev_particleGridIndices].
    unfold newVel. rewrite !length_fmap, !length_seqZ.
    repeat split; try assumption; lia.
  - intros i Hi. split.
    + exact (rd_map_seqZ V3.zero _ N i Hi).
    + exact (rd_map_seqZ V3.zero
               (fun i => updatePos dt (rdv (dev_pos st) i) (rdv newVel i)) N i Hi).
Qed.

Lemma naive_step_is_synchronous_witness :
  buffers_sized (stepSimulationNaive oneHalf demo_state) /\
  dev_vel2 (stepSimulationNaive oneHalf demo_state) = dev_vel1 demo_state.
Proof.
  assert (Hb : buffers_sized demo_state) by (repeat split; reflexivity).
  destruct (naive_step_is_synchronous oneHalf demo_state Hb) as (H1 & H2 & _).
  split; assumption.
Defined.

(** * Coordinates that are not finite *)

Lemma sub_non_finite (x y : float) :
  F32.is_finite x = false \/ F32.is_finite y = false ->
  F32.is_finite (x - y)%f32 = false.
Proof.
  intros [H|H];
    destruct x as [sx|sx| |sx mx ex]; destruct y as [sy|sy| |sy my ey];
    try discriminate; try reflexivity;
    destruct sx, sy; reflexivity.
Qed.

Lemma square_non_finite (x : float) :
  F32.is_finite x = false -> inf_or_nan (x * x)%f32 = true.
Proof.
  destruct x as [s|s| |s m e]; try discriminate; intros _; [|reflexivity].
  destruct s; reflexivity.
Qed.

Lemma add_inf_or_nan_l (x y : float) :
  inf_or_nan x = true -> inf_or_nan (x + y)%f32 = true.
Proof.
  destruct x as [sx|sx| |sx mx ex]; try discriminate; [|reflexivity].
  destruct sx; [discriminate|]. intros _.
  destruct y as [sy|sy| |sy my ey]; try reflexivity. destruct sy; reflexivity.
Qed.

Lemma add_inf_or_nan_r (x y : float) :
  inf_or_nan y = true -> inf_or_nan (x + y)%f32 = true.
Proof.
  destruct y as [sy|sy| |sy my ey]; try discriminate.
  - destruct sy; [discriminate|]. intros _.
    destruct x as [sx|sx| |sx mx ex]; try reflexivity. destruct sx; reflexivity.
  - intros _. destruct x; reflexivity.
Qed.

Lemma sqrt_inf_or_nan (x : float) :
  inf_or_nan x = true -> inf_or_nan (F32.sqrt x) = true.
Proof.
  destruct x as [sx|sx| |sx mx ex]; try discriminate; [|reflexivity].
  destruct sx; [discriminate|reflexivity].
Qed.

Lemma ltb_inf_or_nan (x r : float) :
  inf_or_nan x = true -> F32.is_finite r = true -> (x <? r)%f32 = false.
Proof.
  destruct x as [sx|sx| |sx mx ex]; try discriminate.
  - destruct sx; [discriminate|]. intros _.
    destruct r as [sr|sr| |sr mr er]; try discriminate; reflexivity.
  - reflexivity.
Qed.

Lemma length_non_finite (d : vec3) :
  V3.is_finite d = false -> inf_or_nan (V3.length d) = true.
Proof.
  unfold V3.is_finite, V3.length, V3.dot, V3.mulv, V3.map2. cbv zeta.
  cbn [vx vy vz]. intros H. apply sqrt_inf_or_nan.
  destruct (F32.is_finite (vx d)) eqn:Hx.
  - destruct (F32.is_finite (vy d)) eqn:Hy.
    + cbn [andb] in H. apply add_inf_or_nan_r, square_non_finite. exact H.
    + apply add_inf_or_nan_l, add_inf_or_nan_r, square_non_finite. exact Hy.
  - apply add_inf_or_nan_l, add_inf_or_nan_l, square_non_finite. exact Hx.
Qed.

Lemma distance_non_finite (nPos myPos : vec3) :
  V3.is_finite nPos = false \/ V3.is_finite myPos = false ->
  inf_or_nan (V3.distance nPos myPos) = true.
Proof.
  intros H. unfold V3.distance. apply length_non_finite.
  unfold V3.is_finite, V3.sub, V3.map2 in *. cbn [vx vy vz].
  assert (Hc : forall a b c : bool, a && b && c = false ->
                 a = false \/ b = false \/ c = false).
  { intros [] [] []; auto. }
  assert (Hx : forall a b c : bool,
                 a = false \/ b = false \/ c = false -> a && b && c = false).
  { intros [] [] [] [?|[?|?]]; auto. }
  apply Hx.
  destruct H as [H|H]; apply Hc in H as [H|[H|H]];
    [left|right; left|right; right|left|right; left|right; right];
    apply sub_non_finite; auto.
Qed.

Lemma visit_far (myPos nPos nVel : vec3) (a : rules) :
  inf_or_nan (V3.distance nPos myPos) = true -> visit myPos nPos nVel a = a.
Proof.
  intros H. unfold visit. cbv zeta.
  rewrite !ltb_inf_or_nan by (exact H || reflexivity). reflexivity.
Qed.

Lemma visit_non_finite (myPos nPos nVel : vec3) (b : rules) :
  V3.is_finite nPos = false \/ V3.is_finite myPos = false ->
  visit myPos nPos nVel b = b.
Proof. intros H. apply visit_far, distance_non_finite. exact H. Qed.

Lemma accumulate_finite_only (myPos : vec3) (cands : list (vec3 * vec3)) (a : rules) :
  accumulate myPos cands a
  = accumulate myPos (filter (fun c => V3.is_finite c.1 = true) cands) a.
Proof.
  revert a. induction cands as [|[p v] l IH]; intros a; [reflexivity|].
  rewrite filter_cons. cbn [fst].
  destruct (decide (V3.is_finite p = true)) as [Hf|Hf].
  - unfold accumulate in *. cbn [foldl]. apply IH.
  - unfold accumulate in *. cbn [foldl fst snd].
    rewrite visit_non_finite by (left; destruct (V3.is_finite p); congruence).
    apply IH.
Qed.

Lemma accumulate_lost (myPos : vec3) (cands : list (vec3 * vec3)) (a : rules) :
  V3.is_finite myPos = false -> accumulate myPos cands a = a.
Proof.
  intros Hm. revert a. induction cands as [|[p v] l IH]; intros a; [reflexivity|].
  unfold accumulate in *. cbn [foldl fst snd].
  rewrite visit_non_finite by (right; exact Hm). apply IH.
Qed.

(** X5.  A boid whose position has a NaN or infinite coordinate takes
    part in no rule.  Visiting a candidate leaves the sums and counts
    unchanged when the candidate's position or the visitor's own
    position is not finite; hence a neighbour loop gives the result it
    gives on the candidates with a finite position alone. *)
Theorem non_finite_position_is_invisible (myPos : vec3)
    (cands : list (vec3 * vec3)) (a : rules) :
  (forall nPos nVel b,
     V3.is_finite nPos = false \/ V3.is_finite myPos = false ->
     visit myPos nPos nVel b = b) /\
  accumulate myPos cands a
    = accumulate myPos (filter (fun c => V3.is_finite c.1 = true) cands) a /\
  (forall N iSelf pos vel,
     bruteForceLoop N iSelf pos vel
     = accumulate (rdv pos iSelf)
         (filter (fun c => V3.is_finite c.1 = true) (bruteForceCandidates N pos vel))
         rules0).
Proof.
  split; [intros; apply visit_non_finite; assumption|].
  split; [apply accumulate_finite_only|].
  intros N iSelf pos vel. rewrite bruteForceLoop_accumulate.
  apply accumulate_finite_only.
Qed.

(** * Boids that are lost *)

Lemma add_nan_l (x y : float) : F32.is_nan x = true -> F32.is_nan (x + y)%f32 = true.
Proof. destruct x; try discriminate. reflexivity. Qed.

Lemma add_nan_r (x y : float) : F32.is_nan y = true -> F32.is_nan (x + y)%f32 = true.
Proof. destruct y; try discriminate. destruct x; reflexivity. Qed.

Lemma mul_nan_l (x y : float) : F32.is_nan x = true -> F32.is_nan (x * y)%f32 = true.
Proof. destruct x; try discriminate. reflexivity. Qed.

Lemma is_nan_eq (x : float) : F32.is_nan x = true -> x = F32.nan.
Proof. destruct x; try discriminate. reflexivity. Qed.

Lemma length_has_nan (v : vec3) : has_nan v = true -> V3.length v = F32.nan.
Proof.
  intros H. unfold V3.length, V3.dot, V3.mulv, V3.map2. cbv zeta. cbn [vx vy vz].
  assert (Hd : F32.is_nan ((vx v * vx v + vy v * vy v) + vz v * vz v)%f32 = true).
  { unfold has_nan in H.
    destruct (F32.is_nan (vx v)) eqn:Hx;
      [apply add_nan_l, add_nan_l, mul_nan_l; exact Hx|].
    destruct (F32.is_nan (vy v)) eqn:Hy;
      [apply add_nan_l, add_nan_r, mul_nan_l; exact Hy|].
    cbn [orb] in H. apply add_nan_r, mul_nan_l. exact H. }
  rewrite (is_nan_eq _ Hd). reflexivity.
Qed.

Lemma clampSpeed_has_nan (v : vec3) : has_nan v = true -> clampSpeed v = v.
Proof.
  intros H. apply clampSpeed_below. rewrite (length_has_nan v H). reflexivity.
Qed.

Lemma finish1_rules0 (myPos : vec3) : finish1 myPos rules0 = V3.splat F32.nan.
Proof.
  unfold finish1, rules0, V3.divs, V3.sub, V3.scale, V3.map2, V3.splat.
  cbn [rule1 rule1Cnt vx vy vz V3.zero V3.splat].
  change (F32.zero / F32.zero)%f32 with F32.nan. reflexivity.
Qed.

Lemma add_splat_nan_r (v : vec3) : (v + V3.splat F32.nan)%v3 = V3.splat F32.nan.
Proof.
  destruct v as [x y z]. unfold V3.add, V3.map2, V3.splat. cbn [vx vy vz].
  destruct x, y, z; reflexivity.
Qed.

Lemma updatePos_nan (dt : float) (p : vec3) :
  updatePos dt p (V3.splat F32.nan) = V3.splat F32.nan.
Proof.
  destruct p as [x y z]. unfold updatePos, V3.add, V3.scale, V3.map2, V3.splat.
  cbv zeta. cbn [vx vy vz].
  change (F32.nan * dt)%f32 with F32.nan.
  destruct x, y, z; reflexivity.
Qed.

Lemma bruteForceLoop_lost N iSelf pos vel :
  V3.is_finite (rdv pos iSelf) = false -> bruteForceLoop N iSelf pos vel = rules0.
Proof.
  intros H. rewrite bruteForceLoop_accumulate.
  apply accumulate_lost. exact H.
Qed.

Lemma gridLoop_lost gridResolution cellStart cellEnd slotPos slotVel myPos
    gridX gridY gridZ :
  V3.is_finite myPos = false ->
  gridLoop gridResolution cellStart cellEnd slotPos slotVel myPos gridX gridY gridZ
  = rules0.
Proof.
  intros H. rewrite gridLoop_accumulate.
  apply accumulate_lost. exact H.
Qed.

Lemma computeVelocityChange_lost N iSelf pos vel :
  V3.is_finite (rdv pos iSelf) = false ->
  computeVelocityChange N iSelf pos vel = V3.splat F32.nan.
Proof.
  intros H. unfold computeVelocityChange. cbv zeta.
  rewrite bruteForceLoop_lost by exact H.
  rewrite finish1_rules0. reflexivity.
Qed.

Lemma gridNewVel_lost gridResolution gridMin inverseCellWidth cellStart cellEnd
    slotPos slotVel myPos myVel :
  V3.is_finite myPos = false ->
  gridNewVel gridResolution gridMin inverseCellWidth cellStart cellEnd
             slotPos slotVel myPos myVel = V3.splat F32.nan.
Proof.
  intros H. unfold gridNewVel. cbv zeta.
  rewrite gridLoop_lost by exact H. rewrite finish1_rules0.
  rewrite add_splat_nan_r. reflexivity.
Qed.

(** X6.  A boid whose position is not finite is lost for good.  Its
    brute-force loop ends with zero sums and zero counts, its velocity
    change and its grid-search velocity are NaN in every component
    (two divisions of zero by zero), and after one [stepSimulationNaive]
    its velocity and its position are NaN in every component. *)
Theorem lost_boid_turns_nan :
  (forall N iSelf pos vel,
     V3.is_finite (rdv pos iSelf) = false ->
     bruteForceLoop N iSelf pos vel = rules0 /\
     computeVelocityChange N iSelf pos vel = V3.splat F32.nan) /\
  (forall gridResolution gridMin inverseCellWidth cellStart cellEnd
          slotPos slotVel myPos myVel,
     V3.is_finite myPos = false ->
     gridNewVel gridResolution gridMin inverseCellWidth cellStart cellEnd
                slotPos slotVel myPos myVel = V3.splat F32.nan) /\
  (forall dt st i,
     buffers_sized st -> 0 <= i < numObjects st ->
     V3.is_finite (rdv (dev_pos st) i) = false ->
     let s := stepSimulationNaive dt st in
     rdv (dev_vel1 s) i = V3.splat F32.nan /\
     rdv (dev_pos s) i = V3.splat F32.nan).
Proof.
  split; [|split].
  - intros N iSelf pos vel H.
    split; [apply bruteForceLoop_lost|apply computeVelocityChange_lost]; exact H.
  - intros. apply gridNewVel_lost. assumption.
  - intros dt st i Hb Hi Hlost.
    destruct Hb as (Hpos & Hpos2 & Hvel1 & Hvel2 & Hidx & Hgidx).
    cbv zeta. unfold stepSimulationNaive.
    set (N := numObjects st) in *.
    rewrite (kernUpdateVelocityBruteForce_map N _ _ _ Hvel2).
    set (newVel := _ <$> seqZ 0 N).
    rewrite (kernUpdatePos_map N dt (dev_pos st) newVel Hpos).
    cbn [dev_pos dev_vel1].
    assert (Hv : rdv newVel i = V3.splat F32.nan).
    { etransitivity; [exact (rd_map_seqZ V3.zero _ N i Hi)|]. cbv beta.
      rewrite computeVelocityChange_lost by exact Hlost.
      rewrite add_splat_nan_r. reflexivity. }
    split; [exact Hv|].
    etransitivity;
      [exact (rd_map_seqZ V3.zero
                (fun i => updatePos dt (rdv (dev_pos st) i) (rdv newVel i)) N i Hi)|].
    cbv beta. rewrite Hv. apply updatePos_nan.
Qed.

Lemma lost_boid_turns_nan_witness :
  let pos := [Vec3 F32.nan F32.zero F32.zero; V3.zero] in
  computeVelocityChange 2 0 pos [V3.zero; V3.zero] = V3.splat F32.nan.
Proof.
  exact (proj2 (proj1 lost_boid_turns_nan 2 0
                  [Vec3 F32.nan F32.zero F32.zero; V3.zero] [V3.zero; V3.zero]
                  eq_refl)).
Defined.

(** * NaN is never repaired *)

Lemma nan_le_add_l (u c : vec3) : nan_le u (u + c)%v3.
Proof.
  unfold nan_le, V3.add, V3.map2. cbn [vx vy vz].
  repeat split; apply add_nan_l.
Qed.

Lemma nan_le_trans (u v w : vec3) : nan_le u v -> nan_le v w -> nan_le u w.
Proof. unfold nan_le. intros (A & B & C) (D & E & G). auto. Qed.

Lemma nan_le_clampSpeed (v : vec3) : nan_le v (clampSpeed v).
Proof.
  destruct (has_nan v) eqn:H.
  - rewrite clampSpeed_has_nan by exact H. unfold nan_le. auto.
  - unfold has_nan in H. apply orb_false_iff in H as [H Hz].
    apply orb_false_iff in H as [Hx Hy].
    unfold nan_le. rewrite Hx, Hy, Hz. repeat split; discriminate.
Qed.

Lemma wrapCoord_nan_l (p v dt : float) :
  F32.is_nan p = true \/ F32.is_nan v = true ->
  F32.is_nan (wrapCoord (p + v * dt)%f32) = true.
Proof.
  intros H. rewrite wrapCoord_is_nan.
  destruct H as [H|H]; [apply add_nan_l; exact H|].
  apply add_nan_r, mul_nan_l. exact H.
Qed.

Lemma nan_le_updatePos_pos (dt : float) (p v : vec3) : nan_le p (updatePos dt p v).
Proof.
  unfold nan_le, updatePos, V3.add, V3.scale, V3.map2. cbv zeta. cbn [vx vy vz].
  repeat split; intros H; apply wrapCoord_nan_l; left; exact H.
Qed.

Lemma nan_le_updatePos_vel (dt : float) (p v : vec3) : nan_le v (updatePos dt p v).
Proof.
  unfold nan_le, updatePos, V3.add, V3.scale, V3.map2. cbv zeta. cbn [vx vy vz].
  repeat split; intros H; apply wrapCoord_nan_l; right; exact H.
Qed.

(** X7.  NaN is never repaired.  The speed clamp returns a velocity
    with a NaN component unchanged; [kernUpdatePos] leaves NaN every
    coordinate whose position or velocity component is NaN; the grid
    searches keep the NaN components of the boid's velocity; and over
    one [stepSimulationNaive] every NaN component of a boid's velocity
    or position stays NaN, and a NaN velocity component makes the same
    coordinate of the position NaN. *)
Theorem nan_components_are_kept :
  (forall v, has_nan v = true -> clampSpeed v = v) /\
  (forall dt p v, nan_le p (updatePos dt p v) /\ nan_le v (updatePos dt p v)) /\
  (forall gridResolution gridMin inverseCellWidth cellStart cellEnd
          slotPos slotVel myPos myVel,
     nan_le myVel
       (gridNewVel gridResolution gridMin inverseCellWidth cellStart cellEnd
                   slotPos slotVel myPos myVel)) /\
  (forall dt st i,
     buffers_sized st -> 0 <= i < numObjects st ->
     let s := stepSimulationNaive dt st in
     nan_le (rdv (dev_vel1 st) i) (rdv (dev_vel1 s) i) /\
     nan_le (rdv (dev_vel1 s) i) (rdv (dev_pos s) i) /\
     nan_le (rdv (dev_pos st) i) (rdv (dev_pos s) i)).
Proof.
  split; [exact clampSpeed_has_nan|]. split; [|split].
  - intros dt p v. split; [apply nan_le_updatePos_pos|apply nan_le_updatePos_vel].
  - intros. unfold gridNewVel. cbv zeta.
    eapply nan_le_trans; [|apply nan_le_clampSpeed].
    eapply nan_le_trans; [|apply nan_le_add_l].
    eapply nan_le_trans; [|apply nan_le_add_l].
    apply nan_le_add_l.
  - intros dt st i Hb Hi.
    destruct Hb as (Hpos & Hpos2 & Hvel1 & Hvel2 & Hidx & Hgidx).
    cbv zeta. unfold stepSimulationNaive.
    set (N := numObjects st) in *.
    rewrite (kernUpdateVelocityBruteForce_map N _ _ _ Hvel2).
    set (newVel := _ <$> seqZ 0 N).
    rewrite (kernUpdatePos_map N dt (dev_pos st) newVel Hpos).
    cbn [dev_pos dev_vel1].
    assert (Hv : rdv newVel i
                 = clampSpeed (rdv (dev_vel1 st) i
                     + computeVelocityChange N i (dev_pos st) (dev_vel1 st))%v3).
    { exact (rd_map_seqZ V3.zero _ N i Hi). }
    assert (Hp : rdv ((fun i => updatePos dt (rdv (dev_pos st) i) (rdv newVel i))
                        <$> seqZ 0 N) i
                 = updatePos dt (rdv (dev_pos st) i) (rdv newVel i)).
    { exact (rd_map_seqZ V3.zero
               (fun i => updatePos dt (rdv (dev_pos st) i) (rdv newVel i)) N i Hi). }
    rewrite Hp. split; [|split].
    + rewrite Hv. eapply nan_le_trans; [apply nan_le_add_l|apply nan_le_clampSpeed].
    + apply nan_le_updatePos_vel.
    + apply nan_le_updatePos_pos.
Qed.

Lemma nan_components_are_kept_witness :
  let st := initSimulation 1 [V3.zero] [V3.zero] [Vec3 F32.nan F32.one F32.zero]
              [V3.zero] [0] [0] [] [] in
  F32.is_nan (vx (rdv (dev_vel1 (stepSimulationNaive oneHalf st)) 0)) = true.
Proof.
  refine (proj1 (proj1 (proj2 (proj2 (proj2 nan_components_are_kept)) oneHalf
            (initSimulation 1 [V3.zero] [V3.zero] [Vec3 F32.nan F32.one F32.zero]
               [V3.zero] [0] [0] [] []) 0 _ _)) eq_refl).
  - repeat split; reflexivity.
  - cbn. lia.
Defined.

(** * Division by one *)

Lemma div_eucl_exact (a b : Z) : 0 < b -> Z.div_eucl (a * b) b = (a, 0).
Proof.
  intros Hb. assert (Hgt : b > 0) by lia.
  pose proof (Z_div_mod (a * b) b Hgt) as He.
  destruct (Z.div_eucl (a * b) b) as [q r]. destruct He as [He Hr].
  assert (Hq : q = a).
  { destruct (Z.lt_trichotomy a q) as [Hlt|[Heq|Hgt']]; [|congruence|].
    - assert (b * 1 <= b * (q - a)) by (apply Z.mul_le_mono_nonneg_l; lia). lia.
    - assert (b * 1 <= b * (a - q)) by (apply Z.mul_le_mono_nonneg_l; lia). lia. }
  subst q. f_equal. lia.
Qed.

Lemma div_one_r (x : float) : F32.valid x = true -> (x / F32.one)%f32 = x.
Proof.
  destruct x as [s|s| |s m e]; intros Hv; try reflexivity.
  - cbn. rewrite xorb_false_r. reflexivity.
  - cbn. rewrite xorb_false_r. reflexivity.
  - pose proof (valid_finite_inv _ _ _ Hv) as (He & Hd & Hn).
    unfold F32.div, F32.one, SFdiv, SFdiv_core_binary. rewrite xorb_false_r.
    cbv zeta. cbn [Zdigits2].
    change (Zpos (digits2_pos 8388608)) with 24.
    destruct (Z.eq_dec e (-149)) as [->|Hne].
    + assert (Hf : Z.min (fexp F32.prec F32.emax
                            (Zpos (digits2_pos m) + -149 - (24 + -23)))
                         (-149 - -23) = -149).
      { unfold fexp, emin, F32.prec, F32.emax. lia. }
      rewrite Hf. change (-149 - -23 - -149) with 23.
      rewrite Z.shiftl_mul_pow2 by lia. change (2 ^ 23) with 8388608.
      rewrite div_eucl_exact by lia.
      change (new_location 8388608 0) with loc_Exact.
      apply binary_round_aux_bounded. exact Hv.
    + rewrite Hn by lia.
      assert (Hf : Z.min (fexp F32.prec F32.emax (24 + e - (24 + -23)))
                         (e - -23) = e - 1).
      { unfold fexp, emin, F32.prec, F32.emax. lia. }
      rewrite Hf. replace (e - -23 - (e - 1)) with 24 by lia.
      rewrite Z.shiftl_mul_pow2 by lia.
      change (2 ^ 24) with (2 * 8388608).
      replace (Zpos m * (2 * 8388608)) with (Zpos m~0 * 8388608) by lia.
      rewrite div_eucl_exact by lia.
      change (new_location 8388608 0) with loc_Exact.
      change (Zpos m~0) with (Zpos (Pos.iter xO m 1)).
      apply binary_round_aux_shifted. exact Hv.
Qed.

Lemma add_zero_l_finite (x : float) :
  F32.is_finite x = true ->
  (F32.zero + x)%f32 = x \/ (exists s, x = S754_zero s) /\ (F32.zero + x)%f32 = F32.zero.
Proof.
  destruct x as [s|s| |s m e]; try discriminate; intros _.
  - right. split; [eexists; reflexivity|]. destruct s; reflexivity.
  - left. reflexivity.
Qed.

Lemma cohesion_alone (p : float) :
  wf p = true ->
  (((F32.zero + p) / F32.one - p) * rule1Scale)%f32 = F32.zero.
Proof.
  intros Hp. apply wf_inv in Hp as [Hv Hf].
  destruct (add_zero_l_finite p Hf) as [E|[[s ->] E]]; rewrite E.
  - rewrite div_one_r by exact Hv. rewrite sub_self by exact Hf. reflexivity.
  - destruct s; reflexivity.
Qed.

Lemma alignment_alone (v : float) :
  F32.valid v = true ->
  ((F32.zero + v) / F32.one * rule3Scale)%f32 = ((F32.zero + v) * rule3Scale)%f32.
Proof.
  intros Hv. rewrite div_one_r; [reflexivity|].
  apply add_valid; [reflexivity|exact Hv].
Qed.

(** * A boid without neighbours *)

Lemma visit_unseen (myPos nPos nVel : vec3) (a : rules) :
  sees myPos nPos = false -> visit myPos nPos nVel a = a.
Proof.
  unfold sees, visit. cbv zeta. intros H.
  apply orb_false_iff in H as [H H3]. apply orb_false_iff in H as [H1 H2].
  rewrite H1, H2, H3. reflexivity.
Qed.

Lemma accumulate_unseen (myPos : vec3) (cands : list (vec3 * vec3)) (a : rules) :
  Forall (fun c => sees myPos c.1 = false) cands -> accumulate myPos cands a = a.
Proof.
  intros H. revert a. induction H as [|[p v] l Hp Hl IH]; intros a; [reflexivity|].
  unfold accumulate in *. cbn [foldl fst snd].
  rewrite visit_unseen by exact Hp. apply IH.
Qed.

Lemma accumulate_cons (myPos : vec3) c (cands : list (vec3 * vec3)) (a : rules) :
  accumulate myPos (c :: cands) a = accumulate myPos cands (visit myPos c.1 c.2 a).
Proof. unfold accumulate. cbn [foldl]. reflexivity. Qed.

Lemma Forall_fmap_seqZ {A : Type} (P : A -> Prop) (f : Z -> A) lo n :
  (forall i, lo <= i < lo + n -> P (f i)) -> Forall P (f <$> seqZ lo n).
Proof.
  intros H. apply Forall_fmap. apply Forall_forall. intros i Hi.
  apply elem_of_seqZ in Hi. apply H. lia.
Qed.

Lemma isolated_loop (N iSelf : Z) (pos vel : list vec3) :
  0 <= iSelf < N ->
  V3.is_finite (rdv pos iSelf) = true ->
  (forall i, 0 <= i < N -> i <> iSelf -> sees (rdv pos iSelf) (rdv pos i) = false) ->
  bruteForceLoop N iSelf pos vel
  = Rules (V3.zero + rdv pos iSelf)%v3 V3.zero (V3.zero + rdv vel iSelf)%v3
          F32.one F32.one.
Proof.
  intros Hi Hf Hfar. rewrite bruteForceLoop_accumulate.
  rewrite (bruteForceCandidates_split N iSelf pos vel Hi).
  rewrite accumulate_app.
  rewrite (accumulate_unseen _ (bruteForceCandidates iSelf pos vel)).
  2:{ unfold bruteForceCandidates. apply Forall_fmap_seqZ. intros i Hi'.
      cbn [fst]. apply Hfar; lia. }
  rewrite accumulate_cons.
  rewrite accumulate_unseen.
  2:{ apply Forall_fmap_seqZ. intros i Hi'. cbn [fst]. apply Hfar; lia. }
  cbn [fst snd]. rewrite visit_self by exact Hf. reflexivity.
Qed.

(** X4.  A boid that sees no other boid accelerates along its own
    velocity.  In [computeVelocityChange], for a boid with a finite
    position and no other boid within a rule distance, the loop counts
    the boid alone, cohesion and separation are exactly zero, and the
    velocity change is [rule3Scale] times the boid's own velocity (the
    boid is its own alignment neighbour). *)
Theorem isolated_boid_feeds_on_itself (N iSelf : Z) (pos vel : list vec3) :
  0 <= iSelf < N ->
  wf3 (rdv pos iSelf) = true -> valid3 (rdv vel iSelf) = true ->
  (forall i, 0 <= i < N -> i <> iSelf -> sees (rdv pos iSelf) (rdv pos i) = false) ->
  let myPos := rdv pos iSelf in
  let myVel := rdv vel iSelf in
  let a := bruteForceLoop N iSelf pos vel in
  a = Rules (V3.zero + myPos)%v3 V3.zero (V3.zero + myVel)%v3 F32.one F32.one /\
  finish1 myPos a = V3.zero /\
  finish2 a = V3.zero /\
  finish3 a = ((V3.zero + myVel) * rule3Scale)%v3 /\
  computeVelocityChange N iSelf pos vel
    = (V3.zero + (V3.zero + myVel) * rule3Scale)%v3.
Proof.
  intros Hi Hwf Hv Hfar. cbv zeta.
  apply wf3_inv in Hwf as (Wx & Wy & Wz).
  apply valid3_inv in Hv as (Vx & Vy & Vz).
  assert (Hfin : V3.is_finite (rdv pos iSelf) = true).
  { unfold V3.is_finite.
    apply wf_inv in Wx as [_ ->]. apply wf_inv in Wy as [_ ->].
    apply wf_inv in Wz as [_ ->]. reflexivity. }
  pose proof (isolated_loop N iSelf pos vel Hi Hfin Hfar) as Hloop.
  assert (H1 : finish1 (rdv pos iSelf) (bruteForceLoop N iSelf pos vel) = V3.zero).
  { rewrite Hloop. unfold finish1, V3.divs, V3.sub, V3.scale, V3.add, V3.map2.
    cbn [rule1 rule1Cnt vx vy vz V3.zero V3.splat].
    rewrite !cohesion_alone by assumption. reflexivity. }
  assert (H2 : finish2 (bruteForceLoop N iSelf pos vel) = V3.zero).
  { rewrite Hloop. reflexivity. }
  assert (H3 : finish3 (bruteForceLoop N iSelf pos vel)
               = ((V3.zero + rdv vel iSelf) * rule3Scale)%v3).
  { rewrite Hloop. unfold finish3, V3.divs, V3.scale, V3.add, V3.map2.
    cbn [rule3 rule3Cnt vx vy vz V3.zero V3.splat].
    rewrite !alignment_alone by assumption. reflexivity. }
  split; [exact Hloop|]. split; [exact H1|]. split; [exact H2|].
  split; [exact H3|].
  unfold computeVelocityChange. cbv zeta. rewrite H1, H2, H3. reflexivity.
Qed.

Lemma isolated_boid_feeds_on_itself_witness :
  let pos := [V3.zero; Vec3 (F32.of_int 50) F32.zero F32.zero] in
  let vel := [Vec3 oneHalf F32.zero F32.zero; V3.zero] in
  computeVelocityChange 2 0 pos vel
  = Vec3 (oneHalf * rule3Scale)%f32 F32.zero F32.zero.
Proof.
  cbv zeta.
  pose proof (isolated_boid_feeds_on_itself 2 0
                [V3.zero; Vec3 (F32.of_int 50) F32.zero F32.zero]
                [Vec3 oneHalf F32.zero F32.zero; V3.zero]) as H.
  destruct H as (_ & _ & _ & _ & H).
  - lia.
  - reflexivity.
  - reflexivity.
  - intros i Hi Hne. assert (i = 1) by lia. subst i. vm_compute. reflexivity.
  - rewrite H. vm_compute. reflexivity.
Defined.

(** * Four floats per boid *)

Lemma stride4_loop (val : Z -> Z -> float) (N : Z) (vbo : list float) :
  0 <= N -> 4 * N <= Z.of_nat (length vbo) ->
  let u := for_range 0 N (fun i u =>
             wr (wr (wr (wr u (4 * i) (val i 0)) (4 * i + 1) (val i 1))
                    (4 * i + 2) (val i 2)) (4 * i + 3) (val i 3)) vbo in
  length u = length vbo /\
  (forall i k, 0 <= i < N -> 0 <= k < 4 -> rdf u (4 * i + k) = val i k) /\
  (forall j, 4 * N <= j -> rdf u j = rdf vbo j).
Proof.
  intros HN Hlen. cbv zeta.
  apply (for_range_ind
    (fun m u => length u = length vbo /\
       (forall i k, 0 <= i < m -> 0 <= k < 4 -> rdf u (4 * i + k) = val i k) /\
       (forall j, 4 * m <= j -> rdf u j = rdf vbo j)) 0 N _ vbo HN).
  - split; [reflexivity|]. split; [intros; lia|reflexivity].
  - intros m u Hm (Hl & Hlow & Hhigh). rewrite !length_wr.
    split; [exact Hl|]. split.
    + intros i k Hi Hk. unfold rdf in *.
      destruct (Z.eq_dec i m) as [->|Hne].
      * assert (Hcase : k = 0 \/ k = 1 \/ k = 2 \/ k = 3) by lia.
        destruct Hcase as [->|[->|[->| ->]]].
        -- rewrite Z.add_0_r. rewrite !rd_wr_ne by lia.
           apply rd_wr_eq. lia.
        -- rewrite !rd_wr_ne by lia. apply rd_wr_eq. rewrite length_wr. lia.
        -- rewrite rd_wr_ne by lia. apply rd_wr_eq. rewrite !length_wr. lia.
        -- apply rd_wr_eq. rewrite !length_wr. lia.
      * rewrite !rd_wr_ne by lia. apply Hlow; lia.
    + intros j Hj. unfold rdf in *. rewrite !rd_wr_ne by lia. apply Hhigh. lia.
Qed.

Lemma vbo_index (index k : Z) :
  0 <= index < 2 ^ 29 -> 0 <= k < 4 -> iadd (imul 4 index) k = 4 * index + k.
Proof.
  intros Hi Hk. unfold iadd, imul.
  change (2 ^ 29) with 536870912 in Hi.
  rewrite (wrap32_small (4 * index)) by (change (2 ^ 31) with 2147483648; lia).
  apply wrap32_small. change (2 ^ 31) with 2147483648. lia.
Qed.

Lemma kernCopyPositionsToVBO_loop N pos vbo s_scale :
  0 <= N <= 2 ^ 29 ->
  kernCopyPositionsToVBO (fullBlocksPerGrid N) N pos vbo s_scale
  = for_range 0 N (fun i u =>
      wr (wr (wr (wr u (4 * i) (vx (rdv pos i) * (F32.opp F32.one / s_scale))%f32)
                 (4 * i + 1) (vy (rdv pos i) * (F32.opp F32.one / s_scale))%f32)
             (4 * i + 2) (vz (rdv pos i) * (F32.opp F32.one / s_scale))%f32)
         (4 * i + 3) F32.one) vbo.
Proof.
  intros HN. unfold kernCopyPositionsToVBO.
  rewrite (launch_guard _ N).
  - apply for_range_ext. intros i t Hi. unfold kernCopyPositionsToVBO_thread.
    destruct (Z.ltb_spec i N); [|lia]. cbv zeta.
    rewrite !vbo_index by lia. rewrite Z.add_0_r. reflexivity.
  - apply fullBlocks_cover. lia.
  - intros i t Hi. unfold kernCopyPositionsToVBO_thread.
    destruct (Z.ltb_spec i N); [lia|reflexivity].
Qed.

Lemma kernCopyVelocitiesToVBO_loop N vel vbo s_scale :
  0 <= N <= 2 ^ 29 ->
  kernCopyVelocitiesToVBO (fullBlocksPerGrid N) N vel vbo s_scale
  = for_range 0 N (fun i u =>
      wr (wr (wr (wr u (4 * i) (vx (rdv vel i) + threeTenths)%f32)
                 (4 * i + 1) (vy (rdv vel i) + threeTenths)%f32)
             (4 * i + 2) (vz (rdv vel i) + threeTenths)%f32)
         (4 * i + 3) F32.one) vbo.
Proof.
  intros HN. unfold kernCopyVelocitiesToVBO.
  rewrite (launch_guard _ N).
  - apply for_range_ext. intros i t Hi. unfold kernCopyVelocitiesToVBO_thread.
    destruct (Z.ltb_spec i N); [|lia]. cbv zeta.
    rewrite !vbo_index by lia. rewrite Z.add_0_r. reflexivity.
  - apply fullBlocks_cover. lia.
  - intros i t Hi. unfold kernCopyVelocitiesToVBO_thread.
    destruct (Z.ltb_spec i N); [lia|reflexivity].
Qed.

Lemma finish_round_zero s f : finish_round s 0 f = S754_zero s.
Proof.
  unfold finish_round, shr_fexp, shr. cbn [Zdigits2 shr_record_of_loc].
  destruct (_ - f) as [|k|k]; cbn [shr_m]; try reflexivity.
  rewrite iter_pos_shr_1_div by (cbn [shr_m]; lia).
  cbn [shr_m]. rewrite Z.div_0_l by (apply Z.pow_nonzero; lia). reflexivity.
Qed.

(** Rounding does not exceed a representable upper bound. *)
Lemma binary_round_upper s p e K mh eh :
  F32.valid (S754_finite false mh eh) = true ->
  149 <= K -> 0 <= e + K ->
  Zpos p * 2 ^ (e + K) <= Zpos mh * 2 ^ (eh + K) ->
  binary_round F32.prec F32.emax s p e = S754_zero s \/
  exists m' e',
    binary_round F32.prec F32.emax s p e = S754_finite s m' e' /\
    F32.valid (S754_finite s m' e') = true /\
    Zpos m' * 2 ^ (e' + 149) <= Zpos mh * 2 ^ (eh + 149).
Proof.
  intros Hvh HK HeK Hhi.
  destruct (binary_round_finish s p e) as (m2 & Hr & Hrange & Hnorm & Hexact & Hshift).
  pose proof (round_upper p e K m2 mh eh HK HeK Hexact Hshift Hvh Hhi) as Hup.
  set (f := Z.max (Zpos (digits2_pos p) + e - 24) (-149)) in *.
  assert (Hf : -149 <= f) by (unfold f; lia).
  destruct (Z.eq_dec m2 0) as [->|Hnz].
  - left. rewrite Hr. apply finish_round_zero.
  - right. pose proof (valid_lt_2p277 mh eh Hvh) as Hov.
    destruct (finish_round_value s m2 f ltac:(lia) Hf Hnorm ltac:(lia))
      as (m' & e' & Hfin & He' & Hval).
    exists m', e'. rewrite Hr, Hfin. split; [reflexivity|]. split.
    + rewrite <- Hfin, <- Hr. apply binary_round_valid.
    + rewrite Hval. exact Hup.
Qed.

Lemma mul_upper sx mx ex sy my ey mh eh :
  F32.valid (S754_finite sx mx ex) = true ->
  F32.valid (S754_finite sy my ey) = true ->
  F32.valid (S754_finite false mh eh) = true ->
  (Zpos mx * 2 ^ (ex + 149)) * (Zpos my * 2 ^ (ey + 149))
    <= Zpos mh * 2 ^ (eh + 149) * 2 ^ 149 ->
  let r := (S754_finite sx mx ex * S754_finite sy my ey)%f32 in
  F32.valid r = true /\ F32.is_finite r = true /\
  - (Zpos mh * 2 ^ (eh + 149)) <= sval r <= Zpos mh * 2 ^ (eh + 149).
Proof.
  intros Hx Hy Hvh Hb r.
  pose proof (valid_finite_inv _ _ _ Hx) as (Hex & _).
  pose proof (valid_finite_inv _ _ _ Hy) as (Hey & _).
  pose proof (valid_finite_inv _ _ _ Hvh) as (Heh & _).
  pose proof (scaled_pos false mh eh ltac:(lia)) as Hpos. cbn [scaled] in Hpos.
  unfold r. rewrite mul_as_round by assumption.
  destruct (binary_round_upper (xorb sx sy) (mx * my) (ex + ey) 298 mh eh)
    as [E|(m' & e' & E & V & B)]; try assumption; try lia.
  - replace (eh + 298) with ((eh + 149) + 149) by lia.
    replace (ex + ey + 298) with ((ex + 149) + (ey + 149)) by lia.
    rewrite (pow2_add (eh + 149) 149), (pow2_add (ex + 149) (ey + 149)) by lia.
    rewrite Pos2Z.inj_mul. lia.
  - rewrite E. split; [reflexivity|]. split; [reflexivity|]. cbn [sval scaled]. lia.
  - rewrite E. split; [exact V|]. split; [reflexivity|].
    pose proof (valid_finite_inv _ _ _ V) as (He' & _).
    pose proof (scaled_pos false m' e' ltac:(lia)) as Hp'. cbn [scaled] in Hp'.
    destruct (xorb sx sy); cbn [sval scaled]; lia.
Qed.

(** The factor of [kernCopyPositionsToVBO] for the scene: -1.0f / 100.0f. *)
Lemma c_scale_scene :
  (F32.opp F32.one / scene_scale)%f32 = S754_finite true 10737418 (-30).
Proof. vm_compute. reflexivity. Qed.

Lemma in_unit_of_sval (r : float) :
  F32.valid r = true -> F32.is_finite r = true ->
  - 2 ^ 149 <= sval r <= 2 ^ 149 -> in_unit r = true.
Proof.
  intros Hv Hf Hb. unfold in_unit. rewrite Hv.
  rewrite !leb_sval by (assumption || reflexivity).
  change (sval (F32.opp F32.one)) with (- 2 ^ 149).
  change (sval F32.one) with (2 ^ 149).
  apply andb_true_iff. split; apply Z.leb_le; lia.
Qed.

Lemma scene_to_unit (c : float) :
  in_scene c = true -> in_unit (c * (F32.opp F32.one / scene_scale))%f32 = true.
Proof.
  intros Hc. apply in_scene_sval in Hc as (Hv & Hf & Hb).
  rewrite c_scale_scene.
  destruct c as [s|s| |s m e]; try discriminate.
  - destruct s; reflexivity.
  - pose proof (valid_finite_inv _ _ _ Hv) as (He & _).
    pose proof (scaled_pos s m e ltac:(lia)) as Hp. cbn [scaled] in Hp.
    assert (Hm : Zpos m * 2 ^ (e + 149) <= 100 * 2 ^ 149).
    { destruct s; cbn [sval scaled] in Hb; lia. }
    destruct (mul_upper s m e true 10737418 (-30) 8388608 (-23))
      as (V & Fi & B); try assumption; try reflexivity.
    + change (Zpos 10737418 * 2 ^ (-30 + 149)) with (10737418 * 2 ^ 119).
      change (Zpos 8388608 * 2 ^ (-23 + 149) * 2 ^ 149) with (2 ^ 30 * 2 ^ 149 * 2 ^ 119).
      set (X := Zpos m * 2 ^ (e + 149)) in *.
      assert (0 < 2 ^ 119) by (apply pow2_pos; lia).
      assert (0 < 2 ^ 149) by (apply pow2_pos; lia).
      change (2 ^ 30) with 1073741824.
      set (P := 2 ^ 119) in *. set (Q := 2 ^ 149) in *.
      assert (X * 10737418 <= 100 * Q * 10737418)
        by (apply Z.mul_le_mono_nonneg_r; lia).
      assert (100 * Q * 10737418 * P <= 1073741824 * Q * P).
      { apply Z.mul_le_mono_nonneg_r; [lia|]. lia. }
      assert (X * 10737418 * P <= 100 * Q * 10737418 * P)
        by (apply Z.mul_le_mono_nonneg_r; lia).
      lia.
    + apply in_unit_of_sval; [exact V|exact Fi|].
      change (Zpos 8388608 * 2 ^ (-23 + 149)) with (2 ^ 149) in B. exact B.
Qed.

Lemma positions_layout (N : Z) (pos : list vec3) (vbo : list float)
    (s_scale : float) :
  0 <= N <= 2 ^ 29 -> 4 * N <= Z.of_nat (length vbo) ->
  let c_scale := (F32.opp F32.one / s_scale)%f32 in
  let out := kernCopyPositionsToVBO (fullBlocksPerGrid N) N pos vbo s_scale in
  length out = length vbo /\
  (forall i, 0 <= i < N ->
     rdf out (4 * i) = (vx (rdv pos i) * c_scale)%f32 /\
     rdf out (4 * i + 1) = (vy (rdv pos i) * c_scale)%f32 /\
     rdf out (4 * i + 2) = (vz (rdv pos i) * c_scale)%f32 /\
     rdf out (4 * i + 3) = F32.one) /\
  (forall j, 4 * N <= j -> rdf out j = rdf vbo j).
Proof.
  intros HN Hlen. cbv zeta. rewrite kernCopyPositionsToVBO_loop by exact HN.
  set (c := (F32.opp F32.one / s_scale)%f32).
  destruct (stride4_loop
    (fun i k => if k =? 0 then (vx (rdv pos i) * c)%f32
                else if k =? 1 then (vy (rdv pos i) * c)%f32
                else if k =? 2 then (vz (rdv pos i) * c)%f32 else F32.one)
    N vbo ltac:(lia) Hlen) as (Hl & Hin & Hout).
  cbv beta iota in Hl, Hin, Hout.
  split; [exact Hl|]. split; [|exact Hout].
  intros i Hi.
  pose proof (Hin i 0 Hi ltac:(lia)) as H0. rewrite Z.add_0_r in H0.
  pose proof (Hin i 1 Hi ltac:(lia)) as H1.
  pose proof (Hin i 2 Hi ltac:(lia)) as H2.
  pose proof (Hin i 3 Hi ltac:(lia)) as H3.
  auto.
Qed.

Lemma velocities_layout (N : Z) (vel : list vec3) (vbo : list float)
    (s_scale : float) :
  0 <= N <= 2 ^ 29 -> 4 * N <= Z.of_nat (length vbo) ->
  let out := kernCopyVelocitiesToVBO (fullBlocksPerGrid N) N vel vbo s_scale in
  length out = length vbo /\
  (forall i, 0 <= i < N ->
     rdf out (4 * i) = (vx (rdv vel i) + threeTenths)%f32 /\
     rdf out (4 * i + 1) = (vy (rdv vel i) + threeTenths)%f32 /\
     rdf out (4 * i + 2) = (vz (rdv vel i) + threeTenths)%f32 /\
     rdf out (4 * i + 3) = F32.one) /\
  (forall j, 4 * N <= j -> rdf out j = rdf vbo j).
Proof.
  intros HN Hlen. cbv zeta. rewrite kernCopyVelocitiesToVBO_loop by exact HN.
  destruct (stride4_loop
    (fun i k => if k =? 0 then (vx (rdv vel i) + threeTenths)%f32
                else if k =? 1 then (vy (rdv vel i) + threeTenths)%f32
                else if k =? 2 then (vz (rdv vel i) + threeTenths)%f32
                else F32.one)
    N vbo ltac:(lia) Hlen) as (Hl & Hin & Hout).
  cbv beta iota in Hl, Hin, Hout.
  split; [exact Hl|]. split; [|exact Hout].
  intros i Hi.
  pose proof (Hin i 0 Hi ltac:(lia)) as H0. rewrite Z.add_0_r in H0.
  pose proof (Hin i 1 Hi ltac:(lia)) as H1.
  pose proof (Hin i 2 Hi ltac:(lia)) as H2.
  pose proof (Hin i 3 Hi ltac:(lia)) as H3.
  auto.
Qed.

(** X18.  [Boids::copyBoidsToVBO], positions.  For at most 2^29 boids
    and a buffer of at least [4 * numObjects] floats, floats [4 i],
    [4 i + 1], [4 i + 2] of the position buffer are the coordinates of
    boid [i] times [-1.0f / scene_scale], float [4 i + 3] is 1, the
    floats from [4 * numObjects] on are untouched, and a position inside
    the scene is drawn inside the unit cube [-1, 1]^3. *)
Theorem copy_positions_to_vbo (st : state) (vboPos vboVel : list float) :
  0 <= numObjects st <= 2 ^ 29 ->
  4 * numObjects st <= Z.of_nat (length vboPos) ->
  let out := (copyBoidsToVBO st vboPos vboVel).1 in
  let c_scale := (F32.opp F32.one / scene_scale)%f32 in
  length out = length vboPos /\
  (forall i, 0 <= i < numObjects st ->
     let p := rdv (dev_pos st) i in
     rdf out (4 * i) = (vx p * c_scale)%f32 /\
     rdf out (4 * i + 1) = (vy p * c_scale)%f32 /\
     rdf out (4 * i + 2) = (vz p * c_scale)%f32 /\
     rdf out (4 * i + 3) = F32.one /\
     (in_scene3 p = true ->
      in_unit (rdf out (4 * i)) = true /\ in_unit (rdf out (4 * i + 1)) = true /\
      in_unit (rdf out (4 * i + 2)) = true)) /\
  (forall j, 4 * numObjects st <= j -> rdf out j = rdf vboPos j).
Proof.
  intros HN Hlen. cbv zeta. unfold copyBoidsToVBO. cbn [fst].
  destruct (positions_layout (numObjects st) (dev_pos st) vboPos scene_scale HN Hlen)
    as (Hl & Hin & Hout).
  cbv zeta in Hin.
  split; [exact Hl|]. split; [|exact Hout].
  intros i Hi. destruct (Hin i Hi) as (H0 & H1 & H2 & H3).
  split; [exact H0|]. split; [exact H1|]. split; [exact H2|]. split; [exact H3|].
  intros Hs. apply in_scene3_inv in Hs as (Sx & Sy & Sz).
  rewrite H0, H1, H2. split; [|split]; apply scene_to_unit; assumption.
Qed.

Lemma copy_positions_to_vbo_witness :
  let st := initSimulation 2
              [Vec3 scene_scale F32.zero (F32.opp scene_scale); V3.zero]
              [] [] [] [] [] [] [] in
  let out := (copyBoidsToVBO st (replicate 9 oneHalf) []).1 in
  out = [F32.opp F32.one; S754_zero true; F32.one; F32.one;
         S754_zero true; S754_zero true; S754_zero true; F32.one; oneHalf] /\
  rdf out (4 * 1 + 3) = F32.one /\ rdf out 8 = rdf (replicate 9 oneHalf) 8.
Proof.
  cbv zeta. split; [vm_compute; reflexivity|].
  destruct (copy_positions_to_vbo
              (initSimulation 2
                 [Vec3 scene_scale F32.zero (F32.opp scene_scale); V3.zero]
                 [] [] [] [] [] [] [])
              (replicate 9 oneHalf) [] ltac:(cbn; lia) ltac:(cbn; lia))
    as (_ & Hin & Hout).
  split.
  - apply (Hin 1). cbn. lia.
  - apply Hout. cbn. lia.
Defined.

(** X19.  [Boids::copyBoidsToVBO], velocities.  For at most 2^29 boids
    and a buffer of at least [4 * numObjects] floats, floats [4 i],
    [4 i + 1], [4 i + 2] of the velocity buffer are the components of
    [dev_vel1[i]] plus 0.3f, float [4 i + 3] is 1, and the floats from
    [4 * numObjects] on are untouched. *)
Theorem copy_velocities_to_vbo (st : state) (vboPos vboVel : list float) :
  0 <= numObjects st <= 2 ^ 29 ->
  4 * numObjects st <= Z.of_nat (length vboVel) ->
  let out := (copyBoidsToVBO st vboPos vboVel).2 in
  length out = length vboVel /\
  (forall i, 0 <= i < numObjects st ->
     let v := rdv (dev_vel1 st) i in
     rdf out (4 * i) = (vx v + threeTenths)%f32 /\
     rdf out (4 * i + 1) = (vy v + threeTenths)%f32 /\
     rdf out (4 * i + 2) = (vz v + threeTenths)%f32 /\
     rdf out (4 * i + 3) = F32.one) /\
  (forall j, 4 * numObjects st <= j -> rdf out j = rdf vboVel j).
Proof.
  intros HN Hlen. cbv zeta. unfold copyBoidsToVBO. cbn [snd].
  exact (velocities_layout (numObjects st) (dev_vel1 st) vboVel scene_scale HN Hlen).
Qed.

Lemma copy_velocities_to_vbo_witness :
  let st := initSimulation 1 [] [] [Vec3 F32.one F32.zero oneHalf] [] [] [] [] [] in
  let out := (copyBoidsToVBO st [] (replicate 5 F32.zero)).2 in
  rdf out (4 * 0 + 3) = F32.one /\ rdf out 4 = rdf (replicate 5 F32.zero) 4.
Proof.
  cbv zeta.
  destruct (copy_velocities_to_vbo
              (initSimulation 1 [] [] [Vec3 F32.one F32.zero oneHalf] [] [] [] [] [])
              [] (replicate 5 F32.zero) ltac:(cbn; lia) ltac:(cbn; lia))
    as (_ & Hin & Hout).
  split.
  - apply (Hin 0). cbn. lia.
  - apply Hout. cbn. lia.
Defined.

(** * The frame counter *)

(** X23.  The [float] frame counter of [Boids::stepSimulation] stops at
    2^24: after [n] steps [frameCnt] is [min n 16777216], and from
    16777216 steps on [++frameCnt] leaves it unchanged. *)
Theorem frame_counter_saturates (n : nat) :
  frameCnt_after n = F32.of_int (Z.min (Z.of_nat n) (2 ^ 24)) /\
  (2 ^ 24 <= Z.of_nat n -> frameCnt_step (frameCnt_after n) = frameCnt_after n).
Proof.
  assert (H : forall k : nat, frameCnt_after k = F32.of_int (cap24 (Z.of_nat k))).
  { induction k as [|k IH]; [reflexivity|].
    change (frameCnt_after (Datatypes.S k)) with (frameCnt_step (frameCnt_after k)).
    rewrite IH. unfold frameCnt_step.
    rewrite cap24_step by lia. f_equal. f_equal. lia. }
  split; [apply H|].
  intros Hn. rewrite H. unfold frameCnt_step. rewrite cap24_step by lia.
  unfold cap24. f_equal. lia.
Qed.

Lemma frame_counter_saturates_witness :
  frameCnt_step (F32.of_int (2 ^ 24)) = F32.of_int (2 ^ 24) /\
  frameCnt_after 3 = F32.of_int 3.
Proof.
  split; [vm_compute; reflexivity|].
  exact (proj1 (frame_counter_saturates 3)).
Defined.

(** * Resetting a prefix of a buffer *)

(** X22.  [kernResetIntBuffer] writes the first [N] entries and nothing
    else: for [0 <= N <= length], the result is [N] copies of [value]
    followed by the entries of the buffer from [N] on, and resetting
    again changes nothing. *)
Theorem reset_sets_first_entries (N value : Z) (buf : list Z) :
  0 <= N <= Z.of_nat (length buf) ->
  let out := kernResetIntBuffer (fullBlocksPerGrid N) N buf value in
  out = replicate (Z.to_nat N) value ++ drop (Z.to_nat N) buf /\
  kernResetIntBuffer (fullBlocksPerGrid N) N out value = out.
Proof.
  intros HN.
  assert (Hform : forall b : list Z, 0 <= N <= Z.of_nat (length b) ->
            kernResetIntBuffer (fullBlocksPerGrid N) N b value
            = replicate (Z.to_nat N) value ++ drop (Z.to_nat N) b).
  { intros b Hb. unfold kernResetIntBuffer.
    rewrite (launch_guard _ N).
    2:{ apply fullBlocks_cover. lia. }
    2:{ intros i t Hi. unfold kernResetIntBuffer_thread.
        destruct (Z.ltb_spec i N); [lia|reflexivity]. }
    assert (Hinv : forall m, 0 <= m <= N ->
              for_range 0 m (kernResetIntBuffer_thread N value) b
              = replicate (Z.to_nat m) value ++ drop (Z.to_nat m) b).
    { intros m Hm.
      apply (for_range_ind
        (fun k u => k <= N -> u = replicate (Z.to_nat k) value ++ drop (Z.to_nat k) b)
        0 m (kernResetIntBuffer_thread N value) b ltac:(lia)); [| |lia].
      - intros _. reflexivity.
      - intros i u Hi IH Hle. rewrite IH by lia.
        unfold kernResetIntBuffer_thread. destruct (Z.ltb_spec i N); [|lia].
        unfold wr. destruct (Z.ltb_spec i 0); [lia|].
        rewrite insert_app_r_alt by (rewrite length_replicate; lia).
        rewrite length_replicate, Nat.sub_diag.
        replace (Z.to_nat (i + 1)) with (Datatypes.S (Z.to_nat i)) by lia.
        rewrite replicate_S_end, <- app_assoc. f_equal.
        destruct (drop (Z.to_nat i) b) as [|x l] eqn:Hd.
        { apply (f_equal length) in Hd. rewrite length_drop in Hd. cbn in Hd. lia. }
        cbn [insert list_insert app]. f_equal.
        replace (Datatypes.S (Z.to_nat i)) with (Z.to_nat i + 1)%nat by lia.
        rewrite <- drop_drop, Hd. reflexivity. }
    apply Hinv. lia. }
  cbv zeta. split; [apply Hform; exact HN|].
  rewrite (Hform buf HN).
  rewrite Hform.
  2:{ rewrite length_app, length_replicate, length_drop. lia. }
  f_equal. rewrite drop_app_length'; [reflexivity|].
  rewrite length_replicate. reflexivity.
Qed.

Lemma reset_sets_first_entries_witness :
  kernResetIntBuffer (fullBlocksPerGrid 2) 2 [5; 6; 7] (-1) = [-1; -1; 7].
Proof.
  exact (proj1 (reset_sets_first_entries 2 (-1) [5; 6; 7] ltac:(cbn; lia))).
Defined.

(** * The bucket locator in any order *)

(** X12.  [kernIdentifyCellStartEnd] does not depend on the schedule.
    Its threads write entries of the two tables that other threads also
    write (the end of one cell and the start of the next); on keys
    sorted in ascending order, running the thread bodies in any order,
    each once, gives the tables of the launch. *)
Theorem bucket_locator_any_order (blocks N : Z) (keys order cellStart cellEnd : list Z) :
  Z.of_nat (length keys) = N ->
  StronglySorted Z.le keys ->
  order ≡ₚ seqZ 0 (blocks * blockSize) ->
  run_threads order (kernIdentifyCellStartEnd_thread N keys) (cellStart, cellEnd)
  = kernIdentifyCellStartEnd blocks N keys cellStart cellEnd.
Proof.
  intros Hlen Hsorted Hp.
  apply (kernIdentifyCellStartEnd_any_order N keys); [|exact Hp].
  intros i j Hij Hj. apply StronglySorted_rdi; [exact Hsorted|exact Hij|lia].
Qed.

Lemma bucket_locator_any_order_witness :
  run_threads (reverse (seqZ 0 (1 * blockSize)))
    (kernIdentifyCellStartEnd_thread 4 [0; 0; 2; 3]) ([9; 9; 9; 9], [9; 9; 9; 9])
  = kernIdentifyCellStartEnd 1 4 [0; 0; 2; 3] [9; 9; 9; 9] [9; 9; 9; 9].
Proof.
  apply (bucket_locator_any_order 1 4 [0; 0; 2; 3]).
  - reflexivity.
  - repeat constructor; lia.
  - apply reverse_Permutation.
Defined.

(** * Buffers that are written before they are read *)

Lemma kernScattered_overwrites N gridResolution gridMin inverseCellWidth cellWidth
    cellStart cellEnd idx pos vel1 vel2 vel2' :
  Z.of_nat (length vel2) = N -> Z.of_nat (length vel2') = N ->
  idx ≡ₚ seqZ 0 N ->
  kernUpdateVelNeighborSearchScattered (fullBlocksPerGrid N) N gridResolution
    gridMin inverseCellWidth cellWidth cellStart cellEnd idx pos vel1 vel2
  = kernUpdateVelNeighborSearchScattered (fullBlocksPerGrid N) N gridResolution
      gridMin inverseCellWidth cellWidth cellStart cellEnd idx pos vel1 vel2'.
Proof.
  intros Hl Hl' Hperm. apply (buffer_eq V3.zero).
  - rewrite !length_kernScattered. lia.
  - intros b Hb. rewrite length_kernScattered in Hb.
    assert (Hin : b ∈ idx).
    { rewrite Hperm. apply elem_of_seqZ. lia. }
    apply list_elem_of_lookup in Hin as [n Hn].
    pose proof (lookup_lt_Some _ _ _ Hn) as Hlt.
    rewrite (Permutation_length Hperm), length_seqZ in Hlt.
    pose proof (rd_lookup 0 idx n b Hn) as Hr.
    fold (rdi idx (Z.of_nat n)) in Hr. rewrite <- Hr.
    pose proof (kernScattered_rd N gridResolution gridMin inverseCellWidth cellWidth
                  cellStart cellEnd idx pos vel1 vel2 (Z.of_nat n) Hl Hperm
                  ltac:(lia)) as H1.
    pose proof (kernScattered_rd N gridResolution gridMin inverseCellWidth cellWidth
                  cellStart cellEnd idx pos vel1 vel2' (Z.of_nat n) Hl' Hperm
                  ltac:(lia)) as H2.
    unfold rdv in H1, H2. rewrite H1, H2. reflexivity.
Qed.

(** X9.  A step does not read its scratch buffers.  Two states with
    buffers of [numObjects] entries that agree on the boids
    ([dev_pos], [dev_vel1]), the bucket tables and the grid parameters,
    and differ in [dev_vel2], [dev_pos2] and the two index buffers, give
    after [Boids::stepSimulation] of any type the same positions,
    velocities and scratch velocities; for the grid types also the same
    index buffers and bucket tables, and for the coherent type the same
    state. *)
Theorem scratch_buffers_are_overwritten (dt : float) (type : SIMULATION_TYPE)
    (st st' : state) :
  buffers_sized st -> buffers_sized st' -> same_inputs st st' ->
  let s := stepSimulation dt type st in
  let s' := stepSimulation dt type st' in
  dev_pos s = dev_pos s' /\ dev_vel1 s = dev_vel1 s' /\ dev_vel2 s = dev_vel2 s' /\
  (type <> NAIVE ->
   dev_particleArrayIndices s = dev_particleArrayIndices s' /\
   dev_particleGridIndices s = dev_particleGridIndices s' /\
   dev_gridCellStartIndices s = dev_gridCellStartIndices s' /\
   dev_gridCellEndIndices s = dev_gridCellEndIndices s') /\
  (type = COHERENT -> s = s').
Proof.
  intros (Hpos & Hpos2 & Hvel1 & Hvel2 & Hidx & Hgidx)
         (Hpos' & Hpos2' & Hvel1' & Hvel2' & Hidx' & Hgidx')
         (EN & Epos & Evel & Est & Een & EC & Eside & Ew & Einv & Emin).
  cbv zeta.
  set (N := numObjects st) in *.
  assert (HN : 0 <= N) by lia.
  destruct type; unfold stepSimulation.
  - unfold stepSimulationNaive. rewrite <- EN, <- Epos, <- Evel. fold N.
    rewrite (kernUpdateVelocityBruteForce_map N _ _ (dev_vel2 st) Hvel2).
    rewrite (kernUpdateVelocityBruteForce_map N _ _ (dev_vel2 st')
               ltac:(rewrite Hvel2'; lia)).
    cbn [dev_pos dev_vel1 dev_vel2].
    split; [reflexivity|]. split; [reflexivity|]. split; [reflexivity|].
    split; [congruence|discriminate].
  - unfold stepSimulationScatteredGrid.
    rewrite <- EN, <- Epos, <- Evel, <- Est, <- Een, <- EC, <- Eside, <- Ew,
      <- Einv, <- Emin. fold N.
    rewrite (kernComputeIndices_map N _ _ _ _ _ _ Hidx Hgidx).
    rewrite (kernComputeIndices_map N _ _ _ _ (dev_particleArrayIndices st')
               (dev_particleGridIndices st')
               ltac:(rewrite Hidx'; lia) ltac:(rewrite Hgidx'; lia)).
    cbv beta iota.
    set (cells := _ <$> seqZ 0 N).
    destruct (sort_by_key_spec N cells (seqZ 0 N)) as (_ & _ & Hperm & _).
    { unfold cells. rewrite length_fmap, length_seqZ. lia. }
    { rewrite length_seqZ. lia. }
    destruct (sort_by_key N cells (seqZ 0 N)) as [keys idx].
    cbn [fst snd] in Hperm.
    destruct (kernIdentifyCellStartEnd _ _ _ _ _) as [cellStart cellEnd].
    rewrite (kernScattered_overwrites N _ _ _ _ _ _ idx _ _
               (dev_vel2 st) (dev_vel2 st') Hvel2 ltac:(rewrite Hvel2'; lia) Hperm).
    cbn [dev_pos dev_vel1 dev_vel2 dev_particleArrayIndices
         dev_particleGridIndices dev_gridCellStartIndices dev_gridCellEndIndices].
    split; [reflexivity|]. split; [reflexivity|]. split; [reflexivity|].
    split; [intros _; repeat split; reflexivity|discriminate].
  - unfold stepSimulationCoherentGrid.
    rewrite <- EN, <- Epos, <- Evel, <- Est, <- Een, <- EC, <- Eside, <- Ew,
      <- Einv, <- Emin. fold N.
    rewrite (kernComputeIndices_map N _ _ _ _ _ _ Hidx Hgidx).
    rewrite (kernComputeIndices_map N _ _ _ _ (dev_particleArrayIndices st')
               (dev_particleGridIndices st')
               ltac:(rewrite Hidx'; lia) ltac:(rewrite Hgidx'; lia)).
    cbv beta iota.
    destruct (sort_by_key N _ (seqZ 0 N)) as [keys idx].
    destruct (kernIdentifyCellStartEnd _ _ _ _ _) as [cellStart cellEnd].
    rewrite (kernRearrangeArray_map N idx _ _ (dev_pos2 st) (dev_vel2 st) Hpos2 Hvel2).
    rewrite (kernRearrangeArray_map N idx _ _ (dev_pos2 st') (dev_vel2 st')
               ltac:(rewrite Hpos2'; lia) ltac:(rewrite Hvel2'; lia)).
    cbv beta iota.
    rewrite (kernCoherent_map N _ _ _ _ _ _ _ _ (dev_vel1 st) Hvel1).
    cbn [dev_pos dev_vel1 dev_vel2 dev_particleArrayIndices
         dev_particleGridIndices dev_gridCellStartIndices dev_gridCellEndIndices].
    split; [reflexivity|]. split; [reflexivity|]. split; [reflexivity|].
    split; [intros _; repeat split; reflexivity|]. intros _. reflexivity.
Qed.

Lemma scratch_buffers_are_overwritten_witness :
  let st' := initSimulation 3 demo_pos (replicate 3 (V3.splat F32.nan)) demo_vel
               (replicate 3 (V3.splat F32.one)) [8; 8; 8] [9; 9; 9]
               (replicate (Z.to_nat init_gridCellCount) 0)
               (replicate (Z.to_nat init_gridCellCount) 0) in
  stepSimulation oneHalf COHERENT demo_state = stepSimulation oneHalf COHERENT st'.
Proof.
  refine (proj2 (proj2 (proj2 (proj2 (scratch_buffers_are_overwritten oneHalf COHERENT
            demo_state _ _ _ _)))) eq_refl).
  - repeat split; reflexivity.
  - repeat split; reflexivity.
  - repeat split; reflexivity.
Defined.

(** * The seed hash *)

Lemma wrapU32_range z : is_u32 (wrapU32 z).
Proof. unfold is_u32, wrapU32. apply Z.mod_pos_bound. lia. Qed.

Lemma u32_bits_high a n : is_u32 a -> 32 <= n -> Z.testbit a n = false.
Proof.
  intros [H0 H1] Hn. destruct (Z.eq_dec a 0) as [->|Hne]; [apply Z.bits_0|].
  apply Z.bits_above_log2; [lia|].
  assert (Z.log2 a < 32) by (apply Z.log2_lt_pow2; lia). lia.
Qed.

Lemma low_bits_mod x y k :
  0 <= k ->
  (forall n, 0 <= n < k -> Z.testbit x n = Z.testbit y n) ->
  x mod 2 ^ k = y mod 2 ^ k.
Proof.
  intros Hk H. apply Z.bits_inj'. intros n Hn.
  destruct (Z_lt_ge_dec n k) as [Hlt|Hge].
  - rewrite !Z.mod_pow2_bits_low by lia. apply H. lia.
  - rewrite !Z.mod_pow2_bits_high by lia. reflexivity.
Qed.

Lemma mod_low_bits x y k n :
  x mod 2 ^ k = y mod 2 ^ k -> 0 <= n < k -> Z.testbit x n = Z.testbit y n.
Proof.
  intros H Hn.
  rewrite <- (Z.mod_pow2_bits_low x k n), <- (Z.mod_pow2_bits_low y k n) by lia.
  rewrite H. reflexivity.
Qed.

Lemma u32_bits_inj a b :
  is_u32 a -> is_u32 b ->
  (forall n, 0 <= n < 32 -> Z.testbit a n = Z.testbit b n) -> a = b.
Proof.
  intros Ha Hb H. pose proof (low_bits_mod a b 32 ltac:(lia) H) as Hm.
  unfold is_u32 in *. rewrite !Z.mod_small in Hm by lia. exact Hm.
Qed.

Lemma lxor_u32 a b : is_u32 a -> is_u32 b -> is_u32 (Z.lxor a b).
Proof.
  intros Ha Hb.
  assert (H0 : 0 <= Z.lxor a b) by (apply Z.lxor_nonneg; unfold is_u32 in *; lia).
  assert (Hm : Z.lxor a b = Z.lxor a b mod 2 ^ 32).
  { apply Z.bits_inj'. intros n Hn.
    destruct (Z_lt_ge_dec n 32) as [Hlt|Hge].
    - rewrite Z.mod_pow2_bits_low by lia. reflexivity.
    - rewrite Z.mod_pow2_bits_high by lia.
      rewrite Z.lxor_spec, !u32_bits_high by (assumption || lia). reflexivity. }
  unfold is_u32. rewrite Hm. apply Z.mod_pos_bound. lia.
Qed.

Lemma ushr_u32 a s : 0 <= s -> is_u32 a -> is_u32 (ushr a s).
Proof.
  intros Hs [H0 H1]. unfold ushr, is_u32. rewrite Z.shiftr_div_pow2 by lia.
  split.
  - apply Z.div_pos; [lia|]. apply Z.pow_pos_nonneg; lia.
  - assert (0 < 2 ^ s) by (apply Z.pow_pos_nonneg; lia).
    apply Z.div_lt_upper_bound; [lia|]. nia.
Qed.

(** [a = (a + c) + (a << k)] multiplies by the odd number [2^k + 1]. *)
Lemma mul_step_affine a c k :
  0 <= k -> uadd (uadd a c) (ushl a k) = (a * (2 ^ k + 1) + c) mod 2 ^ 32.
Proof.
  intros Hk. unfold uadd, ushl, wrapU32. rewrite Z.shiftl_mul_pow2 by lia.
  rewrite <- Zplus_mod. f_equal. lia.
Qed.

Lemma affine_inj K Kinv c a b :
  (K * Kinv) mod 2 ^ 32 = 1 ->
  is_u32 a -> is_u32 b ->
  (a * K + c) mod 2 ^ 32 = (b * K + c) mod 2 ^ 32 -> a = b.
Proof.
  intros Hinv Ha Hb H.
  assert (Hd : ((a - b) * K) mod 2 ^ 32 = 0).
  { replace ((a - b) * K) with ((a * K + c) - (b * K + c)) by lia.
    rewrite Zminus_mod, H, Z.sub_diag. reflexivity. }
  assert (Hd2 : (a - b) mod 2 ^ 32 = 0).
  { replace (a - b) with ((a - b) * 1) by lia. rewrite <- Hinv.
    rewrite Z.mul_mod_idemp_r by lia.
    replace ((a - b) * (K * Kinv)) with (((a - b) * K) * Kinv) by lia.
    rewrite <- Z.mul_mod_idemp_l by lia. rewrite Hd. reflexivity. }
  apply Z.mod_divide in Hd2; [|lia]. destruct Hd2 as [q Hq].
  unfold is_u32 in *. nia.
Qed.

Lemma mul_step_inj k c Kinv a b :
  0 <= k -> ((2 ^ k + 1) * Kinv) mod 2 ^ 32 = 1 ->
  is_u32 a -> is_u32 b ->
  uadd (uadd a c) (ushl a k) = uadd (uadd b c) (ushl b k) -> a = b.
Proof.
  intros Hk Hinv Ha Hb. rewrite !mul_step_affine by exact Hk.
  apply (affine_inj _ Kinv); assumption.
Qed.

(** [a = (a ^ c) ^ (a >> s)] with [2 s >= 32]: the high bits are those of
    [a ^ c], and they give the low bits. *)
Lemma xsr_step_inj s c a b :
  16 <= s -> is_u32 a -> is_u32 b ->
  Z.lxor (Z.lxor a c) (ushr a s) = Z.lxor (Z.lxor b c) (ushr b s) -> a = b.
Proof.
  intros Hs Ha Hb H.
  assert (Hbit : forall n, 0 <= n ->
            xorb (xorb (Z.testbit a n) (Z.testbit c n)) (Z.testbit a (n + s))
            = xorb (xorb (Z.testbit b n) (Z.testbit c n)) (Z.testbit b (n + s))).
  { intros n Hn. pose proof (f_equal (fun z => Z.testbit z n) H) as Hb'.
    cbv beta in Hb'. unfold ushr in Hb'.
    rewrite !Z.lxor_spec, !Z.shiftr_spec in Hb' by lia. exact Hb'. }
  assert (Hhigh : forall n, 16 <= n -> Z.testbit a n = Z.testbit b n).
  { intros n Hn. specialize (Hbit n ltac:(lia)).
    rewrite (u32_bits_high a (n + s)), (u32_bits_high b (n + s)) in Hbit
      by (assumption || lia).
    destruct (Z.testbit a n), (Z.testbit b n), (Z.testbit c n);
      simpl in Hbit; congruence. }
  apply u32_bits_inj; [assumption..|]. intros n Hn.
  specialize (Hbit n ltac:(lia)).
  rewrite (Hhigh (n + s)) in Hbit by lia.
  destruct (Z.testbit a n), (Z.testbit b n), (Z.testbit c n),
           (Z.testbit b (n + s)); simpl in Hbit; congruence.
Qed.

(** [a = (a + c) ^ (a << 9)]: the low 9 bits of the result are those of
    [a + c]; each further group of 9 bits of [a] follows from the ones
    below it. *)
Lemma xsl_step_low c a b k :
  0 <= k <= 32 ->
  Z.lxor (uadd a c) (ushl a 9) = Z.lxor (uadd b c) (ushl b 9) ->
  a mod 2 ^ k = b mod 2 ^ k ->
  a mod 2 ^ Z.min (k + 9) 32 = b mod 2 ^ Z.min (k + 9) 32.
Proof.
  intros Hk H Hlow. set (k' := Z.min (k + 9) 32).
  assert (Hk' : 0 <= k' <= 32) by (unfold k'; lia).
  assert (Hsh : forall n, 0 <= n < k' ->
            Z.testbit (ushl a 9) n = Z.testbit (ushl b 9) n).
  { intros n Hn. unfold ushl, wrapU32.
    rewrite !Z.mod_pow2_bits_low by lia.
    destruct (Z_lt_ge_dec n 9) as [Hlt|Hge].
    - rewrite !Z.shiftl_spec_low by lia. reflexivity.
    - rewrite !Z.shiftl_spec by lia.
      apply (mod_low_bits a b k); [exact Hlow|]. unfold k' in Hn. lia. }
  assert (Hadd : (a + c) mod 2 ^ k' = (b + c) mod 2 ^ k').
  { apply low_bits_mod; [lia|]. intros n Hn.
    pose proof (f_equal (fun z => Z.testbit z n) H) as Hb. cbv beta in Hb.
    rewrite !Z.lxor_spec, (Hsh n Hn) in Hb.
    unfold uadd, wrapU32 in Hb. rewrite !Z.mod_pow2_bits_low in Hb by lia.
    destruct (Z.testbit (a + c) n), (Z.testbit (b + c) n),
             (Z.testbit (ushl b 9) n); simpl in Hb; congruence. }
  transitivity (((a + c) mod 2 ^ k' - c) mod 2 ^ k').
  - rewrite Zminus_mod_idemp_l. f_equal. lia.
  - rewrite Hadd, Zminus_mod_idemp_l. f_equal. lia.
Qed.

Lemma xsl_step_inj c a b :
  is_u32 a -> is_u32 b ->
  Z.lxor (uadd a c) (ushl a 9) = Z.lxor (uadd b c) (ushl b 9) -> a = b.
Proof.
  intros Ha Hb H.
  assert (H0 : a mod 2 ^ 0 = b mod 2 ^ 0) by (rewrite !Z.mod_1_r; reflexivity).
  apply (xsl_step_low c a b 0 ltac:(lia) H) in H0. change (Z.min (0 + 9) 32) with 9 in H0.
  apply (xsl_step_low c a b 9 ltac:(lia) H) in H0. change (Z.min (9 + 9) 32) with 18 in H0.
  apply (xsl_step_low c a b 18 ltac:(lia) H) in H0. change (Z.min (18 + 9) 32) with 27 in H0.
  apply (xsl_step_low c a b 27 ltac:(lia) H) in H0. change (Z.min (27 + 9) 32) with 32 in H0.
  unfold is_u32 in *. rewrite !Z.mod_small in H0 by lia. exact H0.
Qed.

Lemma hash_u32 a : is_u32 a -> is_u32 (hash a).
Proof.
  intros Ha. unfold hash. cbv zeta.
  apply lxor_u32; [apply lxor_u32; [apply wrapU32_range|]|].
  - unfold is_u32. lia.
  - apply ushr_u32; [lia|apply wrapU32_range].
Qed.

Lemma hash_inj (a b : Z) :
  is_u32 a -> is_u32 b -> hash a = hash b -> a = b.
Proof.
  intros Ha Hb. unfold hash. cbv zeta. intros H.
  apply xsr_step_inj in H; [|lia|apply wrapU32_range..].
  apply (mul_step_inj 3 _ 954437177) in H;
    [|lia|reflexivity|apply lxor_u32; apply wrapU32_range..].
  apply xsl_step_inj in H; [|apply wrapU32_range..].
  apply (mul_step_inj 5 _ 1041204193) in H;
    [|lia|reflexivity| |].
  2,3: apply lxor_u32; [apply lxor_u32; [apply wrapU32_range|unfold is_u32; lia]
                       |apply ushr_u32; [lia|apply wrapU32_range]].
  apply xsr_step_inj in H; [|lia|apply wrapU32_range..].
  apply (mul_step_inj 12 _ 16773121) in H; [exact H|lia|reflexivity|assumption..].
Qed.

(** X16.  [hash] is one to one on the 32-bit unsigned integers: the hash
    of a 32-bit value is a 32-bit value, and two different 32-bit values
    never have the same hash. *)
Theorem hash_injective (a b : Z) :
  is_u32 a -> is_u32 b ->
  is_u32 (hash a) /\ (hash a = hash b -> a = b).
Proof.
  intros Ha Hb. split; [apply hash_u32; exact Ha|].
  apply hash_inj; assumption.
Qed.

Lemma hash_injective_witness :
  is_u32 (hash 0) /\ hash 0 <> hash 1.
Proof.
  destruct (hash_injective 0 1) as [H1 H2]; [unfold is_u32; lia..|].
  split; [exact H1|]. intros E. apply H2 in E. discriminate E.
Defined.

Lemma mul_one_r (x : float) : F32.valid x = true -> (x * F32.one)%f32 = x.
Proof.
  destruct x as [s|s| |s m e]; intros Hv; try reflexivity.
  - cbn. rewrite xorb_false_r. reflexivity.
  - cbn. rewrite xorb_false_r. reflexivity.
  - unfold F32.mul, F32.one, SFmul. rewrite xorb_false_r.
    rewrite Pos.mul_comm.
    change (Zpos (8388608 * m)) with (Zpos (Pos.iter xO m 23)).
    change (e + -23) with (e - Zpos 23).
    apply binary_round_aux_shifted. exact Hv.
Qed.

Lemma seed_small (index : Z) :
  0 <= index <= 2 ^ 24 -> generateRandomVec3_seed (F32.of_int 1) index = hash index.
Proof.
  intros Hi. unfold generateRandomVec3_seed.
  change (F32.of_int 1) with F32.one.
  rewrite mul_one_r by (apply of_int_valid; exact Hi).
  rewrite trunc_of_int by exact Hi.
  unfold wrapU32. rewrite Z.mod_small by lia. reflexivity.
Qed.

(** X17.  The seed of the random engine of [generateRandomVec3], as
    [kernGenerateRandomPosArray] is launched by [Boids::initSimulation]
    ([time = 1]).  For boid indices up to 2^24 the seed is the hash of
    the index and different boids get different seeds; boids 2^24 and
    2^24 + 1 get the same seed, since [index * time] is computed in
    [float]. *)
Theorem seeds_distinct_below_2p24 (i j : Z) :
  0 <= i <= 2 ^ 24 -> 0 <= j <= 2 ^ 24 ->
  kernGenerateRandomPosArray_seed 1 i = hash i /\
  (kernGenerateRandomPosArray_seed 1 i = kernGenerateRandomPosArray_seed 1 j ->
   i = j) /\
  kernGenerateRandomPosArray_seed 1 (2 ^ 24 + 1)
  = kernGenerateRandomPosArray_seed 1 (2 ^ 24).
Proof.
  intros Hi Hj. unfold kernGenerateRandomPosArray_seed.
  split; [apply seed_small; exact Hi|]. split.
  - rewrite !seed_small by assumption. apply hash_inj; unfold is_u32; lia.
  - vm_compute. reflexivity.
Qed.

Lemma seeds_distinct_below_2p24_witness :
  kernGenerateRandomPosArray_seed 1 5 = hash 5 /\
  kernGenerateRandomPosArray_seed 1 (2 ^ 24 + 1)
  = kernGenerateRandomPosArray_seed 1 (2 ^ 24).
Proof.
  destruct (seeds_distinct_below_2p24 5 6) as (H1 & _ & H3); [lia..|].
  split; assumption.
Defined.

(** * Powers of two as real numbers *)

Lemma p2_pos (a : Z) : (0 < powerRZ 2 a)%R.
Proof. apply powerRZ_lt. lra. Qed.

Lemma p2_add (a b : Z) : (powerRZ 2 (a + b) = powerRZ 2 a * powerRZ 2 b)%R.
Proof. apply powerRZ_add. lra. Qed.

Lemma p2_IZR (k : Z) : 0 <= k -> powerRZ 2 k = IZR (2 ^ k).
Proof.
  intros Hk. destruct k as [|p|p]; [reflexivity| |lia].
  cbn [powerRZ]. rewrite pow_IZR. rewrite positive_nat_Z. reflexivity.
Qed.

Lemma p2_le (a b : Z) : a <= b -> (powerRZ 2 a <= powerRZ 2 b)%R.
Proof.
  intros H. replace b with (a + (b - a)) by lia. rewrite p2_add.
  rewrite (p2_IZR (b - a)) by lia.
  assert (1 <= IZR (2 ^ (b - a)))%R.
  { apply IZR_le. pose proof (pow2_pos (b - a)). lia. }
  pose proof (p2_pos a). nra.
Qed.

(** The value of a datum from its scaled integer. *)
Lemma to_R_scaled s m e :
  -149 <= e ->
  to_R (S754_finite s m e)
  = ((if s then -1 else 1) * IZR (Zpos m * 2 ^ (e + 149)) * powerRZ 2 (-149))%R.
Proof.
  intros He. cbn [to_R]. rewrite mult_IZR, <- (p2_IZR (e + 149)) by lia.
  replace e with ((e + 149) + -149) at 1 by lia. rewrite p2_add.
  destruct s; [change (Zneg m) with (- Zpos m); rewrite opp_IZR|]; ring.
Qed.

(** * The last step of rounding, in real numbers *)

Lemma finish_round_inf s m2 f :
  0 < m2 <= 2 ^ 24 -> -149 <= f -> (-149 < f -> 2 ^ 23 <= m2) ->
  2 ^ 277 <= m2 * 2 ^ (f + 149) ->
  finish_round s m2 f = S754_infinity s.
Proof.
  intros Hm Hf Hnorm Hov. unfold finish_round.
  destruct m2 as [|p|p]; [lia| |lia].
  unfold shr_fexp. cbn [Zdigits2 shr_record_of_loc].
  assert (H104 : 104 <= f).
  { destruct (Z_le_gt_dec 104 f) as [?|Hgt]; [assumption|exfalso].
    assert (2 ^ (f + 149) <= 2 ^ 252) by (apply pow2_le; lia).
    assert (0 < 2 ^ (f + 149)) by (apply pow2_pos; lia).
    assert (Zpos p * 2 ^ (f + 149) <= 2 ^ 24 * 2 ^ 252)
      by (apply Z.mul_le_mono_nonneg; lia).
    change (2 ^ 24 * 2 ^ 252) with (2 ^ 276) in *.
    assert (2 ^ 276 < 2 ^ 277) by reflexivity. lia. }
  destruct (Z.eq_dec (Zpos p) (2 ^ 24)) as [E|Hne].
  - assert (Hp : p = 16777216%positive) by (apply Pos2Z.inj; exact E).
    subst p. change (Zpos (digits2_pos 16777216)) with 25.
    assert (Hfe : fexp F32.prec F32.emax (25 + f) - f = 1).
    { unfold fexp, emin, F32.prec, F32.emax. lia. }
    rewrite Hfe. cbn [shr SpecFloat.iter_pos shr_1 shr_m orb].
    replace (f + 1 <=? F32.emax - F32.prec) with false
      by (symmetry; apply Z.leb_gt; unfold F32.emax, F32.prec; lia).
    reflexivity.
  - assert (H105 : 105 <= f).
    { destruct (Z_le_gt_dec 105 f) as [?|Hgt]; [assumption|exfalso].
      assert (f = 104) by lia. subst f. change (2 ^ (104 + 149)) with (2 ^ 253) in Hov.
      assert (Zpos p * 2 ^ 253 <= (2 ^ 24 - 1) * 2 ^ 253)
        by (apply Z.mul_le_mono_nonneg_r; [apply Z.pow_nonneg|]; lia).
      change ((2 ^ 24 - 1) * 2 ^ 253) with (2 ^ 277 - 2 ^ 253) in *.
      assert (0 < 2 ^ 253) by reflexivity. lia. }
    assert (Hd' : Zpos (digits2_pos p) = 24).
    { specialize (Hnorm ltac:(lia)).
      apply digits2_pos_unique. change (24 - 1) with 23. lia. }
    assert (Hfe : fexp F32.prec F32.emax (Zpos (digits2_pos p) + f) = f).
    { unfold fexp, emin, F32.prec, F32.emax. rewrite Hd'. lia. }
    rewrite Hfe, Z.sub_diag. cbn [shr shr_m].
    replace (f <=? F32.emax - F32.prec) with false
      by (symmetry; apply Z.leb_gt; unfold F32.emax, F32.prec; lia).
    reflexivity.
Qed.

(** A finite result of the last step has the value [m2 * 2^f]. *)
Lemma finish_round_to_R s m2 f :
  0 <= m2 <= 2 ^ 24 -> -149 <= f -> (-149 < f -> 2 ^ 23 <= m2) ->
  F32.is_finite (finish_round s m2 f) = true ->
  to_R (finish_round s m2 f)
  = ((if s then -1 else 1) * IZR m2 * powerRZ 2 f)%R.
Proof.
  intros Hm Hf Hnorm Hfin.
  destruct (Z.eq_dec m2 0) as [->|Hm0].
  { rewrite finish_round_zero. cbn [to_R]. ring. }
  destruct (Z_lt_le_dec (m2 * 2 ^ (f + 149)) (2 ^ 277)) as [Hlt|Hge].
  - destruct (finish_round_value s m2 f ltac:(lia) Hf Hnorm Hlt)
      as (m' & e' & E & He' & Hv).
    rewrite E, to_R_scaled by exact He'. rewrite Hv, mult_IZR.
    rewrite <- (p2_IZR (f + 149)) by lia.
    replace f with ((f + 149) + -149) at 2 by lia.
    rewrite (p2_add (f + 149) (-149)). ring.
  - rewrite (finish_round_inf s m2 f ltac:(lia) Hf Hnorm Hge) in Hfin.
    discriminate Hfin.
Qed.

(** The last step gives a finite datum when the value stays below the
    largest one plus one unit in the last place. *)
Lemma finish_round_finite s m2 f :
  0 <= m2 <= 2 ^ 24 -> -149 <= f -> (-149 < f -> 2 ^ 23 <= m2) ->
  m2 * 2 ^ (f + 149) < 2 ^ 277 ->
  F32.is_finite (finish_round s m2 f) = true.
Proof.
  intros Hm Hf Hnorm Hlt.
  destruct (Z.eq_dec m2 0) as [->|Hm0].
  { rewrite finish_round_zero. reflexivity. }
  destruct (finish_round_value s m2 f ltac:(lia) Hf Hnorm Hlt)
    as (m' & e' & E & _). rewrite E. reflexivity.
Qed.

Lemma Rabs_between (a b : R) : (Rabs a <= b -> - b <= a <= b)%R.
Proof. unfold Rabs. destruct (Rcase_abs a); lra. Qed.

Lemma p2_m23 : powerRZ 2 (-23) = (/ 8388608)%R.
Proof.
  assert (H : (powerRZ 2 (-23) * powerRZ 2 23 = 1)%R).
  { rewrite <- p2_add. reflexivity. }
  rewrite (p2_IZR 23) in H by lia. change (2 ^ 23) with 8388608 in H.
  apply (Rmult_eq_reg_r 8388608); [|lra]. rewrite H. field.
Qed.

(** One unit in the last place is at most the relative bound 2^-23 of the
    value, or the absolute bound 2^-149. *)
Lemma finish_round_error s m2 f (v : R) :
  0 <= m2 <= 2 ^ 24 -> -149 <= f -> (-149 < f -> 2 ^ 23 <= m2) ->
  (0 <= v)%R ->
  (Rabs (IZR m2 * powerRZ 2 f - v) <= powerRZ 2 f)%R ->
  (-149 < f -> (powerRZ 2 (f + 23) <= v)%R) ->
  F32.is_finite (finish_round s m2 f) = true ->
  (Rabs (to_R (finish_round s m2 f) - (if s then - v else v))
   <= / 8388608 * v + powerRZ 2 (-149))%R.
Proof.
  intros Hm Hf Hnorm Hv Hb Hrel Hfin.
  rewrite (finish_round_to_R s m2 f Hm Hf Hnorm Hfin).
  assert (Hulp : (powerRZ 2 f <= / 8388608 * v + powerRZ 2 (-149))%R).
  { destruct (Z.eq_dec f (-149)) as [->|Hne].
    - assert (0 <= / 8388608 * v)%R by (apply Rmult_le_pos; lra). lra.
    - specialize (Hrel ltac:(lia)).
      replace f with (-23 + (f + 23)) at 1 by lia.
      rewrite (p2_add (-23) (f + 23)), p2_m23.
      pose proof (p2_pos (-149)). nra. }
  apply Rabs_le. apply Rabs_between in Hb.
  destruct s; lra.
Qed.

(** * Rounding a located value *)

(** A value between two neighbouring multiples of [2^f] is within [2^f]
    of both. *)
Lemma bracket_R (q m2 f : Z) (v : R) :
  q <= m2 <= q + 1 ->
  (IZR q * powerRZ 2 f <= v <= (IZR q + 1) * powerRZ 2 f)%R ->
  (Rabs (IZR m2 * powerRZ 2 f - v) <= powerRZ 2 f)%R.
Proof.
  intros [H1 H2] [Hlo Hhi].
  apply IZR_le in H1, H2. rewrite plus_IZR in H2.
  pose proof (p2_pos f). apply Rabs_le. nra.
Qed.

(** Dropping [n] low bits of the integer part keeps the value located. *)
Lemma shift_bracket (P n e : Z) (v : R) :
  0 <= P -> 0 <= n ->
  (IZR P * powerRZ 2 e <= v <= (IZR P + 1) * powerRZ 2 e)%R ->
  (IZR (P / 2 ^ n) * powerRZ 2 (e + n) <= v
   <= (IZR (P / 2 ^ n) + 1) * powerRZ 2 (e + n))%R.
Proof.
  intros HP Hn [Hlo Hhi].
  assert (Hpow : 0 < 2 ^ n) by (apply pow2_pos; exact Hn).
  pose proof (Z.div_mod P (2 ^ n) ltac:(lia)) as Hdm.
  pose proof (Z.mod_pos_bound P (2 ^ n) Hpow) as Hmb.
  set (q := P / 2 ^ n) in *.
  assert (H1 : q * 2 ^ n <= P) by lia.
  assert (H2 : P + 1 <= (q + 1) * 2 ^ n) by lia.
  apply IZR_le in H1, H2.
  rewrite mult_IZR in H1. rewrite plus_IZR, mult_IZR, plus_IZR in H2.
  rewrite <- (p2_IZR n) in H1, H2 by exact Hn.
  rewrite (p2_add e n).
  pose proof (p2_pos e). pose proof (p2_pos n).
  split.
  - apply Rle_trans with (IZR P * powerRZ 2 e)%R; [|exact Hlo]. nra.
  - apply Rle_trans with ((IZR P + 1) * powerRZ 2 e)%R; [exact Hhi|]. nra.
Qed.

(** The value of a mantissa of [d] digits. *)
Lemma digits_lower_R (p : positive) (e : Z) :
  (powerRZ 2 (Zpos (digits2_pos p) - 1 + e) <= IZR (Zpos p) * powerRZ 2 e)%R.
Proof.
  pose proof (digits2_pos_bounds p) as [Hlo _].
  pose proof (digits2_pos_ge_1 p) as Hd.
  rewrite p2_add, p2_IZR by lia. apply IZR_le in Hlo.
  pose proof (p2_pos e). nra.
Qed.

(** [binary_round] is within one unit in the last place of the value. *)
Lemma binary_round_error s (p : positive) (e : Z) :
  F32.is_finite (binary_round F32.prec F32.emax s p e) = true ->
  let v := (IZR (Zpos p) * powerRZ 2 e)%R in
  (Rabs (to_R (binary_round F32.prec F32.emax s p e) - (if s then - v else v))
   <= / 8388608 * v + powerRZ 2 (-149))%R.
Proof.
  intros Hfin v.
  destruct (binary_round_finish s p e) as (m2 & Hr & Hm & Hnorm & Hexact & Hshift).
  set (d := Zpos (digits2_pos p)) in *.
  set (f := Z.max (d + e - 24) (-149)) in *.
  assert (Hf : -149 <= f) by (unfold f; lia).
  assert (Hv : (0 <= v)%R).
  { unfold v. pose proof (p2_pos e). assert (0 < IZR (Zpos p))%R by (apply IZR_lt; lia). nra. }
  rewrite Hr in Hfin |- *.
  apply finish_round_error; try assumption.
  - destruct (Z_le_gt_dec f e) as [Hfe|Hfe].
    + rewrite (Hexact Hfe), mult_IZR, <- (p2_IZR (e - f)) by lia.
      replace (IZR (Zpos p) * powerRZ 2 (e - f) * powerRZ 2 f)%R with v.
      * replace (v - v)%R with 0%R by ring. rewrite Rabs_R0.
        pose proof (p2_pos f). lra.
      * unfold v. replace e with ((e - f) + f) at 1 by lia.
        rewrite (p2_add (e - f) f). ring.
    + destruct (Hshift ltac:(lia)) as [Hq _].
      apply (bracket_R (Zpos p / 2 ^ (f - e))); [exact Hq|].
      assert (Hb : (IZR (Zpos p) * powerRZ 2 e <= v
                    <= (IZR (Zpos p) + 1) * powerRZ 2 e)%R).
      { unfold v. pose proof (p2_pos e). split; nra. }
      pose proof (shift_bracket (Zpos p) (f - e) e v ltac:(lia) ltac:(lia) Hb) as H.
      replace (e + (f - e)) with f in H by lia. exact H.
  - intros Hgt. assert (Hfd : f = d + e - 24) by (unfold f in *; lia).
    replace (f + 23) with (d - 1 + e) by lia. apply digits_lower_R.
Qed.

(** * Products and sums *)

Lemma to_R_signed s m e :
  to_R (S754_finite s m e)
  = ((if s then -1 else 1) * (IZR (Zpos m) * powerRZ 2 e))%R.
Proof.
  cbn [to_R]. destruct s; [change (Zneg m) with (- Zpos m); rewrite opp_IZR|]; ring.
Qed.

Lemma mul_error (x y : float) :
  F32.valid x = true -> F32.valid y = true ->
  F32.is_finite x = true -> F32.is_finite y = true ->
  F32.is_finite (x * y)%f32 = true ->
  (Rabs (to_R (x * y)%f32 - to_R x * to_R y)
   <= / 8388608 * Rabs (to_R x * to_R y) + powerRZ 2 (-149))%R.
Proof.
  intros Vx Vy Fx Fy Fxy. pose proof (p2_pos (-149)) as Heta.
  destruct x as [sx|sx| |sx mx ex]; try discriminate Fx;
    destruct y as [sy|sy| |sy my ey]; try discriminate Fy.
  1-3: cbn [F32.mul SFmul to_R];
       rewrite ?Rmult_0_l, ?Rmult_0_r, Rminus_diag, Rabs_R0; lra.
  rewrite mul_as_round in Fxy |- * by assumption.
  pose proof (binary_round_error (xorb sx sy) (mx * my) (ex + ey) Fxy) as H.
  cbv zeta in H. rewrite Pos2Z.inj_mul, mult_IZR, (p2_add ex ey) in H.
  rewrite !to_R_signed.
  set (a := (IZR (Zpos mx) * powerRZ 2 ex)%R) in *.
  set (b := (IZR (Zpos my) * powerRZ 2 ey)%R) in *.
  assert (Ha : (0 < a)%R).
  { unfold a. pose proof (p2_pos ex).
    assert (0 < IZR (Zpos mx))%R by (apply IZR_lt; lia). nra. }
  assert (Hb : (0 < b)%R).
  { unfold b. pose proof (p2_pos ey).
    assert (0 < IZR (Zpos my))%R by (apply IZR_lt; lia). nra. }
  replace (IZR (Zpos mx) * IZR (Zpos my) * (powerRZ 2 ex * powerRZ 2 ey))%R
    with (a * b)%R in H by (unfold a, b; ring).
  assert (Hab : (0 < a * b)%R) by nra.
  destruct sx, sy; cbn [xorb] in H |- *.
  - replace (-1 * a * (-1 * b))%R with (a * b)%R by ring.
    rewrite (Rabs_pos_eq (a * b)) by lra. exact H.
  - replace (-1 * a * (1 * b))%R with (- (a * b))%R by ring.
    rewrite Rabs_Ropp, (Rabs_pos_eq (a * b)) by lra. exact H.
  - replace (1 * a * (-1 * b))%R with (- (a * b))%R by ring.
    rewrite Rabs_Ropp, (Rabs_pos_eq (a * b)) by lra. exact H.
  - replace (1 * a * (1 * b))%R with (a * b)%R by ring.
    rewrite (Rabs_pos_eq (a * b)) by lra. exact H.
Qed.

Lemma to_R_aligned s m e ez :
  -149 <= ez <= e ->
  to_R (S754_finite s m e)
  = (IZR (cond_Zopp s (Zpos (fst (shl_align m e ez)))) * powerRZ 2 ez)%R.
Proof.
  intros He. rewrite to_R_scaled by lia.
  rewrite <- (shl_align_scaled m e ez He), mult_IZR.
  rewrite <- (p2_IZR (ez + 149)) by lia.
  assert (E : powerRZ 2 ez = (powerRZ 2 (ez + 149) * powerRZ 2 (-149))%R).
  { rewrite <- p2_add. f_equal. lia. }
  rewrite E.
  destruct s; cbn [cond_Zopp]; rewrite ?opp_IZR; ring.
Qed.

Lemma binary_normalize_error (m e : Z) :
  F32.is_finite (binary_normalize F32.prec F32.emax m e false) = true ->
  let v := (IZR m * powerRZ 2 e)%R in
  (Rabs (to_R (binary_normalize F32.prec F32.emax m e false) - v)
   <= / 8388608 * Rabs v + powerRZ 2 (-149))%R.
Proof.
  intros Hfin v. pose proof (p2_pos (-149)) as Heta. pose proof (p2_pos e) as He.
  destruct m as [|p|p]; cbn [binary_normalize] in *.
  - unfold v. cbn [to_R]. rewrite Rmult_0_l, Rminus_diag, Rabs_R0. lra.
  - pose proof (binary_round_error false p e Hfin) as H. cbv zeta in H.
    assert (0 < IZR (Zpos p))%R by (apply IZR_lt; lia).
    rewrite (Rabs_pos_eq v) by (unfold v; apply Rmult_le_pos; lra). exact H.
  - pose proof (binary_round_error true p e Hfin) as H. cbv zeta in H.
    assert (0 < IZR (Zpos p))%R by (apply IZR_lt; lia).
    assert (Hv : v = (- (IZR (Zpos p) * powerRZ 2 e))%R).
    { unfold v. change (Zneg p) with (- Zpos p). rewrite opp_IZR. ring. }
    rewrite Hv, Rabs_Ropp, (Rabs_pos_eq (IZR (Zpos p) * powerRZ 2 e))
      by (apply Rmult_le_pos; lra).
    exact H.
Qed.

Lemma add_error (x y : float) :
  F32.valid x = true -> F32.valid y = true ->
  F32.is_finite x = true -> F32.is_finite y = true ->
  F32.is_finite (x + y)%f32 = true ->
  (Rabs (to_R (x + y)%f32 - (to_R x + to_R y))
   <= / 8388608 * Rabs (to_R x + to_R y) + powerRZ 2 (-149))%R.
Proof.
  intros Vx Vy Fx Fy Fxy. pose proof (p2_pos (-149)) as Heta.
  assert (Hexact : forall a : R,
            (Rabs (a - a) <= / 8388608 * Rabs a + powerRZ 2 (-149))%R).
  { intros a. rewrite Rminus_diag, Rabs_R0. pose proof (Rabs_pos a). lra. }
  destruct x as [sx|sx| |sx mx ex]; try discriminate Fx;
    destruct y as [sy|sy| |sy my ey]; try discriminate Fy.
  - replace (to_R (S754_zero sx + S754_zero sy)%f32) with 0%R
      by (destruct sx, sy; reflexivity).
    cbn [to_R]. rewrite Rplus_0_l. apply Hexact.
  - cbn [F32.add SFadd]. rewrite (Rplus_0_l (to_R _)) at 1.
    change (to_R (S754_zero sx)) with 0%R. rewrite !Rplus_0_l. apply Hexact.
  - cbn [F32.add SFadd]. change (to_R (S754_zero sy)) with 0%R.
    rewrite !Rplus_0_r. apply Hexact.
  - apply valid_finite_inv in Vx as (Hex & _). apply valid_finite_inv in Vy as (Hey & _).
    unfold F32.add, SFadd in Fxy |- *. cbv zeta in Fxy |- *.
    set (ez := Z.min ex ey) in *.
    rewrite (to_R_aligned sx mx ex ez), (to_R_aligned sy my ey ez) by (unfold ez; lia).
    rewrite <- Rmult_plus_distr_r, <- plus_IZR.
    apply (binary_normalize_error _ ez Fxy).
Qed.

(** * Rounding an inexact quotient or root *)

Lemma shr_m_of_loc m l : shr_m (shr_record_of_loc m l) = m.
Proof. destruct l as [|[| |]]; reflexivity. Qed.

Lemma Zdigits2_bounds (m : Z) :
  0 < m -> 2 ^ (Zdigits2 m - 1) <= m < 2 ^ Zdigits2 m.
Proof.
  destruct m as [|p|p]; try lia. intros _. apply digits2_pos_bounds.
Qed.

(** What [binary_round_aux] rounds when the mantissa [mz] has at least
    the digits of the format: the mantissa at the exponent [f] of the
    result is [mz / 2^(f - ez)] or the next integer, whatever the
    location says about the discarded part. *)
Lemma binary_round_aux_finish s (mz ez : Z) (lz : location) :
  0 <= mz ->
  let f := fexp F32.prec F32.emax (Zdigits2 mz + ez) in
  ez <= f ->
  exists m2,
    binary_round_aux F32.prec F32.emax s mz ez lz = finish_round s m2 f /\
    0 <= m2 <= 2 ^ 24 /\ (-149 < f -> 2 ^ 23 <= m2) /\
    mz / 2 ^ (f - ez) <= m2 <= mz / 2 ^ (f - ez) + 1.
Proof.
  intros Hmz f Hf.
  set (d := Zdigits2 mz) in *.
  assert (Hfd : f = Z.max (d + ez - 24) (-149))
    by (unfold f, fexp, emin, F32.prec, F32.emax; lia).
  assert (Hd0 : 0 <= d) by (unfold d; destruct mz; cbn; lia).
  assert (Hpow : 0 < 2 ^ (f - ez)) by (apply pow2_pos; lia).
  assert (Hq0 : 0 <= mz / 2 ^ (f - ez)) by (apply Z.div_pos; lia).
  assert (Hup : mz / 2 ^ (f - ez) < 2 ^ 24).
  { apply Z.div_lt_upper_bound; [lia|].
    rewrite <- pow2_add by lia.
    destruct (Z.eq_dec mz 0) as [->|Hne].
    - apply pow2_pos. lia.
    - destruct (Zdigits2_bounds mz ltac:(lia)) as [_ Hhi]. fold d in Hhi.
      eapply Z.lt_le_trans; [exact Hhi|]. apply pow2_le. lia. }
  assert (Hdn : -149 < f -> 2 ^ 23 <= mz / 2 ^ (f - ez)).
  { intros Hgt.
    assert (Hne : 0 < mz).
    { destruct (Z.eq_dec mz 0) as [E|?]; [|lia]. exfalso.
      unfold d in Hfd. rewrite E in Hfd. cbn [Zdigits2] in Hfd. lia. }
    destruct (Zdigits2_bounds mz Hne) as [Hlo _]. fold d in Hlo.
    apply Z.div_le_lower_bound; [lia|].
    rewrite <- pow2_add by lia.
    etransitivity; [|exact Hlo]. apply pow2_le. lia. }
  assert (Hshr : exists mrs',
            shr_fexp F32.prec F32.emax mz ez lz = (mrs', f) /\
            shr_m mrs' = mz / 2 ^ (f - ez)).
  { unfold shr_fexp. fold d. fold f. unfold shr.
    destruct (f - ez) as [|n|n] eqn:Hn; [| |lia].
    - eexists. split; [f_equal; lia|].
      rewrite shr_m_of_loc. change (2 ^ 0) with 1. rewrite Z.div_1_r. reflexivity.
    - eexists. split; [f_equal; lia|].
      rewrite iter_pos_shr_1_div by (rewrite shr_m_of_loc; exact Hmz).
      rewrite shr_m_of_loc. reflexivity. }
  destruct Hshr as (mrs' & Hs & Hm').
  exists (round_nearest_even (shr_m mrs') (loc_of_shr_record mrs')).
  split; [|split; [|split]].
  - unfold binary_round_aux. rewrite Hs. reflexivity.
  - destruct (round_nearest_even_cases (shr_m mrs') (loc_of_shr_record mrs'))
      as [Hr|Hr]; rewrite Hr, Hm'; lia.
  - intros Hgt. specialize (Hdn Hgt).
    destruct (round_nearest_even_cases (shr_m mrs') (loc_of_shr_record mrs'))
      as [Hr|Hr]; rewrite Hr, Hm'; lia.
  - destruct (round_nearest_even_cases (shr_m mrs') (loc_of_shr_record mrs'))
      as [Hr|Hr]; rewrite Hr, Hm'; lia.
Qed.

(** The error of [binary_round_aux] on a value [v] located by [mz]:
    [mz * 2^ez <= v <= (mz + 1) * 2^ez].  The result is a binary32 datum,
    finite when [v] is below the largest finite value, and then within
    one unit in the last place of [v]. *)
Lemma binary_round_aux_error s (mz ez : Z) (lz : location) (v : R) :
  0 <= mz -> ez <= fexp F32.prec F32.emax (Zdigits2 mz + ez) ->
  (IZR mz * powerRZ 2 ez <= v <= (IZR mz + 1) * powerRZ 2 ez)%R ->
  let r := binary_round_aux F32.prec F32.emax s mz ez lz in
  F32.valid r = true /\
  ((v < IZR (2 ^ 24 - 1) * powerRZ 2 104)%R -> F32.is_finite r = true) /\
  (F32.is_finite r = true ->
   (Rabs (to_R r - (if s then - v else v))
    <= / 8388608 * v + powerRZ 2 (-149))%R).
Proof.
  intros Hmz Hf Hv r.
  destruct (binary_round_aux_finish s mz ez lz Hmz Hf)
    as (m2 & Hr & Hm & Hnorm & Hq).
  set (f := fexp F32.prec F32.emax (Zdigits2 mz + ez)) in *.
  assert (Hf149 : -149 <= f)
    by (unfold f, fexp, emin, F32.prec, F32.emax; lia).
  assert (Hv0 : (0 <= v)%R).
  { pose proof (p2_pos ez). assert (0 <= IZR mz)%R by (apply IZR_le; lia).
    destruct Hv as [Hlo _]. nra. }
  assert (Hbr : (IZR (mz / 2 ^ (f - ez)) * powerRZ 2 f <= v
                 <= (IZR (mz / 2 ^ (f - ez)) + 1) * powerRZ 2 f)%R).
  { pose proof (shift_bracket mz (f - ez) ez v Hmz ltac:(lia) Hv) as H.
    replace (ez + (f - ez)) with f in H by lia. exact H. }
  assert (Hrel : -149 < f -> (powerRZ 2 (f + 23) <= v)%R).
  { intros Hgt.
    assert (Hfd : f = Zdigits2 mz + ez - 24)
      by (unfold f, fexp, emin, F32.prec, F32.emax in *; lia).
    assert (Hpos : 0 < mz).
    { destruct (Z.eq_dec mz 0) as [E|?]; [|lia]. exfalso.
      rewrite E in Hfd. cbn [Zdigits2] in Hfd. lia. }
    destruct (Zdigits2_bounds mz Hpos) as [Hlo _].
    assert (Hd1 : 1 <= Zdigits2 mz) by (destruct mz; cbn; lia).
    replace (f + 23) with ((Zdigits2 mz - 1) + ez) by lia.
    rewrite p2_add, p2_IZR by lia. apply IZR_le in Hlo.
    pose proof (p2_pos ez). destruct Hv as [Hv _]. nra. }
  subst r. rewrite Hr. split; [apply finish_round_valid; assumption|]. split.
  - intros Hmax. apply finish_round_finite; try assumption.
    destruct (Z_lt_le_dec (m2 * 2 ^ (f + 149)) (2 ^ 277)) as [?|Hge];
      [assumption|exfalso].
    destruct (Z_le_gt_dec f 103) as [H103|H103].
    + assert (2 ^ (f + 149) <= 2 ^ 252) by (apply pow2_le; lia).
      assert (0 < 2 ^ (f + 149)) by (apply pow2_pos; lia).
      assert (m2 * 2 ^ (f + 149) <= 2 ^ 24 * 2 ^ 252)
        by (apply Z.mul_le_mono_nonneg; lia).
      change (2 ^ 24 * 2 ^ 252) with (2 ^ 276) in *.
      assert (2 ^ 276 < 2 ^ 277) by reflexivity. lia.
    + destruct (Z.eq_dec f 104) as [E104|Hne].
      * rewrite E104 in *. change (2 ^ (104 + 149)) with (2 ^ 253) in Hge.
        change (2 ^ 277) with (2 ^ 24 * 2 ^ 253) in Hge.
        assert (0 < 2 ^ 253) by reflexivity.
        assert (Hm2 : 2 ^ 24 <= m2) by nia.
        assert (Hq' : 2 ^ 24 - 1 <= mz / 2 ^ (104 - ez)) by lia.
        apply IZR_le in Hq'. pose proof (p2_pos 104). destruct Hbr as [Hlo _]. nra.
      * specialize (Hrel ltac:(lia)).
        assert (powerRZ 2 128 <= powerRZ 2 (f + 23))%R by (apply p2_le; lia).
        assert (E : (powerRZ 2 128 = IZR (2 ^ 24) * powerRZ 2 104)%R).
        { rewrite <- (p2_IZR 24), <- p2_add by lia. reflexivity. }
        assert (IZR (2 ^ 24 - 1) < IZR (2 ^ 24))%R by (apply IZR_lt; lia).
        pose proof (p2_pos 104). nra.
  - intros Hfin. apply finish_round_error; try assumption.
    apply (bracket_R (mz / 2 ^ (f - ez))); assumption.
Qed.

(** * Square roots *)

Lemma sqrt_bracket (q e : Z) (a : R) :
  0 <= q ->
  (IZR (q * q) * powerRZ 2 (2 * e) <= a
   <= IZR ((q + 1) * (q + 1)) * powerRZ 2 (2 * e))%R ->
  (IZR q * powerRZ 2 e <= sqrt a <= (IZR q + 1) * powerRZ 2 e)%R.
Proof.
  intros Hq [Hlo Hhi]. pose proof (p2_pos e) as He.
  assert (Hq' : (0 <= IZR q)%R) by (apply IZR_le; exact Hq).
  replace (2 * e) with (e + e) in Hlo, Hhi by lia.
  rewrite (p2_add e e) in Hlo, Hhi.
  rewrite mult_IZR in Hlo. rewrite mult_IZR, plus_IZR in Hhi.
  split.
  - rewrite <- (sqrt_square (IZR q * powerRZ 2 e)) by nra.
    apply sqrt_le_1_alt. nra.
  - rewrite <- (sqrt_square ((IZR q + 1) * powerRZ 2 e)) by nra.
    apply sqrt_le_1_alt. nra.
Qed.

Lemma sqrt_core (mx : positive) (ex : Z) :
  F32.valid (S754_finite false mx ex) = true ->
  exists q e' l,
    SFsqrt_core_binary F32.prec F32.emax (Zpos mx) ex = (q, e', l) /\
    0 < q /\ 0 <= ex - 2 * e' /\
    q * q <= Zpos mx * 2 ^ (ex - 2 * e') < (q + 1) * (q + 1) /\
    e' <= fexp F32.prec F32.emax (Zdigits2 q + e').
Proof.
  intros Hv. apply valid_finite_inv in Hv as (Hex & Hd & _).
  unfold SFsqrt_core_binary. cbv zeta. cbn [Zdigits2].
  set (d := Zpos (digits2_pos mx)) in *.
  rewrite !Z.div2_div.
  set (e' := Z.min (fexp F32.prec F32.emax ((d + ex + 1) / 2)) (ex / 2)).
  pose proof (Z.div_mod ex 2 ltac:(lia)) as Hex2.
  pose proof (Z.mod_pos_bound ex 2 ltac:(lia)) as Hexm.
  pose proof (Z.div_mod (d + ex + 1) 2 ltac:(lia)) as Hd2.
  pose proof (Z.mod_pos_bound (d + ex + 1) 2 ltac:(lia)) as Hdm.
  assert (Hs : 0 <= ex - 2 * e') by (unfold e'; lia).
  set (m' := match ex - 2 * e' with
             | 0 => Zpos mx
             | Zpos _ => Z.shiftl (Zpos mx) (ex - 2 * e')
             | Zneg _ => 0
             end).
  assert (Hm' : m' = Zpos mx * 2 ^ (ex - 2 * e')).
  { unfold m'. destruct (ex - 2 * e') as [|p|p] eqn:E; [cbn; lia| |lia].
    rewrite Z.shiftl_mul_pow2 by lia. reflexivity. }
  assert (Hpos : 0 < 2 ^ (ex - 2 * e')) by (apply pow2_pos; exact Hs).
  assert (Hm0 : 0 < m') by (rewrite Hm'; lia).
  pose proof (Z.sqrtrem_spec m' ltac:(lia)) as Hsq.
  destruct (Z.sqrtrem m') as [q r].
  destruct Hsq as [Hsq Hr].
  assert (Hq0 : 0 < q) by nia.
  eexists q, e', _. split; [reflexivity|].
  split; [exact Hq0|]. split; [exact Hs|]. split; [rewrite <- Hm'; nia|].
  unfold fexp, emin, F32.prec, F32.emax.
  destruct (Z_le_gt_dec e' (-149)) as [?|Hgt]; [lia|].
  assert (He' : 2 * e' + 48 <= d + ex + 1).
  { unfold e', fexp, emin, F32.prec, F32.emax in Hgt |- *. lia. }
  pose proof (digits2_pos_bounds mx) as [Hlo _]. fold d in Hlo.
  pose proof (digits2_pos_ge_1 mx) as Hd1. fold d in Hd1.
  assert (H46 : 2 ^ 46 <= m').
  { rewrite Hm'.
    assert (2 ^ 46 <= 2 ^ ((d - 1) + (ex - 2 * e'))) by (apply pow2_le; lia).
    rewrite pow2_add in H by lia.
    assert (2 ^ (d - 1) * 2 ^ (ex - 2 * e') <= Zpos mx * 2 ^ (ex - 2 * e'))
      by (apply Z.mul_le_mono_nonneg_r; lia).
    lia. }
  assert (H23 : 2 ^ 23 <= q).
  { change (2 ^ 46) with (2 ^ 23 * 2 ^ 23) in H46.
    assert (0 < 2 ^ 23) by reflexivity. nia. }
  destruct q as [|pq|pq]; [lia| |lia].
  pose proof (digits2_pos_ge pq 23 H23) as Hdq. cbn [Zdigits2]. lia.
Qed.

Lemma sqrt_error (x : float) :
  F32.valid x = true -> F32.is_finite (F32.sqrt x) = true ->
  F32.valid (F32.sqrt x) = true /\ F32.is_finite x = true /\
  (0 <= to_R x)%R /\
  (Rabs (to_R (F32.sqrt x) - sqrt (to_R x))
   <= / 8388608 * sqrt (to_R x) + powerRZ 2 (-149))%R.
Proof.
  intros Vx Fs. pose proof (p2_pos (-149)) as Heta.
  destruct x as [s|[|]| |[|] mx ex]; try discriminate Fs.
  - cbn [F32.sqrt SFsqrt to_R]. rewrite sqrt_0, Rminus_diag, Rabs_R0.
    repeat split; try reflexivity; lra.
  - destruct (sqrt_core mx ex Vx) as (q & e' & l & Hc & Hq & Hs & Hb & Hf).
    unfold F32.sqrt, SFsqrt in Fs |- *. rewrite Hc in Fs |- *.
    rewrite to_R_signed. rewrite Rmult_1_l.
    set (a := (IZR (Zpos mx) * powerRZ 2 ex)%R) in *.
    assert (Ha : (0 <= a)%R).
    { unfold a. pose proof (p2_pos ex).
      assert (0 < IZR (Zpos mx))%R by (apply IZR_lt; lia). nra. }
    assert (Hbr : (IZR q * powerRZ 2 e' <= sqrt a <= (IZR q + 1) * powerRZ 2 e')%R).
    { apply sqrt_bracket; [lia|].
      assert (Ea : a = (IZR (Zpos mx * 2 ^ (ex - 2 * e')) * powerRZ 2 (2 * e'))%R).
      { unfold a. rewrite mult_IZR, <- (p2_IZR (ex - 2 * e')) by lia.
        rewrite Rmult_assoc, <- p2_add. do 2 f_equal. lia. }
      rewrite Ea. destruct Hb as [Hb1 Hb2]. apply IZR_le in Hb1. apply IZR_lt in Hb2.
      pose proof (p2_pos (2 * e')). split; nra. }
    destruct (binary_round_aux_error false q e' l (sqrt a) ltac:(lia) Hf Hbr)
      as (Hv & _ & He).
    cbv zeta in Hv, He.
    split; [exact Hv|]. split; [reflexivity|]. split; [exact Ha|].
    exact (He Fs).
Qed.

(** * Quotients *)

Lemma div_core (mx my : positive) (ex ey : Z) :
  exists q e' l,
    SFdiv_core_binary F32.prec F32.emax (Zpos mx) ex (Zpos my) ey = (q, e', l) /\
    0 <= q /\ 0 <= ex - ey - e' /\
    q * Zpos my <= Zpos mx * 2 ^ (ex - ey - e') < (q + 1) * Zpos my /\
    e' <= fexp F32.prec F32.emax (Zdigits2 q + e').
Proof.
  unfold SFdiv_core_binary. cbv zeta. cbn [Zdigits2].
  set (d1 := Zpos (digits2_pos mx)). set (d2 := Zpos (digits2_pos my)).
  set (e' := Z.min (fexp F32.prec F32.emax (d1 + ex - (d2 + ey))) (ex - ey)).
  assert (Hs : 0 <= ex - ey - e') by (unfold e'; lia).
  set (m' := match ex - ey - e' with
             | 0 => Zpos mx
             | Zpos _ => Z.shiftl (Zpos mx) (ex - ey - e')
             | Zneg _ => 0
             end).
  assert (Hm' : m' = Zpos mx * 2 ^ (ex - ey - e')).
  { unfold m'. destruct (ex - ey - e') as [|p|p] eqn:E; [cbn; lia| |lia].
    rewrite Z.shiftl_mul_pow2 by lia. reflexivity. }
  assert (Hpos : 0 < 2 ^ (ex - ey - e')) by (apply pow2_pos; exact Hs).
  assert (Hm0 : 0 < m') by (rewrite Hm'; lia).
  pose proof (Z_div_mod m' (Zpos my) ltac:(lia)) as Hdm.
  destruct (Z.div_eucl m' (Zpos my)) as [q r].
  destruct Hdm as [Hdm Hr].
  assert (Hq0 : 0 <= q) by nia.
  eexists q, e', _. split; [reflexivity|].
  split; [exact Hq0|]. split; [exact Hs|]. split; [rewrite <- Hm'; nia|].
  unfold fexp, emin, F32.prec, F32.emax.
  destruct (Z_le_gt_dec e' (-149)) as [?|Hgt]; [lia|].
  assert (He' : e' + 24 <= d1 + ex - (d2 + ey)).
  { unfold e', fexp, emin, F32.prec, F32.emax in Hgt |- *. lia. }
  pose proof (digits2_pos_bounds mx) as [Hlo1 _]. fold d1 in Hlo1.
  pose proof (digits2_pos_bounds my) as [_ Hhi2]. fold d2 in Hhi2.
  pose proof (digits2_pos_ge_1 mx) as Hd1. fold d1 in Hd1.
  pose proof (digits2_pos_ge_1 my) as Hd2. fold d2 in Hd2.
  assert (Hbig : 2 ^ 23 * 2 ^ d2 <= m').
  { rewrite Hm'.
    assert (2 ^ (23 + d2) <= 2 ^ ((d1 - 1) + (ex - ey - e'))) by (apply pow2_le; lia).
    rewrite (pow2_add 23 d2), (pow2_add (d1 - 1)) in H by lia.
    assert (2 ^ (d1 - 1) * 2 ^ (ex - ey - e') <= Zpos mx * 2 ^ (ex - ey - e'))
      by (apply Z.mul_le_mono_nonneg_r; lia).
    lia. }
  assert (H23 : 2 ^ 23 <= q).
  { assert (0 < 2 ^ 23) by reflexivity. assert (0 < 2 ^ d2) by (apply pow2_pos; lia).
    destruct (Z_le_gt_dec (2 ^ 23) q) as [?|Hlt]; [assumption|exfalso].
    assert ((q + 1) * Zpos my <= 2 ^ 23 * Zpos my)
      by (apply Z.mul_le_mono_nonneg_r; lia).
    assert (2 ^ 23 * Zpos my < 2 ^ 23 * 2 ^ d2)
      by (apply Z.mul_lt_mono_pos_l; lia).
    lia. }
  destruct q as [|pq|pq]; [lia| |lia].
  pose proof (digits2_pos_ge pq 23 H23) as Hdq. cbn [Zdigits2]. lia.
Qed.

Lemma to_R_pos m e : (0 < to_R (S754_finite false m e))%R.
Proof.
  cbn [to_R]. pose proof (p2_pos e).
  assert (0 < IZR (Zpos m))%R by (apply IZR_lt; lia). nra.
Qed.

(** The largest binary32 value bounds every finite datum. *)
Lemma to_R_max (x : float) :
  F32.valid x = true ->
  (Rabs (to_R x) <= IZR (2 ^ 24 - 1) * powerRZ 2 104)%R.
Proof.
  intros Hv. pose proof (p2_pos 104) as H104.
  assert (H0 : (0 <= IZR (2 ^ 24 - 1) * powerRZ 2 104)%R).
  { assert (0 <= IZR (2 ^ 24 - 1))%R by (apply IZR_le; lia). nra. }
  destruct x as [s|s| |s m e]; cbn [to_R]; rewrite ?Rabs_R0; try exact H0.
  apply valid_finite_inv in Hv as (He & Hd & _).
  pose proof (digits2_pos_bounds m) as [_ Hhi].
  assert (Hm : Zpos m <= 2 ^ 24 - 1).
  { assert (2 ^ Zpos (digits2_pos m) <= 2 ^ 24) by (apply pow2_le; lia). lia. }
  fold (to_R (S754_finite s m e)). rewrite to_R_signed.
  apply IZR_le in Hm. assert (0 < IZR (Zpos m))%R by (apply IZR_lt; lia).
  pose proof (p2_le e 104 ltac:(lia)). pose proof (p2_pos e).
  assert (IZR (Zpos m) * powerRZ 2 e <= IZR (2 ^ 24 - 1) * powerRZ 2 104)%R by nra.
  apply Rabs_le. destruct s; nra.
Qed.

Lemma div_error (x : float) (my : positive) (ey : Z) :
  F32.valid x = true -> F32.is_finite x = true ->
  let y := S754_finite false my ey in
  F32.valid (x / y)%f32 = true /\
  ((1 < to_R y)%R -> F32.is_finite (x / y)%f32 = true) /\
  (F32.is_finite (x / y)%f32 = true ->
   (Rabs (to_R (x / y)%f32 - to_R x / to_R y)
    <= / 8388608 * Rabs (to_R x / to_R y) + powerRZ 2 (-149))%R).
Proof.
  intros Vx Fx y. pose proof (p2_pos (-149)) as Heta.
  pose proof (to_R_pos my ey) as Hy. fold y in Hy.
  destruct x as [sx|sx| |sx mx ex]; try discriminate Fx.
  { cbn [F32.div SFdiv to_R]. split; [reflexivity|]. split; [reflexivity|].
    intros _. unfold Rdiv. rewrite Rmult_0_l, Rminus_diag, Rabs_R0. lra. }
  destruct (div_core mx my ex ey) as (q & e' & l & Hc & Hq & Hs & Hb & Hf).
  unfold y, F32.div, SFdiv. rewrite Hc. rewrite xorb_false_r.
  set (a := (IZR (Zpos mx) * powerRZ 2 ex)%R).
  set (b := (IZR (Zpos my) * powerRZ 2 ey)%R).
  assert (Ha : (0 < a)%R).
  { unfold a. pose proof (p2_pos ex).
    assert (0 < IZR (Zpos mx))%R by (apply IZR_lt; lia). nra. }
  assert (Hb0 : (0 < b)%R).
  { unfold b. pose proof (p2_pos ey).
    assert (0 < IZR (Zpos my))%R by (apply IZR_lt; lia). nra. }
  assert (Hyb : to_R (S754_finite false my ey) = b) by reflexivity.
  assert (Hxa : to_R (S754_finite sx mx ex) = ((if sx then -1 else 1) * a)%R)
    by apply to_R_signed.
  assert (Hab : (0 < a / b)%R) by (apply Rdiv_lt_0_compat; assumption).
  assert (Hbr : (IZR q * powerRZ 2 e' <= a / b <= (IZR q + 1) * powerRZ 2 e')%R).
  { assert (Ea : a = (IZR (Zpos mx * 2 ^ (ex - ey - e')) * powerRZ 2 e'
                      * powerRZ 2 ey)%R).
    { unfold a. rewrite mult_IZR, <- (p2_IZR (ex - ey - e')) by lia.
      rewrite !Rmult_assoc, <- !p2_add. do 2 f_equal. lia. }
    destruct Hb as [Hb1 Hb2]. apply IZR_le in Hb1. apply IZR_lt in Hb2.
    rewrite (mult_IZR q (Zpos my)) in Hb1.
    rewrite (mult_IZR (q + 1) (Zpos my)), plus_IZR in Hb2.
    set (M := IZR (Zpos mx * 2 ^ (ex - ey - e'))) in *.
    assert (HY : (0 < IZR (Zpos my))%R) by (apply IZR_lt; lia).
    pose proof (p2_pos e') as He'. pose proof (p2_pos ey) as Hey.
    assert (Eab : (a / b = M / IZR (Zpos my) * powerRZ 2 e')%R).
    { rewrite Ea. unfold b. field. split; lra. }
    rewrite Eab. split.
    - apply Rmult_le_compat_r; [lra|].
      apply (Rmult_le_reg_r (IZR (Zpos my))); [exact HY|].
      replace (M / IZR (Zpos my) * IZR (Zpos my))%R with M by (field; lra). exact Hb1.
    - apply Rmult_le_compat_r; [lra|].
      apply (Rmult_le_reg_r (IZR (Zpos my))); [exact HY|].
      replace (M / IZR (Zpos my) * IZR (Zpos my))%R with M by (field; lra). lra. }
  destruct (binary_round_aux_error sx q e' l (a / b)%R Hq Hf Hbr)
    as (Hv & Hfin & He).
  cbv zeta in Hv, Hfin, He.
  split; [exact Hv|]. split.
  - intros H1. apply Hfin. rewrite Hyb in H1.
    pose proof (to_R_max (S754_finite sx mx ex) Vx) as Hmax.
    rewrite Hxa in Hmax.
    assert (Hamax : (a <= IZR (2 ^ 24 - 1) * powerRZ 2 104)%R).
    { apply Rabs_between in Hmax. destruct sx; lra. }
    apply Rlt_le_trans with a; [|exact Hamax].
    apply (Rmult_lt_reg_r b); [exact Hb0|].
    replace (a / b * b)%R with a by (field; lra). nra.
  - intros Fr. specialize (He Fr). rewrite Hxa, Hyb.
    destruct sx.
    + replace (-1 * a / b)%R with (- (a / b))%R by (field; lra).
      rewrite Rabs_Ropp, (Rabs_pos_eq (a / b)) by lra. exact He.
    + replace (1 * a / b)%R with (a / b)%R by (field; lra).
      rewrite (Rabs_pos_eq (a / b)) by lra. exact He.
Qed.

(** * The error of a normalised vector *)

Lemma eta_small : (powerRZ 2 (-149) <= / 8388608 * / 8388608)%R.
Proof.
  rewrite <- p2_m23, <- p2_add. apply p2_le. lia.
Qed.

Section Normalise.
Open Scope R_scope.
Variables (eta : R).
Hypothesis Heta : 0 < eta <= / 8388608 * / 8388608.

(** One rounded operation on a value known up to a bound. *)
Lemma rounded_between (r a lo hi : R) :
  Rabs (r - a) <= / 8388608 * Rabs a + eta ->
  lo <= a <= hi -> - hi <= lo ->
  lo - / 8388608 * hi - eta <= r <= hi + / 8388608 * hi + eta.
Proof.
  intros Hr [Hlo Hhi] Hsym.
  assert (Ha : Rabs a <= hi) by (apply Rabs_le; lra).
  apply Rabs_between in Hr. lra.
Qed.

(** The computed squared length against the exact one. *)
Lemma sum_sq_bound (X Y Z QX QY QZ T1 S : R) :
  Rabs (QX - X * X) <= / 8388608 * Rabs (X * X) + eta ->
  Rabs (QY - Y * Y) <= / 8388608 * Rabs (Y * Y) + eta ->
  Rabs (QZ - Z * Z) <= / 8388608 * Rabs (Z * Z) + eta ->
  Rabs (T1 - (QX + QY)) <= / 8388608 * Rabs (QX + QY) + eta ->
  Rabs (S - (T1 + QZ)) <= / 8388608 * Rabs (T1 + QZ) + eta ->
  let N2 := X * X + Y * Y + Z * Z in
  N2 * (1 - 5 * / 8388608) - 8 * eta <= S <= N2 * (1 + 5 * / 8388608) + 8 * eta.
Proof.
  intros HX HY HZ HT HS N2.
  assert (Hxx : 0 <= X * X) by nra. assert (Hyy : 0 <= Y * Y) by nra.
  assert (Hzz : 0 <= Z * Z) by nra.
  set (xx := X * X) in *. set (yy := Y * Y) in *. set (zz := Z * Z) in *.
  pose proof (rounded_between QX xx xx xx HX ltac:(lra) ltac:(lra)) as BX.
  pose proof (rounded_between QY yy yy yy HY ltac:(lra) ltac:(lra)) as BY.
  pose proof (rounded_between QZ zz zz zz HZ ltac:(lra) ltac:(lra)) as BZ.
  pose proof (rounded_between T1 (QX + QY)
                (xx + yy - / 8388608 * (xx + yy) - 2 * eta)
                (xx + yy + / 8388608 * (xx + yy) + 2 * eta)
                HT ltac:(lra) ltac:(lra)) as BT.
  pose proof (rounded_between S (T1 + QZ)
                (xx + yy + zz - 3 * / 8388608 * (xx + yy + zz) - 5 * eta)
                (xx + yy + zz + 3 * / 8388608 * (xx + yy + zz) + 5 * eta)
                HS ltac:(lra) ltac:(lra)) as BS.
  unfold N2. fold xx yy zz. lra.
Qed.

(** The computed length against the exact one, when it exceeds 1. *)
Lemma length_bound (N2 S L : R) :
  0 <= N2 -> 0 <= S ->
  N2 * (1 - 5 * / 8388608) - 8 * eta <= S <= N2 * (1 + 5 * / 8388608) + 8 * eta ->
  Rabs (L - sqrt S) <= / 8388608 * sqrt S + eta ->
  1 < L ->
  9 / 10 <= sqrt N2 /\
  sqrt N2 * (1 - 5 * / 8388608) <= L <= sqrt N2 * (1 + 5 * / 8388608).
Proof.
  intros HN2 HS [Slo Shi] HL H1.
  pose proof (sqrt_pos S) as Hs0. pose proof (sqrt_sqrt S HS) as Hss.
  pose proof (sqrt_pos N2) as Hn0. pose proof (sqrt_sqrt N2 HN2) as Hnn.
  set (s := sqrt S) in *. set (N := sqrt N2) in *.
  apply Rabs_between in HL.
  assert (Hs : 99 / 100 <= s) by lra.
  assert (HN : 9 / 10 <= N).
  { destruct (Rle_lt_dec (9 / 10) N) as [?|Hlt]; [assumption|exfalso].
    assert (N * N < 81 / 100) by nra. nra. }
  assert (Hup : s <= N * (1 + 3 * / 8388608)).
  { destruct (Rle_lt_dec s (N * (1 + 3 * / 8388608))) as [?|Hlt]; [assumption|exfalso].
    assert (N * (1 + 3 * / 8388608) * (N * (1 + 3 * / 8388608)) < s * s) by nra.
    nra. }
  assert (Hdn : N * (1 - 3 * / 8388608) <= s).
  { destruct (Rle_lt_dec (N * (1 - 3 * / 8388608)) s) as [?|Hlt]; [assumption|exfalso].
    assert (s * s < N * (1 - 3 * / 8388608) * (N * (1 - 3 * / 8388608))) by nra.
    nra. }
  split; [exact HN|]. split; nra.
Qed.

Lemma product_bound (c t A : R) : -1 <= c <= 1 -> - A <= t <= A -> - A <= c * t <= A.
Proof. intros. nra. Qed.

(** A rescaled component against the component of the unit vector. *)
Lemma component_bound (N L X r : R) :
  9 / 10 <= N ->
  N * (1 - 5 * / 8388608) <= L <= N * (1 + 5 * / 8388608) ->
  X * X <= N * N ->
  Rabs (r - X / L) <= / 8388608 * Rabs (X / L) + eta ->
  -1 <= X / N <= 1 /\ Rabs (r - X / N) <= / 1000000.
Proof.
  intros HN [Llo Lhi] HX Hr.
  assert (HL : 0 < L) by nra.
  set (w := X / L) in *. set (c := X / N).
  assert (Ew : w * L = X) by (unfold w; field; lra).
  assert (Ec : c * N = X) by (unfold c; field; lra).
  assert (Hc : -1 <= c <= 1).
  { assert (c * c <= 1).
    { assert ((c * c) * (N * N) <= 1 * (N * N)) by nra.
      apply (Rmult_le_reg_r (N * N)); [nra|assumption]. }
    split; nra. }
  assert (Hd : (w - c) * L = c * (N - L)) by nra.
  pose proof (product_bound c (N - L) (5 * / 8388608 * N) Hc ltac:(lra)) as Hp.
  rewrite <- Hd in Hp.
  assert (Hwc : - (6 * / 8388608) <= w - c <= 6 * / 8388608).
  { split.
    - destruct (Rle_lt_dec (- (6 * / 8388608)) (w - c)) as [?|Hlt]; [assumption|exfalso].
      assert ((w - c) * L < - (6 * / 8388608) * L) by nra. nra.
    - destruct (Rle_lt_dec (w - c) (6 * / 8388608)) as [?|Hlt]; [assumption|exfalso].
      assert (6 * / 8388608 * L < (w - c) * L) by nra. nra. }
  assert (Hw : Rabs w <= 1 + 6 * / 8388608) by (apply Rabs_le; lra).
  apply Rabs_between in Hr.
  split; [exact Hc|]. apply Rabs_le. lra.
Qed.
End Normalise.

Lemma square_bound (d e : R) : (- e <= d <= e -> 0 <= d * d <= e * e)%R.
Proof. intros. nra. Qed.

(** A vector within 10^-6 of a unit vector in every component has a
    length within 10^-5 of 1. *)
Lemma magnitude_bound (cx cy cz rx ry rz : R) :
  (-1 <= cx <= 1 -> -1 <= cy <= 1 -> -1 <= cz <= 1 ->
   cx * cx + cy * cy + cz * cz = 1 ->
   Rabs (rx - cx) <= / 1000000 -> Rabs (ry - cy) <= / 1000000 ->
   Rabs (rz - cz) <= / 1000000 ->
   Rabs (sqrt (rx * rx + ry * ry + rz * rz) - 1) <= / 100000)%R.
Proof.
  intros Hx Hy Hz Hc Dx Dy Dz.
  apply Rabs_between in Dx, Dy, Dz.
  set (M := (rx * rx + ry * ry + rz * rz)%R).
  assert (HM0 : (0 <= M)%R) by (unfold M; nra).
  pose proof (sqrt_pos M) as Hm0. pose proof (sqrt_sqrt M HM0) as Hmm.
  set (m := sqrt M) in *.
  assert (Ex : (rx * rx - cx * cx = (rx - cx) * (rx - cx) + 2 * (cx * (rx - cx)))%R) by ring.
  assert (Ey : (ry * ry - cy * cy = (ry - cy) * (ry - cy) + 2 * (cy * (ry - cy)))%R) by ring.
  assert (Ez : (rz * rz - cz * cz = (rz - cz) * (rz - cz) + 2 * (cz * (rz - cz)))%R) by ring.
  pose proof (product_bound cx (rx - cx)%R (/ 1000000)%R Hx Dx) as Px.
  pose proof (product_bound cy (ry - cy)%R (/ 1000000)%R Hy Dy) as Py.
  pose proof (product_bound cz (rz - cz)%R (/ 1000000)%R Hz Dz) as Pz.
  pose proof (square_bound (rx - cx)%R (/ 1000000)%R Dx) as Sx.
  pose proof (square_bound (ry - cy)%R (/ 1000000)%R Dy) as Sy.
  pose proof (square_bound (rz - cz)%R (/ 1000000)%R Dz) as Sz.
  assert (HM : (- (7 * / 1000000) <= M - 1 <= 7 * / 1000000)%R) by (unfold M; lra).
  apply Rabs_le. split.
  - destruct (Rle_lt_dec (- / 100000) (m - 1)) as [?|Hlt]; [assumption|exfalso]. nra.
  - destruct (Rle_lt_dec (m - 1) (/ 100000)) as [?|Hlt]; [assumption|exfalso]. nra.
Qed.

(** * The speed clamp on a finite speed *)

Lemma add_finite_inv (x y : float) :
  F32.is_finite (x + y)%f32 = true ->
  F32.is_finite x = true /\ F32.is_finite y = true.
Proof.
  destruct x as [sx|[|]| |sx mx ex], y as [sy|[|]| |sy my ey];
    cbn; intros H; try discriminate H; split; reflexivity.
Qed.

Lemma mul_finite_inv (x y : float) :
  F32.is_finite (x * y)%f32 = true ->
  F32.is_finite x = true /\ F32.is_finite y = true.
Proof.
  destruct x as [sx|sx| |sx mx ex], y as [sy|sy| |sy my ey];
    cbn; intros H; try discriminate H; split; reflexivity.
Qed.

Lemma to_R_maxSpeed : to_R maxSpeed = 1%R.
Proof.
  unfold maxSpeed, F32.one. cbn [to_R]. rewrite p2_m23. field.
Qed.

Lemma exceeds_to_R (L : float) :
  F32.valid L = true -> F32.is_finite L = true ->
  (L >? maxSpeed)%f32 = true ->
  (exists m e, L = S754_finite false m e) /\ (1 < to_R L)%R.
Proof.
  intros Hv Hf Hgt.
  destruct (exceeds_shape L Hgt) as [->|(m & e & ->)]; [discriminate Hf|].
  split; [eexists _, _; reflexivity|].
  unfold F32.gtb in Hgt.
  rewrite ltb_sval in Hgt by (reflexivity || assumption).
  apply Z.ltb_lt in Hgt.
  change (sval maxSpeed) with (2 ^ 149) in Hgt. cbn [sval scaled] in Hgt.
  apply valid_finite_inv in Hv as (He & _).
  rewrite to_R_scaled by lia. apply IZR_lt in Hgt.
  rewrite <- (p2_IZR 149) in Hgt by lia.
  assert (E : (powerRZ 2 149 * powerRZ 2 (-149) = 1)%R)
    by (rewrite <- p2_add; reflexivity).
  pose proof (p2_pos (-149)). pose proof (p2_pos 149). nra.
Qed.

Lemma rescaled_component (x : float) (my : positive) (ey : Z) (N : R) :
  F32.valid x = true -> F32.is_finite x = true ->
  let L := S754_finite false my ey in
  (1 < to_R L)%R -> (9 / 10 <= N)%R ->
  (N * (1 - 5 * / 8388608) <= to_R L <= N * (1 + 5 * / 8388608))%R ->
  (to_R x * to_R x <= N * N)%R ->
  let r := (x / L * maxSpeed)%f32 in
  F32.valid r = true /\ F32.is_finite r = true /\
  (-1 <= to_R x / N <= 1)%R /\
  (Rabs (to_R r - to_R x / N) <= / 1000000)%R.
Proof.
  intros Vx Fx L H1 HN HL HX r.
  destruct (div_error x my ey Vx Fx) as (Vd & Fd & Ed). fold L in Vd, Fd, Ed.
  specialize (Fd H1). specialize (Ed Fd).
  assert (Er : r = (x / L)%f32) by (apply mul_one_r; exact Vd).
  rewrite Er. split; [exact Vd|]. split; [exact Fd|].
  pose proof (p2_pos (-149)) as Heta. pose proof eta_small as Hsm.
  exact (component_bound (powerRZ 2 (-149)) ltac:(lra) N (to_R L) (to_R x)
           (to_R (x / L)%f32) HN HL HX Ed).
Qed.

(** The computed length of a vector whose speed is finite and exceeds
    [maxSpeed], against the exact length. *)
Lemma length_analysis (v : vec3) :
  valid3 v = true -> F32.is_finite (V3.length v) = true ->
  (V3.length v >? maxSpeed)%f32 = true ->
  V3.is_finite v = true /\
  (exists m e, V3.length v = S754_finite false m e) /\
  (1 < to_R (V3.length v))%R /\ (9 / 10 <= norm_R v)%R /\
  (norm_R v * (1 - 5 * / 8388608) <= to_R (V3.length v)
   <= norm_R v * (1 + 5 * / 8388608))%R.
Proof.
  intros Hv HfL Hgt. apply valid3_inv in Hv as (Vx & Vy & Vz).
  unfold V3.length, V3.dot, V3.mulv, V3.map2 in *. cbv zeta in *.
  cbn [vx vy vz] in *.
  set (x := vx v) in *. set (y := vy v) in *. set (z := vz v) in *.
  set (qx := (x * x)%f32) in *. set (qy := (y * y)%f32) in *.
  set (qz := (z * z)%f32) in *.
  set (t1 := (qx + qy)%f32) in *. set (S := (t1 + qz)%f32) in *.
  assert (Vqx : F32.valid qx = true) by (apply mul_valid; assumption).
  assert (Vqy : F32.valid qy = true) by (apply mul_valid; assumption).
  assert (Vqz : F32.valid qz = true) by (apply mul_valid; assumption).
  assert (Vt1 : F32.valid t1 = true) by (apply add_valid; assumption).
  assert (VS : F32.valid S = true) by (apply add_valid; assumption).
  destruct (sqrt_error S VS HfL) as (VL & FS & HS0 & EL).
  destruct (add_finite_inv t1 qz FS) as [Ft1 Fqz].
  destruct (add_finite_inv qx qy Ft1) as [Fqx Fqy].
  destruct (mul_finite_inv x x Fqx) as [Fx _].
  destruct (mul_finite_inv y y Fqy) as [Fy _].
  destruct (mul_finite_inv z z Fqz) as [Fz _].
  pose proof (mul_error x x Vx Vx Fx Fx Fqx) as Ex.
  pose proof (mul_error y y Vy Vy Fy Fy Fqy) as Ey.
  pose proof (mul_error z z Vz Vz Fz Fz Fqz) as Ez.
  pose proof (add_error qx qy Vqx Vqy Fqx Fqy Ft1) as Et.
  pose proof (add_error t1 qz Vt1 Vqz Ft1 Fqz FS) as ES.
  destruct (exceeds_to_R _ VL HfL Hgt) as [Hshape H1].
  pose proof (p2_pos (-149)) as Heta. pose proof eta_small as Hsm.
  pose proof (sum_sq_bound (powerRZ 2 (-149)) ltac:(lra)
                (to_R x) (to_R y) (to_R z) (to_R qx) (to_R qy) (to_R qz)
                (to_R t1) (to_R S) Ex Ey Ez Et ES) as HS.
  cbv zeta in HS.
  assert (HN2 : (0 <= to_R x * to_R x + to_R y * to_R y + to_R z * to_R z)%R) by nra.
  destruct (length_bound (powerRZ 2 (-149)) ltac:(lra) _ (to_R S) _ HN2 HS0 HS EL H1)
    as [HN HL].
  split.
  { unfold V3.is_finite. fold x y z. rewrite Fx, Fy, Fz. reflexivity. }
  split; [exact Hshape|]. split; [exact H1|].
  unfold norm_R. fold x y z. split; [exact HN|exact HL].
Qed.

(** The clamp on a finite speed above [maxSpeed]: the result is within
    10^-6 of the unit vector of the argument in every component, and its
    length is within 10^-5 of [maxSpeed]. *)
Lemma clampSpeed_unit (v : vec3) :
  valid3 v = true -> F32.is_finite (V3.length v) = true ->
  (V3.length v >? maxSpeed)%f32 = true ->
  let r := clampSpeed v in
  valid3 r = true /\ V3.is_finite r = true /\
  (Rabs (norm_R r - to_R maxSpeed) <= / 100000)%R /\
  (Rabs (to_R (vx r) - to_R (vx v) / norm_R v) <= / 1000000)%R /\
  (Rabs (to_R (vy r) - to_R (vy v) / norm_R v) <= / 1000000)%R /\
  (Rabs (to_R (vz r) - to_R (vz v) / norm_R v) <= / 1000000)%R.
Proof.
  intros Hv HfL Hgt r.
  destruct (length_analysis v Hv HfL Hgt)
    as (Hfin & (my & ey & EL) & H1 & HN & HL).
  apply valid3_inv in Hv as (Vx & Vy & Vz).
  unfold V3.is_finite in Hfin.
  apply andb_true_iff in Hfin as [Hfin Fz]. apply andb_true_iff in Hfin as [Fx Fy].
  subst r. rewrite clampSpeed_above by exact Hgt.
  rewrite EL in *. unfold V3.scale, V3.divs. cbn [vx vy vz].
  set (N := norm_R v) in *.
  assert (HNN : (N * N = to_R (vx v) * to_R (vx v) + to_R (vy v) * to_R (vy v)
                         + to_R (vz v) * to_R (vz v))%R).
  { unfold N, norm_R. apply sqrt_sqrt. nra. }
  destruct (rescaled_component (vx v) my ey N Vx Fx H1 HN HL ltac:(nra))
    as (Vrx & Frx & Cx & Dx).
  destruct (rescaled_component (vy v) my ey N Vy Fy H1 HN HL ltac:(nra))
    as (Vry & Fry & Cy & Dy).
  destruct (rescaled_component (vz v) my ey N Vz Fz H1 HN HL ltac:(nra))
    as (Vrz & Frz & Cz & Dz).
  cbv zeta in *.
  split; [unfold valid3; cbn [vx vy vz]; rewrite Vrx, Vry, Vrz; reflexivity|].
  split; [unfold V3.is_finite; cbn [vx vy vz]; rewrite Frx, Fry, Frz; reflexivity|].
  split; [|split; [exact Dx|split; [exact Dy|exact Dz]]].
  rewrite to_R_maxSpeed. unfold norm_R at 1. cbn [vx vy vz].
  apply (magnitude_bound (to_R (vx v) / N) (to_R (vy v) / N) (to_R (vz v) / N));
    try assumption.
  transitivity ((to_R (vx v) * to_R (vx v) + to_R (vy v) * to_R (vy v)
                 + to_R (vz v) * to_R (vz v)) / (N * N))%R.
  - field. lra.
  - rewrite <- HNN. field. lra.
Qed.

(** * The speed clamp *)

(** C7, on a finite speed.  The brute-force kernel stores
    [clampSpeed (vA + (rule1 + rule2 + rule3))] and the grid kernels
    [clampSpeed (((vA + rule1) + rule2) + rule3)].  When the computed
    speed does not compare greater than [maxSpeed] the velocity is kept.
    When it does and is finite, on well-formed binary32 components, the
    stored velocity is finite and has a length within
    10^-5 of [maxSpeed], every component is within 10^-6 of the component
    of the pre-clamp velocity divided by its length (the same direction),
    and every component keeps its sign.  When the computed speed is
    [+infinity] (the squared length overflowed) the result has length
    zero. *)
Theorem speed_clamp_rescales (N : Z) (pos vel1 vel2 : list vec3) (i : Z) :
  Z.of_nat (length vel2) = N -> 0 <= i < N ->
  let myPos := rdv pos i in
  let a := bruteForceLoop N i pos vel1 in
  rdv (kernUpdateVelocityBruteForce (fullBlocksPerGrid N) N pos vel1 vel2) i
    = clampSpeed (rdv vel1 i + (finish1 myPos a + finish2 a + finish3 a))%v3 /\
  (forall gridResolution gridMin inverseCellWidth cellStart cellEnd
          slotPos slotVel myPos myVel,
     let g := gridCoord gridResolution gridMin inverseCellWidth myPos in
     let b := gridLoop gridResolution cellStart cellEnd slotPos slotVel myPos
                (F32.trunc (vx g)) (F32.trunc (vy g)) (F32.trunc (vz g)) in
     gridNewVel gridResolution gridMin inverseCellWidth cellStart cellEnd
                slotPos slotVel myPos myVel
     = clampSpeed (myVel + finish1 myPos b + finish2 b + finish3 b)%v3) /\
  (forall v, (V3.length v >? maxSpeed)%f32 = false -> clampSpeed v = v) /\
  (forall v, valid3 v = true -> F32.is_finite (V3.length v) = true ->
     (V3.length v >? maxSpeed)%f32 = true ->
     let r := clampSpeed v in
     V3.is_finite r = true /\
     (Rabs (norm_R r - to_R maxSpeed) <= / 100000)%R /\
     (Rabs (to_R (vx r) - to_R (vx v) / norm_R v) <= / 1000000)%R /\
     (Rabs (to_R (vy r) - to_R (vy v) / norm_R v) <= / 1000000)%R /\
     (Rabs (to_R (vz r) - to_R (vz v) / norm_R v) <= / 1000000)%R /\
     signs r = signs v) /\
  (forall v, V3.is_finite v = true -> V3.length v = S754_infinity false ->
     V3.length (clampSpeed v) = F32.zero).
Proof.
  intros Hlen Hi myPos a.
  split; [apply (kernUpdateVelocityBruteForce_rd N pos vel1 vel2 i Hlen Hi)|].
  split; [reflexivity|].
  split; [exact clampSpeed_below|].
  split; [|exact clampSpeed_overflow].
  intros v Hv HfL Hgt r.
  destruct (clampSpeed_unit v Hv HfL Hgt) as (_ & Fr & Hm & Hx & Hy & Hz).
  destruct (length_analysis v Hv HfL Hgt) as (Fv & _).
  cbv zeta in *. repeat (split; [assumption|]).
  apply clampSpeed_signs. exact Fv.
Qed.

Lemma speed_clamp_rescales_witness :
  let v := Vec3 (F32.of_int 3) (F32.of_int 4) F32.zero in
  (Rabs (norm_R (clampSpeed v) - to_R maxSpeed) <= / 100000)%R /\
  (Rabs (to_R (vx (clampSpeed v)) - to_R (vx v) / norm_R v) <= / 1000000)%R.
Proof.
  pose proof (proj1 (proj2 (proj2 (proj2
                (speed_clamp_rescales 1 [V3.zero] [V3.zero] [V3.zero] 0
                   eq_refl ltac:(lia)))))
                (Vec3 (F32.of_int 3) (F32.of_int 4) F32.zero)
                eq_refl eq_refl eq_refl) as (_ & Hm & Hx & _).
  split; [exact Hm|exact Hx].
Defined.

(** C7 as stated fails when the squared length overflows: a boid alone with
    velocity (2^70, 0, 0) has the finite pre-clamp velocity
    (1.1 * 2^70, 0, 0), whose computed length is +infinity; the stored
    velocity is the zero vector, of length 0 and not [maxSpeed]. *)
Lemma clamp_magnitude_not_maxSpeed :
  let pos := [V3.zero] in
  let vel1 := [Vec3 (F32.of_int (2 ^ 70)) F32.zero F32.zero] in
  let pre := (rdv vel1 0 + computeVelocityChange 1 0 pos vel1)%v3 in
  let new := rdv (kernUpdateVelocityBruteForce (fullBlocksPerGrid 1) 1
                    pos vel1 [V3.zero]) 0 in
  V3.is_finite pre = true /\
  V3.length pre = S754_infinity false /\
  (V3.length pre >? maxSpeed)%f32 = true /\
  new = V3.zero /\
  V3.length new = F32.zero /\
  V3.length new <> maxSpeed.
Proof.
  vm_compute. repeat (split; [reflexivity|]). discriminate.
Qed.
